(** * cjm-byte-track: a shallow embedding of the ByteTrack tracker

    The development follows the five notebooks of the repository:
    [kalman_filter] (the eight-dimensional constant-velocity filter),
    [basetrack] and [strack] (the per-track state machine), [matching]
    (IoU costs and the thresholded assignment) and [byte_tracker] (the
    per-frame pipeline).

    Numbers are [float], the kernel's binary64 numbers: Python's floats, and
    the entries of the arrays the tracker builds itself ([dtype=float]).  The
    array the detector hands to [update] keeps its own floating-point type
    (float16, float32 or float64): the code never converts it, and compares,
    divides and subtracts in that type; its entries are the binary64 numbers
    that the type can represent.  Python integers (frame numbers,
    identities, buffer sizes) are [Z].  Track objects are shared between the
    tracker's lists and mutated in place, so they live in a store and the
    lists hold references. *)

From Stdlib Require Import ZArith QArith Qpower Floats List Bool Lia Lqa.
From stdpp Require Import base list.
Import ListNotations.

Set Warnings "-inexact-float".

(** ** Exceptions and the two monads *)

Inductive exn : Type :=
  | AttributeError | IndexError | ValueError | ZeroDivisionError
  | OverflowError | LinAlgError | TypeError_.

Inductive res (A : Type) : Type :=
  | Ok (a : A)
  | Raise (e : exn).
Arguments Ok {A} a.
Arguments Raise {A} e.

Definition bindR {A B} (m : res A) (k : A -> res B) : res B :=
  match m with Ok a => k a | Raise e => Raise e end.

Notation "'let?' x ':=' m 'in' k" := (bindR m (fun x => k))
  (at level 10, x pattern, m at level 100, k at level 200).

(** ** Floating-point helpers

    numpy comparisons [x > y] and [x >= y] are the IEEE ones: false as soon
    as one side is NaN. *)

Definition vec := list float.
Definition mat := list (list float).

Definition gtb (x y : float) : bool := PrimFloat.ltb y x.
Definition geb (x y : float) : bool := PrimFloat.leb y x.

(** ** numpy's floating-point types

    An array, or a scalar read from it, computes in its own type: the
    operation of IEEE 754 at the precision and exponent range of the type,
    rounding to nearest even.  A Python float that meets an array or a numpy
    scalar takes the type of the array or scalar first (numpy 2's promotion
    rules): it is rounded to that type. *)

Inductive dtype : Type := Float16 | Float32 | Float64.

Definition dtype_prec (dt : dtype) : Z :=
  match dt with Float16 => 11 | Float32 => 24 | Float64 => 53 end.
Definition dtype_emax (dt : dtype) : Z :=
  match dt with Float16 => 16 | Float32 => 128 | Float64 => 1024 end.

(** [np.asarray(x, dtype=dt)] for a binary64 [x]: the nearest number of the
    type, an infinity beyond its range. *)
Definition astype (dt : dtype) (x : float) : float :=
  match dt with
  | Float64 => x
  | _ =>
      match Prim2SF x with
      | S754_finite s m e =>
          SF2Prim (binary_normalize (dtype_prec dt) (dtype_emax dt) (cond_Zopp s (Zpos m)) e s)
      | _ => x
      end
  end.

(** [x / y], [x - y] and [x * y] on two numbers of type [dt]. *)
Definition np_div (dt : dtype) (x y : float) : float :=
  match dt with
  | Float64 => (x / y)%float
  | _ => SF2Prim (SFdiv (dtype_prec dt) (dtype_emax dt) (Prim2SF x) (Prim2SF y))
  end.
Definition np_sub (dt : dtype) (x y : float) : float :=
  match dt with
  | Float64 => (x - y)%float
  | _ => SF2Prim (SFsub (dtype_prec dt) (dtype_emax dt) (Prim2SF x) (Prim2SF y))
  end.
Definition np_mul (dt : dtype) (x y : float) : float :=
  match dt with
  | Float64 => (x * y)%float
  | _ => SF2Prim (SFmul (dtype_prec dt) (dtype_emax dt) (Prim2SF x) (Prim2SF y))
  end.

(** A floating-point scalar as numpy hands it out when an array is
    iterated: a number and its type.  A Python float is the scalar of type
    [Float64]. *)
Record scalar : Type := Scalar { scalar_dtype : dtype; scalar_value : float }.

(** [s >= y] for a scalar [s] and a Python float [y]. *)
Definition scalar_geb (s : scalar) (y : float) : bool :=
  geb (scalar_value s) (astype (scalar_dtype s) y).

Definition vnth (v : vec) (i : nat) : float := nth i v 0%float.
Definition mnth (m : mat) (i j : nat) : float := vnth (nth i m []) j.

(** [u @ v] for two vectors, accumulated left to right.  numpy hands its
    products to BLAS, which is outside the repository; every product of
    the model, whatever the shapes of its operands, is built from this one
    inner product. *)
Definition dot (u v : vec) : float :=
  fold_left (fun acc p => (acc + fst p * snd p)%float) (combine u v) 0%float.

Definition ncols (m : mat) : nat :=
  match m with [] => 0 | r :: _ => length r end.

Definition transpose (m : mat) : mat :=
  map (fun j => map (fun row => vnth row j) m) (seq 0 (ncols m)).

(** [v @ B] and [A @ B]. *)
Definition vecmat (v : vec) (B : mat) : vec := map (dot v) (transpose B).
Definition matmul (A B : mat) : mat := map (fun row => vecmat row B) A.
(** [A @ v]. *)
Definition matvec (A : mat) (v : vec) : vec := map (fun row => dot row v) A.

Definition vadd (u v : vec) : vec := map (fun p => (fst p + snd p)%float) (combine u v).
Definition vsub (u v : vec) : vec := map (fun p => (fst p - snd p)%float) (combine u v).
Definition madd (A B : mat) : mat := map (fun p => vadd (fst p) (snd p)) (combine A B).
Definition msub (A B : mat) : mat := map (fun p => vsub (fst p) (snd p)) (combine A B).

(** [x ** 2] elementwise. *)
Definition vsquare (v : vec) : vec := map (fun x => (x * x)%float) v.

(** [np.eye(n, m)], [np.diag(v)], [np.zeros_like(v)]. *)
Definition eye (n m : nat) : mat :=
  map (fun i => map (fun j => if Nat.eqb i j then 1%float else 0%float) (seq 0 m)) (seq 0 n).
Definition diag (v : vec) : mat :=
  map (fun i => map (fun j => if Nat.eqb i j then vnth v i else 0%float)
                  (seq 0 (length v))) (seq 0 (length v)).
Definition zeros_like (v : vec) : vec := map (fun _ => 0%float) v.

(** [np.stack(cols, axis=-1)] for one-dimensional [cols] of equal length. *)
Definition stack_last (cols : list vec) : mat := transpose cols.

(** [a + b] for two stacks of matrices.  numpy broadcasts over the
    leading axis: the two lengths are equal, or one of them is 1 and its
    matrix is added to every matrix of the other stack.  [b] is the stack
    [np.array([np.diag(s) for s in ...])]: built from no row at all it is
    [np.array([])], of shape [(0,)], which broadcasts against no stack of
    square matrices. *)
Definition stack_add (a b : list mat) : res (list mat) :=
  match b with
  | [] => Raise ValueError
  | y :: b' =>
      if Nat.eqb (length a) (length b)
      then Ok (map (fun p => madd (fst p) (snd p)) (combine a b))
      else match a, b' with
           | [x], _ => Ok (map (madd x) b)
           | _, [] => Ok (map (fun x => madd x y) a)
           | _, _ => Raise ValueError
           end
  end.

(** ** kalman_filter *)

Module KalmanFilter.

Record t : Type := mk {
  ndim : nat;
  _motion_mat : mat;
  _update_mat : mat;
  _std_weight_position : float;
  _std_weight_velocity : float
}.

(** [KalmanFilter.__init__]. *)
Definition __init__ : t :=
  let ndim := 4%nat in
  let dt := 1%float in
  let base := eye (2 * ndim) (2 * ndim) in
  let blk := eye ndim ndim in
  {| ndim := ndim;
     _motion_mat :=
       map (fun i => map (fun j =>
              if Nat.ltb i ndim && Nat.leb ndim j
              then (dt * mnth blk i (j - ndim))%float
              else mnth base i j) (seq 0 (2 * ndim))) (seq 0 (2 * ndim));
     _update_mat := eye ndim (2 * ndim);
     _std_weight_position := (1 / 20)%float;
     _std_weight_velocity := (1 / 160)%float |}.

(** [_create_std] on a single mean ([mean[..., 3]] is the scalar [mean[3]]). *)
Definition _create_std (self : t) (mean : vec) : vec :=
  let std_pos := (_std_weight_position self * vnth mean 3)%float in
  let std_vel := (_std_weight_velocity self * vnth mean 3)%float in
  let ones := 1%float in
  [std_pos; std_pos; (1e-2 * ones)%float; std_pos;
   std_vel; std_vel; (1e-5 * ones)%float; std_vel].

(** [_create_std] on a [K x 8] array of means ([mean[..., 3]] is the column
    of heights, and the eight columns are stacked along the last axis). *)
Definition _create_std_batch (self : t) (mean : mat) : mat :=
  let std_pos := map (fun m => (_std_weight_position self * vnth m 3)%float) mean in
  let std_vel := map (fun m => (_std_weight_velocity self * vnth m 3)%float) mean in
  let ones := map (fun _ => 1%float) std_pos in
  stack_last
    [std_pos; std_pos; map (fun o => (1e-2 * o)%float) ones; std_pos;
     std_vel; std_vel; map (fun o => (1e-5 * o)%float) ones; std_vel].

Definition initiate (self : t) (measurement : vec) : vec * mat :=
  let mean := measurement ++ zeros_like measurement in
  let covariance := diag (vsquare (_create_std self mean)) in
  (mean, covariance).

Definition predict (self : t) (mean : vec) (covariance : mat) : vec * mat :=
  let motion_cov := diag (vsquare (_create_std self mean)) in
  let mean' := vecmat mean (transpose (_motion_mat self)) in
  let covariance' :=
    madd (matmul (matmul (_motion_mat self) covariance) (transpose (_motion_mat self)))
         motion_cov in
  (mean', covariance').

Definition project (self : t) (mean : vec) (covariance : mat) : vec * mat :=
  let innovation_cov := diag (vsquare (firstn (ndim self) (_create_std self mean))) in
  let mean' := matvec (_update_mat self) mean in
  let covariance' :=
    madd (matmul (matmul (_update_mat self) covariance) (transpose (_update_mat self)))
         innovation_cov in
  (mean', covariance').

(** The vectorised prediction over [K] tracks: [mean] is a [K x 8] array
    and [covariance] a stack of [8 x 8] matrices.  The batch matrix
    products broadcast the [8 x 8] motion matrix over the leading axis. *)
Definition multi_predict (self : t) (mean : mat) (covariance : list mat)
  : res (mat * list mat) :=
  let motion_cov := map diag (map vsquare (_create_std_batch self mean)) in
  let mean' := matmul mean (transpose (_motion_mat self)) in
  let? covariance' :=
    stack_add
      (map (fun c => matmul (matmul (_motion_mat self) c) (transpose (_motion_mat self)))
           covariance)
      motion_cov in
  Ok (mean', covariance').

Section Update.
  (** [scipy.linalg.cho_factor(S, lower=True)] and [scipy.linalg.cho_solve]:
      LAPACK routines outside the repository.  [cho_factor] raises
      [LinAlgError] when [S] is not positive definite. *)
Variable cho_factor : mat -> res mat.
Variable cho_solve : mat -> mat -> mat.

Definition update (self : t) (mean : vec) (covariance : mat) (measurement : vec)
    : res (vec * mat) :=
    let '(projected_mean, projected_cov) := project self mean covariance in
    let? chol_factor := cho_factor projected_cov in
    let kalman_gain :=
      transpose (cho_solve chol_factor (matmul (_update_mat self) covariance)) in
    let new_mean :=
      vadd mean (vecmat (vsub measurement projected_mean) (transpose kalman_gain)) in
    let new_covariance :=
      msub covariance
           (matmul (matmul kalman_gain projected_cov) (transpose kalman_gain)) in
    Ok (new_mean, new_covariance).
End Update.

End KalmanFilter.

(** ** basetrack *)

Module TrackState.
Inductive t : Type := New | Tracked | Lost | Removed.

Definition eqb (a b : t) : bool :=
    match a, b with
    | New, New | Tracked, Tracked | Lost, Lost | Removed, Removed => true
    | _, _ => false
    end.
End TrackState.

(** A bounding box, four floats: [tlwh], [tlbr] or [xyah] by context. *)
Record box : Type := Box { b0 : float; b1 : float; b2 : float; b3 : float }.

Definition vec_of_box (b : box) : vec := [b0 b; b1 b; b2 b; b3 b].

(** A reference to a track object in the store. *)
Definition ref := nat.

(** The attributes of an [STrack] instance.  [STrack.__init__] does not run
    [BaseTrack.__init__], so [track_id], [state], [frame_id] and
    [start_frame] do not exist until [activate] (or [mark_lost],
    [mark_removed] for [state]) assigns them: [None] is a missing
    attribute, and reading it raises [AttributeError]. *)
Record STrack : Type := mkSTrack {
  _tlwh : box;
  kalman_filter : option KalmanFilter.t;
  mean : option vec;
  covariance : option mat;
  is_activated : bool;
  score : scalar;
  tracklet_len : Z;
  track_id : option Z;
  state : option TrackState.t;
  frame_id : option Z;
  start_frame : option Z
}.

(** The store: every track object allocated so far, and the class-level
    counter [BaseTrack._count]. *)
Record world : Type := mkWorld {
  heap : list STrack;
  _count : Z
}.

Definition M (A : Type) : Type := world -> res (A * world).

Definition ret {A} (a : A) : M A := fun w => Ok (a, w).
Definition bindM {A B} (m : M A) (k : A -> M B) : M B :=
  fun w => match m w with Ok (a, w') => k a w' | Raise e => Raise e end.
Definition raise {A} (e : exn) : M A := fun _ => Raise e.
Definition lift {A} (r : res A) : M A :=
  fun w => match r with Ok a => Ok (a, w) | Raise e => Raise e end.

Notation "'let!' x ':=' m 'in' k" := (bindM m (fun x => k))
  (at level 10, x pattern, m at level 100, k at level 200).

(** Reading an object, overwriting it, allocating a fresh one. *)
Definition read (r : ref) : M STrack :=
  fun w => match heap w !! r with Some o => Ok (o, w) | None => Raise AttributeError end.
Definition write (r : ref) (o : STrack) : M unit :=
  fun w => match heap w !! r with
           | Some _ => Ok (tt, mkWorld (<[r := o]> (heap w)) (_count w))
           | None => Raise AttributeError
           end.
Definition alloc (o : STrack) : M ref :=
  fun w => Ok (length (heap w), mkWorld (heap w ++ [o]) (_count w)).

(** Reading an attribute that may be missing. *)
Definition attr {A} (f : STrack -> option A) (e : exn) (r : ref) : M A :=
  let! o := read r in
  match f o with Some a => ret a | None => raise e end.

Fixpoint mapM {A B} (f : A -> M B) (l : list A) : M (list B) :=
  match l with
  | [] => ret []
  | a :: l' => let! b := f a in let! bs := mapM f l' in ret (b :: bs)
  end.

Fixpoint forM_ {A} (f : A -> M unit) (l : list A) : M unit :=
  match l with
  | [] => ret tt
  | a :: l' => let! _ := f a in forM_ f l'
  end.

Module BaseTrack.
  (** [BaseTrack.next_id]. *)
Definition next_id : M Z :=
    fun w => let c := (_count w + 1)%Z in Ok (c, mkWorld (heap w) c).

  (** [end_frame] is [frame_id]. *)
Definition end_frame (r : ref) : M Z := attr frame_id AttributeError r.

Definition set_state (s : TrackState.t) (o : STrack) : STrack :=
    mkSTrack (_tlwh o) (kalman_filter o) (mean o) (covariance o) (is_activated o)
             (score o) (tracklet_len o) (track_id o) (Some s) (frame_id o) (start_frame o).

Definition mark_lost (self : ref) : M unit :=
    let! o := read self in write self (set_state TrackState.Lost o).

Definition mark_removed (self : ref) : M unit :=
    let! o := read self in write self (set_state TrackState.Removed o).
End BaseTrack.

(** ** strack *)

Module STrackM.

(** [STrack.__init__]: the fields it assigns; the others do not exist yet.
    [np.asarray(tlwh, dtype=float)] converts the box to binary64, which
    changes no entry of a box of a narrower type; the score is kept as it
    is given. *)
Definition __init__ (tlwh : box) (score : scalar) : STrack :=
  {| _tlwh := tlwh; kalman_filter := None; mean := None; covariance := None;
     is_activated := false; score := score; tracklet_len := 0;
     track_id := None; state := None; frame_id := None; start_frame := None |}.

(** [ret[:2] += ret[2:] / 2; ret[2] /= ret[3]]: the division is numpy's, so
    a zero height yields an infinity or a NaN, never an exception. *)
Definition tlwh_to_xyah (tlwh : box) : box :=
  let r0 := (b0 tlwh + b2 tlwh / 2)%float in
  let r1 := (b1 tlwh + b3 tlwh / 2)%float in
  Box r0 r1 (b2 tlwh / b3 tlwh)%float (b3 tlwh).

(** [ret[2:] += ret[:2]]. *)
Definition tlwh_to_tlbr (tlwh : box) : box :=
  Box (b0 tlwh) (b1 tlwh) (b2 tlwh + b0 tlwh)%float (b3 tlwh + b1 tlwh)%float.

(** [ret[2:] -= ret[:2]], on a copy of the box, an array of type [dt]. *)
Definition tlbr_to_tlwh (dt : dtype) (tlbr : box) : box :=
  Box (b0 tlbr) (b1 tlbr) (np_sub dt (b2 tlbr) (b0 tlbr)) (np_sub dt (b3 tlbr) (b1 tlbr)).

(** The [tlwh] property: from the Kalman mean when there is one
    ([ret[2] *= ret[3]; ret[:2] -= ret[2:] / 2]), else the stored box. *)
Definition tlwh (o : STrack) : box :=
  match mean o with
  | None => _tlwh o
  | Some m =>
      let w := (vnth m 2 * vnth m 3)%float in
      let h := vnth m 3 in
      Box (vnth m 0 - w / 2)%float (vnth m 1 - h / 2)%float w h
  end.

Definition tlbr (o : STrack) : box := tlwh_to_tlbr (tlwh o).

(** [STrack.shared_kalman], the class-level filter used by [multi_predict]. *)
Definition shared_kalman : KalmanFilter.t := KalmanFilter.__init__.

(** The attribute assignments of [activate], given the fresh identity. *)
Definition activated (o : STrack) (kf : KalmanFilter.t) (frame_id tid : Z) : STrack :=
  let '(m, c) := KalmanFilter.initiate kf (vec_of_box (tlwh_to_xyah (_tlwh o))) in
  {| _tlwh := _tlwh o; kalman_filter := Some kf; mean := Some m; covariance := Some c;
     is_activated := Z.eqb frame_id 1; score := score o; tracklet_len := 0;
     track_id := Some tid; state := Some TrackState.Tracked;
     frame_id := Some frame_id; start_frame := Some frame_id |}.

Definition activate (self : ref) (kf : KalmanFilter.t) (frame_id : Z) : M unit :=
  let! o := read self in
  let! tid := BaseTrack.next_id in
  write self (activated o kf frame_id tid).

(** Zeroing [mean[7]] in the working copy. *)
Definition zero_vh (m : vec) : res vec :=
  if Nat.ltb 7 (length m) then Ok (<[7%nat := 0%float]> m) else Raise IndexError.

Definition set_mean_cov (m : vec) (c : mat) (o : STrack) : STrack :=
  mkSTrack (_tlwh o) (kalman_filter o) (Some m) (Some c) (is_activated o)
           (score o) (tracklet_len o) (track_id o) (state o) (frame_id o) (start_frame o).

(** [(st.mean.copy(), st.covariance)]: the working copy of one track's
    state; a track whose mean is [None] has nothing to copy. *)
Definition multi_state (st : ref) : M (vec * option mat) :=
  let! o := read st in
  match mean o with
  | None => raise AttributeError
  | Some m => ret (m, covariance o)
  end.

(** [if st.state != TrackState.Tracked: multi_states[i][0][7] = 0]. *)
Definition zero_velocity (p : ref * (vec * option mat)) : M (vec * option mat) :=
  let! s := attr state AttributeError (fst p) in
  if TrackState.eqb s TrackState.Tracked then ret (snd p)
  else let! m' := lift (zero_vh (fst (snd p))) in ret (m', snd (snd p)).

(** [np.asarray(multi_covariances)]: numpy stacks the covariances into
    one array; with a [None] among them there is no such stack, and what
    numpy builds instead the filter's matrix product refuses: a
    [ValueError] in both cases. *)
Fixpoint asarray_covariances (l : list (option mat)) : res (list mat) :=
  match l with
  | [] => Ok []
  | None :: _ => Raise ValueError
  | Some c :: rest => let? cs := asarray_covariances rest in Ok (c :: cs)
  end.

Definition multi_predict (stracks : list ref) : M unit :=
  match stracks with
  | [] => ret tt
  | _ =>
      let! multi_states := mapM multi_state stracks in
      let! multi_states := mapM zero_velocity (combine stracks multi_states) in
      let! covariances := lift (asarray_covariances (map snd multi_states)) in
      let! (multi_means, multi_covariances) :=
        lift (KalmanFilter.multi_predict shared_kalman (map fst multi_states) covariances) in
      forM_ (fun p : ref * (vec * mat) =>
               let! o := read (fst p) in
               write (fst p) (set_mean_cov (fst (snd p)) (snd (snd p)) o))
            (combine stracks (combine multi_means multi_covariances))
  end.

(** [STrack.predict]: the track's own filter predicts from a copy of the
    mean.  [self.mean.copy()] needs a mean, [mean_state[7] = 0] one of
    eight entries at least, [self.kalman_filter.predict] a filter; the
    product of the motion matrix with a covariance that is [None] is a
    [ValueError] of numpy. *)
Definition predict (self : ref) : M unit :=
  let! mean_state := attr mean AttributeError self in
  let! s := attr state AttributeError self in
  let! mean_state :=
    (if TrackState.eqb s TrackState.Tracked then ret mean_state
     else lift (zero_vh mean_state)) in
  let! kf := attr kalman_filter AttributeError self in
  let! o := read self in
  match covariance o with
  | None => raise ValueError
  | Some c =>
      let '(m', c') := KalmanFilter.predict kf mean_state c in
      write self (set_mean_cov m' c' o)
  end.

(** The attribute assignments of [_update_track], given the corrected
    Kalman state and the identity to keep or take. *)
Definition updated (o new_track : STrack) (m' : vec) (c' : mat) (tid : option Z)
           (frame_id : Z) : STrack :=
  {| _tlwh := _tlwh o; kalman_filter := kalman_filter o;
     mean := Some m'; covariance := Some c';
     is_activated := true; score := score new_track;
     tracklet_len := tracklet_len o + 1;
     track_id := tid; state := Some TrackState.Tracked;
     frame_id := Some frame_id; start_frame := start_frame o |}.

Section Update.
Variable cho_factor : mat -> res mat.
Variable cho_solve : mat -> mat -> mat.

  (** [_update_track]; [update] and [re_activate] both go through it.
      [self.kalman_filter.update] needs a filter; in [project] the filter
      indexes the mean ([mean[..., 3]], a [TypeError] on [None]) and then
      multiplies the covariance by the update matrix (a [ValueError] of
      numpy on [None]). *)
Definition _update_track (self new_track : ref) (frame_id : Z) (new_id : bool) : M unit :=
    let! o := read self in
    let! n := read new_track in
    let! kf := attr kalman_filter AttributeError self in
    let! m := attr mean TypeError_ self in
    let! c := attr covariance ValueError self in
    let! (m', c') :=
      lift (KalmanFilter.update cho_factor cho_solve kf m c
              (vec_of_box (tlwh_to_xyah (tlwh n)))) in
    let! tid := (if new_id then let! i := BaseTrack.next_id in ret (Some i)
                 else ret (track_id o)) in
    write self (updated o n m' c' tid frame_id).

Definition re_activate (self new_track : ref) (frame_id : Z) (new_id : bool) : M unit :=
    _update_track self new_track frame_id new_id.

Definition update (self new_track : ref) (frame_id : Z) : M unit :=
    _update_track self new_track frame_id false.
End Update.

End STrackM.

(** ** matching *)

(** A two-dimensional array with its shape: an array with no rows still has
    a number of columns, which [linear_assignment] reads. *)
Record ndarray2 : Type := mkArr {
  shape0 : nat;
  shape1 : nat;
  rows : mat
}.

Definition arr_size (a : ndarray2) : nat := shape0 a * shape1 a.

Definition zeros (n m : nat) : ndarray2 :=
  mkArr n m (repeat (repeat 0%float m) n).

Definition arr_map (f : float -> float) (a : ndarray2) : ndarray2 :=
  mkArr (shape0 a) (shape1 a) (map (map f) (rows a)).

(** [a[i, j]], raising [IndexError] outside the shape. *)
Definition aget (a : ndarray2) (i j : nat) : res float :=
  if Nat.ltb i (shape0 a) && Nat.ltb j (shape1 a)
  then Ok (mnth (rows a) i j) else Raise IndexError.

(** [np.maximum] and [np.minimum]: a NaN operand is returned. *)
Definition np_maximum (a b : float) : float :=
  if PrimFloat.is_nan a || PrimFloat.leb b a then a else b.
Definition np_minimum (a b : float) : float :=
  if PrimFloat.is_nan a || PrimFloat.leb a b then a else b.

Module matching.

Definition area (b : box) : float := ((b2 b - b0 b) * (b3 b - b1 b))%float.

(** One entry of [box_iou_batch]: boxes are [(x_min, y_min, x_max, y_max)].
    [intersection] is [area_inter], the product over the two axes of
    [np.maximum(bottom_right - top_left, 0)]; [union] is the denominator. *)
Definition intersection (t d : box) : float :=
  let top_left0 := np_maximum (b0 t) (b0 d) in
  let top_left1 := np_maximum (b1 t) (b1 d) in
  let bottom_right0 := np_minimum (b2 t) (b2 d) in
  let bottom_right1 := np_minimum (b3 t) (b3 d) in
  (np_maximum (bottom_right0 - top_left0) 0 * np_maximum (bottom_right1 - top_left1) 0)%float.

Definition union (t d : box) : float :=
  (area t + area d - intersection t d)%float.

Definition box_iou (t d : box) : float :=
  (intersection t d / union t d)%float.

Definition box_iou_batch (boxes_true boxes_detection : list box) : ndarray2 :=
  mkArr (length boxes_true) (length boxes_detection)
        (map (fun t => map (box_iou t) boxes_detection) boxes_true).

Definition ious (atlbrs btlbrs : list box) : ndarray2 :=
  match atlbrs, btlbrs with
  | [], _ | _, [] => zeros (length atlbrs) (length btlbrs)
  | _, _ => box_iou_batch atlbrs btlbrs
  end.

(** [iou_distance] on two lists of track objects.  The boxes are extracted
    only when the first list is not empty; otherwise the raw lists go to
    [ious], which sees an empty first argument and returns zeros. *)
Definition iou_distance (atracks btracks : list STrack) : ndarray2 :=
  let should_extract_tlbr := negb (Nat.eqb (length atracks) 0) in
  let _ious :=
    if should_extract_tlbr
    then ious (map STrackM.tlbr atracks) (map STrackM.tlbr btracks)
    else zeros (length atracks) (length btracks) in
  arr_map (fun x => (1 - x)%float) _ious.

(** [np.setdiff1d(np.arange(n), taken)]. *)
Definition setdiff_arange (n : nat) (taken : list nat) : list nat :=
  List.filter (fun i => negb (existsb (Nat.eqb i) taken)) (seq 0 n).

Fixpoint lookup_costs (cost_matrix : ndarray2) (indices : list (nat * nat))
  : res (list float) :=
  match indices with
  | [] => Ok []
  | (i, j) :: rest =>
      let? c := aget cost_matrix i j in
      let? cs := lookup_costs cost_matrix rest in
      Ok (c :: cs)
  end.

Definition indices_to_matches (cost_matrix : ndarray2) (indices : list (nat * nat))
           (thresh : float) : res (list (nat * nat) * list nat * list nat) :=
  let? costs := lookup_costs cost_matrix indices in
  let matched_mask := map (fun c => PrimFloat.leb c thresh) costs in
  let matches := map fst (List.filter snd (combine indices matched_mask)) in
  let unmatched_a := setdiff_arange (shape0 cost_matrix) (map fst matches) in
  let unmatched_b := setdiff_arange (shape1 cost_matrix) (map snd matches) in
  Ok (matches, unmatched_a, unmatched_b).

(** [np.where(cost_matrix > thresh, thresh + 1e-4, cost_matrix)]. *)
Definition clip (thresh : float) (cost_matrix : ndarray2) : ndarray2 :=
  arr_map (fun c => if gtb c thresh then (thresh + 1e-4)%float else c) cost_matrix.

(** [np.column_stack((row_ind, col_ind))]. *)
Definition column_stack (row_ind col_ind : list nat) : res (list (nat * nat)) :=
  if Nat.eqb (length row_ind) (length col_ind)
  then Ok (combine row_ind col_ind) else Raise ValueError.

Section Assignment.
  (** [scipy.optimize.linear_sum_assignment], outside the repository: it
      returns the row and column indices of an assignment of
      [min(n, m)] pairs, or raises [ValueError] (NaN or [-inf] entries,
      infeasible matrix). *)
Variable linear_sum_assignment : ndarray2 -> res (list nat * list nat).

Definition linear_assignment (cost_matrix : ndarray2) (thresh : float)
    : res (list (nat * nat) * list nat * list nat) :=
    if Nat.eqb (arr_size cost_matrix) 0
    then Ok ([], seq 0 (shape0 cost_matrix), seq 0 (shape1 cost_matrix))
    else
      let cost_matrix := clip thresh cost_matrix in
      let? (row_ind, col_ind) := linear_sum_assignment cost_matrix in
      let? indices := column_stack row_ind col_ind in
      indices_to_matches cost_matrix indices thresh.
End Assignment.

(** [np.argmax] of a row: the first index of the largest entry.  A NaN
    counts as the largest, and the first one ends the search.  [best] at
    index [ibest] is the largest entry so far, [i] the index of the head
    of [row]. *)
Fixpoint argmax_from (best : float) (ibest i : nat) (row : vec) : nat :=
  match row with
  | [] => ibest
  | x :: rest =>
      if PrimFloat.is_nan best then ibest
      else if negb (PrimFloat.leb x best) then argmax_from x i (S i) rest
      else argmax_from best ibest (S i) rest
  end.

(** [np.argmax(iou, axis=1)] and [np.max(iou, axis=1)] on one row; an
    empty row has neither. *)
Definition np_argmax (row : vec) : res nat :=
  match row with
  | [] => Raise ValueError
  | x :: rest => Ok (argmax_from x 0 1 rest)
  end.

Definition np_max (row : vec) : res float :=
  match row with
  | [] => Raise ValueError
  | x :: rest => Ok (fold_left np_maximum rest x)
  end.

Fixpoint mapR {A B} (f : A -> res B) (l : list A) : res (list B) :=
  match l with
  | [] => Ok []
  | a :: l' => let? b := f a in let? bs := mapR f l' in Ok (b :: bs)
  end.

(** [for idx in valid_track_indices:
       track_ids[track2detection[idx]] = tracks[idx].track_id],
    on [track_ids], an array of integers that is written in place. *)
Fixpoint assign_track_ids (tracks : list STrack) (track2detection : list nat)
         (valid_track_indices : list nat) (track_ids : list Z) : res (list Z) :=
  match valid_track_indices with
  | [] => Ok track_ids
  | idx :: rest =>
      match tracks !! idx, track2detection !! idx with
      | Some t, Some k =>
          match track_id t with
          | None => Raise AttributeError
          | Some i =>
              if Nat.ltb k (length track_ids)
              then assign_track_ids tracks track2detection rest (<[k := i]> track_ids)
              else Raise IndexError
          end
      | _, _ => Raise IndexError
      end
  end.

(** [match_detections_with_tracks].  With no track, [np.array([])] has
    one axis and [box_iou_batch] cannot slice it; with tracks and no
    box, the rows of the IoU matrix are empty.  [max_iou_values != 0] is
    the IEEE comparison: true of a NaN. *)
Definition match_detections_with_tracks (tlbr_boxes : list box) (track_ids : list Z)
           (tracks : list STrack) : res (list Z) :=
  match tracks with
  | [] => Raise IndexError
  | _ =>
      let tracks_boxes := map STrackM.tlbr tracks in
      let iou := rows (box_iou_batch tracks_boxes tlbr_boxes) in
      let? track2detection := mapR np_argmax iou in
      let? max_iou_values := mapR np_max iou in
      let valid_indices := map (fun m => negb (PrimFloat.eqb m 0)) max_iou_values in
      let valid_track_indices :=
        List.filter (fun idx => nth idx valid_indices false) (seq 0 (length tracks)) in
      assign_track_ids tracks track2detection valid_track_indices track_ids
  end.

End matching.

(** ** byte_tracker *)

(** Python's [int -> float] conversion (round to nearest even, and
    [OverflowError] past the largest float) and [int(x)] on a float
    (truncation toward zero; [OverflowError] on an infinity, [ValueError]
    on a NaN). *)
Definition float_of_int (z : Z) : res float :=
  match binary_normalize prec emax z 0 false with
  | S754_infinity _ | S754_nan => Raise OverflowError
  | sf => Ok (SF2Prim sf)
  end.

Definition int_of_float (x : float) : res Z :=
  match Prim2SF x with
  | S754_zero _ => Ok 0%Z
  | S754_infinity _ => Raise OverflowError
  | S754_nan => Raise ValueError
  | S754_finite s m e =>
      let a := (if Z.leb 0 e then Z.pos m * 2 ^ e else Z.pos m / 2 ^ (- e))%Z in
      Ok (if s then (- a)%Z else a)
  end.

(** Python's float division and two-argument [min]. *)
Definition py_div (a b : float) : res float :=
  if PrimFloat.eqb b 0 then Raise ZeroDivisionError else Ok (a / b)%float.
Definition py_min (a b : float) : float := if PrimFloat.ltb b a then b else a.

Definition lindex {A} (l : list A) (i : nat) : M A :=
  match l !! i with Some a => ret a | None => raise IndexError end.

Fixpoint filterM {A} (p : A -> M bool) (l : list A) : M (list A) :=
  match l with
  | [] => ret []
  | a :: l' =>
      let! keep := p a in
      let! rest := filterM p l' in
      ret (if keep then a :: rest else rest)
  end.

(** A Python [dict] keyed by [track_id]: assigning an existing key replaces
    the value and keeps the key's position. *)
Fixpoint dict_set (k : Z) (v : ref) (d : list (Z * ref)) : list (Z * ref) :=
  match d with
  | [] => [(k, v)]
  | (k', v') :: d' => if Z.eqb k k' then (k, v) :: d' else (k', v') :: dict_set k v d'
  end.

Definition dict_of (kvs : list (Z * ref)) : list (Z * ref) :=
  fold_left (fun d kv => dict_set (fst kv) (snd kv) d) kvs [].

Definition track_id_of (r : ref) : M Z := attr track_id AttributeError r.
Definition state_of (r : ref) : M TrackState.t := attr state AttributeError r.
Definition is_activated_of (r : ref) : M bool := let! o := read r in ret (is_activated o).

Definition joint_stracks (track_list_a track_list_b : list ref) : M (list ref) :=
  let all := track_list_a ++ track_list_b in
  let! ids := mapM track_id_of all in
  let unique_tracks := dict_of (combine ids all) in
  ret (map snd unique_tracks).

Definition sub_stracks (track_list_a track_list_b : list ref) : M (list ref) :=
  let! track_ids_b := mapM track_id_of track_list_b in
  filterM (fun track =>
             let! i := track_id_of track in
             ret (negb (existsb (Z.eqb i) track_ids_b)))
          track_list_a.

(** [np.where(a < bound)]: the index pairs in row-major order. *)
Definition where_lt (a : ndarray2) (bound : float) : list (nat * nat) :=
  flat_map (fun i =>
              map (fun j => (i, j))
                  (List.filter (fun j => PrimFloat.ltb (mnth (rows a) i j) bound)
                               (seq 0 (shape1 a))))
           (seq 0 (shape0 a)).

(** [frame_id - start_frame] of a track. *)
Definition track_time (o : STrack) : res Z :=
  match frame_id o, start_frame o with
  | Some f, Some s => Ok (f - s)%Z
  | _, _ => Raise AttributeError
  end.

(** The loop of [remove_duplicate_stracks] over the close pairs. *)
Fixpoint duplicate_loop (s_tracks_a s_tracks_b : list STrack) (pairs : list (nat * nat))
         (duplicates_a duplicates_b : list nat) : res (list nat * list nat) :=
  match pairs with
  | [] => Ok (duplicates_a, duplicates_b)
  | (track_a_index, track_b_index) :: rest =>
      match s_tracks_a !! track_a_index, s_tracks_b !! track_b_index with
      | Some ta, Some tb =>
          let? time_a := track_time ta in
          let? time_b := track_time tb in
          if Z.ltb time_b time_a
          then duplicate_loop s_tracks_a s_tracks_b rest
                              duplicates_a (track_b_index :: duplicates_b)
          else duplicate_loop s_tracks_a s_tracks_b rest
                              (track_a_index :: duplicates_a) duplicates_b
      | _, _ => Raise IndexError
      end
  end.

(** [[x for i, x in enumerate(l) if i not in dups]]. *)
Definition drop_indices {A} (dups : list nat) (l : list A) : list A :=
  map snd (List.filter (fun p => negb (existsb (Nat.eqb (fst p)) dups))
                       (combine (seq 0 (length l)) l)).

(** [remove_duplicate_stracks] over any representation [X] of a track
    (the object itself, or a reference paired with it). *)
Definition remove_duplicate_stracks {X} (obj : X -> STrack) (s_tracks_a s_tracks_b : list X)
  : res (list X * list X) :=
  let pairwise_distance := matching.iou_distance (map obj s_tracks_a) (map obj s_tracks_b) in
  let pairs := where_lt pairwise_distance 0.15 in
  let? (duplicates_a, duplicates_b) :=
    duplicate_loop (map obj s_tracks_a) (map obj s_tracks_b) pairs [] [] in
  Ok (drop_indices duplicates_a s_tracks_a, drop_indices duplicates_b s_tracks_b).

(** The detector output: a numpy array or a tensor, of a floating-point
    type.  [a] lists the entries as binary64 numbers, and the array holds
    each of them rounded to its type ([entries]): every [a] stands for an
    array of every type, and an array of type [Float64] is [a] itself. *)
Inductive detector_output : Type :=
  | NumpyArray (dt : dtype) (a : ndarray2)
  | TorchTensor (dt : dtype) (a : ndarray2).

Definition entries (dt : dtype) (a : ndarray2) : ndarray2 :=
  match dt with
  | Float64 => a
  | _ => arr_map (astype dt) a
  end.

Definition box_of_row (r : vec) : box := Box (vnth r 0) (vnth r 1) (vnth r 2) (vnth r 3).

Module BYTETracker.

Record t : Type := mk {
  track_thresh : float;
  match_thresh : float;
  frame_id : Z;
  det_thresh : float;
  buffer_size : Z;
  max_time_lost : Z;
  kalman_filter : KalmanFilter.t;
  tracked_stracks : list ref;
  lost_stracks : list ref;
  removed_stracks : list ref
}.

(** [int(frame_rate / 30.0 * track_buffer)]. *)
Definition compute_buffer_size (frame_rate track_buffer : Z) : res Z :=
  let? fr := float_of_int frame_rate in
  let? q := py_div fr 30 in
  let? tb := float_of_int track_buffer in
  int_of_float (q * tb)%float.

Definition __init__ (track_thresh : float) (track_buffer : Z) (match_thresh : float)
           (frame_rate : Z) : M t :=
  let! buffer_size := lift (compute_buffer_size frame_rate track_buffer) in
  fun w =>
    Ok ({| track_thresh := track_thresh;
           match_thresh := match_thresh;
           frame_id := 0;
           det_thresh := (track_thresh + 0.1)%float;
           buffer_size := buffer_size;
           max_time_lost := buffer_size;
           kalman_filter := KalmanFilter.__init__;
           tracked_stracks := [];
           lost_stracks := [];
           removed_stracks := [] |},
        mkWorld (heap w) 0).

Definition column (a : ndarray2) (j : nat) : res vec :=
  if Nat.ltb j (shape1 a) then Ok (map (fun r => vnth r j) (rows a)) else Raise IndexError.

(** What [_process_output] hands on: a five-column input is sliced as it
    is (array or tensor), any other input is converted with
    [.cpu().numpy()], which only a tensor has.  Slices, conversion and
    product keep the type of the input. *)
Inductive array_kind : Type := Numpy (dt : dtype) | Torch (dt : dtype).

Definition kind_dtype (kind : array_kind) : dtype :=
  match kind with Numpy dt => dt | Torch dt => dt end.

Definition _process_output (output_results : detector_output)
  : res (array_kind * vec * list vec) :=
  match output_results with
  | NumpyArray dt a =>
      let a := entries dt a in
      if Nat.eqb (shape1 a) 5
      then let? scores := column a 4 in Ok (Numpy dt, scores, map (firstn 4) (rows a))
      else Raise AttributeError
  | TorchTensor dt a =>
      let a := entries dt a in
      if Nat.eqb (shape1 a) 5
      then let? scores := column a 4 in Ok (Torch dt, scores, map (firstn 4) (rows a))
      else
        let? c4 := column a 4 in
        let? c5 := column a 5 in
        Ok (Numpy dt, map (fun p => np_mul dt (fst p) (snd p)) (combine c4 c5),
            map (firstn 4) (rows a))
  end.

(** [scale] is a Python float; [bboxes / scale] divides in the type [dt]
    of the boxes. *)
Definition _scale_bboxes (dt : dtype) (img_info img_size : float * float)
           (bboxes : list vec) : res (list vec) :=
  let '(img_h, img_w) := img_info in
  let? s0 := py_div (fst img_size) img_h in
  let? s1 := py_div (snd img_size) img_w in
  let scale := py_min s0 s1 in
  Ok (map (map (fun x => np_div dt x (astype dt scale))) bboxes).

(** [bboxes[mask]] and [scores[mask]], zipped. *)
Definition masked (mask : float -> bool) (bboxes : list vec) (scores : vec)
  : list (vec * float) :=
  List.filter (fun p => mask (snd p)) (combine bboxes scores).

(** [dets.size > 0] is a comparison of a method with a number on a
    tensor, a [TypeError].  Iterating over the rows and the scores of an
    array of type [dt] gives boxes and scalars of that type. *)
Definition _get_detections (kind : array_kind) (dets_scores : list (vec * float))
  : M (list ref) :=
  match kind with Torch _ => raise TypeError_ | Numpy dt =>
  mapM (fun p => alloc (STrackM.__init__ (STrackM.tlbr_to_tlwh dt (box_of_row (fst p)))
                                         (Scalar dt (snd p))))
       dets_scores
  end.

(** The two score masks of [update], on scores of type [dt]:
    [scores > self.track_thresh], and
    [np.logical_and(scores > 0.1, scores < self.track_thresh)]. *)
Definition high_mask (dt : dtype) (self : t) (s : float) : bool :=
  gtb s (astype dt (track_thresh self)).
Definition low_mask (dt : dtype) (self : t) (s : float) : bool :=
  gtb s (astype dt 0.1) && PrimFloat.ltb s (astype dt (track_thresh self)).

Definition _update_tracked_stracks (self : t) : M (list ref * list ref) :=
  let! unconfirmed :=
    filterM (fun r => let! a := is_activated_of r in ret (negb a)) (tracked_stracks self) in
  let! tracked := filterM is_activated_of (tracked_stracks self) in
  ret (unconfirmed, tracked).

Section Externals.
Variable linear_sum_assignment : ndarray2 -> res (list nat * list nat).
Variable cho_factor : mat -> res mat.
Variable cho_solve : mat -> mat -> mat.

Definition _match_tracks_to_detections (stracks detections : list ref) (thresh : float)
    : M (list (nat * nat) * list nat * list nat) :=
    let! a := mapM read stracks in
    let! b := mapM read detections in
    let dists := matching.iou_distance a b in
    lift (matching.linear_assignment linear_sum_assignment dists thresh).

Fixpoint _update_tracks (self : t) (stracks detections : list ref)
           (matches : list (nat * nat)) (refind_stracks activated_stracks : list ref)
    : M (list ref * list ref) :=
    match matches with
    | [] => ret (refind_stracks, activated_stracks)
    | (itracked, idet) :: rest =>
        let! track := lindex stracks itracked in
        let! det := lindex detections idet in
        let! s := state_of track in
        if TrackState.eqb s TrackState.Tracked
        then
          let! _ := STrackM.update cho_factor cho_solve track det (frame_id self) in
          _update_tracks self stracks detections rest
                         refind_stracks (activated_stracks ++ [track])
        else
          let! _ := STrackM.re_activate cho_factor cho_solve track det (frame_id self) false in
          _update_tracks self stracks detections rest
                         (refind_stracks ++ [track]) activated_stracks
    end.

  (** [for it in u_track: ... mark_lost ...]. *)
Fixpoint mark_lost_loop (r_tracked_stracks : list ref) (u_track : list nat)
           (lost_stracks : list ref) : M (list ref) :=
    match u_track with
    | [] => ret lost_stracks
    | it :: rest =>
        let! track := lindex r_tracked_stracks it in
        let! s := state_of track in
        if negb (TrackState.eqb s TrackState.Lost)
        then
          let! _ := BaseTrack.mark_lost track in
          mark_lost_loop r_tracked_stracks rest (lost_stracks ++ [track])
        else mark_lost_loop r_tracked_stracks rest lost_stracks
    end.

  (** The loop over the matches of the unconfirmed tracks. *)
Fixpoint update_unconfirmed_loop (self : t) (unconfirmed detections : list ref)
           (matches : list (nat * nat)) (activated_stracks : list ref) : M (list ref) :=
    match matches with
    | [] => ret activated_stracks
    | (itracked, idet) :: rest =>
        let! track := lindex unconfirmed itracked in
        let! det := lindex detections idet in
        let! _ := STrackM.update cho_factor cho_solve track det (frame_id self) in
        let! track' := lindex unconfirmed itracked in
        update_unconfirmed_loop self unconfirmed detections rest (activated_stracks ++ [track'])
    end.

Fixpoint mark_removed_loop (unconfirmed : list ref) (u_unconfirmed : list nat)
           (removed_stracks : list ref) : M (list ref) :=
    match u_unconfirmed with
    | [] => ret removed_stracks
    | it :: rest =>
        let! track := lindex unconfirmed it in
        let! _ := BaseTrack.mark_removed track in
        mark_removed_loop unconfirmed rest (removed_stracks ++ [track])
    end.

  (** [for inew in u_detection: ... activate ...]. *)
Fixpoint new_tracks_loop (self : t) (detections : list ref) (u_detection : list nat)
           (activated_stracks : list ref) : M (list ref) :=
    match u_detection with
    | [] => ret activated_stracks
    | inew :: rest =>
        let! track := lindex detections inew in
        let! o := read track in
        if scalar_geb (score o) (det_thresh self)
        then
          let! _ := STrackM.activate track (kalman_filter self) (frame_id self) in
          new_tracks_loop self detections rest (activated_stracks ++ [track])
        else new_tracks_loop self detections rest activated_stracks
    end.

  (** [self.frame_id - track.end_frame > self.max_time_lost]. *)
Definition expired (self : t) (track : ref) : M bool :=
    let! e := BaseTrack.end_frame track in
    ret (Z.ltb (max_time_lost self) (frame_id self - e)).

Fixpoint expire_loop (self : t) (lost : list ref) (removed_stracks : list ref)
    : M (list ref) :=
    match lost with
    | [] => ret removed_stracks
    | track :: rest =>
        let! x := expired self track in
        if x
        then
          let! _ := BaseTrack.mark_removed track in
          expire_loop self rest (removed_stracks ++ [track])
        else expire_loop self rest removed_stracks
    end.

Definition update (self : t) (output_results : detector_output)
             (img_info img_size : float * float) : M (list ref * t) :=
    let self := mk (track_thresh self) (match_thresh self) (frame_id self + 1)
                   (det_thresh self) (buffer_size self) (max_time_lost self)
                   (kalman_filter self) (tracked_stracks self) (lost_stracks self)
                   (removed_stracks self) in
    let refind_stracks : list ref := [] in
    let activated_stracks : list ref := [] in
    let lost_stracks_ : list ref := [] in
    let removed_stracks_ : list ref := [] in
    let! (kind, scores, bboxes) := lift (_process_output output_results) in
    let dt := kind_dtype kind in
    let! bboxes := lift (_scale_bboxes dt img_info img_size bboxes) in
    let! detections := _get_detections kind (masked (high_mask dt self) bboxes scores) in
    let! detections_second :=
      _get_detections kind (masked (low_mask dt self) bboxes scores) in
    (* Update tracked stracks *)
    let! (unconfirmed, tracked) := _update_tracked_stracks self in
    let! strack_pool := joint_stracks tracked (lost_stracks self) in
    let! _ := STrackM.multi_predict strack_pool in
    (* Match and update tracks *)
    let! (matches, u_track, u_detection) :=
      _match_tracks_to_detections strack_pool detections (match_thresh self) in
    let! (refind_stracks, activated_stracks) :=
      _update_tracks self strack_pool detections matches refind_stracks activated_stracks in
    (* Additional matching and track updates *)
    let! pool_unmatched := mapM (lindex strack_pool) u_track in
    let! r_tracked_stracks :=
      filterM (fun r => let! s := state_of r in ret (TrackState.eqb s TrackState.Tracked))
              pool_unmatched in
    let! (matches, u_track, _) :=
      _match_tracks_to_detections r_tracked_stracks detections_second 0.5 in
    let! (refind_stracks, activated_stracks) :=
      _update_tracks self r_tracked_stracks detections_second matches
                     refind_stracks activated_stracks in
    let! lost_stracks_ := mark_lost_loop r_tracked_stracks u_track lost_stracks_ in
    (* Update unconfirmed tracks *)
    let! detections := mapM (lindex detections) u_detection in
    let! (matches, u_unconfirmed, u_detection) :=
      _match_tracks_to_detections unconfirmed detections 0.7 in
    let! activated_stracks :=
      update_unconfirmed_loop self unconfirmed detections matches activated_stracks in
    let! removed_stracks_ := mark_removed_loop unconfirmed u_unconfirmed removed_stracks_ in
    (* Handle new tracks *)
    let! activated_stracks := new_tracks_loop self detections u_detection activated_stracks in
    (* Handle lost and removed tracks *)
    let! removed_stracks_ := expire_loop self (lost_stracks self) removed_stracks_ in
    let! again := filterM (expired self) (lost_stracks self) in
    let removed_stracks_ := removed_stracks_ ++ again in
    let! tracked_stracks' :=
      filterM (fun r => let! s := state_of r in ret (TrackState.eqb s TrackState.Tracked))
              (tracked_stracks self) in
    let! tracked_stracks' := joint_stracks tracked_stracks' activated_stracks in
    let! tracked_stracks' := joint_stracks tracked_stracks' refind_stracks in
    let! lost_stracks' := sub_stracks (lost_stracks self) tracked_stracks' in
    let lost_stracks' := lost_stracks' ++ lost_stracks_ in
    let! lost_stracks' := sub_stracks lost_stracks' (removed_stracks self) in
    let removed_stracks' := removed_stracks self ++ removed_stracks_ in
    let! ta := mapM (fun r => let! o := read r in ret (r, o)) tracked_stracks' in
    let! tb := mapM (fun r => let! o := read r in ret (r, o)) lost_stracks' in
    let! (ta', tb') := lift (remove_duplicate_stracks snd ta tb) in
    let self := mk (track_thresh self) (match_thresh self) (frame_id self)
                   (det_thresh self) (buffer_size self) (max_time_lost self)
                   (kalman_filter self) (map fst ta') (map fst tb') removed_stracks' in
    let! out := filterM is_activated_of (tracked_stracks self) in
    ret (out, self).
End Externals.

End BYTETracker.

(** ** Exact costs

    The contract of the assignment solver speaks of the sum of the selected
    costs as real numbers: [F2Q] is the exact rational value of a finite
    float. *)

Definition SF2Q (x : spec_float) : Q :=
  match x with
  | S754_finite s m e =>
      let v := (inject_Z (Z.pos m) * Qpower 2 e)%Q in
      if s then Qopp v else v
  | _ => 0%Q
  end.
Definition F2Q (x : float) : Q := SF2Q (Prim2SF x).

Definition total_cost (a : ndarray2) (pairs : list (nat * nat)) : Q :=
  fold_right (fun p acc => (F2Q (mnth (rows a) (fst p) (snd p)) + acc)%Q) 0%Q pairs.

Definition all_finite (a : ndarray2) : bool :=
  forallb (forallb PrimFloat.is_finite) (rows a).





(** ** Reference implementations of the external routines

    The theorems below hold for any solver and any Cholesky routine; these
    executable stand-ins are what the concrete runs use. *)

Module Reference.

(** All lists of [k] pairwise distinct elements of [pool]. *)
Fixpoint injections (k : nat) (pool : list nat) : list (list nat) :=
  match k with
  | O => [[]]
  | S k' =>
      flat_map (fun c =>
                  map (cons c)
                      (injections k' (List.filter (fun x => negb (Nat.eqb x c)) pool)))
               pool
  end.

(** The first candidate of least total cost. *)
Fixpoint argmin (a : ndarray2) (best : list (nat * nat)) (cands : list (list (nat * nat)))
  : list (nat * nat) :=
  match cands with
  | [] => best
  | c :: rest =>
      if Qle_bool (total_cost a best) (total_cost a c)
      then argmin a best rest else argmin a c rest
  end.

(** Sorting pairs by row (insertion sort), for the case of more rows than
    columns, where the search runs over the columns. *)
Fixpoint insert_by_row (p : nat * nat) (l : list (nat * nat)) : list (nat * nat) :=
  match l with
  | [] => [p]
  | q :: l' => if Nat.leb (fst p) (fst q) then p :: l else q :: insert_by_row p l'
  end.
Definition sort_by_row (l : list (nat * nat)) : list (nat * nat) :=
  fold_right insert_by_row [] l.

Definition candidates (n m : nat) : list (list (nat * nat)) :=
  if Nat.leb n m
  then map (fun cs => combine (seq 0 n) cs) (injections n (seq 0 m))
  else map (fun rs => sort_by_row (combine rs (seq 0 m))) (injections m (seq 0 n)).

(** Exhaustive search for an assignment of least exact total cost. *)
Definition linear_sum_assignment (a : ndarray2) : res (list nat * list nat) :=
  if negb (all_finite a) then Raise ValueError else
  match candidates (shape0 a) (shape1 a) with
  | [] => Ok ([], [])
  | c :: rest => let best := argmin a c rest in Ok (map fst best, map snd best)
  end.

(** Cholesky factorisation, row by row: entry [j] of row [i] from the rows
    above and the entries to its left. *)
Fixpoint chol_row (Lprev : mat) (arow : vec) (i : nat) (js : list nat) (acc : vec)
  : res vec :=
  match js with
  | [] => Ok acc
  | j :: js' =>
      let lj := if Nat.eqb j i then acc else nth j Lprev [] in
      let s := dot (firstn j acc) (firstn j lj) in
      if Nat.eqb j i
      then
        let d := (vnth arow j - s)%float in
        if PrimFloat.ltb 0 d
        then chol_row Lprev arow i js' (acc ++ [PrimFloat.sqrt d])
        else Raise LinAlgError
      else chol_row Lprev arow i js' (acc ++ [((vnth arow j - s) / vnth lj j)%float])
  end.

Fixpoint chol_rows (A : mat) (todo : list nat) (Lprev : mat) : res mat :=
  match todo with
  | [] => Ok Lprev
  | i :: todo' =>
      let? r := chol_row Lprev (nth i A []) i (seq 0 (S i)) [] in
      chol_rows A todo' (Lprev ++ [r ++ repeat 0%float (length A - S i)])
  end.

Definition cho_factor (A : mat) : res mat := chol_rows A (seq 0 (length A)) [].

(** Forward substitution [L y = b] and back substitution [L^T x = y]. *)
Fixpoint forward (L : mat) (b : vec) (is_ : list nat) (y : vec) : vec :=
  match is_ with
  | [] => y
  | i :: rest =>
      let li := nth i L [] in
      forward L b rest (y ++ [((vnth b i - dot (firstn i li) y) / vnth li i)%float])
  end.

Fixpoint backward (U : mat) (y : vec) (is_ : list nat) (x : vec) : vec :=
  match is_ with
  | [] => x
  | i :: rest =>
      let ui := nth i U [] in
      backward U y rest
        (((vnth y i - dot (skipn (S i) ui) x) / vnth ui i)%float :: x)
  end.

Definition solve_vec (L : mat) (b : vec) : vec :=
  let n := length L in
  let y := forward L b (seq 0 n) [] in
  backward (transpose L) y (rev (seq 0 n)) [].

Definition cho_solve (L : mat) (B : mat) : mat :=
  transpose (map (solve_vec L) (transpose B)).

End Reference.

(** * Specification vocabulary

    The predicates and values the theorems are stated with. *)

(** ** Costs, clipped and penalised *)



(** ** Values and signs of floats *)

(** The value of a positive finite float, mantissa times power of two. *)
Definition pos_value (m : positive) (e : Z) : Q := (inject_Z (Z.pos m) * 2 ^ e)%Q.

Definition finite_SF (x : spec_float) : bool :=
  match x with S754_zero _ | S754_finite _ _ _ => true | _ => false end.

(** [signed s r]: [r] is a number of sign [s] (a zero, a finite number or
    an infinity). *)
Definition signed (s : bool) (r : spec_float) : Prop :=
  match r with
  | S754_zero s' | S754_infinity s' | S754_finite s' _ _ => s' = s
  | S754_nan => False
  end.

(** A number that is zero or negative. *)
Definition nonpos (r : spec_float) : Prop :=
  match r with
  | S754_zero _ | S754_infinity true | S754_finite true _ _ => True
  | _ => False
  end.

(** ** kalman_filter *)

(** The [K] independent calls to [predict]. *)
Definition predict_each (self : KalmanFilter.t) (means : mat) (covs : list mat)
  : list (vec * mat) :=
  map (fun p => KalmanFilter.predict self (fst p) (snd p)) (combine means covs).

(** ** byte_tracker: construction *)

(** The integers [lo, lo + 1, ..., lo + n - 1]. *)
Definition zrange (lo : Z) (n : nat) : list Z :=
  map (fun i => (lo + Z.of_nat i)%Z) (seq 0 n).

Definition is_ok {A} (r : res A) : bool :=
  match r with Ok _ => true | Raise _ => false end.

(** [compute_buffer_size] returns on every pair of the grid. *)
Definition buffer_grid_ok (lo : Z) (n : nat) : bool :=
  forallb (fun fr => forallb (fun tb => is_ok (BYTETracker.compute_buffer_size fr tb))
                             (zrange lo n))
          (zrange lo n).

(** ** matching: boxes *)

Definition finite_box (b : box) : bool :=
  PrimFloat.is_finite (b0 b) && PrimFloat.is_finite (b1 b)
  && PrimFloat.is_finite (b2 b) && PrimFloat.is_finite (b3 b).

(** A box with no extent along some axis: [x_max <= x_min] or
    [y_max <= y_min]. *)
Definition degenerate (b : box) : bool :=
  PrimFloat.leb (b2 b) (b0 b) || PrimFloat.leb (b3 b) (b1 b).

(** [bottom_right - top_left] along each axis. *)
Definition overlap_w (t d : box) : float :=
  (np_minimum (b2 t) (b2 d) - np_maximum (b0 t) (b0 d))%float.
Definition overlap_h (t d : box) : float :=
  (np_minimum (b3 t) (b3 d) - np_maximum (b1 t) (b1 d))%float.

(** ** byte_tracker: duplicates *)

(** A track that has a [frame_id] and a [start_frame], as every activated
    track has. *)
Definition timed (o : STrack) : Prop := exists t, track_time o = Ok t.

(** The age [frame_id - start_frame] of the track at position [i]. *)
Definition age_at (l : list STrack) (i : nat) (t : Z) : Prop :=
  exists o, l !! i = Some o /\ track_time o = Ok t.

(** Positions [i] of the first list and [j] of the second are a close pair:
    their IoU distance is below 0.15. *)
Definition close_pair (A B : list STrack) (i j : nat) : Prop :=
  (i < length A)%nat /\ (j < length B)%nat /\
  PrimFloat.ltb (mnth (rows (matching.iou_distance A B)) i j) 0.15 = true.

(** ** byte_tracker: activation flags within one frame

    [update] processes frame [f] over a store that held [n0] objects when
    the call began. *)

Definition settled (o : STrack) : Prop :=
  is_activated o = true \/ state o <> Some TrackState.Tracked.

Definition same_flags (o o' : STrack) : Prop :=
  is_activated o = is_activated o' /\ state o = state o' /\ start_frame o = start_frame o'.

Section FrameVocabulary.
Variable f : Z.
Variable n0 : nat.

Definition newborn (r : ref) (o : STrack) : Prop :=
  (n0 <= r)%nat /\ start_frame o = Some f /\ f <> 1%Z.

Definition good_obj (r : ref) (o : STrack) : Prop := settled o \/ newborn r o.

(** Every object at [r], if there is one, is settled or newborn. *)
Definition good (w : world) (r : ref) : Prop :=
  forall o, heap w !! r = Some o -> good_obj r o.

Definition ext (w w' : world) : Prop :=
  (length (heap w) <= length (heap w'))%nat /\
  forall r o', heap w' !! r = Some o' ->
    (exists o, heap w !! r = Some o /\ same_flags o o') \/ good_obj r o'.

(** An action that only extends the store in the sense of [ext]. *)
Definition framed {A} (m : M A) : Prop :=
  forall w a w', m w = Ok (a, w') -> ext w w'.

End FrameVocabulary.

(** ** byte_tracker: the boxes in the store *)

(** An action that allocates nothing and keeps the box [_tlwh] of every
    object. *)
Definition steady {A} (m : M A) : Prop :=
  forall w a w', m w = Ok (a, w') -> map _tlwh (heap w') = map _tlwh (heap w).

(** The box [_get_detections] gives the track object of a detection of an
    array of type [dt]. *)
Definition detection_box (dt : dtype) (p : vec * float) : box :=
  STrackM.tlbr_to_tlwh dt (box_of_row (fst p)).

(** ** byte_tracker: the invariant of the tracker *)

(** Every reference held by the tracker points into the store. *)
Definition lists_valid (t : BYTETracker.t) (w : world) : Prop :=
  forall r,
    In r (BYTETracker.tracked_stracks t ++ BYTETracker.lost_stracks t
          ++ BYTETracker.removed_stracks t) ->
    (r < length (heap w))%nat.

(** A track of the tracked list is settled, or was born in the current
    frame and that frame is not the first. *)
Definition tracked_ok (t : BYTETracker.t) (w : world) : Prop :=
  forall r o,
    In r (BYTETracker.tracked_stracks t) -> heap w !! r = Some o ->
    settled o \/ (start_frame o = Some (BYTETracker.frame_id t) /\ BYTETracker.frame_id t <> 1%Z).

(** A track of the lost or of the removed list is settled. *)
Definition retired_ok (t : BYTETracker.t) (w : world) : Prop :=
  forall r o,
    In r (BYTETracker.lost_stracks t ++ BYTETracker.removed_stracks t) ->
    heap w !! r = Some o -> settled o.

Definition tracker_inv (t : BYTETracker.t) (w : world) : Prop :=
  lists_valid t w /\ tracked_ok t w /\ retired_ok t w.

(** ** byte_tracker: sessions and reachable states *)

(** One frame handed to [update]: the detector output, [img_info] and
    [img_size]. *)
Definition frame : Type := (detector_output * (float * float) * (float * float))%type.

Section SessionVocabulary.
Variable linear_sum_assignment : ndarray2 -> res (list nat * list nat).
Variable cho_factor : mat -> res mat.
Variable cho_solve : mat -> mat -> mat.

(** The states of a tracker between two calls of [update] in a session
    whose calls have all returned: the state [__init__] builds, and the
    state a returning [update] leaves.  A call that raises is not a step
    of this relation: [update] has incremented [frame_id] and may have
    updated tracks in place before the exception leaves it, and the state
    it leaves behind is not described here. *)
Inductive reached_by_returning_calls : BYTETracker.t -> world -> Prop :=
  | reachable_init track_thresh track_buffer match_thresh frame_rate w0 t w :
      BYTETracker.__init__ track_thresh track_buffer match_thresh frame_rate w0 = Ok (t, w) ->
      reached_by_returning_calls t w
  | reachable_update t w output_results img_info img_size out t' w' :
      reached_by_returning_calls t w ->
      BYTETracker.update linear_sum_assignment cho_factor cho_solve t output_results
                         img_info img_size w = Ok ((out, t'), w') ->
      reached_by_returning_calls t' w'.

(** Feeding a list of frames to a tracker, keeping the last output. *)
Fixpoint run (t : BYTETracker.t) (out : list ref) (frames : list frame)
  : M (list ref * BYTETracker.t) :=
  match frames with
  | [] => ret (out, t)
  | (output_results, img_info, img_size) :: rest =>
      let! (out', t') :=
        BYTETracker.update linear_sum_assignment cho_factor cho_solve t output_results
                           img_info img_size in
      run t' out' rest
  end.

(** A whole session: construction, then the frames in order. *)
Definition session (track_thresh : float) (track_buffer : Z) (match_thresh : float)
           (frame_rate : Z) (frames : list frame) : M (list ref * BYTETracker.t) :=
  let! t := BYTETracker.__init__ track_thresh track_buffer match_thresh frame_rate in
  run t [] frames.

End SessionVocabulary.

(** ** Concrete inputs

    Sessions run with the reference solver and Cholesky routine. *)

Definition one_box (score : float) : frame :=
  (NumpyArray Float64 (mkArr 1 5 [[100; 100; 200; 300; score]]%float), (720, 1280), (720, 1280))%float.
Definition no_box : frame :=
  (NumpyArray Float64 (mkArr 0 5 []), (720, 1280), (720, 1280))%float.
(** One detection of height zero, [(x1, y1, x2, y2) = (100, 100, 200, 100)]. *)
Definition flat_box : frame :=
  (NumpyArray Float64 (mkArr 1 5 [[100; 100; 200; 100; 0.9]]%float), (720, 1280), (720, 1280))%float.

Definition reference_session :=
  session Reference.linear_sum_assignment Reference.cho_factor Reference.cho_solve.

(** The tracker that [BYTETracker(track_thresh=0.25, track_buffer=30,
    match_thresh=0.8, frame_rate=30)] builds, and a detector output with
    one detection of score 0.9 and one of score 0.2. *)
Definition fresh_tracker : BYTETracker.t :=
  BYTETracker.mk 0.25 0.8 0 (0.25 + 0.1) 30 30 KalmanFilter.__init__ [] [] [].
Definition two_scores : detector_output :=
  NumpyArray Float64 (mkArr 2 5 [[100; 100; 200; 300; 0.9]; [10; 10; 50; 90; 0.2]]%float).

(** A float32 detector output with one detection, of score 0.35: the array
    holds the float32 nearest to it, 0.3499999940395355, which is below the
    [det_thresh] of [fresh_tracker] as a real number and equal to it once
    [det_thresh] is rounded to float32. *)
Definition float32_score : detector_output :=
  NumpyArray Float32 (mkArr 1 5 [[100; 100; 200; 300; 0.35]]%float).

(** A float32 detector output with one detection of score 0.2, on the box
    of [one_box]. *)
Definition float32_low_score : detector_output :=
  NumpyArray Float32 (mkArr 1 5 [[100; 100; 200; 300; 0.2]]%float).

(** Two tracks born in frame 1 on the same box, one in each list. *)
Definition twin (tid : Z) : STrack :=
  STrackM.activated (STrackM.__init__ (Box 0 0 10 10) (Scalar Float64 0.9))
                    KalmanFilter.__init__ 1 tid.


(** ** The store across an action *)

(** An action whose returning runs take the store to one related to it
    by [R]. *)
Definition respects (R : world -> world -> Prop) {A} (m : M A) : Prop :=
  forall w a w', m w = Ok (a, w') -> R w w'.

(** ** byte_tracker: track identities *)

(** The object at [r] has the identity [i]. *)
Definition has_id (w : world) (r : ref) (i : Z) : Prop :=
  exists o, heap w !! r = Some o /\ track_id o = Some i.

(** Every identity in the store was issued by the counter, and no two
    objects share one. *)
Definition ids_ok (w : world) : Prop :=
  (0 <= _count w)%Z
  /\ (forall r i, has_id w r i -> (0 < i <= _count w)%Z)
  /\ (forall r1 r2 i, has_id w r1 i -> has_id w r2 i -> r1 = r2).

(** The relation of a store to a later one in which the identities are
    still in order. *)
Definition keeps_ids (w w' : world) : Prop := ids_ok w -> ids_ok w'.

(** An overwrite that leaves the identity alone. *)
Definition same_id (o o' : STrack) : Prop := track_id o' = track_id o.

(** What a track object keeps for life: the box it was built from, and,
    once it has them, its filter, its identity, its first frame and its
    activation; the length of its tracklet does not decrease. *)
Definition persists (o o' : STrack) : Prop :=
  _tlwh o' = _tlwh o
  /\ (forall k, kalman_filter o = Some k -> kalman_filter o' = Some k)
  /\ (forall i, track_id o = Some i -> track_id o' = Some i)
  /\ (forall s, start_frame o = Some s -> start_frame o' = Some s)
  /\ (is_activated o = true -> is_activated o' = true)
  /\ (tracklet_len o <= tracklet_len o')%Z.

(** The store [w'] still holds the objects of [w] below [n0], each one as
    it [persists]; the store has not shrunk and the counter has not gone
    back. *)
Definition persists_below (n0 : nat) (w w' : world) : Prop :=
  (length (heap w) <= length (heap w'))%nat
  /\ (_count w <= _count w')%Z
  /\ forall r o, (r < n0)%nat -> heap w !! r = Some o ->
       exists o', heap w' !! r = Some o' /\ persists o o'.

(** The same of every object of [w]. *)
Definition store_persists (w w' : world) : Prop :=
  persists_below (length (heap w)) w w'.

(** ** byte_tracker: tracks born in a frame *)

(** The object at [r] is a track born in frame [f] of a tracker whose
    detection threshold is [det]: activated from a detection whose score
    is at least [det] as the code compares them ([score >= det_thresh], in
    the type of the score), with an identity issued after the counter
    stood at [c0]. *)
Definition born (f : Z) (det : float) (c0 : Z) (w : world) (r : ref) : Prop :=
  exists o i,
    heap w !! r = Some o
    /\ scalar_geb (score o) det = true
    /\ state o = Some TrackState.Tracked
    /\ start_frame o = Some f /\ frame_id o = Some f
    /\ track_id o = Some i /\ (c0 < i <= _count w)%Z
    /\ is_activated o = Z.eqb f 1
    /\ tracklet_len o = 0%Z.

(** The object at [r] is a detection whose score is at least [det], as the
    code compares them. *)
Definition confident (det : float) (w : world) (r : ref) : bool :=
  match heap w !! r with
  | Some o => scalar_geb (score o) det
  | None => false
  end.

(** The track object [_get_detections] builds for a detection. *)
Definition detection_track (dt : dtype) (p : vec * float) : STrack :=
  STrackM.__init__ (detection_box dt p) (Scalar dt (snd p)).

(** ** byte_tracker: the states of the tracks *)

(** The object at [r] is in state [s]. *)
Definition in_state (s : TrackState.t) (w : world) (r : ref) : Prop :=
  exists o, heap w !! r = Some o /\ state o = Some s.

(** No object is in state [Tracked] in [w'] that was not in [w]. *)
Definition no_new_tracked (w w' : world) : Prop :=
  forall r, in_state TrackState.Tracked w' r -> in_state TrackState.Tracked w r.

(** The object at [r] was seen in frame [f]: it is in state [Tracked] and
    [f] is its last frame. *)
Definition seen (f : Z) (w : world) (r : ref) : Prop :=
  exists o, heap w !! r = Some o /\ state o = Some TrackState.Tracked /\ frame_id o = Some f.

(** [r] is the entry of [l] at one of the indices [rows]. *)
Definition at_rows (l : list ref) (rows : list nat) (r : ref) : Prop :=
  exists i, In i rows /\ l !! i = Some r.

(** The tracked and the lost list hold no track twice, between them, and no
    track of the lost list is in state [Tracked]. *)
Definition lists_apart (t : BYTETracker.t) (w : world) : Prop :=
  List.NoDup (BYTETracker.tracked_stracks t ++ BYTETracker.lost_stracks t)
  /\ forall r, In r (BYTETracker.lost_stracks t) -> ~ in_state TrackState.Tracked w r.

(** The state and the last frame of the object at [r]. *)
Definition status (w : world) (r : ref) : option (option TrackState.t * option Z) :=
  option_map (fun o => (state o, frame_id o)) (heap w !! r).

(** ** byte_tracker: the two associations of a frame *)

(** The tracker as [update] works on it: [self.frame_id += 1]. *)
Definition in_next_frame (t : BYTETracker.t) : BYTETracker.t :=
  BYTETracker.mk (BYTETracker.track_thresh t) (BYTETracker.match_thresh t)
                 (BYTETracker.frame_id t + 1)
                 (BYTETracker.det_thresh t) (BYTETracker.buffer_size t)
                 (BYTETracker.max_time_lost t) (BYTETracker.kalman_filter t)
                 (BYTETracker.tracked_stracks t) (BYTETracker.lost_stracks t)
                 (BYTETracker.removed_stracks t).

Section AssociationVocabulary.
Variable linear_sum_assignment : ndarray2 -> res (list nat * list nat).
Variable cho_factor : mat -> res mat.
Variable cho_solve : mat -> mat -> mat.

(** The steps of [update] from the store [w2], which holds the track
    objects of the frame's detections, to the store [w5] that the second
    association leaves.  The tracked list splits into the [unconfirmed]
    tracks and the others, which join the lost list in [strack_pool] and
    are predicted.  The first association matches the pool with
    [detections] under [match_thresh] and updates the matched tracks; the
    second matches [r_tracked], the tracks of the pool that the first left
    unmatched and that are in state [Tracked], with [detections_second]
    under 0.5, and updates the matched tracks. *)
Definition associations (self : BYTETracker.t) (detections detections_second : list ref)
           (w2 : world) (unconfirmed strack_pool r_tracked : list ref) (w5 : world) : Prop :=
  exists tracked w3 matches u_track u_detection refind activated w4
         pool_unmatched matches2 u_track2 u_detection2 refind2 activated2,
    BYTETracker._update_tracked_stracks self w2 = Ok ((unconfirmed, tracked), w2)
    /\ joint_stracks tracked (BYTETracker.lost_stracks self) w2 = Ok (strack_pool, w2)
    /\ STrackM.multi_predict strack_pool w2 = Ok (tt, w3)
    /\ BYTETracker._match_tracks_to_detections linear_sum_assignment strack_pool detections
                                               (BYTETracker.match_thresh self) w3
       = Ok ((matches, u_track, u_detection), w3)
    /\ BYTETracker._update_tracks cho_factor cho_solve self strack_pool detections
                                  matches [] [] w3
       = Ok ((refind, activated), w4)
    /\ mapM (lindex strack_pool) u_track w4 = Ok (pool_unmatched, w4)
    /\ filterM (fun r => let! s := state_of r in ret (TrackState.eqb s TrackState.Tracked))
               pool_unmatched w4
       = Ok (r_tracked, w4)
    /\ BYTETracker._match_tracks_to_detections linear_sum_assignment r_tracked
                                               detections_second 0.5 w4
       = Ok ((matches2, u_track2, u_detection2), w4)
    /\ BYTETracker._update_tracks cho_factor cho_solve self r_tracked detections_second
                                  matches2 refind activated w4
       = Ok ((refind2, activated2), w5).

End AssociationVocabulary.

(** ** byte_tracker: the scores of the objects across a frame

    The store held [n0] objects when the call began; the objects built
    for the detections of the first association are those at
    [n0 <= r < nH], and [kf] and [f] are the filter and the frame of the
    call. *)

Section ScoreVocabulary.
Variable n0 nH : nat.
Variable kf : KalmanFilter.t.
Variable f : Z.
Variable P : ref -> scalar -> Prop.

(** What has become of the object [o] at [r] when it is [o']: nothing; or,
    for an object the store held when the call began, an update that left
    its score or gave it one that [P] allows; or, for an object built for
    the first association, its activation. *)
Definition obj_step (r : ref) (o o' : STrack) : Prop :=
  o' = o
  \/ ((r < n0)%nat /\ (score o' = score o \/ P r (score o')))
  \/ ((n0 <= r < nH)%nat /\ exists tid, o' = STrackM.activated o kf f tid).

(** The store [w'] holds the objects of [w], each one after such a step. *)
Definition rescored (w w' : world) : Prop :=
  length (heap w') = length (heap w)
  /\ forall r o, heap w !! r = Some o ->
       exists o', heap w' !! r = Some o' /\ obj_step r o o'.

End ScoreVocabulary.

(** Every object keeps its score from [w] to [w']. *)
Definition keeps_scores (w w' : world) : Prop :=
  length (heap w') = length (heap w)
  /\ forall r o, heap w !! r = Some o ->
       exists o', heap w' !! r = Some o' /\ score o' = score o.
(** * Theory *)

(** ** Floating-point facts, from the kernel's specification of [float] *)

Lemma SFcompare_swap x y :
  SFcompare y x = option_map CompOpp (SFcompare x y).
Proof.
  destruct x as [sx|sx| |sx mx ex], y as [sy|sy| |sy my ey]; simpl; try reflexivity;
    try (destruct sx; reflexivity); try (destruct sy; reflexivity);
    try (destruct sx, sy; reflexivity).
  destruct sx, sy; simpl; try reflexivity;
    rewrite (Z.compare_antisym ex ey); destruct (ex ?= ey)%Z; simpl; try reflexivity;
    rewrite (Pos.compare_cont_antisym mx my Eq); reflexivity.
Qed.

Lemma eqb_ltb_false x y :
  PrimFloat.eqb x y = true -> PrimFloat.ltb x y = false /\ PrimFloat.ltb y x = false.
Proof.
  rewrite FloatAxioms.eqb_spec, !FloatAxioms.ltb_spec. unfold SFeqb, SFltb.
  rewrite (SFcompare_swap (Prim2SF x) (Prim2SF y)).
  destruct (SFcompare (Prim2SF x) (Prim2SF y)) as [[]|]; simpl; intros; try discriminate; auto.
Qed.


(** For two numbers (no NaN), [y < x] fails exactly when [x <= y]. *)
Lemma not_ltb_leb x y :
  PrimFloat.is_nan x = false -> PrimFloat.is_nan y = false ->
  PrimFloat.ltb y x = false -> PrimFloat.leb x y = true.
Proof.
  unfold PrimFloat.is_nan.
  rewrite !FloatAxioms.eqb_spec, FloatAxioms.leb_spec, FloatAxioms.ltb_spec.
  unfold SFeqb, SFleb, SFltb.
  rewrite (SFcompare_swap (Prim2SF x) (Prim2SF y)).
  destruct (Prim2SF x) as [sx|sx| |sx mx ex], (Prim2SF y) as [sy|sy| |sy my ey];
    simpl; try discriminate; intros _ _;
    repeat match goal with
           | |- context [if ?b then _ else _] => destruct b; simpl
           | |- context [(?a ?= ?b)%Z] => destruct (a ?= b)%Z; simpl
           | |- context [PosDef.Pos.compare_cont ?c ?a ?b] =>
               destruct (PosDef.Pos.compare_cont c a b); simpl
           end; try reflexivity; try discriminate.
Qed.

Lemma is_zero_spec x :
  PrimFloat.eqb x 0 = true <-> exists s, Prim2SF x = S754_zero s.
Proof.
  rewrite FloatAxioms.eqb_spec. unfold SFeqb. change (Prim2SF 0) with (S754_zero false).
  destruct (Prim2SF x) as [s|s| |s m e]; simpl; split; intros H.
  - eauto.
  - reflexivity.
  - destruct s; discriminate.
  - destruct H; discriminate.
  - discriminate.
  - destruct H; discriminate.
  - destruct s; discriminate.
  - destruct H; discriminate.
Qed.

Lemma is_nan_spec x : PrimFloat.is_nan x = true <-> Prim2SF x = S754_nan.
Proof.
  unfold PrimFloat.is_nan. rewrite FloatAxioms.eqb_spec. unfold SFeqb.
  destruct (Prim2SF x) as [s|s| |s m e]; simpl; split; intros H; try discriminate; auto.
  - destruct s; discriminate.
  - destruct s; simpl in H; rewrite Z.compare_refl in H;
      rewrite ?Pos.compare_cont_refl in H; simpl in H.
    all: try discriminate.
Qed.


Lemma is_finite_not_nan x : PrimFloat.is_finite x = true -> PrimFloat.is_nan x = false.
Proof.
  unfold PrimFloat.is_finite. rewrite negb_true_iff, orb_false_iff. tauto.
Qed.

(** ** The order of the floats and the order of their exact values *)

Lemma digits2_pos_size p : digits2_pos p = Pos.size p.
Proof. induction p; simpl; congruence. Qed.

Lemma digits2_bounds m :
  (2 ^ (Z.pos (digits2_pos m) - 1) <= Z.pos m < 2 ^ Z.pos (digits2_pos m))%Z.
Proof.
  rewrite digits2_pos_size. split.
  - pose proof (Pos.size_le m) as H.
    assert (H' : (2 ^ Z.pos (Pos.size m) <= 2 * Z.pos m)%Z).
    { change 2%Z with (Z.pos 2). rewrite <- Pos2Z.inj_pow. exact H. }
    replace (Z.pos (Pos.size m)) with (Z.succ (Z.pos (Pos.size m) - 1)) in H' by lia.
    rewrite Z.pow_succ_r in H' by lia. lia.
  - pose proof (Pos.size_gt m) as H.
    change 2%Z with (Z.pos 2). rewrite <- Pos2Z.inj_pow. exact H.
Qed.

(** A canonical mantissa: full width, or the least exponent. *)
Lemma canonical_mantissa_cases m e :
  canonical_mantissa prec emax m e = true ->
  (Z.pos (digits2_pos m) <= 53)%Z /\ (-1074 <= e)%Z /\
  (Z.pos (digits2_pos m) = 53 \/ e = -1074)%Z.
Proof.
  unfold canonical_mantissa, fexp, emin, prec, emax. intros H.
  apply Z.eqb_eq in H. lia.
Qed.

(** Of two canonical positive numbers, the one of smaller exponent is
    the smaller. *)
Lemma canonical_exponent_lt m1 e1 m2 e2 :
  canonical_mantissa prec emax m1 e1 = true ->
  canonical_mantissa prec emax m2 e2 = true ->
  (e1 < e2)%Z -> (Z.pos m1 < Z.pos m2 * 2 ^ (e2 - e1))%Z.
Proof.
  intros H1 H2 Hlt.
  apply canonical_mantissa_cases in H1 as (Hd1 & Hm1 & _).
  apply canonical_mantissa_cases in H2 as (Hd2 & Hm2 & Hc2).
  assert (Hd : Z.pos (digits2_pos m2) = 53%Z) by lia.
  pose proof (digits2_bounds m1) as [_ Hu]. pose proof (digits2_bounds m2) as [Hl _].
  rewrite Hd in Hl.
  assert (Hp1 : (2 ^ Z.pos (digits2_pos m1) <= 2 ^ 53)%Z) by (apply Z.pow_le_mono_r; lia).
  assert (Hp2 : (2 ^ 1 <= 2 ^ (e2 - e1))%Z) by (apply Z.pow_le_mono_r; lia).
  change (2 ^ 1)%Z with 2%Z in Hp2. change (53 - 1)%Z with 52%Z in Hl.
  assert (H53 : (2 ^ 53 = 2 ^ 52 * 2)%Z) by reflexivity.
  nia.
Qed.

Lemma Qpow2_pos e : (0 < 2 ^ e)%Q.
Proof. apply Qpower_0_lt. reflexivity. Qed.

Lemma Qpow2_split e1 e2 : (2 ^ e2 == 2 ^ e1 * 2 ^ (e2 - e1))%Q.
Proof.
  rewrite <- Qpower_plus by discriminate. replace (e1 + (e2 - e1))%Z with e2 by lia.
  reflexivity.
Qed.

Lemma Qpow2_inject d : (0 <= d)%Z -> (2 ^ d == inject_Z (2 ^ d))%Q.
Proof. intros H. rewrite Zpower_Qpower by exact H. reflexivity. Qed.


Lemma pos_value_pos m e : (0 < pos_value m e)%Q.
Proof.
  unfold pos_value. apply Qmult_lt_0_compat; [|apply Qpow2_pos].
  rewrite <- (Zlt_Qlt 0). reflexivity.
Qed.

Lemma pos_value_lt_exponent m1 e1 m2 e2 :
  canonical_mantissa prec emax m1 e1 = true ->
  canonical_mantissa prec emax m2 e2 = true ->
  (e1 < e2)%Z -> (pos_value m1 e1 < pos_value m2 e2)%Q.
Proof.
  intros H1 H2 Hlt. pose proof (canonical_exponent_lt _ _ _ _ H1 H2 Hlt) as H.
  unfold pos_value. rewrite (Qpow2_split e1 e2), (Qpow2_inject (e2 - e1)) by lia.
  rewrite (Qmult_comm (2 ^ e1)), Qmult_assoc, <- inject_Z_mult.
  apply Qmult_lt_compat_r; [apply Qpow2_pos|]. rewrite <- Zlt_Qlt. exact H.
Qed.

Lemma pos_value_lt_mantissa m1 m2 e :
  (m1 < m2)%positive -> (pos_value m1 e < pos_value m2 e)%Q.
Proof.
  intros H. unfold pos_value. apply Qmult_lt_compat_r; [apply Qpow2_pos|].
  rewrite <- Zlt_Qlt. exact H.
Qed.

Lemma pos_compare_lt m1 e1 m2 e2 :
  canonical_mantissa prec emax m1 e1 = true ->
  canonical_mantissa prec emax m2 e2 = true ->
  match (e1 ?= e2)%Z with Lt => Lt | Gt => Gt | Eq => Pos.compare_cont Eq m1 m2 end = Lt ->
  (pos_value m1 e1 < pos_value m2 e2)%Q.
Proof.
  intros H1 H2. destruct (e1 ?= e2)%Z eqn:E; intros H; try discriminate.
  - apply Z.compare_eq in E. subst e2. apply pos_value_lt_mantissa. exact H.
  - apply pos_value_lt_exponent; assumption.
Qed.

Lemma pos_compare_gt m1 e1 m2 e2 :
  canonical_mantissa prec emax m1 e1 = true ->
  canonical_mantissa prec emax m2 e2 = true ->
  match (e1 ?= e2)%Z with
  | Lt => Gt | Gt => Lt | Eq => CompOpp (Pos.compare_cont Eq m1 m2)
  end = Lt ->
  (pos_value m2 e2 < pos_value m1 e1)%Q.
Proof.
  intros H1 H2 H. apply pos_compare_lt; try assumption.
  rewrite (Z.compare_antisym e1 e2). destruct (e1 ?= e2)%Z; simpl in *; try discriminate;
    [|reflexivity].
  rewrite (Pos.compare_cont_antisym m1 m2 Eq) in H. exact H.
Qed.

Lemma pos_compare_eq m1 e1 m2 e2 :
  match (e1 ?= e2)%Z with Lt => Lt | Gt => Gt | Eq => Pos.compare_cont Eq m1 m2 end = Eq ->
  e1 = e2 /\ m1 = m2.
Proof.
  destruct (e1 ?= e2)%Z eqn:E; intros H; try discriminate.
  split; [apply Z.compare_eq; exact E | apply Pos.compare_eq; exact H].
Qed.


Lemma canonical_of_valid s m e :
  SpecFloat.valid_binary prec emax (S754_finite s m e) = true ->
  canonical_mantissa prec emax m e = true.
Proof. simpl. unfold bounded. intros H. apply andb_true_iff in H. tauto. Qed.

Lemma SF2Q_finite s m e :
  SF2Q (S754_finite s m e) = if s then Qopp (pos_value m e) else pos_value m e.
Proof. reflexivity. Qed.

Lemma SFcompare_Lt x y :
  SpecFloat.valid_binary prec emax x = true -> SpecFloat.valid_binary prec emax y = true ->
  finite_SF x = true -> finite_SF y = true ->
  SFcompare x y = Some Lt -> (SF2Q x < SF2Q y)%Q.
Proof.
  destruct x as [sx|sx| |sx mx ex], y as [sy|sy| |sy my ey]; try discriminate;
    intros Vx Vy _ _ H.
  - destruct sy; simpl in H; try discriminate. rewrite SF2Q_finite. apply pos_value_pos.
  - destruct sx; simpl in H; try discriminate. rewrite SF2Q_finite.
    apply (Qopp_lt_compat 0). apply pos_value_pos.
  - apply canonical_of_valid in Vx, Vy. rewrite !SF2Q_finite.
    simpl in H. injection H as H.
    destruct sx, sy; try discriminate.
    + apply Qopp_lt_compat. apply pos_compare_gt; assumption.
    + apply Qlt_trans with 0%Q; [apply (Qopp_lt_compat 0)|]; apply pos_value_pos.
    + apply pos_compare_lt; assumption.
Qed.

Lemma SFcompare_Eq x y :
  finite_SF x = true -> finite_SF y = true ->
  SFcompare x y = Some Eq -> (SF2Q x == SF2Q y)%Q.
Proof.
  destruct x as [sx|sx| |sx mx ex], y as [sy|sy| |sy my ey]; try discriminate;
    intros _ _ H.
  - reflexivity.
  - destruct sy; discriminate.
  - destruct sx; discriminate.
  - simpl in H. injection H as H. destruct sx, sy; try discriminate.
    + assert (H' : match (ex ?= ey)%Z with
                   | Lt => Lt | Gt => Gt | Eq => Pos.compare_cont Eq mx my end = Eq).
      { destruct (ex ?= ey)%Z; try discriminate.
        destruct (Pos.compare_cont Eq mx my); try discriminate; reflexivity. }
      destruct (pos_compare_eq mx ex my ey H') as [-> ->]. reflexivity.
    + destruct (pos_compare_eq mx ex my ey H) as [-> ->]. reflexivity.
Qed.

Lemma SFeqb_refl_finite s m e : SFeqb (S754_finite s m e) (S754_finite s m e) = true.
Proof.
  unfold SFeqb. simpl. rewrite Z.compare_refl, Pos.compare_cont_refl. destruct s; reflexivity.
Qed.

Lemma is_finite_spec x : PrimFloat.is_finite x = true <-> finite_SF (Prim2SF x) = true.
Proof.
  unfold PrimFloat.is_finite, PrimFloat.is_infinity, PrimFloat.is_nan.
  rewrite !FloatAxioms.eqb_spec, abs_spec.
  change (Prim2SF infinity) with (S754_infinity false).
  destruct (Prim2SF x) as [s|s| |s m e]; simpl SFabs; simpl finite_SF.
  - destruct s; simpl; tauto.
  - destruct s; simpl; intuition discriminate.
  - simpl; intuition discriminate.
  - rewrite SFeqb_refl_finite. simpl. tauto.
Qed.

(** [x < y] on finite floats is [<] on their values, [x <= y] is [<=]. *)
Lemma ltb_F2Q x y :
  PrimFloat.is_finite x = true -> PrimFloat.is_finite y = true ->
  PrimFloat.ltb x y = true -> (F2Q x < F2Q y)%Q.
Proof.
  intros Hx Hy. apply is_finite_spec in Hx, Hy. rewrite FloatAxioms.ltb_spec. unfold SFltb.
  destruct (SFcompare (Prim2SF x) (Prim2SF y)) as [[]|] eqn:E; try discriminate.
  intros _. apply SFcompare_Lt; try assumption; apply Prim2SF_valid.
Qed.

Lemma leb_F2Q x y :
  PrimFloat.is_finite x = true -> PrimFloat.is_finite y = true ->
  PrimFloat.leb x y = true -> (F2Q x <= F2Q y)%Q.
Proof.
  intros Hx Hy. apply is_finite_spec in Hx, Hy. rewrite FloatAxioms.leb_spec. unfold SFleb.
  destruct (SFcompare (Prim2SF x) (Prim2SF y)) as [[]|] eqn:E; try discriminate; intros _.
  - apply Qle_lteq. right. apply SFcompare_Eq; assumption.
  - apply Qlt_le_weak. apply SFcompare_Lt; try assumption; apply Prim2SF_valid.
Qed.

(** ** The sign of a rounded result *)


Lemma shr_1_nonneg mrs : (0 <= shr_m mrs)%Z -> (0 <= shr_m (shr_1 mrs))%Z.
Proof.
  destruct mrs as [m r s]. simpl. destruct m as [|[p|p|]|p]; simpl; intros H; lia.
Qed.

Lemma iter_pos_invariant {A} (f : A -> A) (P : A -> Prop) :
  (forall x, P x -> P (f x)) -> forall p x, P x -> P (SpecFloat.iter_pos f p x).
Proof.
  intros Hf. induction p as [p IH|p IH|]; intros x Hx; simpl; auto.
Qed.

Lemma shr_nonneg mrs e n : (0 <= shr_m mrs)%Z -> (0 <= shr_m (fst (shr mrs e n)))%Z.
Proof.
  intros H. unfold shr. destruct n; simpl; try exact H.
  apply (iter_pos_invariant shr_1 (fun r => (0 <= shr_m r)%Z)); [exact shr_1_nonneg | exact H].
Qed.

Lemma shr_fexp_nonneg m e l :
  (0 <= m)%Z -> (0 <= shr_m (fst (shr_fexp prec emax m e l)))%Z.
Proof.
  intros H. unfold shr_fexp. apply shr_nonneg.
  destruct l as [|[]]; simpl; exact H.
Qed.

Lemma round_nearest_even_nonneg m l : (0 <= m)%Z -> (0 <= round_nearest_even m l)%Z.
Proof.
  intros H. unfold round_nearest_even. destruct l as [|[]]; try lia.
  destruct (Z.even m); lia.
Qed.

Lemma binary_round_aux_signed s m e l :
  (0 <= m)%Z -> signed s (binary_round_aux prec emax s m e l).
Proof.
  intros H. unfold binary_round_aux.
  pose proof (shr_fexp_nonneg m e l H) as H1.
  destruct (shr_fexp prec emax m e l) as [mrs' e']. simpl fst in H1.
  pose proof (shr_fexp_nonneg _ e' loc_Exact
                (round_nearest_even_nonneg _ (loc_of_shr_record mrs') H1)) as H2.
  destruct (shr_fexp prec emax _ e' loc_Exact) as [mrs'' e'']. simpl fst in H2.
  destruct (shr_m mrs'') as [|p|p]; simpl; try reflexivity; [|lia].
  destruct (e'' <=? emax - prec)%Z; reflexivity.
Qed.

Lemma binary_round_signed s m e : signed s (binary_round prec emax s m e).
Proof.
  unfold binary_round. destruct (shl_align m e _) as [mz ez].
  apply binary_round_aux_signed. lia.
Qed.


Lemma binary_normalize_nonpos m e :
  (m <= 0)%Z -> nonpos (binary_normalize prec emax m e false).
Proof.
  intros H. unfold binary_normalize. destruct m as [|p|p]; [exact I | lia |].
  pose proof (binary_round_signed true p e) as Hs.
  destruct (binary_round prec emax true p e) as [s|s| |s m' e']; simpl in *; subst; auto.
Qed.

Lemma iter_xO_value m d : Z.pos (Pos.iter xO m d) = (Z.pos m * 2 ^ Z.pos d)%Z.
Proof.
  induction d as [|d IH] using Pos.peano_ind.
  - simpl. lia.
  - rewrite Pos.iter_succ, Pos2Z.inj_xO, IH, Pos2Z.inj_succ, Z.pow_succ_r by lia. lia.
Qed.

Lemma shl_align_value m e ez :
  (ez <= e)%Z -> Z.pos (fst (shl_align m e ez)) = (Z.pos m * 2 ^ (e - ez))%Z.
Proof.
  intros H. unfold shl_align. destruct (ez - e)%Z as [|p|p] eqn:E; simpl fst.
  - replace (e - ez)%Z with 0%Z by lia. lia.
  - lia.
  - rewrite iter_xO_value. replace (e - ez)%Z with (Z.pos p) by lia. reflexivity.
Qed.

(** The exact value of a finite float over a common exponent. *)
Lemma SF2Q_aligned s m e ez :
  (ez <= e)%Z ->
  (SF2Q (S754_finite s m e)
   == inject_Z (cond_Zopp s (Z.pos (fst (shl_align m e ez)))) * 2 ^ ez)%Q.
Proof.
  intros H. rewrite SF2Q_finite, shl_align_value by exact H. unfold pos_value.
  destruct s; simpl cond_Zopp;
    rewrite (Qpow2_split ez e), (Qpow2_inject (e - ez)), ?inject_Z_opp, inject_Z_mult by lia;
    ring.
Qed.

Lemma SFleb_value x y :
  SpecFloat.valid_binary prec emax x = true -> SpecFloat.valid_binary prec emax y = true ->
  finite_SF x = true -> finite_SF y = true ->
  SFleb x y = true -> (SF2Q x <= SF2Q y)%Q.
Proof.
  intros Vx Vy Fx Fy. unfold SFleb.
  destruct (SFcompare x y) as [[]|] eqn:E; try discriminate; intros _.
  - apply Qle_lteq. right. apply SFcompare_Eq; assumption.
  - apply Qlt_le_weak. apply SFcompare_Lt; assumption.
Qed.

(** Subtracting a larger finite number leaves zero or a negative number. *)
Lemma SFsub_nonpos x y :
  SpecFloat.valid_binary prec emax x = true -> SpecFloat.valid_binary prec emax y = true ->
  finite_SF x = true -> finite_SF y = true ->
  SFleb x y = true -> nonpos (SFsub prec emax x y).
Proof.
  intros Vx Vy Fx Fy Hle.
  pose proof (SFleb_value x y Vx Vy Fx Fy Hle) as HQ.
  destruct x as [sx|sx| |sx mx ex], y as [sy|sy| |sy my ey]; try discriminate.
  - simpl. destruct sx, sy; exact I.
  - unfold SFleb in Hle. simpl in Hle. destruct sy; [discriminate | exact I].
  - unfold SFleb in Hle. simpl in Hle. destruct sx; [exact I | discriminate].
  - unfold SFsub. apply binary_normalize_nonpos.
    set (ez := Z.min ex ey).
    rewrite (SF2Q_aligned sx mx ex ez), (SF2Q_aligned sy my ey ez) in HQ by (unfold ez; lia).
    apply Qmult_le_r in HQ; [|apply Qpow2_pos].
    rewrite <- Zle_Qle in HQ. lia.
Qed.

Lemma sub_nonpos x y :
  PrimFloat.is_finite x = true -> PrimFloat.is_finite y = true ->
  PrimFloat.leb x y = true -> nonpos (Prim2SF (x - y)).
Proof.
  intros Hx Hy Hle. apply is_finite_spec in Hx, Hy. rewrite FloatAxioms.leb_spec in Hle.
  rewrite sub_spec. apply SFsub_nonpos; try assumption; apply Prim2SF_valid.
Qed.

(** [np.maximum(x, 0)] of a number that is zero or negative is a zero. *)
Lemma np_maximum_nonpos x :
  nonpos (Prim2SF x) -> PrimFloat.eqb (np_maximum x 0) 0 = true.
Proof.
  intros H. unfold np_maximum.
  destruct (PrimFloat.is_nan x) eqn:N.
  - apply is_nan_spec in N. rewrite N in H. destruct H.
  - cbn [orb]. destruct (PrimFloat.leb 0 x) eqn:L; [|reflexivity].
    rewrite FloatAxioms.leb_spec in L. rewrite FloatAxioms.eqb_spec.
    change (Prim2SF 0) with (S754_zero false) in *.
    destruct (Prim2SF x) as [s|s| |s m e]; simpl in H; try reflexivity; try contradiction;
      destruct s; try contradiction; discriminate.
Qed.

Lemma np_maximum_finite x y :
  PrimFloat.is_finite x = true -> PrimFloat.is_finite y = true ->
  PrimFloat.is_finite (np_maximum x y) = true.
Proof. intros Hx Hy. unfold np_maximum. destruct (_ || _); assumption. Qed.

Lemma np_minimum_finite x y :
  PrimFloat.is_finite x = true -> PrimFloat.is_finite y = true ->
  PrimFloat.is_finite (np_minimum x y) = true.
Proof. intros Hx Hy. unfold np_minimum. destruct (_ || _); assumption. Qed.

Lemma leb_refl_finite x : PrimFloat.is_finite x = true -> PrimFloat.leb x x = true.
Proof.
  intros H. apply not_ltb_leb; try (apply is_finite_not_nan; exact H).
  rewrite FloatAxioms.ltb_spec. unfold SFltb.
  apply is_finite_spec in H.
  destruct (Prim2SF x) as [s|s| |s m e]; try discriminate; simpl; [reflexivity|].
  rewrite Z.compare_refl, Pos.compare_cont_refl. destruct s; reflexivity.
Qed.

(** On finite floats [<=] is total and transitive. *)
Lemma leb_total x y :
  PrimFloat.is_finite x = true -> PrimFloat.is_finite y = true ->
  PrimFloat.leb x y = false -> PrimFloat.leb y x = true.
Proof.
  intros Hx Hy H. apply not_ltb_leb; try (apply is_finite_not_nan; assumption).
  destruct (PrimFloat.ltb x y) eqn:L; [|reflexivity].
  exfalso. rewrite FloatAxioms.leb_spec in H. rewrite FloatAxioms.ltb_spec in L.
  unfold SFleb, SFltb in *. destruct (SFcompare _ _) as [[]|]; discriminate.
Qed.

Lemma leb_trans x y z :
  PrimFloat.is_finite x = true -> PrimFloat.is_finite y = true ->
  PrimFloat.is_finite z = true ->
  PrimFloat.leb x y = true -> PrimFloat.leb y z = true -> PrimFloat.leb x z = true.
Proof.
  intros Hx Hy Hz Hxy Hyz.
  apply not_ltb_leb; try (apply is_finite_not_nan; assumption).
  destruct (PrimFloat.ltb z x) eqn:L; [|reflexivity]. exfalso.
  pose proof (leb_F2Q _ _ Hx Hy Hxy). pose proof (leb_F2Q _ _ Hy Hz Hyz).
  pose proof (ltb_F2Q _ _ Hz Hx L). lra.
Qed.

Lemma np_minimum_le_l x y :
  PrimFloat.is_finite x = true -> PrimFloat.is_finite y = true ->
  PrimFloat.leb (np_minimum x y) x = true.
Proof.
  intros Hx Hy. unfold np_minimum. rewrite (is_finite_not_nan _ Hx). cbn [orb].
  destruct (PrimFloat.leb x y) eqn:L; [apply leb_refl_finite; exact Hx|].
  apply leb_total; assumption.
Qed.

Lemma np_minimum_le_r x y :
  PrimFloat.is_finite x = true -> PrimFloat.is_finite y = true ->
  PrimFloat.leb (np_minimum x y) y = true.
Proof.
  intros Hx Hy. unfold np_minimum. rewrite (is_finite_not_nan _ Hx). cbn [orb].
  destruct (PrimFloat.leb x y) eqn:L; [exact L | apply leb_refl_finite; exact Hy].
Qed.

Lemma np_maximum_ge_l x y :
  PrimFloat.is_finite x = true -> PrimFloat.is_finite y = true ->
  PrimFloat.leb x (np_maximum x y) = true.
Proof.
  intros Hx Hy. unfold np_maximum. rewrite (is_finite_not_nan _ Hx). cbn [orb].
  destruct (PrimFloat.leb y x) eqn:L; [apply leb_refl_finite; exact Hx|].
  apply leb_total; assumption.
Qed.

Lemma np_maximum_ge_r x y :
  PrimFloat.is_finite x = true -> PrimFloat.is_finite y = true ->
  PrimFloat.leb y (np_maximum x y) = true.
Proof.
  intros Hx Hy. unfold np_maximum. rewrite (is_finite_not_nan _ Hx). cbn [orb].
  destruct (PrimFloat.leb y x) eqn:L; [exact L | apply leb_refl_finite; exact Hy].
Qed.

(** A zero times a finite number is a zero. *)
Lemma mul_zero_l x y :
  PrimFloat.eqb x 0 = true -> PrimFloat.is_finite y = true ->
  PrimFloat.eqb (x * y) 0 = true.
Proof.
  intros Hx Hy. apply is_zero_spec in Hx as [s Hs]. apply is_finite_spec in Hy.
  apply is_zero_spec. rewrite mul_spec, Hs. unfold SF64mul.
  destruct (Prim2SF y) as [s'|s'| |s' m e]; try discriminate; simpl; eauto.
Qed.

Lemma mul_zero_r x y :
  PrimFloat.is_finite x = true -> PrimFloat.eqb y 0 = true ->
  PrimFloat.eqb (x * y) 0 = true.
Proof.
  intros Hx Hy. apply is_zero_spec in Hy as [s Hs]. apply is_finite_spec in Hx.
  apply is_zero_spec. rewrite mul_spec, Hs. unfold SF64mul.
  destruct (Prim2SF x) as [s'|s'| |s' m e]; try discriminate; simpl; eauto.
Qed.

(** Dividing by a zero gives an infinity or a NaN. *)
Lemma div_by_zero_not_finite w h :
  PrimFloat.eqb h 0 = true -> PrimFloat.is_finite (w / h) = false.
Proof.
  intros Hh. apply is_zero_spec in Hh as [s Hs].
  assert (Hd : Prim2SF (w / h) = S754_nan \/ exists s', Prim2SF (w / h) = S754_infinity s').
  { rewrite div_spec, Hs. unfold SF64div, SFdiv.
    destruct (Prim2SF w); eauto. }
  unfold PrimFloat.is_finite.
  destruct Hd as [Hn | [s' Hi]].
  - apply is_nan_spec in Hn. rewrite Hn. reflexivity.
  - assert (Hinf : PrimFloat.is_infinity (w / h) = true).
    { unfold PrimFloat.is_infinity. rewrite FloatAxioms.eqb_spec, abs_spec, Hi.
      reflexivity. }
    rewrite Hinf. apply negb_false_iff, orb_true_r.
Qed.

(** ** Monad facts *)

Lemma bindR_Ok {A B} (m : res A) (k : A -> res B) b :
  bindR m k = Ok b -> exists a, m = Ok a /\ k a = Ok b.
Proof. destruct m; simpl; [eauto | discriminate]. Qed.

Lemma bindM_Ok {A B} (m : M A) (k : A -> M B) w b w' :
  bindM m k w = Ok (b, w') -> exists a w1, m w = Ok (a, w1) /\ k a w1 = Ok (b, w').
Proof.
  unfold bindM. destruct (m w) as [[a w1]|e]; [eauto | discriminate].
Qed.

Lemma lift_Ok {A} (r : res A) w a w' :
  lift r w = Ok (a, w') -> r = Ok a /\ w' = w.
Proof. unfold lift. destruct r; intros H; inversion H; auto. Qed.

Lemma TrackState_eqb_eq a b : TrackState.eqb a b = true <-> a = b.
Proof. destruct a, b; simpl; split; congruence. Qed.

(** ** kalman_filter: the vectorised prediction *)

Lemma map_seq_nth {A B} (F : A -> B) (l : list A) d :
  map (fun j => F (nth j l d)) (seq 0 (length l)) = map F l.
Proof.
  induction l as [|a l IH]; simpl; [reflexivity|].
  f_equal. rewrite <- seq_shift, map_map. exact IH.
Qed.

Lemma vnth_map {A} (f : A -> float) (l : list A) d j :
  (j < length l)%nat -> vnth (map f l) j = f (nth j l d).
Proof.
  intros Hj. unfold vnth.
  rewrite (nth_indep (map f l) 0%float (f d)) by (rewrite length_map; exact Hj).
  apply map_nth.
Qed.

Lemma _create_std_batch_rows (self : KalmanFilter.t) (mean : mat) :
  KalmanFilter._create_std_batch self mean = map (KalmanFilter._create_std self) mean.
Proof.
  unfold KalmanFilter._create_std_batch, stack_last, transpose.
  cbn [ncols]. rewrite length_map.
  rewrite <- (map_seq_nth (KalmanFilter._create_std self) mean []).
  apply map_ext_in. intros j Hj. apply in_seq in Hj. destruct Hj as [_ Hj]. simpl in Hj.
  cbn [map]. unfold KalmanFilter._create_std.
  rewrite !(vnth_map _ mean []) by exact Hj.
  rewrite !map_map.
  rewrite !(vnth_map _ mean []) by exact Hj.
  reflexivity.
Qed.


Lemma predict_each_means self means covs :
  length means = length covs ->
  map fst (predict_each self means covs)
  = matmul means (transpose (KalmanFilter._motion_mat self)).
Proof.
  unfold predict_each, matmul. revert covs.
  induction means as [|m means IH]; intros [|c covs] Hlen; simpl in *; try discriminate;
    [reflexivity|].
  f_equal. apply IH. lia.
Qed.

Lemma predict_each_covs self means covs :
  length means = length covs ->
  map snd (predict_each self means covs)
  = map (fun p => madd (fst p) (snd p))
      (combine
         (map (fun c => matmul (matmul (KalmanFilter._motion_mat self) c)
                               (transpose (KalmanFilter._motion_mat self))) covs)
         (map diag (map vsquare (map (KalmanFilter._create_std self) means)))).
Proof.
  unfold predict_each. revert covs.
  induction means as [|m means IH]; intros [|c covs] Hlen; simpl in *; try discriminate;
    [reflexivity|].
  f_equal. apply IH. lia.
Qed.

Lemma stack_add_same (a b : list mat) :
  b <> [] -> length a = length b ->
  stack_add a b = Ok (map (fun p => madd (fst p) (snd p)) (combine a b)).
Proof.
  intros Hb Hlen. unfold stack_add. destruct b as [|y b']; [contradiction|].
  rewrite Hlen, Nat.eqb_refl. reflexivity.
Qed.

(** C8: [multi_predict] on [K >= 1] stacked means and covariances returns
    exactly what [K] independent calls to [predict] return, each call
    building its process noise from its own pre-predict mean. *)
Theorem multi_predict_is_predict_each (self : KalmanFilter.t) (means : mat) (covs : list mat) :
  (1 <= length means)%nat ->
  length means = length covs ->
  KalmanFilter.multi_predict self means covs
  = Ok (map fst (predict_each self means covs), map snd (predict_each self means covs)).
Proof.
  intros HK Hlen. unfold KalmanFilter.multi_predict.
  rewrite _create_std_batch_rows.
  rewrite stack_add_same.
  - cbn [bindR]. rewrite predict_each_means, predict_each_covs by exact Hlen. reflexivity.
  - destruct means; [simpl in HK; lia|discriminate].
  - rewrite !length_map. symmetry. exact Hlen.
Qed.

Lemma multi_predict_witness :
  KalmanFilter.multi_predict KalmanFilter.__init__
    [[150; 200; 0.5; 200; 0; 0; 0; 0]; [10; 20; 1; 40; 1; 0; 0; 0]]%float
    [eye 8 8; diag [4; 4; 1; 4; 9; 9; 1; 9]%float]
  = Ok (map fst (predict_each KalmanFilter.__init__
                   [[150; 200; 0.5; 200; 0; 0; 0; 0]; [10; 20; 1; 40; 1; 0; 0; 0]]%float
                   [eye 8 8; diag [4; 4; 1; 4; 9; 9; 1; 9]%float]),
        map snd (predict_each KalmanFilter.__init__
                   [[150; 200; 0.5; 200; 0; 0; 0; 0]; [10; 20; 1; 40; 1; 0; 0; 0]]%float
                   [eye 8 8; diag [4; 4; 1; 4; 9; 9; 1; 9]%float])).
Proof.
  apply (multi_predict_is_predict_each KalmanFilter.__init__
           [[150; 200; 0.5; 200; 0; 0; 0; 0]; [10; 20; 1; 40; 1; 0; 0; 0]]%float
           [eye 8 8; diag [4; 4; 1; 4; 9; 9; 1; 9]%float]).
  - simpl. lia.
  - reflexivity.
Defined.

(** ** The store *)

Lemma read_Ok r w o w' :
  read r w = Ok (o, w') <-> heap w !! r = Some o /\ w' = w.
Proof.
  unfold read. destruct (heap w !! r) as [o0|]; split; intros H.
  - inversion H; auto.
  - destruct H as [H ->]. inversion H; reflexivity.
  - discriminate.
  - destruct H; discriminate.
Qed.

Lemma write_Ok r o w u w' :
  write r o w = Ok (u, w') ->
  (r < length (heap w))%nat /\ w' = mkWorld (<[r := o]> (heap w)) (_count w).
Proof.
  unfold write. destruct (heap w !! r) as [o0|] eqn:E; intros H; [|discriminate].
  inversion H; subst. split; [|reflexivity].
  apply lookup_lt_Some in E. exact E.
Qed.

Lemma alloc_Ok o w r w' :
  alloc o w = Ok (r, w') <-> r = length (heap w) /\ w' = mkWorld (heap w ++ [o]) (_count w).
Proof.
  unfold alloc. split; intros H.
  - inversion H; auto.
  - destruct H as [-> ->]. reflexivity.
Qed.

(** ** strack *)

Lemma next_id_Ok w : BaseTrack.next_id w = Ok ((_count w + 1)%Z, mkWorld (heap w) (_count w + 1)).
Proof. reflexivity. Qed.

Lemma activate_Ok self kf fid w o :
  heap w !! self = Some o ->
  STrackM.activate self kf fid w
  = Ok (tt, mkWorld (<[self := STrackM.activated o kf fid (_count w + 1)]> (heap w))
                    (_count w + 1)).
Proof.
  intros Hr. unfold STrackM.activate, bindM, read, write.
  rewrite Hr, next_id_Ok. cbn [heap _count]. rewrite Hr. reflexivity.
Qed.

(** C10: [tlwh_to_xyah] divides the width by the height unguarded.  For
    every box whose height is exactly zero (either signed zero), building an
    [STrack] from it and calling [activate] raises nothing and stores a
    non-finite aspect ratio (an infinity or a NaN) as component 2 of the
    Kalman mean. *)
Theorem activate_zero_height_stores_non_finite
        (tlwh : box) (score : scalar) (kf : KalmanFilter.t) (frame_id : Z) (w : world) :
  PrimFloat.eqb (b3 tlwh) 0 = true ->
  exists r w1 w2 o m,
    alloc (STrackM.__init__ tlwh score) w = Ok (r, w1) /\
    STrackM.activate r kf frame_id w1 = Ok (tt, w2) /\
    heap w2 !! r = Some o /\
    mean o = Some m /\
    vnth m 2 = (b2 tlwh / b3 tlwh)%float /\
    PrimFloat.is_finite (vnth m 2) = false.
Proof.
  intros Hh.
  set (o0 := STrackM.__init__ tlwh score).
  assert (Hr : (heap w ++ [o0]) !! length (heap w) = Some o0).
  { rewrite lookup_app_r by lia. rewrite Nat.sub_diag. reflexivity. }
  eexists (length (heap w)), (mkWorld (heap w ++ [o0]) (_count w)), _, _, _.
  split; [reflexivity|].
  split; [apply activate_Ok; exact Hr|]. cbn [heap].
  split; [apply list_lookup_insert_eq; apply lookup_lt_Some in Hr; exact Hr|].
  split; [reflexivity|].
  split; [reflexivity|].
  change (PrimFloat.is_finite (b2 tlwh / b3 tlwh) = false).
  apply div_by_zero_not_finite. exact Hh.
Qed.

Lemma activate_zero_height_witness :
  exists r w1 w2 o m,
    alloc (STrackM.__init__ (Box 100 100 100 0) (Scalar Float64 0.9)) (mkWorld [] 0) = Ok (r, w1) /\
    STrackM.activate r KalmanFilter.__init__ 1 w1 = Ok (tt, w2) /\
    heap w2 !! r = Some o /\
    mean o = Some m /\
    vnth m 2 = (b2 (Box 100 100 100 0) / b3 (Box 100 100 100 0))%float /\
    PrimFloat.is_finite (vnth m 2) = false.
Proof.
  apply (activate_zero_height_stores_non_finite
           (Box 100 100 100 0) (Scalar Float64 0.9) KalmanFilter.__init__ 1 (mkWorld [] 0)).
  reflexivity.
Defined.

(** ** matching: the IoU kernel *)

Lemma box_iou_batch_entry (boxes_true boxes_detection : list box) i j t d :
  boxes_true !! i = Some t -> boxes_detection !! j = Some d ->
  aget (matching.box_iou_batch boxes_true boxes_detection) i j = Ok (matching.box_iou t d).
Proof.
  intros Hi Hj. unfold aget, matching.box_iou_batch. cbn [shape0 shape1 rows].
  pose proof (lookup_lt_Some _ _ _ Hi) as Hli. pose proof (lookup_lt_Some _ _ _ Hj) as Hlj.
  apply Nat.ltb_lt in Hli as Hli'. apply Nat.ltb_lt in Hlj as Hlj'.
  rewrite Hli', Hlj'. cbn [andb]. f_equal.
  unfold mnth, vnth.
  rewrite (nth_indep _ [] (map (matching.box_iou t) boxes_detection))
    by (rewrite length_map; exact Hli).
  rewrite (map_nth (fun t => map (matching.box_iou t) boxes_detection) boxes_true t i).
  rewrite (nth_indep _ 0%float (matching.box_iou (nth i boxes_true t) d))
    by (rewrite length_map; exact Hlj).
  rewrite (map_nth (matching.box_iou (nth i boxes_true t)) boxes_detection d j).
  rewrite (nth_lookup_Some _ _ _ _ Hi), (nth_lookup_Some _ _ _ _ Hj). reflexivity.
Qed.

Lemma zero_div x d :
  PrimFloat.eqb x 0 = true ->
  (PrimFloat.eqb d 0 = false -> PrimFloat.is_nan d = false -> PrimFloat.eqb (x / d) 0 = true)
  /\ (PrimFloat.eqb d 0 = true \/ PrimFloat.is_nan d = true -> PrimFloat.is_nan (x / d) = true).
Proof.
  intros Hx. apply is_zero_spec in Hx as [s Hs]. split.
  - intros Hd Hn. apply is_zero_spec. rewrite div_spec, Hs. unfold SF64div, SFdiv.
    destruct (Prim2SF d) as [sd|sd| |sd md ed] eqn:E; eauto.
    + exfalso. assert (PrimFloat.eqb d 0 = true) by (apply is_zero_spec; eauto). congruence.
    + exfalso. assert (PrimFloat.is_nan d = true) by (apply is_nan_spec; exact E). congruence.
  - intros Hd. apply is_nan_spec. rewrite div_spec, Hs. unfold SF64div, SFdiv.
    destruct Hd as [Hd|Hd].
    + apply is_zero_spec in Hd as [sd ->]. reflexivity.
    + apply is_nan_spec in Hd as ->. reflexivity.
Qed.

(** *** Degenerate boxes *)

Lemma intersection_overlap t d :
  matching.intersection t d
  = (np_maximum (overlap_w t d) 0 * np_maximum (overlap_h t d) 0)%float.
Proof. reflexivity. Qed.

Lemma finite_box_spec b :
  finite_box b = true ->
  PrimFloat.is_finite (b0 b) = true /\ PrimFloat.is_finite (b1 b) = true /\
  PrimFloat.is_finite (b2 b) = true /\ PrimFloat.is_finite (b3 b) = true.
Proof. unfold finite_box. rewrite !andb_true_iff. tauto. Qed.

(** Where one of the two boxes has no extent along an axis, the clamped
    overlap along that axis is a zero. *)
Lemma clamped_overlap_zero lo_t hi_t lo_d hi_d :
  PrimFloat.is_finite lo_t = true -> PrimFloat.is_finite hi_t = true ->
  PrimFloat.is_finite lo_d = true -> PrimFloat.is_finite hi_d = true ->
  PrimFloat.leb hi_t lo_t = true \/ PrimFloat.leb hi_d lo_d = true ->
  PrimFloat.eqb (np_maximum (np_minimum hi_t hi_d - np_maximum lo_t lo_d) 0) 0 = true.
Proof.
  intros F1 F2 F3 F4 H. apply np_maximum_nonpos, sub_nonpos.
  - apply np_minimum_finite; assumption.
  - apply np_maximum_finite; assumption.
  - pose proof (np_minimum_finite _ _ F2 F4). pose proof (np_maximum_finite _ _ F1 F3).
    destruct H as [H|H].
    + apply leb_trans with hi_t; try assumption; [apply np_minimum_le_l; assumption|].
      apply leb_trans with lo_t; try assumption. apply np_maximum_ge_l; assumption.
    + apply leb_trans with hi_d; try assumption; [apply np_minimum_le_r; assumption|].
      apply leb_trans with lo_d; try assumption. apply np_maximum_ge_r; assumption.
Qed.

Lemma mul_zero_or_nan_l x y :
  PrimFloat.eqb x 0 = true ->
  PrimFloat.eqb (x * y) 0 = true \/ PrimFloat.is_nan (x * y) = true.
Proof.
  intros Hx. apply is_zero_spec in Hx as [s Hs].
  rewrite is_zero_spec, is_nan_spec, mul_spec, Hs. unfold SF64mul.
  destruct (Prim2SF y) as [s'|s'| |s' m e]; simpl; eauto.
Qed.

Lemma mul_zero_or_nan_r x y :
  PrimFloat.eqb y 0 = true ->
  PrimFloat.eqb (x * y) 0 = true \/ PrimFloat.is_nan (x * y) = true.
Proof.
  intros Hy. apply is_zero_spec in Hy as [s Hs].
  rewrite is_zero_spec, is_nan_spec, mul_spec, Hs. unfold SF64mul.
  destruct (Prim2SF x) as [s'|s'| |s' m e]; simpl; eauto.
Qed.

Lemma div_nan_l x y : PrimFloat.is_nan x = true -> PrimFloat.is_nan (x / y) = true.
Proof.
  rewrite !is_nan_spec, div_spec. intros ->. reflexivity.
Qed.

Lemma clamp_finite x : PrimFloat.is_finite x = true -> PrimFloat.is_finite (np_maximum x 0) = true.
Proof. intros H. apply np_maximum_finite; [exact H | reflexivity]. Qed.

(** The intersection area of a pair with a degenerate box. *)
Lemma degenerate_intersection t d :
  finite_box t = true -> finite_box d = true ->
  degenerate t || degenerate d = true ->
  (PrimFloat.eqb (matching.intersection t d) 0 = true
   \/ PrimFloat.is_nan (matching.intersection t d) = true)
  /\ (PrimFloat.is_finite (overlap_w t d) = true ->
      PrimFloat.is_finite (overlap_h t d) = true ->
      PrimFloat.eqb (matching.intersection t d) 0 = true).
Proof.
  intros Ft Fd Hdeg.
  apply finite_box_spec in Ft as (T0 & T1 & T2 & T3).
  apply finite_box_spec in Fd as (D0 & D1 & D2 & D3).
  rewrite intersection_overlap.
  assert (Hax : PrimFloat.eqb (np_maximum (overlap_w t d) 0) 0 = true
                \/ PrimFloat.eqb (np_maximum (overlap_h t d) 0) 0 = true).
  { unfold degenerate in Hdeg. rewrite !orb_true_iff in Hdeg.
    destruct Hdeg as [[H|H]|[H|H]].
    - left. apply clamped_overlap_zero; auto.
    - right. apply clamped_overlap_zero; auto.
    - left. apply clamped_overlap_zero; auto.
    - right. apply clamped_overlap_zero; auto. }
  split.
  - destruct Hax as [H|H]; [apply mul_zero_or_nan_l | apply mul_zero_or_nan_r]; exact H.
  - intros Fw Fh. destruct Hax as [H|H].
    + apply mul_zero_l; [exact H | apply clamp_finite; exact Fh].
    + apply mul_zero_r; [apply clamp_finite; exact Fw | exact H].
Qed.

(** C6, as the code has it.  For two boxes with finite coordinates, one of
    them degenerate, the entry of the IoU matrix is computed without an
    error and is 0 or NaN.  When the overlap extents do not overflow, the
    intersection area is 0, and the entry is 0 if the denominator
    [area_true + area_detection - area_inter] is a non-zero number and NaN
    if that denominator is zero (the 0/0 of two boxes of zero area) or
    NaN. *)
Theorem box_iou_degenerate (boxes_true boxes_detection : list box) i j t d :
  boxes_true !! i = Some t -> boxes_detection !! j = Some d ->
  finite_box t = true -> finite_box d = true ->
  degenerate t || degenerate d = true ->
  exists v,
    aget (matching.box_iou_batch boxes_true boxes_detection) i j = Ok v
    /\ (PrimFloat.eqb v 0 = true \/ PrimFloat.is_nan v = true)
    /\ (PrimFloat.is_finite (overlap_w t d) = true ->
        PrimFloat.is_finite (overlap_h t d) = true ->
        PrimFloat.eqb (matching.intersection t d) 0 = true
        /\ (PrimFloat.eqb (matching.union t d) 0 = false ->
            PrimFloat.is_nan (matching.union t d) = false -> PrimFloat.eqb v 0 = true)
        /\ (PrimFloat.eqb (matching.union t d) 0 = true
            \/ PrimFloat.is_nan (matching.union t d) = true ->
            PrimFloat.is_nan v = true)).
Proof.
  intros Hi Hj Ft Fd Hdeg. exists (matching.box_iou t d).
  split; [apply box_iou_batch_entry; assumption|].
  destruct (degenerate_intersection t d Ft Fd Hdeg) as [Hcases Hzero].
  unfold matching.box_iou. split.
  - destruct Hcases as [Hz|Hn]; [|right; apply div_nan_l; exact Hn].
    destruct (zero_div _ (matching.union t d) Hz) as [Hgood Hbad].
    destruct (PrimFloat.eqb (matching.union t d) 0) eqn:U0; [right; apply Hbad; auto|].
    destruct (PrimFloat.is_nan (matching.union t d)) eqn:Un; [right; apply Hbad; auto|].
    left. apply Hgood; reflexivity.
  - intros Fw Fh. specialize (Hzero Fw Fh). split; [exact Hzero|].
    apply zero_div. exact Hzero.
Qed.

Lemma box_iou_degenerate_witness :
  exists v,
    aget (matching.box_iou_batch [Box 10 10 10 30] [Box 0 0 20 20]) 0 0 = Ok v
    /\ (PrimFloat.eqb v 0 = true \/ PrimFloat.is_nan v = true)
    /\ (PrimFloat.is_finite (overlap_w (Box 10 10 10 30) (Box 0 0 20 20)) = true ->
        PrimFloat.is_finite (overlap_h (Box 10 10 10 30) (Box 0 0 20 20)) = true ->
        PrimFloat.eqb (matching.intersection (Box 10 10 10 30) (Box 0 0 20 20)) 0 = true
        /\ (PrimFloat.eqb (matching.union (Box 10 10 10 30) (Box 0 0 20 20)) 0 = false ->
            PrimFloat.is_nan (matching.union (Box 10 10 10 30) (Box 0 0 20 20)) = false ->
            PrimFloat.eqb v 0 = true)
        /\ (PrimFloat.eqb (matching.union (Box 10 10 10 30) (Box 0 0 20 20)) 0 = true
            \/ PrimFloat.is_nan (matching.union (Box 10 10 10 30) (Box 0 0 20 20)) = true ->
            PrimFloat.is_nan v = true)).
Proof.
  apply (box_iou_degenerate [Box 10 10 10 30] [Box 0 0 20 20] 0 0
           (Box 10 10 10 30) (Box 0 0 20 20)); reflexivity.
Defined.

(** Two degenerate boxes: the entry is NaN, not 0. *)
Lemma box_iou_degenerate_pair_is_nan :
  exists v,
    aget (matching.box_iou_batch [Box 5 5 5 5] [Box 5 5 5 5]) 0 0 = Ok v /\
    PrimFloat.is_nan v = true /\ PrimFloat.eqb v 0 = false.
Proof. exists (matching.box_iou (Box 5 5 5 5) (Box 5 5 5 5)). repeat split. Qed.

(** ** byte_tracker: the score masks *)

Lemma masked_In mask bboxes scores (b : vec) (s : float) :
  In (b, s) (BYTETracker.masked mask bboxes scores)
  <-> In (b, s) (combine bboxes scores) /\ mask s = true.
Proof. unfold BYTETracker.masked. rewrite filter_In. reflexivity. Qed.

(** ** byte_tracker: construction *)

Lemma In_zrange lo n z : (lo <= z < lo + Z.of_nat n)%Z -> In z (zrange lo n).
Proof.
  intros H. unfold zrange. apply in_map_iff.
  exists (Z.to_nat (z - lo)). split; [lia|]. apply in_seq. lia.
Qed.

Lemma buffer_grid : buffer_grid_ok (-64) 129 = true.
Proof. vm_compute. reflexivity. Qed.

Lemma buffer_grid_sound lo n frame_rate track_buffer :
  buffer_grid_ok lo n = true ->
  In frame_rate (zrange lo n) -> In track_buffer (zrange lo n) ->
  exists k, BYTETracker.compute_buffer_size frame_rate track_buffer = Ok k.
Proof.
  unfold buffer_grid_ok. intros G Hf Ht.
  rewrite forallb_forall in G. specialize (G frame_rate Hf).
  rewrite forallb_forall in G. specialize (G track_buffer Ht).
  destruct (BYTETracker.compute_buffer_size frame_rate track_buffer); [eauto | discriminate].
Qed.

Lemma compute_buffer_size_small frame_rate track_buffer :
  (-64 <= frame_rate <= 64)%Z -> (-64 <= track_buffer <= 64)%Z ->
  exists n, BYTETracker.compute_buffer_size frame_rate track_buffer = Ok n.
Proof.
  intros Hf Ht.
  apply (buffer_grid_sound (-64) 129); [exact buffer_grid | apply In_zrange; lia ..].
Qed.

Lemma float_of_int_Raise z e : float_of_int z = Raise e -> e = OverflowError.
Proof.
  unfold float_of_int. destruct (binary_normalize prec emax z 0 false); congruence.
Qed.

Lemma int_of_float_Raise x e :
  int_of_float x = Raise e -> e = OverflowError \/ e = ValueError.
Proof.
  unfold int_of_float. destruct (Prim2SF x); intros H; inversion H; auto.
Qed.

(** The only errors of [int(frame_rate / 30.0 * track_buffer)] are those of
    the conversions between [int] and [float]. *)
Lemma compute_buffer_size_Raise frame_rate track_buffer e :
  BYTETracker.compute_buffer_size frame_rate track_buffer = Raise e ->
  e = OverflowError \/ e = ValueError.
Proof.
  unfold BYTETracker.compute_buffer_size, py_div.
  change (PrimFloat.eqb 30 0) with false. cbn [bindR].
  destruct (float_of_int frame_rate) as [fr|e1] eqn:E1; cbn [bindR].
  - destruct (float_of_int track_buffer) as [tb|e2] eqn:E2; cbn [bindR].
    + apply int_of_float_Raise.
    + intros H. inversion H; subst. left. apply (float_of_int_Raise _ _ E2).
  - intros H. inversion H; subst. left. apply (float_of_int_Raise _ _ E1).
Qed.

(** No argument of the constructor is validated: it fails only when the
    integer arithmetic of [buffer_size] does. *)
Lemma init_Ok track_thresh track_buffer match_thresh frame_rate n w :
  BYTETracker.compute_buffer_size frame_rate track_buffer = Ok n ->
  BYTETracker.__init__ track_thresh track_buffer match_thresh frame_rate w
  = Ok (BYTETracker.mk track_thresh match_thresh 0 (track_thresh + 0.1)%float n n
                       KalmanFilter.__init__ [] [] [],
        mkWorld (heap w) 0).
Proof.
  intros H. unfold BYTETracker.__init__, bindM, lift. rewrite H. reflexivity.
Qed.

Lemma init_Raise track_thresh track_buffer match_thresh frame_rate e w :
  BYTETracker.compute_buffer_size frame_rate track_buffer = Raise e ->
  BYTETracker.__init__ track_thresh track_buffer match_thresh frame_rate w = Raise e.
Proof.
  intros H. unfold BYTETracker.__init__, bindM, lift. rewrite H. reflexivity.
Qed.

(** C9, as the code has it: the constructor validates nothing.  Whatever
    the thresholds (in range or not, NaN included), the frame rate and the
    track buffer, construction either returns a tracker (frame 0, empty
    lists, [det_thresh = track_thresh + 0.1], the identity counter reset,
    [max_time_lost = int(frame_rate / 30.0 * track_buffer)]) or fails in
    that arithmetic with the [OverflowError] or [ValueError] of a
    conversion between [int] and [float]; and for every [frame_rate] and
    [track_buffer] between -64 and 64, zero and the negative values
    included, it returns a tracker. *)
Theorem construction_accepts_any_configuration
        (track_thresh match_thresh : float) (track_buffer frame_rate : Z) (w : world) :
  match BYTETracker.compute_buffer_size frame_rate track_buffer with
  | Ok n =>
      BYTETracker.__init__ track_thresh track_buffer match_thresh frame_rate w
      = Ok (BYTETracker.mk track_thresh match_thresh 0 (track_thresh + 0.1)%float n n
                           KalmanFilter.__init__ [] [] [],
            mkWorld (heap w) 0)
  | Raise e =>
      BYTETracker.__init__ track_thresh track_buffer match_thresh frame_rate w = Raise e
      /\ (e = OverflowError \/ e = ValueError)
  end
  /\ ((-64 <= frame_rate <= 64)%Z -> (-64 <= track_buffer <= 64)%Z ->
      exists n, BYTETracker.compute_buffer_size frame_rate track_buffer = Ok n).
Proof.
  split; [|apply compute_buffer_size_small].
  destruct (BYTETracker.compute_buffer_size frame_rate track_buffer) as [n|e] eqn:E.
  - apply init_Ok. exact E.
  - split; [apply init_Raise; exact E | apply (compute_buffer_size_Raise _ _ _ E)].
Qed.

(** The failing branch is met only far outside any frame rate: the
    conversion of [2 ^ 1024] to a float overflows. *)
Lemma astronomical_frame_rate_overflows :
  BYTETracker.__init__ 0.25 30 0.8 (2 ^ 1024) (mkWorld [] 0) = Raise OverflowError.
Proof. vm_compute. reflexivity. Qed.

(** Three invalid configurations, each constructed without an error: a
    negative frame rate, a zero track buffer, thresholds outside [0, 1]. *)
Lemma invalid_configurations_construct :
  (exists t w, BYTETracker.__init__ 0.25 30 0.8 (-30) (mkWorld [] 0) = Ok (t, w)
               /\ BYTETracker.max_time_lost t = (-30)%Z)
  /\ (exists t w, BYTETracker.__init__ 0.25 0 0.8 30 (mkWorld [] 0) = Ok (t, w)
                  /\ BYTETracker.max_time_lost t = 0%Z)
  /\ (exists t w, BYTETracker.__init__ 7.5 30 (-2) 30 (mkWorld [] 0) = Ok (t, w)
                  /\ BYTETracker.track_thresh t = 7.5%float
                  /\ BYTETracker.match_thresh t = (-2)%float).
Proof. repeat split; eexists _, _; repeat split; vm_compute; reflexivity. Qed.

(** ** matching: the assignment kernel *)

Lemma aget_Ok a i j c :
  aget a i j = Ok c <-> (i < shape0 a)%nat /\ (j < shape1 a)%nat /\ c = mnth (rows a) i j.
Proof.
  unfold aget.
  destruct (Nat.ltb_spec i (shape0 a)) as [Hi|Hi], (Nat.ltb_spec j (shape1 a)) as [Hj|Hj];
    cbn [andb]; split; intros H.
  - inversion H; auto.
  - destruct H as (_ & _ & ->). reflexivity.
  - discriminate.
  - lia.
  - discriminate.
  - lia.
  - discriminate.
  - lia.
Qed.




Lemma setdiff_arange_In n taken i :
  In i (matching.setdiff_arange n taken) <-> (i < n)%nat /\ ~ In i taken.
Proof.
  unfold matching.setdiff_arange. rewrite filter_In, in_seq, negb_true_iff.
  rewrite <- not_true_iff_false, existsb_exists. split.
  - intros [H1 H2]. split; [lia|]. intros Hin. apply H2. exists i. split; [exact Hin|].
    apply Nat.eqb_refl.
  - intros [H1 H2]. split; [lia|]. intros [x [Hin Hx]]. apply Nat.eqb_eq in Hx. subst x.
    contradiction.
Qed.

Lemma setdiff_arange_nil n : matching.setdiff_arange n [] = seq 0 n.
Proof.
  unfold matching.setdiff_arange. cbn [existsb negb].
  induction (seq 0 n) as [|x l IH]; simpl; [reflexivity | rewrite IH; reflexivity].
Qed.

(** The matches kept by [indices_to_matches] are the index pairs whose cost
    passes the threshold, in the solver's order. *)
Lemma lookup_costs_filter a f idx costs :
  matching.lookup_costs a idx = Ok costs ->
  map fst (List.filter snd (combine idx (map f costs)))
  = List.filter (fun p => f (mnth (rows a) (fst p) (snd p))) idx
  /\ Forall (fun p => (fst p < shape0 a)%nat /\ (snd p < shape1 a)%nat) idx.
Proof.
  revert costs. induction idx as [|[i j] idx IH]; intros costs H; simpl in H.
  - inversion H; subst. split; [reflexivity | constructor].
  - apply bindR_Ok in H as [c [Hc H]]. apply bindR_Ok in H as [cs [Hcs H]].
    inversion H; subst. apply aget_Ok in Hc as (Hi & Hj & ->).
    destruct (IH cs Hcs) as [IH1 IH2]. split.
    + cbn [map combine List.filter fst snd].
      destruct (f (mnth (rows a) i j)); cbn [map fst]; rewrite IH1; reflexivity.
    + constructor; [simpl; auto | exact IH2].
Qed.

Lemma indices_to_matches_Ok a idx thresh matches ua ub :
  matching.indices_to_matches a idx thresh = Ok (matches, ua, ub) ->
  matches = List.filter (fun p => PrimFloat.leb (mnth (rows a) (fst p) (snd p)) thresh) idx
  /\ ua = matching.setdiff_arange (shape0 a) (map fst matches)
  /\ ub = matching.setdiff_arange (shape1 a) (map snd matches)
  /\ Forall (fun p => (fst p < shape0 a)%nat /\ (snd p < shape1 a)%nat) idx.
Proof.
  unfold matching.indices_to_matches. intros H.
  apply bindR_Ok in H as [costs [Hc H]].
  destruct (lookup_costs_filter a (fun c => PrimFloat.leb c thresh) idx costs Hc) as [E F].
  rewrite E in H. inversion H; subst. auto.
Qed.

(** The outcomes of [linear_assignment]: the empty-matrix branch, or the
    solver's index pairs filtered against the threshold on the clipped
    matrix. *)
Lemma linear_assignment_Ok lsa a thresh matches ua ub :
  matching.linear_assignment lsa a thresh = Ok (matches, ua, ub) ->
  ua = matching.setdiff_arange (shape0 a) (map fst matches)
  /\ ub = matching.setdiff_arange (shape1 a) (map snd matches)
  /\ ((arr_size a = 0%nat /\ matches = [])
      \/ (arr_size a <> 0%nat /\ exists row_ind col_ind,
            lsa (matching.clip thresh a) = Ok (row_ind, col_ind)
            /\ length row_ind = length col_ind
            /\ matches
               = List.filter
                   (fun p => PrimFloat.leb
                               (mnth (rows (matching.clip thresh a)) (fst p) (snd p)) thresh)
                   (combine row_ind col_ind)
            /\ Forall (fun p => (fst p < shape0 a)%nat /\ (snd p < shape1 a)%nat)
                      (combine row_ind col_ind))).
Proof.
  unfold matching.linear_assignment.
  destruct (Nat.eqb (arr_size a) 0) eqn:Es.
  - apply Nat.eqb_eq in Es. intros H. inversion H; subst. cbn [map].
    rewrite !setdiff_arange_nil. auto.
  - apply Nat.eqb_neq in Es. intros H.
    apply bindR_Ok in H as [[row_ind col_ind] [Hs H]].
    apply bindR_Ok in H as [idx [Hi H]].
    unfold matching.column_stack in Hi.
    destruct (Nat.eqb (length row_ind) (length col_ind)) eqn:El; [|discriminate].
    inversion Hi; subst idx. apply Nat.eqb_eq in El.
    apply indices_to_matches_Ok in H as (Hm & Hua & Hub & Hr).
    split; [exact Hua|]. split; [exact Hub|]. right. split; [exact Es|].
    exists row_ind, col_ind. auto.
Qed.










Lemma map_fst_combine_eq {A B} (l : list A) (l' : list B) :
  length l = length l' -> map fst (combine l l') = l.
Proof.
  revert l'. induction l as [|x l IH]; intros [|y l'] H; simpl in *; try discriminate;
    [reflexivity|]. f_equal. apply IH. lia.
Qed.

Lemma map_snd_combine_eq {A B} (l : list A) (l' : list B) :
  length l = length l' -> map snd (combine l l') = l'.
Proof.
  revert l'. induction l as [|x l IH]; intros [|y l'] H; simpl in *; try discriminate;
    [reflexivity|]. f_equal. apply IH. lia.
Qed.




(** *** Every partial matching extends to an assignment *)



Lemma setdiff_arange_NoDup n taken : NoDup (matching.setdiff_arange n taken).
Proof. apply NoDup_ListNoDup, List.NoDup_filter, seq_NoDup. Qed.



Lemma combine_fst_snd {A B} (l : list (A * B)) : combine (map fst l) (map snd l) = l.
Proof. induction l as [|[a b] l IH]; simpl; [reflexivity | rewrite IH; reflexivity]. Qed.







(** *** Concrete assignment problems, with the reference solver *)









(** ** byte_tracker: de-duplication *)

Lemma where_lt_In a bound i j :
  In (i, j) (where_lt a bound)
  <-> (i < shape0 a)%nat /\ (j < shape1 a)%nat /\ PrimFloat.ltb (mnth (rows a) i j) bound = true.
Proof.
  unfold where_lt. rewrite in_flat_map. split.
  - intros [i' [Hi Hin]]. apply in_map_iff in Hin as [j' [Heq Hj]].
    inversion Heq; subst. apply filter_In in Hj as [Hj Hlt].
    apply in_seq in Hi. apply in_seq in Hj. repeat split; [lia | lia | exact Hlt].
  - intros (Hi & Hj & Hlt). exists i. split; [apply in_seq; lia|].
    apply in_map_iff. exists j. split; [reflexivity|].
    apply filter_In. split; [apply in_seq; lia | exact Hlt].
Qed.

Lemma In_combine_seq {A} (l : list A) s i x :
  In (i, x) (combine (seq s (length l)) l) <-> (s <= i)%nat /\ l !! (i - s)%nat = Some x.
Proof.
  revert s. induction l as [|y l IH]; intros s; simpl.
  - split; [tauto | intros [_ H]; discriminate].
  - rewrite IH. split.
    + intros [H | [Hs Hl]].
      * inversion H; subst. rewrite Nat.sub_diag. auto.
      * split; [lia|]. replace (i - s)%nat with (S (i - S s)) by lia. exact Hl.
    + intros [Hs Hl]. destruct (Nat.eq_dec s i) as [->|Hne].
      * rewrite Nat.sub_diag in Hl. inversion Hl; subst. auto.
      * right. split; [lia|]. replace (i - s)%nat with (S (i - S s)) in Hl by lia. exact Hl.
Qed.

(** What [drop_indices] keeps: the elements at the positions outside
    [dups]. *)
Lemma drop_indices_In {A} (dups : list nat) (l : list A) x :
  In x (drop_indices dups l) <-> exists i, l !! i = Some x /\ ~ In i dups.
Proof.
  unfold drop_indices. rewrite in_map_iff. split.
  - intros [[i y] [Heq Hin]]. simpl in Heq. subst y.
    apply filter_In in Hin as [Hin Hk]. apply In_combine_seq in Hin as [_ Hl].
    rewrite Nat.sub_0_r in Hl. exists i. split; [exact Hl|].
    cbn [fst] in Hk. apply negb_true_iff in Hk. intros Hd.
    assert (existsb (Nat.eqb i) dups = true)
      by (apply existsb_exists; exists i; split; [exact Hd | apply Nat.eqb_refl]).
    congruence.
  - intros [i [Hl Hd]]. exists (i, x). split; [reflexivity|].
    apply filter_In. split.
    + apply In_combine_seq. rewrite Nat.sub_0_r. split; [lia | exact Hl].
    + cbn [fst]. apply negb_true_iff. apply not_true_iff_false. intros He.
      apply existsb_exists in He as [k [Hk Hek]]. apply Nat.eqb_eq in Hek. subst k.
      contradiction.
Qed.

Lemma duplicate_loop_spec (A B : list STrack) pairs da db da' db' :
  duplicate_loop A B pairs da db = Ok (da', db') ->
  (forall i, In i da' <->
     In i da \/ exists j ta tb,
       In (i, j) pairs /\ age_at A i ta /\ age_at B j tb /\ (ta <= tb)%Z)
  /\ (forall j, In j db' <->
        In j db \/ exists i ta tb,
          In (i, j) pairs /\ age_at A i ta /\ age_at B j tb /\ (tb < ta)%Z).
Proof.
  revert da db. induction pairs as [|[i0 j0] pairs IH]; intros da db H; simpl in H.
  - inversion H; subst. split; intros k; split; auto;
      intros [Hk | (? & ? & ? & [] & _)]; exact Hk.
  - destruct (A !! i0) as [oa|] eqn:Ea; [|discriminate].
    destruct (B !! j0) as [ob|] eqn:Eb; [|discriminate].
    apply bindR_Ok in H as [ta [Hta H]]. apply bindR_Ok in H as [tb [Htb H]].
    assert (Hage : forall ta' tb', age_at A i0 ta' -> age_at B j0 tb' -> ta' = ta /\ tb' = tb).
    { intros ta' tb' [o1 [H1 H2]] [o2 [H3 H4]]. split; congruence. }
    destruct (Z.ltb tb ta) eqn:Hlt;
      [apply Z.ltb_lt in Hlt | apply Z.ltb_ge in Hlt];
      destruct (IH _ _ H) as [IHa IHb]; split; intros k.
    + rewrite IHa. split.
      * intros [Hk | (j & ta' & tb' & Hin & Hrest)]; [auto|].
        right. exists j, ta', tb'. split; [right; exact Hin | exact Hrest].
      * intros [Hk | (j & ta' & tb' & [Heq|Hin] & Ha & Hb & Hle)]; [auto| |].
        -- inversion Heq; subst. destruct (Hage _ _ Ha Hb). lia.
        -- right. exists j, ta', tb'. auto.
    + rewrite IHb. split.
      * intros [[<- | Hk] | (i & ta' & tb' & Hin & Hrest)]; [| auto |].
        -- right. exists i0, ta, tb. split; [left; reflexivity|].
           split; [exists oa; auto|]. split; [exists ob; auto | exact Hlt].
        -- right. exists i, ta', tb'. split; [right; exact Hin | exact Hrest].
      * intros [Hk | (i & ta' & tb' & [Heq|Hin] & Ha & Hb & Hle)].
        -- left. right. exact Hk.
        -- inversion Heq; subst. left. left. reflexivity.
        -- right. exists i, ta', tb'. auto.
    + rewrite IHa. split.
      * intros [[<- | Hk] | (j & ta' & tb' & Hin & Hrest)]; [| auto |].
        -- right. exists j0, ta, tb. split; [left; reflexivity|].
           split; [exists oa; auto|]. split; [exists ob; auto | exact Hlt].
        -- right. exists j, ta', tb'. split; [right; exact Hin | exact Hrest].
      * intros [Hk | (j & ta' & tb' & [Heq|Hin] & Ha & Hb & Hle)].
        -- left. right. exact Hk.
        -- inversion Heq; subst. left. left. reflexivity.
        -- right. exists j, ta', tb'. auto.
    + rewrite IHb. split.
      * intros [Hk | (i & ta' & tb' & Hin & Hrest)]; [auto|].
        right. exists i, ta', tb'. split; [right; exact Hin | exact Hrest].
      * intros [Hk | (i & ta' & tb' & [Heq|Hin] & Ha & Hb & Hle)]; [auto| |].
        -- inversion Heq; subst. destruct (Hage _ _ Ha Hb). lia.
        -- right. exists i, ta', tb'. auto.
Qed.

Lemma iou_distance_shape A B :
  shape0 (matching.iou_distance A B) = length A
  /\ shape1 (matching.iou_distance A B) = length B.
Proof.
  unfold matching.iou_distance, matching.ious, matching.box_iou_batch, zeros, arr_map.
  destruct A as [|a A]; [split; reflexivity|]. cbn [length Nat.eqb negb map].
  destruct B as [|b B]; cbn [shape0 shape1 map length]; rewrite ?length_map; auto.
Qed.

(** Which positions a returning [remove_duplicate_stracks] dropped. *)
Lemma remove_duplicate_stracks_Ok {X} (obj : X -> STrack)
        (s_tracks_a s_tracks_b result_a result_b : list X) :
  remove_duplicate_stracks obj s_tracks_a s_tracks_b = Ok (result_a, result_b) ->
  exists duplicates_a duplicates_b,
    result_a = drop_indices duplicates_a s_tracks_a
    /\ result_b = drop_indices duplicates_b s_tracks_b
    /\ (forall i, In i duplicates_a <->
          exists j ta tb,
            close_pair (map obj s_tracks_a) (map obj s_tracks_b) i j
            /\ age_at (map obj s_tracks_a) i ta /\ age_at (map obj s_tracks_b) j tb
            /\ (ta <= tb)%Z)
    /\ (forall j, In j duplicates_b <->
          exists i ta tb,
            close_pair (map obj s_tracks_a) (map obj s_tracks_b) i j
            /\ age_at (map obj s_tracks_a) i ta /\ age_at (map obj s_tracks_b) j tb
            /\ (tb < ta)%Z).
Proof.
  unfold remove_duplicate_stracks. intros H.
  apply bindR_Ok in H as [[da db] [Hloop H]]. inversion H; subst. clear H.
  exists da, db. split; [reflexivity|]. split; [reflexivity|].
  apply duplicate_loop_spec in Hloop as [Ha Hb].
  destruct (iou_distance_shape (map obj s_tracks_a) (map obj s_tracks_b)) as [S0 S1].
  assert (Hpair : forall i j,
            In (i, j) (where_lt (matching.iou_distance (map obj s_tracks_a)
                                                       (map obj s_tracks_b)) 0.15)
            <-> close_pair (map obj s_tracks_a) (map obj s_tracks_b) i j).
  { intros i j. rewrite where_lt_In, S0, S1. reflexivity. }
  split; intros k; [rewrite Ha | rewrite Hb]; split.
  - intros [[] | (j & ta & tb & Hin & Hrest)]. exists j, ta, tb. rewrite <- Hpair. auto.
  - intros (j & ta & tb & Hin & Hrest). right. exists j, ta, tb. rewrite Hpair. auto.
  - intros [[] | (i & ta & tb & Hin & Hrest)]. exists i, ta, tb. rewrite <- Hpair. auto.
  - intros (i & ta & tb & Hin & Hrest). right. exists i, ta, tb. rewrite Hpair. auto.
Qed.

Lemma duplicate_loop_total (A B : list STrack) pairs da db :
  Forall timed A -> Forall timed B ->
  (forall i j, In (i, j) pairs -> (i < length A)%nat /\ (j < length B)%nat) ->
  exists out, duplicate_loop A B pairs da db = Ok out.
Proof.
  intros HA HB. revert da db.
  induction pairs as [|[i j] pairs IH]; intros da db Hr; simpl; [eauto|].
  destruct (Hr i j (or_introl eq_refl)) as [Hi Hj].
  destruct (lookup_lt_is_Some_2 A i Hi) as [ta Hta].
  destruct (lookup_lt_is_Some_2 B j Hj) as [tb Htb].
  rewrite Hta, Htb.
  rewrite List.Forall_forall in HA, HB.
  destruct (HA ta) as [xa Hxa]; [apply list_elem_of_In, (list_elem_of_lookup_2 _ _ _ Hta)|].
  destruct (HB tb) as [xb Hxb]; [apply list_elem_of_In, (list_elem_of_lookup_2 _ _ _ Htb)|].
  rewrite Hxa, Hxb. cbn [bindR].
  destruct (Z.ltb xb xa); apply IH; intros i' j' Hin; apply Hr; right; exact Hin.
Qed.

(** C7, as the code has it.  On two lists of tracks that have a
    [frame_id] and a [start_frame], [remove_duplicate_stracks] returns.
    The positions dropped from the first list are those in a close pair
    whose first track is not the older one (its age is at most the
    other's, equality included); the positions dropped from the second
    list are those in a close pair whose first track is strictly older.
    So the younger track of a close pair is dropped, and on equal ages the
    track of the first list is. *)
Theorem remove_duplicate_stracks_drops {X} (obj : X -> STrack) (s_tracks_a s_tracks_b : list X) :
  Forall timed (map obj s_tracks_a) -> Forall timed (map obj s_tracks_b) ->
  exists duplicates_a duplicates_b,
    remove_duplicate_stracks obj s_tracks_a s_tracks_b
    = Ok (drop_indices duplicates_a s_tracks_a, drop_indices duplicates_b s_tracks_b)
    /\ (forall i, In i duplicates_a <->
          exists j ta tb,
            close_pair (map obj s_tracks_a) (map obj s_tracks_b) i j
            /\ age_at (map obj s_tracks_a) i ta /\ age_at (map obj s_tracks_b) j tb
            /\ (ta <= tb)%Z)
    /\ (forall j, In j duplicates_b <->
          exists i ta tb,
            close_pair (map obj s_tracks_a) (map obj s_tracks_b) i j
            /\ age_at (map obj s_tracks_a) i ta /\ age_at (map obj s_tracks_b) j tb
            /\ (tb < ta)%Z).
Proof.
  intros HA HB.
  assert (Hret : exists ra rb, remove_duplicate_stracks obj s_tracks_a s_tracks_b = Ok (ra, rb)).
  { unfold remove_duplicate_stracks.
    destruct (iou_distance_shape (map obj s_tracks_a) (map obj s_tracks_b)) as [S0 S1].
    destruct (duplicate_loop_total (map obj s_tracks_a) (map obj s_tracks_b)
                (where_lt (matching.iou_distance (map obj s_tracks_a) (map obj s_tracks_b))
                          0.15)
                [] [] HA HB) as [[da db] Hloop].
    - intros i j Hin. apply where_lt_In in Hin as (Hi & Hj & _). rewrite <- S0, <- S1. auto.
    - rewrite Hloop. cbn [bindR]. eauto. }
  destruct Hret as (ra & rb & Hret).
  destruct (remove_duplicate_stracks_Ok obj s_tracks_a s_tracks_b ra rb Hret)
    as (da & db & -> & -> & Ha & Hb).
  exists da, db. auto.
Qed.

Lemma remove_duplicate_stracks_witness :
  exists duplicates_a duplicates_b,
    remove_duplicate_stracks id [twin 1] [twin 2]
    = Ok (drop_indices duplicates_a [twin 1], drop_indices duplicates_b [twin 2])
    /\ (forall i, In i duplicates_a <->
          exists j ta tb,
            close_pair (map id [twin 1]) (map id [twin 2]) i j
            /\ age_at (map id [twin 1]) i ta /\ age_at (map id [twin 2]) j tb
            /\ (ta <= tb)%Z)
    /\ (forall j, In j duplicates_b <->
          exists i ta tb,
            close_pair (map id [twin 1]) (map id [twin 2]) i j
            /\ age_at (map id [twin 1]) i ta /\ age_at (map id [twin 2]) j tb
            /\ (tb < ta)%Z).
Proof.
  apply (remove_duplicate_stracks_drops id [twin 1] [twin 2]);
    repeat constructor; exists 0%Z; reflexivity.
Defined.

(** On equal ages the track of the first list goes and the track of the
    second list stays. *)
Lemma tie_drops_from_first_list :
  close_pair [twin 1] [twin 2] 0 0
  /\ track_time (twin 1) = Ok 0%Z /\ track_time (twin 2) = Ok 0%Z
  /\ remove_duplicate_stracks id [twin 1] [twin 2] = Ok ([], [twin 2]).
Proof.
  split; [|repeat split; vm_compute; reflexivity].
  unfold close_pair. split; [cbn; lia|]. split; [cbn; lia|]. vm_compute. reflexivity.
Qed.

(** ** byte_tracker: the activation invariant

    Within one call of [update], processing frame [f] over a store that
    held [n0] objects when the call began, every object is in one of three
    conditions at every moment: its flags ([is_activated], [state],
    [start_frame]) are those it had before, or it is settled (activated, or
    not in state [Tracked]), or it is a track born in this call in a frame
    other than the first. *)

Section Frame.
Variable f : Z.
Variable n0 : nat.

Lemma same_flags_refl o : same_flags o o.
Proof. repeat split. Qed.

Lemma same_flags_good r o o' :
  same_flags o o' -> good_obj f n0 r o -> good_obj f n0 r o'.
Proof.
  intros (Ha & Hs & Hf) [[H|H] | (Hn & Hsf & Hf1)].
  - left. left. congruence.
  - left. right. congruence.
  - right. repeat split; congruence.
Qed.

Lemma ext_refl w : ext f n0 w w.
Proof. split; [lia|]. intros r o' H. left. exists o'. split; [exact H | apply same_flags_refl]. Qed.

Lemma ext_trans w1 w2 w3 : ext f n0 w1 w2 -> ext f n0 w2 w3 -> ext f n0 w1 w3.
Proof.
  intros [L1 E1] [L2 E2]. split; [lia|]. intros r o3 H3.
  destruct (E2 r o3 H3) as [(o2 & H2 & F23) | G]; [|right; exact G].
  destruct (E1 r o2 H2) as [(o1 & H1 & F12) | G].
  - left. exists o1. split; [exact H1|].
    destruct F12 as (?&?&?), F23 as (?&?&?). repeat split; congruence.
  - right. apply (same_flags_good r o2 o3 F23 G).
Qed.

Lemma ext_good w w' r : ext f n0 w w' -> good f n0 w r -> good f n0 w' r.
Proof.
  intros [_ E] G o' H'. destruct (E r o' H') as [(o & H & F) | G']; [|exact G'].
  apply (same_flags_good r o o' F). apply G. exact H.
Qed.

Lemma ext_valid w w' r :
  ext f n0 w w' -> (r < length (heap w))%nat -> (r < length (heap w'))%nat.
Proof. intros [L _] H. lia. Qed.

Lemma framed_ret {A} (a : A) : framed f n0 (ret a).
Proof. intros w a' w' H. inversion H; subst. apply ext_refl. Qed.

Lemma framed_raise {A} e : framed f n0 (@raise A e).
Proof. intros w a w' H. discriminate. Qed.

Lemma framed_lift {A} (r : res A) : framed f n0 (lift r).
Proof. intros w a w' H. apply lift_Ok in H as [_ ->]. apply ext_refl. Qed.

Lemma framed_bind {A B} (m : M A) (k : A -> M B) :
  framed f n0 m -> (forall a, framed f n0 (k a)) -> framed f n0 (bindM m k).
Proof.
  intros Hm Hk w b w' H. apply bindM_Ok in H as (a & w1 & H1 & H2).
  eapply ext_trans; [eapply Hm; exact H1 | eapply Hk; exact H2].
Qed.

Lemma framed_read r : framed f n0 (read r).
Proof. intros w o w' H. apply read_Ok in H as [_ ->]. apply ext_refl. Qed.

Lemma framed_attr {A} (g : STrack -> option A) e r : framed f n0 (attr g e r).
Proof.
  unfold attr. apply framed_bind; [apply framed_read|].
  intros o. destruct (g o); [apply framed_ret | apply framed_raise].
Qed.

Lemma framed_lindex {A} (l : list A) i : framed f n0 (lindex l i).
Proof. unfold lindex. destruct (l !! i); [apply framed_ret | apply framed_raise]. Qed.

Lemma framed_next_id : framed f n0 BaseTrack.next_id.
Proof.
  intros w a w' H. rewrite next_id_Ok in H. inversion H; subst.
  split; [cbn; lia|]. cbn. intros r o' Hr. left. exists o'.
  split; [exact Hr | apply same_flags_refl].
Qed.

Lemma framed_mapM {A B} (g : A -> M B) l :
  (forall a, framed f n0 (g a)) -> framed f n0 (mapM g l).
Proof.
  intros Hg. induction l as [|a l IH]; simpl; [apply framed_ret|].
  apply framed_bind; [apply Hg|]. intros b.
  apply framed_bind; [exact IH|]. intros bs. apply framed_ret.
Qed.

Lemma framed_filterM {A} (p : A -> M bool) l :
  (forall a, framed f n0 (p a)) -> framed f n0 (filterM p l).
Proof.
  intros Hp. induction l as [|a l IH]; simpl; [apply framed_ret|].
  apply framed_bind; [apply Hp|]. intros b.
  apply framed_bind; [exact IH|]. intros bs. apply framed_ret.
Qed.

Lemma framed_forM_ {A} (g : A -> M unit) l :
  (forall a, framed f n0 (g a)) -> framed f n0 (forM_ g l).
Proof.
  intros Hg. induction l as [|a l IH]; simpl; [apply framed_ret|].
  apply framed_bind; [apply Hg|]. intros _. exact IH.
Qed.

(** Overwriting the object at [r] by one with the same flags, or a settled
    one, or a newborn one. *)
Lemma write_ext r o' w u w' :
  write r o' w = Ok (u, w') ->
  (forall o, heap w !! r = Some o -> same_flags o o' \/ good_obj f n0 r o') ->
  ext f n0 w w'.
Proof.
  intros H Hflags. apply write_Ok in H as [Hlt ->]. unfold ext. cbn [heap].
  split; [rewrite length_insert; lia|].
  intros r1 o1 H1. destruct (Nat.eq_dec r1 r) as [->|Hne].
  - rewrite list_lookup_insert_eq in H1 by exact Hlt. inversion H1; subst o1.
    destruct (lookup_lt_is_Some_2 _ _ Hlt) as [o Ho].
    destruct (Hflags o Ho) as [F|G]; [left; eauto | right; exact G].
  - rewrite list_lookup_insert_ne in H1 by congruence.
    left. exists o1. split; [exact H1 | apply same_flags_refl].
Qed.

Lemma framed_alloc o : settled o -> framed f n0 (alloc o).
Proof.
  intros Hs w r w' H. apply alloc_Ok in H as [-> ->]. unfold ext. cbn [heap].
  split; [rewrite length_app; cbn; lia|].
  intros r o' H'. destruct (Nat.lt_ge_cases r (length (heap w))) as [Hlt|Hge].
  - rewrite lookup_app_l in H' by exact Hlt. left. exists o'.
    split; [exact H' | apply same_flags_refl].
  - rewrite lookup_app_r in H' by exact Hge.
    destruct (r - length (heap w))%nat; [|discriminate].
    inversion H'; subst. right. left. exact Hs.
Qed.

Lemma framed_mark_lost r : framed f n0 (BaseTrack.mark_lost r).
Proof.
  intros w u w' H. unfold BaseTrack.mark_lost in H.
  apply bindM_Ok in H as (o & w1 & H1 & H2). apply read_Ok in H1 as [_ ->].
  eapply write_ext; [exact H2|]. intros o0 _. right. left. right. cbn. discriminate.
Qed.

Lemma framed_mark_removed r : framed f n0 (BaseTrack.mark_removed r).
Proof.
  intros w u w' H. unfold BaseTrack.mark_removed in H.
  apply bindM_Ok in H as (o & w1 & H1 & H2). apply read_Ok in H1 as [_ ->].
  eapply write_ext; [exact H2|]. intros o0 _. right. left. right. cbn. discriminate.
Qed.

Lemma framed_activate self kf : (n0 <= self)%nat -> framed f n0 (STrackM.activate self kf f).
Proof.
  intros Hn w u w' H. unfold STrackM.activate in H.
  apply bindM_Ok in H as (o & w1 & H1 & H). apply read_Ok in H1 as [_ ->].
  apply bindM_Ok in H as (tid & w2 & H2 & H).
  eapply ext_trans; [apply (framed_next_id _ _ _ H2)|].
  eapply write_ext; [exact H|]. intros o2 _. right.
  unfold STrackM.activated. destruct (KalmanFilter.initiate _ _) as [m c].
  destruct (Z.eqb_spec f 1) as [E|E].
  - left. left. reflexivity.
  - right. repeat split; assumption.
Qed.

Lemma framed_multi_state st : framed f n0 (STrackM.multi_state st).
Proof.
  unfold STrackM.multi_state. apply framed_bind; [apply framed_read|]. intros o.
  destruct (mean o); [apply framed_ret | apply framed_raise].
Qed.

Lemma framed_zero_velocity p : framed f n0 (STrackM.zero_velocity p).
Proof.
  unfold STrackM.zero_velocity. apply framed_bind; [apply framed_attr|]. intros s.
  destruct (TrackState.eqb _ _); [apply framed_ret|].
  apply framed_bind; [apply framed_lift | intros; apply framed_ret].
Qed.

Lemma framed_multi_predict stracks : framed f n0 (STrackM.multi_predict stracks).
Proof.
  unfold STrackM.multi_predict. destruct stracks as [|s0 stracks]; [apply framed_ret|].
  apply framed_bind; [apply framed_mapM; intros; apply framed_multi_state|]. intros ms.
  apply framed_bind; [apply framed_mapM; intros; apply framed_zero_velocity|]. intros ms'.
  apply framed_bind; [apply framed_lift|]. intros cs.
  apply framed_bind; [apply framed_lift|]. intros [mm mc].
  apply framed_forM_. intros [r [m c]] w u w' H. cbn [fst snd] in H.
  apply bindM_Ok in H as (o & w1 & H1 & H). apply read_Ok in H1 as [Ho ->].
  eapply write_ext; [exact H|]. intros o2 Ho2. left.
  rewrite Ho in Ho2. inversion Ho2; subst. repeat split.
Qed.

Section WithCholesky.
Variable cho_factor : mat -> res mat.
Variable cho_solve : mat -> mat -> mat.

Lemma framed__update_track self new_track new_id :
  framed f n0 (STrackM._update_track cho_factor cho_solve self new_track f new_id).
Proof.
  unfold STrackM._update_track.
  apply framed_bind; [apply framed_read|]. intros o.
  apply framed_bind; [apply framed_read|]. intros n.
  apply framed_bind; [apply framed_attr|]. intros kf.
  apply framed_bind; [apply framed_attr|]. intros m.
  apply framed_bind; [apply framed_attr|]. intros c.
  apply framed_bind; [apply framed_lift|]. intros [m' c'].
  apply framed_bind.
  - destruct new_id; [|apply framed_ret].
    apply framed_bind; [apply framed_next_id | intros; apply framed_ret].
  - intros tid w u w' H. eapply write_ext; [exact H|].
    intros o2 _. right. left. left. reflexivity.
Qed.

(** After [_update_track], the object is activated. *)
Lemma _update_track_good self new_track new_id w u w' :
  STrackM._update_track cho_factor cho_solve self new_track f new_id w = Ok (u, w') ->
  good f n0 w' self.
Proof.
  unfold STrackM._update_track. intros H.
  do 6 (apply bindM_Ok in H as (? & ? & _ & H)).
  match type of H with (let '(_, _) := ?p in _) _ = _ => destruct p end.
  apply bindM_Ok in H as (? & ? & _ & H).
  apply write_Ok in H as [Hlt ->]. intros o Ho. cbn [heap] in Ho.
  rewrite list_lookup_insert_eq in Ho by exact Hlt. inversion Ho; subst.
  left. left. reflexivity.
Qed.

End WithCholesky.

Lemma mark_removed_good r w u w' :
  BaseTrack.mark_removed r w = Ok (u, w') -> good f n0 w' r.
Proof.
  unfold BaseTrack.mark_removed. intros H.
  apply bindM_Ok in H as (o & w1 & _ & H).
  apply write_Ok in H as [Hlt ->]. intros o' Ho. cbn [heap] in Ho.
  rewrite list_lookup_insert_eq in Ho by exact Hlt. inversion Ho; subst.
  left. right. cbn. discriminate.
Qed.

Lemma framed_track_id_of r : framed f n0 (track_id_of r).
Proof. apply framed_attr. Qed.

Lemma framed_state_of r : framed f n0 (state_of r).
Proof. apply framed_attr. Qed.

Lemma framed_is_activated_of r : framed f n0 (is_activated_of r).
Proof.
  unfold is_activated_of. apply framed_bind; [apply framed_read | intros; apply framed_ret].
Qed.

Lemma framed_joint_stracks a b : framed f n0 (joint_stracks a b).
Proof.
  unfold joint_stracks.
  apply framed_bind; [apply framed_mapM; intros; apply framed_track_id_of|].
  intros. apply framed_ret.
Qed.

Lemma framed_sub_stracks a b : framed f n0 (sub_stracks a b).
Proof.
  unfold sub_stracks.
  apply framed_bind; [apply framed_mapM; intros; apply framed_track_id_of|]. intros ids.
  apply framed_filterM. intros r.
  apply framed_bind; [apply framed_track_id_of | intros; apply framed_ret].
Qed.

Lemma framed_get_detections kind l : framed f n0 (BYTETracker._get_detections kind l).
Proof.
  unfold BYTETracker._get_detections. destruct kind; [|apply framed_raise].
  apply framed_mapM. intros p. apply framed_alloc. right. cbn. discriminate.
Qed.

End Frame.

(** *** Where the lists of [update] take their elements from *)

Lemma mapM_length {A B} (g : A -> M B) l w bs w' :
  mapM g l w = Ok (bs, w') -> length bs = length l.
Proof.
  revert w bs. induction l as [|a l IH]; intros w bs H; simpl in H.
  - inversion H; reflexivity.
  - apply bindM_Ok in H as (b & w1 & _ & H). apply bindM_Ok in H as (bs' & w2 & H2 & H).
    inversion H; subst. simpl. f_equal. eapply IH. exact H2.
Qed.

Lemma mapM_In {A B} (g : A -> M B) (P : B -> Prop) l w bs w' :
  (forall a w1 b w2, In a l -> g a w1 = Ok (b, w2) -> P b) ->
  mapM g l w = Ok (bs, w') -> forall b, In b bs -> P b.
Proof.
  revert w bs. induction l as [|a l IH]; intros w bs Hg H; simpl in H.
  - inversion H; subst. intros b [].
  - apply bindM_Ok in H as (b0 & w1 & H1 & H). apply bindM_Ok in H as (bs' & w2 & H2 & H).
    inversion H; subst. intros b [<- | Hb].
    + eapply Hg; [left; reflexivity | exact H1].
    + eapply IH; [|exact H2 | exact Hb]. intros. eapply Hg; [right|]; eassumption.
Qed.

Lemma lindex_Ok {A} (l : list A) i w a w' :
  lindex l i w = Ok (a, w') -> l !! i = Some a /\ w' = w.
Proof.
  unfold lindex. destruct (l !! i); intros H; inversion H; auto.
Qed.

Lemma lookup_In {A} (l : list A) i a : l !! i = Some a -> In a l.
Proof. intros H. apply list_elem_of_In. eapply list_elem_of_lookup_2. exact H. Qed.

Lemma mapM_lindex_incl {A} (l : list A) idx w xs w' :
  mapM (lindex l) idx w = Ok (xs, w') -> forall x, In x xs -> In x l.
Proof.
  apply mapM_In. intros i w1 a w2 _ H. apply lindex_Ok in H as [H _].
  eapply lookup_In. exact H.
Qed.

Lemma filterM_incl {A} (p : A -> M bool) l w l' w' :
  filterM p l w = Ok (l', w') -> forall x, In x l' -> In x l.
Proof.
  revert w l'. induction l as [|a l IH]; intros w l' H; simpl in H.
  - inversion H; subst. intros x [].
  - apply bindM_Ok in H as (b & w1 & _ & H). apply bindM_Ok in H as (rest & w2 & H2 & H).
    inversion H; subst. intros x Hx. destruct b.
    + destruct Hx as [<- | Hx]; [left; reflexivity | right; eapply IH; eassumption].
    + right. eapply IH; eassumption.
Qed.

Lemma dict_set_incl k v d x :
  In x (map snd (dict_set k v d)) -> x = v \/ In x (map snd d).
Proof.
  induction d as [|[k' v'] d IH]; simpl.
  - intros [<- | []]. auto.
  - destruct (Z.eqb k k'); simpl.
    + intros [<- | H]; auto.
    + intros [<- | H]; auto. destruct (IH H); auto.
Qed.

Lemma dict_of_incl kvs x :
  In x (map snd (dict_of kvs)) -> In x (map snd kvs).
Proof.
  unfold dict_of.
  assert (G : forall d, In x (map snd (fold_left (fun d kv => dict_set (fst kv) (snd kv) d) kvs d))
                        -> In x (map snd d) \/ In x (map snd kvs)).
  { induction kvs as [|[k v] kvs IH]; intros d H; simpl in *; [auto|].
    destruct (IH _ H) as [H1 | H1]; [|auto].
    apply dict_set_incl in H1 as [-> | H1]; auto. }
  intros H. destruct (G [] H) as [[] | H1]. exact H1.
Qed.

Lemma joint_stracks_incl a b w l w' :
  joint_stracks a b w = Ok (l, w') -> forall r, In r l -> In r (a ++ b).
Proof.
  unfold joint_stracks. intros H.
  apply bindM_Ok in H as (ids & w1 & H1 & H). inversion H; subst.
  intros r Hr. apply dict_of_incl in Hr.
  rewrite map_snd_combine_eq in Hr; [exact Hr|].
  eapply mapM_length. exact H1.
Qed.

Lemma sub_stracks_incl a b w l w' :
  sub_stracks a b w = Ok (l, w') -> forall r, In r l -> In r a.
Proof.
  unfold sub_stracks. intros H.
  apply bindM_Ok in H as (ids & w1 & _ & H). eapply filterM_incl. exact H.
Qed.

Lemma drop_indices_incl {A} dups (l : list A) x : In x (drop_indices dups l) -> In x l.
Proof.
  intros H. apply drop_indices_In in H as (i & Hi & _). eapply lookup_In. exact Hi.
Qed.

(** The references of freshly built detections lie past the old store. *)
Lemma mapM_alloc_fresh {A} (g : A -> STrack) l w refs w' :
  mapM (fun p => alloc (g p)) l w = Ok (refs, w') ->
  length (heap w') = (length (heap w) + length l)%nat
  /\ forall r, In r refs -> (length (heap w) <= r < length (heap w'))%nat.
Proof.
  revert w refs. induction l as [|p l IH]; intros w refs H; simpl in H.
  - inversion H; subst. split; [cbn; lia | intros r []].
  - apply bindM_Ok in H as (r0 & w1 & H1 & H). apply bindM_Ok in H as (rs & w2 & H2 & H).
    inversion H; subst. apply alloc_Ok in H1 as [-> ->].
    destruct (IH _ _ H2) as [IHl IHr]. cbn [heap] in IHl, IHr.
    rewrite length_app in IHl, IHr. cbn [length] in *.
    split; [lia|]. intros r [<- | Hr]; [lia|]. specialize (IHr r Hr). lia.
Qed.

Lemma get_detections_fresh kind l w refs w' :
  BYTETracker._get_detections kind l w = Ok (refs, w') ->
  forall r, In r refs -> (length (heap w) <= r < length (heap w'))%nat.
Proof.
  unfold BYTETracker._get_detections. destruct kind; [|discriminate].
  intros H. apply mapM_alloc_fresh in H as [_ H]. exact H.
Qed.

(** Reading a list of tracks leaves the store alone. *)
Lemma mapM_read_Ok l w os w' :
  mapM read l w = Ok (os, w') -> w' = w /\ length os = length l.
Proof.
  intros H. split; [|eapply mapM_length; exact H].
  revert w os H. induction l as [|r l IH]; intros w os H; simpl in H.
  - inversion H; reflexivity.
  - apply bindM_Ok in H as (o & w1 & H1 & H). apply read_Ok in H1 as [_ ->].
    apply bindM_Ok in H as (os' & w2 & H2 & H). inversion H; subst. eapply IH. exact H2.
Qed.

Lemma mapM_read_pair_Ok l w ps w' :
  mapM (fun r => let! o := read r in ret (r, o)) l w = Ok (ps, w') ->
  w' = w /\ map fst ps = l.
Proof.
  revert w ps. induction l as [|r l IH]; intros w ps H; simpl in H.
  - inversion H; auto.
  - apply bindM_Ok in H as (p & w1 & H1 & H).
    apply bindM_Ok in H1 as (o & w0 & H0 & H1). apply read_Ok in H0 as [_ ->].
    inversion H1; subst.
    apply bindM_Ok in H as (ps' & w2 & H2 & H). inversion H; subst.
    destruct (IH _ _ H2) as [-> E]. split; [reflexivity|]. simpl. f_equal. exact E.
Qed.

(** Filtering by a predicate that only reads the store. *)
Lemma filterM_reading {A} (p : A -> M bool) (val : world -> A -> option bool) l w l' w' :
  (forall a w1 b w2, p a w1 = Ok (b, w2) -> w2 = w1 /\ val w1 a = Some b) ->
  filterM p l w = Ok (l', w') ->
  w' = w /\ forall a, In a l -> exists b, val w a = Some b /\ (b = true -> In a l').
Proof.
  intros Hp. revert w l'. induction l as [|a l IH]; intros w l' H; simpl in H.
  - inversion H; subst. split; [reflexivity | intros a []].
  - apply bindM_Ok in H as (b & w1 & H1 & H). apply Hp in H1 as [-> Hv].
    apply bindM_Ok in H as (rest & w2 & H2 & H). inversion H; subst.
    destruct (IH _ _ H2) as [-> IH']. split; [reflexivity|].
    intros a' [<- | Ha'].
    + exists b. split; [exact Hv|]. intros ->. left. reflexivity.
    + destruct (IH' a' Ha') as (b' & Hb' & Hin). exists b'. split; [exact Hb'|].
      intros Hb. destruct b; [right|]; auto.
Qed.

Lemma is_activated_of_Ok r w b w' :
  is_activated_of r w = Ok (b, w') ->
  w' = w /\ exists o, heap w !! r = Some o /\ is_activated o = b.
Proof.
  unfold is_activated_of. intros H. apply bindM_Ok in H as (o & w1 & H1 & H).
  apply read_Ok in H1 as [Ho ->]. inversion H; subst. eauto.
Qed.

(** The split of the tracked list into unconfirmed and confirmed tracks. *)
Lemma _update_tracked_stracks_Ok self w unconfirmed tracked w' :
  BYTETracker._update_tracked_stracks self w = Ok ((unconfirmed, tracked), w') ->
  w' = w
  /\ (forall r, In r unconfirmed -> In r (BYTETracker.tracked_stracks self))
  /\ (forall r, In r tracked -> In r (BYTETracker.tracked_stracks self))
  /\ (forall r, In r (BYTETracker.tracked_stracks self) ->
        In r unconfirmed \/ exists o, heap w !! r = Some o /\ is_activated o = true).
Proof.
  unfold BYTETracker._update_tracked_stracks. intros H.
  apply bindM_Ok in H as (u & w1 & H1 & H). apply bindM_Ok in H as (t & w2 & H2 & H).
  inversion H; subst. clear H.
  pose proof (filterM_incl _ _ _ _ _ H1) as I1.
  pose proof (filterM_incl _ _ _ _ _ H2) as I2.
  apply (filterM_reading _
           (fun w r => option_map (fun o => negb (is_activated o)) (heap w !! r))) in H1.
  2:{ intros r wa b wb Hb. apply bindM_Ok in Hb as (a & wc & Ha & Hb).
      apply is_activated_of_Ok in Ha as [-> (o & Ho & <-)]. inversion Hb; subst.
      split; [reflexivity|]. rewrite Ho. reflexivity. }
  destruct H1 as [-> Hu].
  apply (filterM_reading _
           (fun w r => option_map is_activated (heap w !! r))) in H2.
  2:{ intros r wa b wb Hb. apply is_activated_of_Ok in Hb as [-> (o & Ho & <-)].
      split; [reflexivity|]. rewrite Ho. reflexivity. }
  destruct H2 as [-> _].
  split; [reflexivity|]. split; [exact I1|]. split; [exact I2|].
  intros r Hr. destruct (Hu r Hr) as (b & Hb & Hin).
  destruct (heap w !! r) as [o|] eqn:Ho; [|discriminate]. cbn in Hb. inversion Hb; subst.
  destruct (is_activated o) eqn:E; [right; eauto | left; auto].
Qed.

(** *** The loops of [update] *)

Section Loops.
Variable linear_sum_assignment : ndarray2 -> res (list nat * list nat).
Variable cho_factor : mat -> res mat.
Variable cho_solve : mat -> mat -> mat.
Variable f : Z.
Variable n0 : nat.
Variable self : BYTETracker.t.
Hypothesis Hframe : BYTETracker.frame_id self = f.

Lemma _update_tracks_spec stracks detections matches refind activated w refind' activated' w' :
  BYTETracker._update_tracks cho_factor cho_solve self stracks detections matches
                             refind activated w
  = Ok ((refind', activated'), w') ->
  ext f n0 w w'
  /\ forall r, In r (refind' ++ activated') -> In r (refind ++ activated) \/ In r stracks.
Proof.
  revert refind activated w. induction matches as [|[i j] matches IH];
    intros refind activated w H; simpl in H.
  - inversion H; subst. split; [apply ext_refl | auto].
  - apply bindM_Ok in H as (track & w1 & H1 & H). apply lindex_Ok in H1 as [Ht ->].
    apply bindM_Ok in H as (det & w1 & H1 & H). apply lindex_Ok in H1 as [_ ->].
    apply bindM_Ok in H as (s & w1 & H1 & H).
    pose proof (framed_state_of f n0 _ _ _ _ H1) as E1.
    apply lookup_In in Ht.
    destruct (TrackState.eqb s TrackState.Tracked);
      apply bindM_Ok in H as (u & w2 & H2 & H);
      pose proof (framed__update_track f n0 cho_factor cho_solve track det false) as F;
      unfold STrackM.update, STrackM.re_activate in H2; rewrite Hframe in H2;
      specialize (F _ _ _ H2); destruct (IH _ _ _ H) as [E3 I3];
      (split; [exact (ext_trans _ _ _ _ _ E1 (ext_trans _ _ _ _ _ F E3))|]);
      intros r Hr; destruct (I3 r Hr) as [Hin | Hin]; auto;
      rewrite !in_app_iff in *; cbn [In] in Hin; intuition (subst; auto).
Qed.

Lemma mark_lost_loop_spec r_tracked u_track lost_ w lost_' w' :
  BYTETracker.mark_lost_loop r_tracked u_track lost_ w = Ok (lost_', w') ->
  ext f n0 w w' /\ forall r, In r lost_' -> In r lost_ \/ In r r_tracked.
Proof.
  revert lost_ w. induction u_track as [|it u_track IH]; intros lost_ w H; simpl in H.
  - inversion H; subst. split; [apply ext_refl | auto].
  - apply bindM_Ok in H as (track & w1 & H1 & H). apply lindex_Ok in H1 as [Ht ->].
    apply bindM_Ok in H as (s & w1 & H1 & H).
    pose proof (framed_state_of f n0 _ _ _ _ H1) as E1.
    apply lookup_In in Ht.
    destruct (negb (TrackState.eqb s TrackState.Lost)).
    + apply bindM_Ok in H as (u & w2 & H2 & H).
      pose proof (framed_mark_lost f n0 _ _ _ _ H2) as E2.
      destruct (IH _ _ H) as [E3 I3].
      split; [exact (ext_trans _ _ _ _ _ E1 (ext_trans _ _ _ _ _ E2 E3))|].
      intros r Hr. destruct (I3 r Hr) as [Hin | Hin]; auto.
      rewrite in_app_iff in Hin. cbn [In] in Hin. intuition (subst; auto).
    + destruct (IH _ _ H) as [E3 I3].
      split; [exact (ext_trans _ _ _ _ _ E1 E3) | exact I3].
Qed.

Lemma update_unconfirmed_loop_spec unconfirmed detections matches activated w activated' w' :
  BYTETracker.update_unconfirmed_loop cho_factor cho_solve self unconfirmed detections
                                      matches activated w
  = Ok (activated', w') ->
  ext f n0 w w'
  /\ (forall r, In r activated' -> In r activated \/ In r unconfirmed)
  /\ (forall i j r, In (i, j) matches -> unconfirmed !! i = Some r -> good f n0 w' r).
Proof.
  revert activated w. induction matches as [|[i j] matches IH];
    intros activated w H; simpl in H.
  - inversion H; subst. split; [apply ext_refl|]. split; [auto | intros i j r []].
  - apply bindM_Ok in H as (track & w1 & H1 & H). apply lindex_Ok in H1 as [Ht ->].
    apply bindM_Ok in H as (det & w1 & H1 & H). apply lindex_Ok in H1 as [_ ->].
    apply bindM_Ok in H as (u & w2 & H2 & H).
    unfold STrackM.update in H2. rewrite Hframe in H2.
    pose proof (framed__update_track f n0 cho_factor cho_solve track det false _ _ _ H2) as E2.
    pose proof (_update_track_good f n0 cho_factor cho_solve _ _ _ _ _ _ H2) as G2.
    apply bindM_Ok in H as (track' & w3 & H3 & H). apply lindex_Ok in H3 as [Ht' ->].
    destruct (IH _ _ H) as (E3 & I3 & P3).
    split; [exact (ext_trans _ _ _ _ _ E2 E3)|]. split.
    + intros r Hr. destruct (I3 r Hr) as [Hin | Hin]; auto.
      rewrite in_app_iff in Hin. cbn [In] in Hin. apply lookup_In in Ht'.
      intuition (subst; auto).
    + intros i' j' r [Heq | Hin] Hr.
      * inversion Heq; subst. rewrite Ht in Hr. inversion Hr; subst.
        eapply ext_good; [exact E3 | exact G2].
      * eapply P3; eassumption.
Qed.

Lemma mark_removed_loop_spec unconfirmed u_unconfirmed removed_ w removed_' w' :
  BYTETracker.mark_removed_loop unconfirmed u_unconfirmed removed_ w = Ok (removed_', w') ->
  ext f n0 w w'
  /\ (forall r, In r removed_' -> In r removed_ \/ In r unconfirmed)
  /\ (forall i r, In i u_unconfirmed -> unconfirmed !! i = Some r -> good f n0 w' r).
Proof.
  revert removed_ w. induction u_unconfirmed as [|it u IH]; intros removed_ w H; simpl in H.
  - inversion H; subst. split; [apply ext_refl|]. split; [auto | intros i r []].
  - apply bindM_Ok in H as (track & w1 & H1 & H). apply lindex_Ok in H1 as [Ht ->].
    apply bindM_Ok in H as (u0 & w2 & H2 & H).
    pose proof (framed_mark_removed f n0 _ _ _ _ H2) as E2.
    pose proof (mark_removed_good f n0 _ _ _ _ H2) as G2.
    destruct (IH _ _ H) as (E3 & I3 & P3).
    split; [exact (ext_trans _ _ _ _ _ E2 E3)|]. split.
    + intros r Hr. destruct (I3 r Hr) as [Hin | Hin]; auto.
      rewrite in_app_iff in Hin. cbn [In] in Hin. apply lookup_In in Ht.
      intuition (subst; auto).
    + intros i r [<- | Hin] Hr.
      * rewrite Ht in Hr. inversion Hr; subst. eapply ext_good; [exact E3 | exact G2].
      * eapply P3; eassumption.
Qed.

Lemma new_tracks_loop_spec detections u_detection activated w activated' w' :
  (forall r, In r detections -> (n0 <= r)%nat) ->
  BYTETracker.new_tracks_loop self detections u_detection activated w = Ok (activated', w') ->
  ext f n0 w w' /\ forall r, In r activated' -> In r activated \/ In r detections.
Proof.
  intros Hfresh. revert activated w.
  induction u_detection as [|inew u IH]; intros activated w H; simpl in H.
  - inversion H; subst. split; [apply ext_refl | auto].
  - apply bindM_Ok in H as (track & w1 & H1 & H). apply lindex_Ok in H1 as [Ht ->].
    apply bindM_Ok in H as (o & w1 & H1 & H). apply read_Ok in H1 as [_ ->].
    apply lookup_In in Ht.
    destruct (scalar_geb (score o) (BYTETracker.det_thresh self)).
    + apply bindM_Ok in H as (u0 & w2 & H2 & H). rewrite Hframe in H2.
      pose proof (framed_activate f n0 track _ (Hfresh _ Ht) _ _ _ H2) as E2.
      destruct (IH _ _ H) as [E3 I3].
      split; [exact (ext_trans _ _ _ _ _ E2 E3)|].
      intros r Hr. destruct (I3 r Hr) as [Hin | Hin]; auto.
      rewrite in_app_iff in Hin. cbn [In] in Hin. intuition (subst; auto).
    + apply IH. exact H.
Qed.

Lemma framed_expired track : framed f n0 (BYTETracker.expired self track).
Proof.
  unfold BYTETracker.expired, BaseTrack.end_frame.
  apply framed_bind; [apply framed_attr | intros; apply framed_ret].
Qed.

Lemma expire_loop_spec lost removed_ w removed_' w' :
  BYTETracker.expire_loop self lost removed_ w = Ok (removed_', w') ->
  ext f n0 w w' /\ forall r, In r removed_' -> In r removed_ \/ In r lost.
Proof.
  revert removed_ w. induction lost as [|track lost IH]; intros removed_ w H; simpl in H.
  - inversion H; subst. split; [apply ext_refl | auto].
  - apply bindM_Ok in H as (x & w1 & H1 & H).
    pose proof (framed_expired _ _ _ _ H1) as E1.
    destruct x.
    + apply bindM_Ok in H as (u0 & w2 & H2 & H).
      pose proof (framed_mark_removed f n0 _ _ _ _ H2) as E2.
      destruct (IH _ _ H) as [E3 I3].
      split; [exact (ext_trans _ _ _ _ _ E1 (ext_trans _ _ _ _ _ E2 E3))|].
      intros r Hr. destruct (I3 r Hr) as [Hin | Hin];
        rewrite ?in_app_iff in *; cbn [In] in *; intuition (subst; auto).
    + destruct (IH _ _ H) as [E3 I3].
      split; [exact (ext_trans _ _ _ _ _ E1 E3)|].
      intros r Hr. destruct (I3 r Hr); cbn [In]; auto.
Qed.

(** Matching reads the tracks and solves the assignment on their IoU
    distances: every track index is matched or reported unmatched. *)
Lemma _match_tracks_to_detections_spec stracks detections thresh w matches u_a u_b w' :
  BYTETracker._match_tracks_to_detections linear_sum_assignment stracks detections thresh w
  = Ok ((matches, u_a, u_b), w') ->
  w' = w
  /\ forall i, (i < length stracks)%nat -> In i (map fst matches) \/ In i u_a.
Proof.
  unfold BYTETracker._match_tracks_to_detections. intros H.
  apply bindM_Ok in H as (a & w1 & H1 & H). apply mapM_read_Ok in H1 as [-> La].
  apply bindM_Ok in H as (b & w1 & H1 & H). apply mapM_read_Ok in H1 as [-> Lb].
  apply lift_Ok in H as [H ->]. split; [reflexivity|].
  apply linear_assignment_Ok in H as (-> & _ & _).
  intros i Hi. destruct (In_dec Nat.eq_dec i (map fst matches)) as [Hin|Hnin]; [auto|].
  right. apply setdiff_arange_In. split; [|exact Hnin].
  rewrite (proj1 (iou_distance_shape a b)). lia.
Qed.

End Loops.

(** *** The invariant of the tracker *)

Section Invariant.
Variable linear_sum_assignment : ndarray2 -> res (list nat * list nat).
Variable cho_factor : mat -> res mat.
Variable cho_solve : mat -> mat -> mat.

Local Notation "E1 'then_' E2" := (ext_trans _ _ _ _ _ E1 E2)
  (at level 60, right associativity, only parsing).

Lemma update_preserves_inv t output_results img_info img_size w out t' w' :
  tracker_inv t w ->
  BYTETracker.update linear_sum_assignment cho_factor cho_solve t output_results
                     img_info img_size w = Ok ((out, t'), w') ->
  tracker_inv t' w'.
Proof.
  intros (Hvalid & Htracked & Hretired) H.
  unfold BYTETracker.update in H. cbv zeta in H.
  set (f := (BYTETracker.frame_id t + 1)%Z) in *.
  set (n0 := length (heap w)) in *.
  remember (BYTETracker.mk (BYTETracker.track_thresh t) (BYTETracker.match_thresh t) f
              (BYTETracker.det_thresh t) (BYTETracker.buffer_size t)
              (BYTETracker.max_time_lost t) (BYTETracker.kalman_filter t)
              (BYTETracker.tracked_stracks t) (BYTETracker.lost_stracks t)
              (BYTETracker.removed_stracks t)) as self eqn:Hself.
  assert (Hfr : BYTETracker.frame_id self = f) by (subst self; reflexivity).
  assert (Htr : BYTETracker.tracked_stracks self = BYTETracker.tracked_stracks t)
    by (subst self; reflexivity).
  assert (Hlo : BYTETracker.lost_stracks self = BYTETracker.lost_stracks t)
    by (subst self; reflexivity).
  assert (Hre : BYTETracker.removed_stracks self = BYTETracker.removed_stracks t)
    by (subst self; reflexivity).
  clear Hself.
  apply bindM_Ok in H as ([[kind scores] bboxes] & w0 & H0 & H).
  apply lift_Ok in H0 as [_ ->].
  apply bindM_Ok in H as (bboxes' & w0 & H0 & H). apply lift_Ok in H0 as [_ ->].
  (* the detections: fresh objects *)
  apply bindM_Ok in H as (detections & w1 & H1 & H).
  pose proof (framed_get_detections f n0 _ _ _ _ _ H1) as E1.
  pose proof (get_detections_fresh _ _ _ _ _ H1) as F1. fold n0 in F1.
  apply bindM_Ok in H as (detections_second & w2 & H2 & H).
  pose proof (framed_get_detections f n0 _ _ _ _ _ H2) as E2.
  (* the split of the tracked list, and the pool *)
  apply bindM_Ok in H as ([unconfirmed confirmed] & w3 & H3 & H).
  apply _update_tracked_stracks_Ok in H3 as (-> & Iunc & Iconf & Hsplit).
  rewrite Htr in Iunc, Iconf, Hsplit.
  apply bindM_Ok in H as (strack_pool & w3 & H3 & H).
  pose proof (framed_joint_stracks f n0 _ _ _ _ _ H3) as E3.
  pose proof (joint_stracks_incl _ _ _ _ _ H3) as Ipool. rewrite Hlo in Ipool.
  apply bindM_Ok in H as (u4 & w4 & H4 & H).
  pose proof (framed_multi_predict f n0 _ _ _ _ H4) as E4.
  (* first association *)
  apply bindM_Ok in H as ([[matches u_track] u_detection] & w5 & H5 & H).
  apply _match_tracks_to_detections_spec in H5 as [-> _].
  apply bindM_Ok in H as ([refind1 activated1] & w5 & H5 & H).
  apply (_update_tracks_spec cho_factor cho_solve f n0 self Hfr) in H5 as [E5 I5].
  (* second association *)
  apply bindM_Ok in H as (pool_unmatched & w6 & H6 & H).
  pose proof (framed_mapM f n0 _ _ (framed_lindex f n0 strack_pool) _ _ _ H6) as E6.
  pose proof (mapM_lindex_incl _ _ _ _ _ H6) as I6.
  apply bindM_Ok in H as (r_tracked & w7 & H7 & H).
  assert (E7 : ext f n0 w6 w7).
  { eapply (framed_filterM f n0); [|exact H7]. intros r.
    apply framed_bind; [apply framed_state_of | intros; apply framed_ret]. }
  pose proof (filterM_incl _ _ _ _ _ H7) as I7.
  apply bindM_Ok in H as ([[matches2 u_track2] u_det2] & w8 & H8 & H).
  apply _match_tracks_to_detections_spec in H8 as [-> _].
  apply bindM_Ok in H as ([refind2 activated2] & w8 & H8 & H).
  apply (_update_tracks_spec cho_factor cho_solve f n0 self Hfr) in H8 as [E8 I8].
  apply bindM_Ok in H as (lost_ & w9 & H9 & H).
  apply (mark_lost_loop_spec f n0 self Hfr) in H9 as [E9 I9].
  (* unconfirmed tracks *)
  apply bindM_Ok in H as (detections' & w10 & H10 & H).
  pose proof (framed_mapM f n0 _ _ (framed_lindex f n0 detections) _ _ _ H10) as E10.
  pose proof (mapM_lindex_incl _ _ _ _ _ H10) as I10.
  apply bindM_Ok in H as ([[matches3 u_unconfirmed] u_detection3] & w11 & H11 & H).
  apply _match_tracks_to_detections_spec in H11 as [-> Hcover].
  apply bindM_Ok in H as (activated3 & w11 & H11 & H).
  apply (update_unconfirmed_loop_spec cho_factor cho_solve f n0 self Hfr) in H11
    as (E11 & I11 & P11).
  apply bindM_Ok in H as (removed_1 & w12 & H12 & H).
  apply (mark_removed_loop_spec f n0 self Hfr) in H12 as (E12 & I12 & P12).
  (* new tracks *)
  apply bindM_Ok in H as (activated4 & w13 & H13 & H).
  apply (new_tracks_loop_spec f n0 self Hfr) in H13 as [E13 I13];
    [|intros r Hr; apply I10 in Hr; apply F1 in Hr; lia].
  (* lost and removed tracks *)
  apply bindM_Ok in H as (removed_2 & w14 & H14 & H).
  apply (expire_loop_spec f n0 self Hfr) in H14 as [E14 I14]. rewrite Hlo in I14.
  apply bindM_Ok in H as (again & w15 & H15 & H).
  assert (E15 : ext f n0 w14 w15).
  { eapply (framed_filterM f n0); [|exact H15]. intros r. apply framed_expired. }
  pose proof (filterM_incl _ _ _ _ _ H15) as I15. rewrite Hlo in I15.
  apply bindM_Ok in H as (tracked1 & w16 & H16 & H).
  assert (E16 : ext f n0 w15 w16).
  { eapply (framed_filterM f n0); [|exact H16]. intros r.
    apply framed_bind; [apply framed_state_of | intros; apply framed_ret]. }
  pose proof (filterM_incl _ _ _ _ _ H16) as I16. rewrite Htr in I16.
  apply bindM_Ok in H as (tracked2 & w17 & H17 & H).
  pose proof (framed_joint_stracks f n0 _ _ _ _ _ H17) as E17.
  pose proof (joint_stracks_incl _ _ _ _ _ H17) as I17.
  apply bindM_Ok in H as (tracked3 & w18 & H18 & H).
  pose proof (framed_joint_stracks f n0 _ _ _ _ _ H18) as E18.
  pose proof (joint_stracks_incl _ _ _ _ _ H18) as I18.
  apply bindM_Ok in H as (lost1 & w19 & H19 & H).
  pose proof (framed_sub_stracks f n0 _ _ _ _ _ H19) as E19.
  pose proof (sub_stracks_incl _ _ _ _ _ H19) as I19. rewrite Hlo in I19.
  apply bindM_Ok in H as (lost2 & w20 & H20 & H).
  pose proof (framed_sub_stracks f n0 _ _ _ _ _ H20) as E20.
  pose proof (sub_stracks_incl _ _ _ _ _ H20) as I20.
  apply bindM_Ok in H as (ta & w21 & H21 & H).
  apply mapM_read_pair_Ok in H21 as [-> Ita].
  apply bindM_Ok in H as (tb & w21 & H21 & H).
  apply mapM_read_pair_Ok in H21 as [-> Itb].
  apply bindM_Ok in H as ([ta' tb'] & w21 & H21 & H).
  apply lift_Ok in H21 as [Hdup ->].
  apply bindM_Ok in H as (out' & w21 & H21 & H).
  assert (E21 : ext f n0 w20 w21).
  { eapply (framed_filterM f n0); [|exact H21]. intros r. apply framed_is_activated_of. }
  inversion H; subst out' t' w21. clear H H21.
  unfold remove_duplicate_stracks in Hdup.
  apply bindR_Ok in Hdup as ([da db] & _ & Hdup). inversion Hdup; subst ta' tb'. clear Hdup.
  (* the store only grew, and every touched object is settled or newborn *)
  assert (Ew2 : ext f n0 w w2) by exact (E1 then_ E2).
  assert (Ew12 : ext f n0 w2 w12)
    by exact (E3 then_ E4 then_ E5 then_ E6 then_ E7
              then_ E8 then_ E9 then_ E10 then_ E11 then_ E12).
  assert (Ew' : ext f n0 w12 w')
    by exact (E13 then_ E14 then_ E15 then_ E16 then_ E17
              then_ E18 then_ E19 then_ E20 then_ E21).
  assert (Eall : ext f n0 w w')
    by exact (Ew2 then_ Ew12 then_ Ew').
  set (old := BYTETracker.tracked_stracks t ++ BYTETracker.lost_stracks t
              ++ BYTETracker.removed_stracks t) in *.
  assert (Hfresh_good : forall r, (n0 <= r)%nat -> good f n0 w' r).
  { intros r Hr o' Ho'. destruct Eall as [_ Eall].
    destruct (Eall r o' Ho') as [(o & Ho & _) | G]; [|exact G].
    apply lookup_lt_Some in Ho. unfold n0 in Hr. lia. }
  assert (Hretired_good : forall r,
            In r (BYTETracker.lost_stracks t ++ BYTETracker.removed_stracks t) ->
            good f n0 w' r).
  { intros r Hr. eapply ext_good; [exact Eall|]. intros o Ho. left. eapply Hretired; eassumption. }
  assert (Hunc_good : forall r, In r unconfirmed -> good f n0 w' r).
  { intros r Hr. eapply ext_good; [exact Ew'|].
    apply list_elem_of_In, list_elem_of_lookup_1 in Hr as [i Hi].
    destruct (Hcover i (lookup_lt_Some _ _ _ Hi)) as [Hm | Hu].
    - apply in_map_iff in Hm as [[i' j] [Heq Hm]]. simpl in Heq. subst i'.
      eapply ext_good; [exact E12|]. eapply P11; eassumption.
    - eapply P12; eassumption. }
  assert (Htracked_good : forall r, In r (BYTETracker.tracked_stracks t) -> good f n0 w' r).
  { intros r Hr. destruct (Hsplit r Hr) as [Hu | (o & Ho & Ha)]; [auto|].
    eapply ext_good; [eapply ext_trans; [exact Ew12 | exact Ew']|].
    intros o2 Ho2. rewrite Ho in Ho2. inversion Ho2; subst. left. left. exact Ha. }
  assert (Hold_good : forall r, In r old -> good f n0 w' r).
  { intros r Hr. unfold old in Hr. apply in_app_iff in Hr as [Hr | Hr]; auto. }
  (* where the elements of the new lists come from *)
  assert (Sunc : forall r, In r unconfirmed -> In r old)
    by (intros r Hr; unfold old; rewrite in_app_iff; auto).
  assert (Spool : forall r, In r strack_pool -> In r old).
  { intros r Hr. apply Ipool in Hr. unfold old. rewrite !in_app_iff in *.
    destruct Hr as [Hr | Hr]; auto. }
  assert (Srt : forall r, In r r_tracked -> In r old) by (intros r Hr; auto).
  assert (S5 : forall r, In r (refind1 ++ activated1) -> In r old).
  { intros r Hr. destruct (I5 r Hr) as [[] | Hp]. auto. }
  assert (S8 : forall r, In r (refind2 ++ activated2) -> In r old).
  { intros r Hr. destruct (I8 r Hr) as [Hp | Hp]; auto. }
  assert (Slost_ : forall r, In r lost_ -> In r old).
  { intros r Hr. destruct (I9 r Hr) as [[] | Hp]. auto. }
  assert (Sdet : forall r, In r detections' -> (n0 <= r < length (heap w'))%nat).
  { intros r Hr. apply I10 in Hr. apply F1 in Hr.
    pose proof (proj1 E2). pose proof (proj1 Ew12). pose proof (proj1 Ew'). lia. }
  assert (Sact3 : forall r, In r activated3 -> In r old).
  { intros r Hr. destruct (I11 r Hr) as [Hp | Hp]; [|auto].
    apply S8. rewrite in_app_iff. auto. }
  assert (Sact4 : forall r, In r activated4 ->
                    In r old \/ (n0 <= r < length (heap w'))%nat).
  { intros r Hr. destruct (I13 r Hr) as [Hp | Hp]; auto. }
  assert (Srem1 : forall r, In r removed_1 -> In r old).
  { intros r Hr. destruct (I12 r Hr) as [[] | Hp]. auto. }
  assert (Srem2 : forall r, In r removed_2 -> In r old).
  { intros r Hr. destruct (I14 r Hr) as [Hp | Hp]; [auto|].
    unfold old. rewrite !in_app_iff. auto. }
  assert (Sagain : forall r, In r again -> In r old).
  { intros r Hr. apply I15 in Hr. unfold old. rewrite !in_app_iff. auto. }
  assert (Str3 : forall r, In r tracked3 ->
                   In r old \/ (n0 <= r < length (heap w'))%nat).
  { intros r Hr. apply I18 in Hr. apply in_app_iff in Hr as [Hr | Hr].
    - apply I17 in Hr. apply in_app_iff in Hr as [Hr | Hr]; [|auto].
      left. unfold old. rewrite in_app_iff. auto.
    - left. apply S8. rewrite in_app_iff. auto. }
  assert (Slost2 : forall r, In r lost2 -> In r old).
  { intros r Hr. apply I20 in Hr. apply in_app_iff in Hr as [Hr | Hr]; [|auto].
    apply I19 in Hr. unfold old. rewrite !in_app_iff. auto. }
  assert (Hold_valid : forall r, In r old -> (r < length (heap w'))%nat).
  { intros r Hr. specialize (Hvalid r Hr). fold n0 in Hvalid.
    pose proof (proj1 Eall). fold n0 in H. lia. }
  assert (Hold_lt : forall r, In r old -> (r < n0)%nat) by (intros r Hr; apply Hvalid; exact Hr).
  assert (Hta : forall r, In r (map fst (drop_indices da ta)) -> In r tracked3).
  { intros r Hr. apply in_map_iff in Hr as [p [<- Hp]]. apply drop_indices_incl in Hp.
    rewrite <- Ita. apply in_map. exact Hp. }
  assert (Htb : forall r, In r (map fst (drop_indices db tb)) -> In r lost2).
  { intros r Hr. apply in_map_iff in Hr as [p [<- Hp]]. apply drop_indices_incl in Hp.
    rewrite <- Itb. apply in_map. exact Hp. }
  (* the invariant after the call *)
  split; [|split].
  - intros r Hr. cbn [BYTETracker.tracked_stracks BYTETracker.lost_stracks
                       BYTETracker.removed_stracks] in Hr.
    rewrite Hre in Hr. rewrite !in_app_iff in Hr.
    destruct Hr as [Hr | [Hr | [Hr | [Hr | Hr]]]].
    + apply Hta, Str3 in Hr as [Hr | Hr]; [auto | lia].
    + apply Htb, Slost2 in Hr. auto.
    + apply Hold_valid. unfold old. rewrite !in_app_iff. auto.
    + auto.
    + auto.
  - intros r o Hr Ho. cbn [BYTETracker.tracked_stracks BYTETracker.frame_id] in *.
    assert (G : good f n0 w' r).
    { apply Hta, Str3 in Hr as [Hr | Hr]; [auto | apply Hfresh_good; lia]. }
    destruct (G o Ho) as [Hs | (_ & Hsf & Hf1)]; [left; exact Hs | right].
    rewrite Hfr. auto.
  - intros r o Hr Ho. cbn [BYTETracker.lost_stracks BYTETracker.removed_stracks] in Hr.
    rewrite Hre in Hr.
    assert (Hold : In r old).
    { rewrite !in_app_iff in Hr. destruct Hr as [Hr | [Hr | [Hr | Hr]]]; auto.
      unfold old. rewrite !in_app_iff. auto. }
    destruct (Hold_good r Hold o Ho) as [Hs | (Hn & _)]; [exact Hs|].
    specialize (Hold_lt r Hold). lia.
Qed.

End Invariant.

(** *** Reachable states *)

Section Sessions.
Variable linear_sum_assignment : ndarray2 -> res (list nat * list nat).
Variable cho_factor : mat -> res mat.
Variable cho_solve : mat -> mat -> mat.

Lemma run_reachable frames t out w out' t' w' :
  reached_by_returning_calls linear_sum_assignment cho_factor cho_solve t w ->
  run linear_sum_assignment cho_factor cho_solve t out frames w = Ok ((out', t'), w') ->
  reached_by_returning_calls linear_sum_assignment cho_factor cho_solve t' w'.
Proof.
  revert t out w. induction frames as [|[[d i] s] frames IH]; intros t out w R H; simpl in H.
  - inversion H; subst. exact R.
  - apply bindM_Ok in H as ([o1 t1] & w1 & H1 & H).
    eapply IH; [|exact H]. eapply reachable_update; eassumption.
Qed.

Lemma session_reachable track_thresh track_buffer match_thresh frame_rate frames w0 out t w :
  session linear_sum_assignment cho_factor cho_solve
          track_thresh track_buffer match_thresh frame_rate frames w0
  = Ok ((out, t), w) ->
  reached_by_returning_calls linear_sum_assignment cho_factor cho_solve t w.
Proof.
  unfold session. intros H. apply bindM_Ok in H as (t0 & w1 & H1 & H).
  eapply run_reachable; [|exact H]. eapply reachable_init. exact H1.
Qed.

Lemma reachable_inv t w :
  reached_by_returning_calls linear_sum_assignment cho_factor cho_solve t w -> tracker_inv t w.
Proof.
  induction 1 as [tt tb mt fr w0 t w H | t w d i s out t' w' R IH H].
  - unfold BYTETracker.__init__ in H. apply bindM_Ok in H as (n & w1 & _ & H).
    inversion H; subst. split; [|split]; [intros r [] | intros r o [] | intros r o []].
  - eapply update_preserves_inv; eassumption.
Qed.

End Sessions.

(** C1, as the code has it.  Between [update] calls of a session whose
    calls have all returned, every track held in [tracked], [lost] or
    [removed] whose state is [Tracked] has [is_activated] set, with one
    exception: a track of the tracked list that was born in the current
    frame, when that frame is not the first
    ([start_frame = frame_id <> 1]); [activate] sets [is_activated] only in
    frame 1. *)
Theorem tracked_state_implies_activated_or_newborn
        (linear_sum_assignment : ndarray2 -> res (list nat * list nat))
        (cho_factor : mat -> res mat) (cho_solve : mat -> mat -> mat)
        (t : BYTETracker.t) (w : world) (r : ref) (o : STrack) :
  reached_by_returning_calls linear_sum_assignment cho_factor cho_solve t w ->
  In r (BYTETracker.tracked_stracks t ++ BYTETracker.lost_stracks t
        ++ BYTETracker.removed_stracks t) ->
  heap w !! r = Some o ->
  state o = Some TrackState.Tracked ->
  is_activated o = true
  \/ (In r (BYTETracker.tracked_stracks t)
      /\ start_frame o = Some (BYTETracker.frame_id t)
      /\ BYTETracker.frame_id t <> 1%Z).
Proof.
  intros R Hin Ho Hs. apply reachable_inv in R as (_ & Ht & Hr).
  apply in_app_iff in Hin as [Hin | Hin].
  - destruct (Ht r o Hin Ho) as [[Ha | Hn] | Hb]; [auto | congruence | auto].
  - destruct (Hr r o Hin Ho) as [Ha | Hn]; [auto | congruence].
Qed.

(** *** Concrete sessions, with the reference solver and Cholesky routine *)

Lemma tracked_state_witness :
  exists out t w o,
    reference_session 0.25 30 0.8 30 [one_box 0.9; one_box 0.9] (mkWorld [] 0)
    = Ok ((out, t), w)
    /\ heap w !! 0%nat = Some o
    /\ state o = Some TrackState.Tracked
    /\ (is_activated o = true
        \/ (In 0%nat (BYTETracker.tracked_stracks t)
            /\ start_frame o = Some (BYTETracker.frame_id t)
            /\ BYTETracker.frame_id t <> 1%Z)).
Proof.
  eexists _, _, _, _.
  split; [vm_compute; reflexivity|].
  split; [vm_compute; reflexivity|].
  split; [reflexivity|].
  eapply (tracked_state_implies_activated_or_newborn
            Reference.linear_sum_assignment Reference.cho_factor Reference.cho_solve).
  - eapply (session_reachable _ _ _ 0.25 30 0.8 30 [one_box 0.9; one_box 0.9] (mkWorld [] 0)).
    vm_compute. reflexivity.
  - left. reflexivity.
  - vm_compute. reflexivity.
  - reflexivity.
Defined.

(** A track born in frame 2: it is in the tracked list, in state [Tracked],
    and not activated (and [update] does not return it). *)
Lemma track_born_in_frame_two_is_tracked_unactivated :
  exists out t w o,
    reference_session 0.25 30 0.8 30 [no_box; one_box 0.9] (mkWorld [] 0) = Ok ((out, t), w)
    /\ BYTETracker.tracked_stracks t = [0%nat]
    /\ heap w !! 0%nat = Some o
    /\ state o = Some TrackState.Tracked
    /\ is_activated o = false
    /\ out = [].
Proof.
  eexists _, _, _, _.
  split; [vm_compute; reflexivity|].
  repeat split; vm_compute; reflexivity.
Qed.

(** C2: a lost track that expires stays in the lost list for that frame, in
    state [Removed], and enters the removed list twice. *)
Theorem expired_track_in_lost_and_twice_in_removed :
  exists out t w o,
    reference_session 0.25 1 0.8 30 [one_box 0.9; no_box; no_box] (mkWorld [] 0)
    = Ok ((out, t), w)
    /\ BYTETracker.frame_id t = 3%Z
    /\ BYTETracker.max_time_lost t = 1%Z
    /\ BYTETracker.tracked_stracks t = []
    /\ BYTETracker.lost_stracks t = [0%nat]
    /\ BYTETracker.removed_stracks t = [0%nat; 0%nat]
    /\ heap w !! 0%nat = Some o
    /\ state o = Some TrackState.Removed.
Proof.
  eexists _, _, _, _.
  split; [vm_compute; reflexivity|].
  repeat split; vm_compute; reflexivity.
Qed.

(** A detection whose score equals [track_thresh]: it passes neither mask,
    and the frame builds no track object at all. *)
Lemma score_equal_to_track_thresh_is_dropped :
  exists t w out t' w',
    BYTETracker.__init__ 0.25 30 0.8 30 (mkWorld [] 0) = Ok (t, w)
    /\ PrimFloat.eqb 0.25 (BYTETracker.track_thresh t) = true
    /\ BYTETracker.masked (BYTETracker.low_mask Float64 t)
                          [[100; 100; 200; 300]%float] [0.25%float] = []
    /\ BYTETracker.masked (BYTETracker.high_mask Float64 t)
                          [[100; 100; 200; 300]%float] [0.25%float] = []
    /\ reference_session 0.25 30 0.8 30 [one_box 0.25] (mkWorld [] 0) = Ok ((out, t'), w')
    /\ heap w' = [].
Proof.
  eexists _, _, _, _, _.
  split; [vm_compute; reflexivity|].
  repeat split; vm_compute; reflexivity.
Qed.

(** A detection of height zero goes through [update]: the frame returns
    the new track, whose Kalman mean holds an infinite aspect ratio. *)
Lemma zero_height_detection_is_tracked :
  exists out t w o m,
    reference_session 0.25 30 0.8 30 [flat_box] (mkWorld [] 0) = Ok ((out, t), w)
    /\ out = [0%nat]
    /\ heap w !! 0%nat = Some o
    /\ mean o = Some m
    /\ PrimFloat.is_infinity (vnth m 2) = true.
Proof.
  eexists _, _, _, _, _.
  split; [vm_compute; reflexivity|].
  repeat split; vm_compute; reflexivity.
Qed.

(** ** byte_tracker: the track objects a frame builds

    [update] allocates track objects only in its two calls of
    [_get_detections]; everything after them keeps every object's box. *)

Lemma steady_ret {A} (a : A) : steady (ret a).
Proof. intros w a' w' H. inversion H; subst. reflexivity. Qed.

Lemma steady_raise {A} e : steady (@raise A e).
Proof. intros w a w' H. discriminate. Qed.

Lemma steady_lift {A} (r : res A) : steady (lift r).
Proof. intros w a w' H. apply lift_Ok in H as [_ ->]. reflexivity. Qed.

Lemma steady_bind {A B} (m : M A) (k : A -> M B) :
  steady m -> (forall a, steady (k a)) -> steady (bindM m k).
Proof.
  intros Hm Hk w b w' H. apply bindM_Ok in H as (a & w1 & H1 & H2).
  rewrite (Hk a _ _ _ H2). apply (Hm _ _ _ H1).
Qed.

Lemma steady_read r : steady (read r).
Proof. intros w o w' H. apply read_Ok in H as [_ ->]. reflexivity. Qed.

Lemma steady_attr {A} (g : STrack -> option A) e r : steady (attr g e r).
Proof.
  unfold attr. apply steady_bind; [apply steady_read|].
  intros o. destruct (g o); [apply steady_ret | apply steady_raise].
Qed.

Lemma steady_lindex {A} (l : list A) i : steady (lindex l i).
Proof. unfold lindex. destruct (l !! i); [apply steady_ret | apply steady_raise]. Qed.

Lemma steady_next_id : steady BaseTrack.next_id.
Proof. intros w a w' H. rewrite next_id_Ok in H. inversion H; subst. reflexivity. Qed.

Lemma steady_mapM {A B} (g : A -> M B) l : (forall a, steady (g a)) -> steady (mapM g l).
Proof.
  intros Hg. induction l as [|a l IH]; simpl; [apply steady_ret|].
  apply steady_bind; [apply Hg|]. intros b.
  apply steady_bind; [exact IH|]. intros bs. apply steady_ret.
Qed.

Lemma steady_filterM {A} (p : A -> M bool) l :
  (forall a, steady (p a)) -> steady (filterM p l).
Proof.
  intros Hp. induction l as [|a l IH]; simpl; [apply steady_ret|].
  apply steady_bind; [apply Hp|]. intros b.
  apply steady_bind; [exact IH|]. intros bs. apply steady_ret.
Qed.

Lemma steady_forM_ {A} (g : A -> M unit) l : (forall a, steady (g a)) -> steady (forM_ g l).
Proof.
  intros Hg. induction l as [|a l IH]; simpl; [apply steady_ret|].
  apply steady_bind; [apply Hg|]. intros _. exact IH.
Qed.

Lemma map_insert_same {A B} (g : A -> B) (l : list A) i x o :
  l !! i = Some o -> g x = g o -> map g (<[i:=x]> l) = map g l.
Proof.
  revert i. induction l as [|y l IH]; intros [|i] H E; simpl in *; try discriminate.
  - inversion H; subst. rewrite E. reflexivity.
  - rewrite (IH i H E). reflexivity.
Qed.

(** Overwriting the object at [r] by one with the same box. *)
Lemma write_same_box r o o' w u w' :
  heap w !! r = Some o -> _tlwh o' = _tlwh o ->
  write r o' w = Ok (u, w') -> map _tlwh (heap w') = map _tlwh (heap w).
Proof.
  intros Ho Hb H. apply write_Ok in H as [_ ->]. cbn [heap].
  apply (map_insert_same _tlwh (heap w) r o' o Ho Hb).
Qed.

Lemma steady_modify r (g : STrack -> STrack) :
  (forall o, _tlwh (g o) = _tlwh o) -> steady (let! o := read r in write r (g o)).
Proof.
  intros Hg w u w' H. apply bindM_Ok in H as (o & w1 & H1 & H).
  apply read_Ok in H1 as [Ho ->]. apply (write_same_box r o (g o) w u w' Ho (Hg o) H).
Qed.

Lemma steady_mark_lost r : steady (BaseTrack.mark_lost r).
Proof. apply steady_modify. reflexivity. Qed.

Lemma steady_mark_removed r : steady (BaseTrack.mark_removed r).
Proof. apply steady_modify. reflexivity. Qed.

Lemma steady_activate self kf fid : steady (STrackM.activate self kf fid).
Proof.
  intros w u w' H. unfold STrackM.activate in H.
  apply bindM_Ok in H as (o & w1 & H1 & H). apply read_Ok in H1 as [Ho ->].
  apply bindM_Ok in H as (tid & w2 & H2 & H).
  rewrite next_id_Ok in H2. inversion H2; subst. clear H2.
  refine (write_same_box self o _ (mkWorld (heap w) (_count w + 1)) u w' Ho _ H).
  unfold STrackM.activated. destruct (KalmanFilter.initiate _ _). reflexivity.
Qed.

Lemma steady_multi_predict stracks : steady (STrackM.multi_predict stracks).
Proof.
  unfold STrackM.multi_predict. destruct stracks as [|s0 stracks]; [apply steady_ret|].
  apply steady_bind.
  { apply steady_mapM. intros st. unfold STrackM.multi_state.
    apply steady_bind; [apply steady_read|]. intros o.
    destruct (mean o); [apply steady_ret | apply steady_raise]. }
  intros ms. apply steady_bind.
  { apply steady_mapM. intros p. unfold STrackM.zero_velocity.
    apply steady_bind; [apply steady_attr|]. intros s.
    destruct (TrackState.eqb _ _); [apply steady_ret|].
    apply steady_bind; [apply steady_lift | intros; apply steady_ret]. }
  intros ms'. apply steady_bind; [apply steady_lift|]. intros cs.
  apply steady_bind; [apply steady_lift|]. intros [mm mc].
  apply steady_forM_. intros [r [m c]]. cbn [fst snd].
  apply (steady_modify r (STrackM.set_mean_cov m c)). reflexivity.
Qed.

Lemma attr_Ok {A} (g : STrack -> option A) e r w a w' :
  attr g e r w = Ok (a, w') -> w' = w.
Proof.
  unfold attr. intros H. apply bindM_Ok in H as (o & w1 & H1 & H).
  apply read_Ok in H1 as [_ ->]. destruct (g o); [|discriminate]. inversion H; reflexivity.
Qed.

Section SteadyTracker.
Variable linear_sum_assignment : ndarray2 -> res (list nat * list nat).
Variable cho_factor : mat -> res mat.
Variable cho_solve : mat -> mat -> mat.

Lemma steady__update_track self new_track fid new_id :
  steady (STrackM._update_track cho_factor cho_solve self new_track fid new_id).
Proof.
  intros w u w' H. unfold STrackM._update_track in H.
  apply bindM_Ok in H as (o & w1 & H1 & H). apply read_Ok in H1 as [Ho ->].
  apply bindM_Ok in H as (n & w1 & H1 & H). apply read_Ok in H1 as [_ ->].
  apply bindM_Ok in H as (kf & w1 & H1 & H). apply attr_Ok in H1 as ->.
  apply bindM_Ok in H as (m & w1 & H1 & H). apply attr_Ok in H1 as ->.
  apply bindM_Ok in H as (c & w1 & H1 & H). apply attr_Ok in H1 as ->.
  apply bindM_Ok in H as ([m' c'] & w1 & H1 & H). apply lift_Ok in H1 as [_ ->].
  apply bindM_Ok in H as (tid & w1 & H1 & H).
  assert (Hw1 : heap w1 = heap w).
  { destruct new_id.
    - apply bindM_Ok in H1 as (i & w2 & H2 & H1). rewrite next_id_Ok in H2.
      inversion H2; subst. inversion H1; subst. reflexivity.
    - inversion H1; subst. reflexivity. }
  rewrite <- Hw1 in Ho. rewrite <- Hw1.
  refine (write_same_box self o _ w1 u w' Ho _ H). reflexivity.
Qed.

Lemma steady__match_tracks_to_detections stracks detections thresh :
  steady (BYTETracker._match_tracks_to_detections linear_sum_assignment
            stracks detections thresh).
Proof.
  unfold BYTETracker._match_tracks_to_detections.
  apply steady_bind; [apply steady_mapM; intros; apply steady_read|]. intros a.
  apply steady_bind; [apply steady_mapM; intros; apply steady_read|]. intros b.
  apply steady_lift.
Qed.

Lemma steady__update_tracks self stracks detections matches refind activated :
  steady (BYTETracker._update_tracks cho_factor cho_solve self stracks detections
            matches refind activated).
Proof.
  revert refind activated.
  induction matches as [|[it idet] matches IH]; intros refind activated; simpl;
    [apply steady_ret|].
  apply steady_bind; [apply steady_lindex|]. intros track.
  apply steady_bind; [apply steady_lindex|]. intros det.
  apply steady_bind; [apply steady_attr|]. intros s.
  destruct (TrackState.eqb _ _);
    (apply steady_bind; [apply steady__update_track | intros; apply IH]).
Qed.

Lemma steady_mark_lost_loop r_tracked u_track lost_ :
  steady (BYTETracker.mark_lost_loop r_tracked u_track lost_).
Proof.
  revert lost_. induction u_track as [|it u_track IH]; intros lost_; simpl;
    [apply steady_ret|].
  apply steady_bind; [apply steady_lindex|]. intros track.
  apply steady_bind; [apply steady_attr|]. intros s.
  destruct (negb _); [|apply IH].
  apply steady_bind; [apply steady_mark_lost | intros; apply IH].
Qed.

Lemma steady_update_unconfirmed_loop self unconfirmed detections matches activated :
  steady (BYTETracker.update_unconfirmed_loop cho_factor cho_solve self unconfirmed
            detections matches activated).
Proof.
  revert activated. induction matches as [|[it idet] matches IH]; intros activated; simpl;
    [apply steady_ret|].
  apply steady_bind; [apply steady_lindex|]. intros track.
  apply steady_bind; [apply steady_lindex|]. intros det.
  apply steady_bind; [apply steady__update_track|]. intros _.
  apply steady_bind; [apply steady_lindex | intros; apply IH].
Qed.

Lemma steady_mark_removed_loop unconfirmed u_unconfirmed removed_ :
  steady (BYTETracker.mark_removed_loop unconfirmed u_unconfirmed removed_).
Proof.
  revert removed_. induction u_unconfirmed as [|it u IH]; intros removed_; simpl;
    [apply steady_ret|].
  apply steady_bind; [apply steady_lindex|]. intros track.
  apply steady_bind; [apply steady_mark_removed | intros; apply IH].
Qed.

Lemma steady_new_tracks_loop self detections u_detection activated :
  steady (BYTETracker.new_tracks_loop self detections u_detection activated).
Proof.
  revert activated. induction u_detection as [|inew u IH]; intros activated; simpl;
    [apply steady_ret|].
  apply steady_bind; [apply steady_lindex|]. intros track.
  apply steady_bind; [apply steady_read|]. intros o.
  destruct (scalar_geb _ _); [|apply IH].
  apply steady_bind; [apply steady_activate | intros; apply IH].
Qed.

Lemma steady_expired self track : steady (BYTETracker.expired self track).
Proof.
  unfold BYTETracker.expired, BaseTrack.end_frame.
  apply steady_bind; [apply steady_attr | intros; apply steady_ret].
Qed.

Lemma steady_expire_loop self lost removed_ :
  steady (BYTETracker.expire_loop self lost removed_).
Proof.
  revert removed_. induction lost as [|track lost IH]; intros removed_; simpl;
    [apply steady_ret|].
  apply steady_bind; [apply steady_expired|]. intros x.
  destruct x; [|apply IH].
  apply steady_bind; [apply steady_mark_removed | intros; apply IH].
Qed.

Lemma steady_joint_stracks a b : steady (joint_stracks a b).
Proof.
  unfold joint_stracks.
  apply steady_bind; [apply steady_mapM; intros; apply steady_attr|].
  intros. apply steady_ret.
Qed.

Lemma steady_sub_stracks a b : steady (sub_stracks a b).
Proof.
  unfold sub_stracks.
  apply steady_bind; [apply steady_mapM; intros; apply steady_attr|]. intros ids.
  apply steady_filterM. intros r.
  apply steady_bind; [apply steady_attr | intros; apply steady_ret].
Qed.

Lemma steady_state_is s r :
  steady (let! s' := state_of r in ret (TrackState.eqb s' s)).
Proof. apply steady_bind; [apply steady_attr | intros; apply steady_ret]. Qed.

Lemma steady_is_activated_of r : steady (is_activated_of r).
Proof.
  unfold is_activated_of. apply steady_bind; [apply steady_read | intros; apply steady_ret].
Qed.

Lemma steady_read_pair r : steady (let! o := read r in ret (r, o)).
Proof. apply steady_bind; [apply steady_read | intros; apply steady_ret]. Qed.

Lemma steady__update_tracked_stracks self : steady (BYTETracker._update_tracked_stracks self).
Proof.
  unfold BYTETracker._update_tracked_stracks.
  apply steady_bind.
  { apply steady_filterM. intros r.
    apply steady_bind; [apply steady_is_activated_of | intros; apply steady_ret]. }
  intros u. apply steady_bind; [apply steady_filterM; apply steady_is_activated_of|].
  intros t. apply steady_ret.
Qed.

End SteadyTracker.

(** The store after [_get_detections]: one fresh object per detection, in
    order. *)
Lemma get_detections_heap kind l w refs w' :
  BYTETracker._get_detections kind l w = Ok (refs, w') ->
  map _tlwh (heap w')
  = map _tlwh (heap w) ++ map (detection_box (BYTETracker.kind_dtype kind)) l.
Proof.
  unfold BYTETracker._get_detections. destruct kind as [dt|dt]; [|discriminate].
  cbn [BYTETracker.kind_dtype].
  revert w refs. induction l as [|p l IH]; intros w refs H; simpl in H.
  - inversion H; subst. cbn [map]. rewrite app_nil_r. reflexivity.
  - apply bindM_Ok in H as (r0 & w1 & H1 & H). apply bindM_Ok in H as (rs & w2 & H2 & H).
    inversion H; subst. apply alloc_Ok in H1 as [-> ->].
    rewrite (IH _ _ H2). cbn [heap map]. rewrite map_app, <- app_assoc. reflexivity.
Qed.

Ltac steady_leaf :=
  first
    [ apply steady_ret | apply steady_lift
    | apply steady__update_tracked_stracks | apply steady_joint_stracks
    | apply steady_sub_stracks | apply steady_multi_predict
    | apply steady__match_tracks_to_detections | apply steady__update_tracks
    | apply steady_mark_lost_loop | apply steady_update_unconfirmed_loop
    | apply steady_mark_removed_loop | apply steady_new_tracks_loop
    | apply steady_expire_loop
    | apply steady_mapM; intros; first [apply steady_lindex | apply steady_read_pair]
    | apply steady_filterM; intros;
      first [apply steady_expired | apply steady_state_is | apply steady_is_activated_of] ].

Ltac steady_step :=
  apply steady_bind;
  [ steady_leaf
  | intros; repeat match goal with p : (_ * _)%type |- _ => destruct p end; cbv beta iota ].


(** The track objects a call of [update] builds: those of the detections
    that pass the first score mask, then those of the detections that pass
    the second, each with the box [_get_detections] gives it; every other
    object keeps its box. *)
Lemma update_builds_detection_objects
      (linear_sum_assignment : ndarray2 -> res (list nat * list nat))
      (cho_factor : mat -> res mat) (cho_solve : mat -> mat -> mat)
      (self : BYTETracker.t) (output_results : detector_output)
      (img_info img_size : float * float) (w : world)
      (out : list ref) (self' : BYTETracker.t) (w' : world) :
  BYTETracker.update linear_sum_assignment cho_factor cho_solve self output_results
                     img_info img_size w = Ok ((out, self'), w') ->
  exists dt scores raw bboxes,
    BYTETracker._process_output output_results = Ok (BYTETracker.Numpy dt, scores, raw)
    /\ BYTETracker._scale_bboxes dt img_info img_size raw = Ok bboxes
    /\ map _tlwh (heap w')
       = map _tlwh (heap w)
         ++ map (detection_box dt)
              (BYTETracker.masked (BYTETracker.high_mask dt self) bboxes scores
               ++ BYTETracker.masked (BYTETracker.low_mask dt self) bboxes scores).
Proof.
  intros H. unfold BYTETracker.update in H. cbv zeta in H.
  apply bindM_Ok in H as ([[kind scores] raw] & w1 & H1 & H). apply lift_Ok in H1 as [H1 ->].
  apply bindM_Ok in H as (bboxes & w1 & H2 & H). apply lift_Ok in H2 as [H2 ->].
  apply bindM_Ok in H as (dets & w1 & H3 & H).
  apply bindM_Ok in H as (dets2 & w2 & H4 & H).
  destruct kind as [dt | dt]; [|discriminate]. cbn [BYTETracker.kind_dtype] in *.
  apply get_detections_heap in H3. apply get_detections_heap in H4.
  cbn [BYTETracker.kind_dtype] in *.
  match type of H with
  | ?m w2 = _ => assert (S : steady m) by (do 26 steady_step; steady_leaf)
  end.
  apply S in H.
  exists dt, scores, raw, bboxes.
  split; [exact H1|]. split; [exact H2|].
  rewrite H, H4, H3, map_app, <- app_assoc. reflexivity.
Qed.

(** * Further properties of the code *)

(** ** byte_tracker: what [update] returns *)

Lemma filterM_reading_sound {A} (p : A -> M bool) (val : world -> A -> option bool)
      l w l' w' :
  (forall a w1 b w2, p a w1 = Ok (b, w2) -> w2 = w1 /\ val w1 a = Some b) ->
  filterM p l w = Ok (l', w') ->
  forall a, In a l' -> In a l /\ val w a = Some true.
Proof.
  intros Hp. revert w l'. induction l as [|a l IH]; intros w l' H; simpl in H.
  - inversion H; subst. intros a [].
  - apply bindM_Ok in H as (b & w1 & H1 & H). apply Hp in H1 as [-> Hv].
    apply bindM_Ok in H as (rest & w2 & H2 & H). inversion H; subst.
    intros a' Ha'. destruct b.
    + destruct Ha' as [<- | Ha']; [split; [left; reflexivity | exact Hv]|].
      destruct (IH _ _ H2 a' Ha'). split; [right|]; assumption.
    + destruct (IH _ _ H2 a' Ha'). split; [right|]; assumption.
Qed.

(** One step down the body of a monadic function: the next action returned,
    and its result is split when the code unpacks a tuple. *)
Ltac next_bind H :=
  apply bindM_Ok in H as (? & ? & ? & H);
  repeat match type of H with
         | context [match ?p with pair _ _ => _ end] => is_var p; destruct p
         end;
  cbv beta iota in H.

Ltac skip_bind H :=
  apply bindM_Ok in H as (? & ? & _ & H);
  repeat match type of H with
         | context [match ?p with pair _ _ => _ end] => is_var p; destruct p
         end;
  cbv beta iota in H.

Section UpdateResult.
Variable linear_sum_assignment : ndarray2 -> res (list nat * list nat).
Variable cho_factor : mat -> res mat.
Variable cho_solve : mat -> mat -> mat.

(** The tracks [update] returns are tracks of the new tracked list, and each
    one is activated in the store the call leaves. *)
Theorem update_returns_activated_tracked
        (self : BYTETracker.t) output_results img_info img_size w out self' w' :
  BYTETracker.update linear_sum_assignment cho_factor cho_solve self output_results
                     img_info img_size w = Ok ((out, self'), w') ->
  forall r, In r out ->
    In r (BYTETracker.tracked_stracks self')
    /\ exists o, heap w' !! r = Some o /\ is_activated o = true.
Proof.
  intros H. unfold BYTETracker.update in H. cbv zeta in H.
  do 29 skip_bind H.
  apply bindM_Ok in H as (out' & w1 & Hout & H). inversion H; subst. clear H.
  intros r Hr.
  assert (Hp : forall q wa c wb, is_activated_of q wa = Ok (c, wb) ->
                 wb = wa /\ option_map is_activated (heap wa !! q) = Some c).
  { intros q wa c wb Hb. apply is_activated_of_Ok in Hb as [-> (o & Ho & <-)].
    split; [reflexivity|]. rewrite Ho. reflexivity. }
  pose proof (filterM_reading_sound _ _ _ _ _ _ Hp Hout r Hr) as [Hin Hv].
  apply (filterM_reading _ _ _ _ _ _ Hp) in Hout as [-> _].
  split; [exact Hin|].
  match type of Hv with option_map _ (?h !! r) = _ => destruct (h !! r) as [o|] end;
    [|discriminate].
  cbn in Hv. inversion Hv. eauto.
Qed.

End UpdateResult.

(** ** byte_tracker: a frame rule for [update]

    [update] changes the store in three ways only: it allocates the
    objects of the detections, it overwrites an object with one that
    differs in the fields the Kalman filter, the matching and the state
    changes assign, and it activates detections it has just allocated.  A
    relation between stores that is a preorder and that these three steps
    respect therefore relates the store before [update] to the store after
    it. *)

Section FrameRule.
Variable R : world -> world -> Prop.
Variable compat : STrack -> STrack -> Prop.
Variable n0 : nat.
Hypothesis R_refl : forall w, R w w.
Hypothesis R_trans : forall w1 w2 w3, R w1 w2 -> R w2 w3 -> R w1 w3.
Hypothesis compat_set_state : forall s o, compat o (BaseTrack.set_state s o).
Hypothesis compat_set_mean_cov : forall m c o, compat o (STrackM.set_mean_cov m c o).
Hypothesis compat_updated :
  forall o n m c f, compat o (STrackM.updated o n m c (track_id o) f).
Hypothesis R_write :
  forall w r o o', heap w !! r = Some o -> compat o o' ->
    R w (mkWorld (<[r := o']> (heap w)) (_count w)).
Hypothesis R_alloc :
  forall w b s, R w (mkWorld (heap w ++ [STrackM.__init__ b s]) (_count w)).
Hypothesis R_activate :
  forall w r o kf f, (n0 <= r)%nat -> heap w !! r = Some o ->
    R w (mkWorld (<[r := STrackM.activated o kf f (_count w + 1)]> (heap w))
                 (_count w + 1)).

Lemma respects_ret {A} (a : A) : respects R (ret a).
Proof. intros w a' w' H. inversion H; subst. apply R_refl. Qed.

Lemma respects_raise {A} e : respects R (@raise A e).
Proof. intros w a w' H. discriminate. Qed.

Lemma respects_lift {A} (r : res A) : respects R (lift r).
Proof. intros w a w' H. apply lift_Ok in H as [_ ->]. apply R_refl. Qed.

Lemma respects_bind {A B} (m : M A) (k : A -> M B) :
  respects R m -> (forall a, respects R (k a)) -> respects R (let! x := m in k x).
Proof.
  intros Hm Hk w b w' H. apply bindM_Ok in H as (a & w1 & H1 & H2).
  eapply R_trans; [eapply Hm | eapply Hk]; eassumption.
Qed.

Lemma respects_read r : respects R (read r).
Proof. intros w a w' H. apply read_Ok in H as [_ ->]. apply R_refl. Qed.

Lemma respects_attr {A} (g : STrack -> option A) e r : respects R (attr g e r).
Proof. intros w a w' H. apply attr_Ok in H as ->. apply R_refl. Qed.

Lemma respects_lindex {A} (l : list A) i : respects R (lindex l i).
Proof. intros w a w' H. apply lindex_Ok in H as [_ ->]. apply R_refl. Qed.

Lemma respects_mapM {A B} (g : A -> M B) l :
  (forall a, respects R (g a)) -> respects R (mapM g l).
Proof.
  intros Hg. induction l as [|a l IH]; simpl; [apply respects_ret|].
  apply respects_bind; [apply Hg|]. intros b.
  apply respects_bind; [apply IH|]. intros bs. apply respects_ret.
Qed.

Lemma respects_filterM {A} (p : A -> M bool) l :
  (forall a, respects R (p a)) -> respects R (filterM p l).
Proof.
  intros Hp. induction l as [|a l IH]; simpl; [apply respects_ret|].
  apply respects_bind; [apply Hp|]. intros b.
  apply respects_bind; [apply IH|]. intros bs. apply respects_ret.
Qed.

Lemma respects_forM_ {A} (g : A -> M unit) l :
  (forall a, respects R (g a)) -> respects R (forM_ g l).
Proof.
  intros Hg. induction l as [|a l IH]; simpl; [apply respects_ret|].
  apply respects_bind; [apply Hg | intros; apply IH].
Qed.

(** Reading an object and writing a compatible one back. *)
Lemma respects_modify r (g : STrack -> STrack) :
  (forall o, compat o (g o)) -> respects R (let! o := read r in write r (g o)).
Proof.
  intros Hg w u w' H. apply bindM_Ok in H as (o & w1 & H1 & H).
  apply read_Ok in H1 as [Ho ->]. apply write_Ok in H as [_ ->].
  apply R_write with o; [exact Ho | apply Hg].
Qed.

Ltac respects_step :=
  lazymatch goal with
  | |- respects _ (bindM (read ?r) (fun o => write ?r (@?g o))) =>
      apply (respects_modify r g); intros
  | |- respects _ (bindM _ _) => apply respects_bind; [|intros]
  | |- respects _ (ret _) => apply respects_ret
  | |- respects _ (raise _) => apply respects_raise
  | |- respects _ (lift _) => apply respects_lift
  | |- respects _ (read _) => apply respects_read
  | |- respects _ (attr _ _ _) => apply respects_attr
  | |- respects _ (lindex _ _) => apply respects_lindex
  | |- respects _ (mapM _ _) => apply respects_mapM; intros
  | |- respects _ (filterM _ _) => apply respects_filterM; intros
  | |- respects _ (forM_ _ _) => apply respects_forM_; intros
  | |- respects _ (if ?b then _ else _) => destruct b
  | |- respects _ (match ?p with pair _ _ => _ end) => destruct p
  | |- respects _ (match ?x with Some _ => _ | None => _ end) => destruct x
  end.

Ltac respects_reads :=
  unfold joint_stracks, sub_stracks, track_id_of, state_of, is_activated_of,
    BYTETracker.expired, BaseTrack.end_frame, BYTETracker._update_tracked_stracks,
    BYTETracker._match_tracks_to_detections;
  repeat respects_step.

Lemma respects_joint_stracks a b : respects R (joint_stracks a b).
Proof. respects_reads. Qed.

Lemma respects_sub_stracks a b : respects R (sub_stracks a b).
Proof. respects_reads. Qed.

Lemma respects_expired self track : respects R (BYTETracker.expired self track).
Proof. respects_reads. Qed.

Lemma respects_mark_lost r : respects R (BaseTrack.mark_lost r).
Proof. apply respects_modify. intros o. apply compat_set_state. Qed.

Lemma respects_mark_removed r : respects R (BaseTrack.mark_removed r).
Proof. apply respects_modify. intros o. apply compat_set_state. Qed.

Lemma respects_multi_predict stracks : respects R (STrackM.multi_predict stracks).
Proof.
  unfold STrackM.multi_predict, STrackM.multi_state, STrackM.zero_velocity.
  destruct stracks as [|r stracks]; [apply respects_ret|].
  repeat respects_step. apply compat_set_mean_cov.
Qed.

Lemma respects_get_detections kind l : respects R (BYTETracker._get_detections kind l).
Proof.
  unfold BYTETracker._get_detections. destruct kind; [|apply respects_raise].
  apply respects_mapM. intros p w r w' H. apply alloc_Ok in H as [_ ->]. apply R_alloc.
Qed.

Lemma respects_activate self kf f :
  (n0 <= self)%nat -> respects R (STrackM.activate self kf f).
Proof.
  intros Hn w u w' H.
  assert (Ho : exists o, heap w !! self = Some o).
  { unfold STrackM.activate in H. apply bindM_Ok in H as (o & w1 & H1 & _).
    apply read_Ok in H1 as [Ho _]. eauto. }
  destruct Ho as [o Ho]. rewrite (activate_Ok self kf f w o Ho) in H.
  inversion H; subst. apply R_activate; assumption.
Qed.

Section WithSolvers.
Variable linear_sum_assignment : ndarray2 -> res (list nat * list nat).
Variable cho_factor : mat -> res mat.
Variable cho_solve : mat -> mat -> mat.

Lemma respects__update_track self new_track fid :
  respects R (STrackM._update_track cho_factor cho_solve self new_track fid false).
Proof.
  intros w u w' H. unfold STrackM._update_track in H.
  apply bindM_Ok in H as (o & w1 & H1 & H). apply read_Ok in H1 as [Ho ->].
  apply bindM_Ok in H as (n & w1 & H1 & H). apply read_Ok in H1 as [_ ->].
  apply bindM_Ok in H as (kf & w1 & H1 & H). apply attr_Ok in H1 as ->.
  apply bindM_Ok in H as (m & w1 & H1 & H). apply attr_Ok in H1 as ->.
  apply bindM_Ok in H as (c & w1 & H1 & H). apply attr_Ok in H1 as ->.
  apply bindM_Ok in H as ([m' c'] & w1 & H1 & H). apply lift_Ok in H1 as [_ ->].
  apply bindM_Ok in H as (tid & w1 & H1 & H). inversion H1; subst.
  apply write_Ok in H as [_ ->]. apply R_write with o; [exact Ho | apply compat_updated].
Qed.

Lemma respects__match_tracks_to_detections stracks detections thresh :
  respects R (BYTETracker._match_tracks_to_detections linear_sum_assignment
                stracks detections thresh).
Proof. respects_reads. Qed.

Lemma respects__update_tracks self stracks detections matches refind activated :
  respects R (BYTETracker._update_tracks cho_factor cho_solve self stracks detections
                matches refind activated).
Proof.
  revert refind activated.
  induction matches as [|[it idet] matches IH]; intros refind activated; simpl;
    [apply respects_ret|].
  do 3 (respects_step; [respects_reads|]).
  destruct (TrackState.eqb _ _);
    (apply respects_bind; [apply respects__update_track | intros; apply IH]).
Qed.

Lemma respects_mark_lost_loop r_tracked u_track lost_ :
  respects R (BYTETracker.mark_lost_loop r_tracked u_track lost_).
Proof.
  revert lost_. induction u_track as [|it u_track IH]; intros lost_; simpl;
    [apply respects_ret|].
  do 2 (respects_step; [respects_reads|]).
  destruct (negb _); [|apply IH].
  apply respects_bind; [apply respects_mark_lost | intros; apply IH].
Qed.

Lemma respects_update_unconfirmed_loop self unconfirmed detections matches activated :
  respects R (BYTETracker.update_unconfirmed_loop cho_factor cho_solve self unconfirmed
                detections matches activated).
Proof.
  revert activated. induction matches as [|[it idet] matches IH]; intros activated; simpl;
    [apply respects_ret|].
  do 2 (respects_step; [respects_reads|]).
  apply respects_bind; [apply respects__update_track|]. intros _.
  apply respects_bind; [apply respects_lindex | intros; apply IH].
Qed.

Lemma respects_mark_removed_loop unconfirmed u_unconfirmed removed_ :
  respects R (BYTETracker.mark_removed_loop unconfirmed u_unconfirmed removed_).
Proof.
  revert removed_. induction u_unconfirmed as [|it u IH]; intros removed_; simpl;
    [apply respects_ret|].
  respects_step; [respects_reads|].
  apply respects_bind; [apply respects_mark_removed | intros; apply IH].
Qed.

Lemma respects_new_tracks_loop self detections u_detection activated :
  (forall r, In r detections -> (n0 <= r)%nat) ->
  respects R (BYTETracker.new_tracks_loop self detections u_detection activated).
Proof.
  intros Hfresh. revert activated.
  induction u_detection as [|inew u IH]; intros activated; simpl; [apply respects_ret|].
  intros w x w' H.
  apply bindM_Ok in H as (track & w1 & H1 & H). apply lindex_Ok in H1 as [Ht ->].
  apply bindM_Ok in H as (o & w1 & H1 & H). apply read_Ok in H1 as [_ ->].
  apply lookup_In in Ht.
  destruct (scalar_geb _ _); [|exact (IH _ _ _ _ H)].
  apply bindM_Ok in H as (u0 & w2 & H2 & H).
  eapply R_trans; [exact (respects_activate _ _ _ (Hfresh _ Ht) _ _ _ H2)|].
  exact (IH _ _ _ _ H).
Qed.

Lemma respects_expire_loop self lost removed_ :
  respects R (BYTETracker.expire_loop self lost removed_).
Proof.
  revert removed_. induction lost as [|track lost IH]; intros removed_; simpl;
    [apply respects_ret|].
  apply respects_bind; [apply respects_expired|]. intros x.
  destruct x; [|apply IH].
  apply respects_bind; [apply respects_mark_removed | intros; apply IH].
Qed.

(** The frame rule. *)
Lemma update_respects self output_results img_info img_size w x w' :
  (n0 <= length (heap w))%nat ->
  BYTETracker.update linear_sum_assignment cho_factor cho_solve self output_results
                     img_info img_size w = Ok (x, w') ->
  R w w'.
Proof.
  intros Hn H. unfold BYTETracker.update in H. cbv zeta in H.
  apply bindM_Ok in H as ([[kind scores] bboxes] & w0 & H0 & H).
  apply lift_Ok in H0 as [_ ->].
  apply bindM_Ok in H as (bboxes' & w0 & H0 & H). apply lift_Ok in H0 as [_ ->].
  apply bindM_Ok in H as (detections & w1 & H1 & H).
  pose proof (respects_get_detections _ _ _ _ _ H1) as E1.
  pose proof (get_detections_fresh _ _ _ _ _ H1) as F1.
  apply bindM_Ok in H as (detections_second & w2 & H2 & H).
  pose proof (respects_get_detections _ _ _ _ _ H2) as E2.
  apply bindM_Ok in H as ([unconfirmed confirmed] & w3 & H3 & H).
  apply _update_tracked_stracks_Ok in H3 as (-> & _).
  apply bindM_Ok in H as (strack_pool & w3 & H3 & H).
  pose proof (respects_joint_stracks _ _ _ _ _ H3) as E3.
  apply bindM_Ok in H as (u4 & w4 & H4 & H).
  pose proof (respects_multi_predict _ _ _ _ H4) as E4.
  apply bindM_Ok in H as ([[matches u_track] u_detection] & w5 & H5 & H).
  pose proof (respects__match_tracks_to_detections _ _ _ _ _ _ H5) as E5.
  apply bindM_Ok in H as ([refind1 activated1] & w6 & H6 & H).
  pose proof (respects__update_tracks _ _ _ _ _ _ _ _ _ H6) as E6.
  apply bindM_Ok in H as (pool_unmatched & w7 & H7 & H).
  pose proof (respects_mapM _ _ (respects_lindex strack_pool) _ _ _ H7) as E7.
  apply bindM_Ok in H as (r_tracked & w8 & H8 & H).
  assert (E8 : R w7 w8).
  { revert H8. apply respects_filterM. intros r. respects_reads. }
  apply bindM_Ok in H as ([[matches2 u_track2] u_det2] & w9 & H9 & H).
  pose proof (respects__match_tracks_to_detections _ _ _ _ _ _ H9) as E9.
  apply bindM_Ok in H as ([refind2 activated2] & w10 & H10 & H).
  pose proof (respects__update_tracks _ _ _ _ _ _ _ _ _ H10) as E10.
  apply bindM_Ok in H as (lost_ & w11 & H11 & H).
  pose proof (respects_mark_lost_loop _ _ _ _ _ _ H11) as E11.
  apply bindM_Ok in H as (detections' & w12 & H12 & H).
  pose proof (respects_mapM _ _ (respects_lindex detections) _ _ _ H12) as E12.
  pose proof (mapM_lindex_incl _ _ _ _ _ H12) as I12.
  apply bindM_Ok in H as ([[matches3 u_unconfirmed] u_detection3] & w13 & H13 & H).
  pose proof (respects__match_tracks_to_detections _ _ _ _ _ _ H13) as E13.
  apply bindM_Ok in H as (activated3 & w14 & H14 & H).
  pose proof (respects_update_unconfirmed_loop _ _ _ _ _ _ _ _ H14) as E14.
  apply bindM_Ok in H as (removed_1 & w15 & H15 & H).
  pose proof (respects_mark_removed_loop _ _ _ _ _ _ H15) as E15.
  apply bindM_Ok in H as (activated4 & w16 & H16 & H).
  assert (E16 : R w15 w16).
  { revert H16. apply respects_new_tracks_loop.
    intros r Hr. apply I12 in Hr. apply F1 in Hr. lia. }
  apply bindM_Ok in H as (removed_2 & w17 & H17 & H).
  pose proof (respects_expire_loop _ _ _ _ _ _ H17) as E17.
  assert (E18 : R w17 w').
  { revert H. generalize w17 x w'.
    match goal with
    | |- forall w a w', ?m w = Ok (a, w') -> _ => change (respects R m)
    end.
    respects_reads; apply respects_lift. }
  repeat (eapply R_trans; [eassumption|]). apply R_refl.
Qed.

(** The same over a session, for a relation that [activate] respects on
    every object. *)
Lemma run_respects frames t out w x w' :
  n0 = 0%nat ->
  run linear_sum_assignment cho_factor cho_solve t out frames w = Ok (x, w') -> R w w'.
Proof.
  intros Hn. revert t out w. induction frames as [|[[o i] s] frames IH]; intros t out w H;
    simpl in H.
  - inversion H; subst. apply R_refl.
  - apply bindM_Ok in H as ([out' t'] & w1 & H1 & H).
    eapply R_trans; [|exact (IH _ _ _ H)].
    eapply update_respects; [|exact H1]. lia.
Qed.

End WithSolvers.
End FrameRule.

(** ** byte_tracker: track identities *)

Lemma has_id_write w r o o' c r' i :
  heap w !! r = Some o -> track_id o' = track_id o ->
  has_id (mkWorld (<[r := o']> (heap w)) c) r' i <-> has_id w r' i.
Proof.
  intros Ho Hid. pose proof (lookup_lt_Some _ _ _ Ho) as Hlt. unfold has_id, ref in *.
  cbn [heap]. destruct (Nat.eq_dec r' r) as [->|Hne].
  - rewrite list_lookup_insert_eq by exact Hlt. split.
    + intros (o1 & E & Hi). inversion E; subst. exists o. split; [exact Ho | congruence].
    + intros (o1 & E & Hi). exists o'. split; [reflexivity|].
      assert (o1 = o) by congruence. subst o1. congruence.
  - rewrite list_lookup_insert_ne by congruence. reflexivity.
Qed.

Lemma has_id_alloc w b s c r i :
  has_id (mkWorld (heap w ++ [STrackM.__init__ b s]) c) r i <-> has_id w r i.
Proof.
  unfold has_id, ref in *. cbn [heap].
  destruct (Nat.lt_ge_cases r (length (heap w))) as [Hlt|Hge].
  - rewrite lookup_app_l by exact Hlt. reflexivity.
  - rewrite lookup_app_r by exact Hge. split.
    + intros (o & E & Hi). destruct (r - length (heap w))%nat; [|discriminate].
      inversion E; subst. discriminate.
    + intros (o & E & _). apply lookup_lt_Some in E. lia.
Qed.

Lemma track_id_activated o kf f tid : track_id (STrackM.activated o kf f tid) = Some tid.
Proof. unfold STrackM.activated. destruct (KalmanFilter.initiate _ _). reflexivity. Qed.

Lemma has_id_activate w r o kf f tid c r' i :
  heap w !! r = Some o ->
  has_id (mkWorld (<[r := STrackM.activated o kf f tid]> (heap w)) c) r' i
  <-> (r' = r /\ i = tid) \/ (r' <> r /\ has_id w r' i).
Proof.
  intros Ho. pose proof (lookup_lt_Some _ _ _ Ho) as Hlt. unfold has_id, ref in *.
  cbn [heap]. destruct (Nat.eq_dec r' r) as [->|Hne].
  - rewrite list_lookup_insert_eq by exact Hlt. split.
    + intros (o1 & E & Hi). inversion E; subst. rewrite track_id_activated in Hi.
      inversion Hi. auto.
    + intros [[_ ->] | [Hne _]]; [|congruence]. eexists. split; [reflexivity|].
      apply track_id_activated.
  - rewrite list_lookup_insert_ne by congruence. split.
    + intros H. right. auto.
    + intros [[-> _] | [_ H]]; [congruence | exact H].
Qed.

Lemma keeps_ids_write w r o o' :
  heap w !! r = Some o -> same_id o o' ->
  keeps_ids w (mkWorld (<[r := o']> (heap w)) (_count w)).
Proof.
  intros Ho Hid (Hc & Hb & Hu). split; [exact Hc|]. split.
  - intros r1 i H. rewrite (has_id_write w r o o' _ r1 i Ho Hid) in H. exact (Hb r1 i H).
  - intros r1 r2 i H1 H2. apply (has_id_write w r o o' _ _ i Ho Hid) in H1, H2.
    exact (Hu r1 r2 i H1 H2).
Qed.

Lemma keeps_ids_alloc w b s :
  keeps_ids w (mkWorld (heap w ++ [STrackM.__init__ b s]) (_count w)).
Proof.
  intros (Hc & Hb & Hu). split; [exact Hc|]. split.
  - intros r1 i H. rewrite has_id_alloc in H. exact (Hb r1 i H).
  - intros r1 r2 i H1 H2. apply has_id_alloc in H1, H2. exact (Hu r1 r2 i H1 H2).
Qed.

Lemma keeps_ids_activate w r o kf f :
  heap w !! r = Some o ->
  keeps_ids w (mkWorld (<[r := STrackM.activated o kf f (_count w + 1)]> (heap w))
                       (_count w + 1)).
Proof.
  intros Ho (Hc & Hb & Hu). split; [cbn [_count]; lia|]. split.
  - intros r1 i H. rewrite (has_id_activate w r o kf f _ _ r1 i Ho) in H. cbn [_count].
    destruct H as [[_ ->] | [_ H]]; [lia|]. specialize (Hb r1 i H). lia.
  - intros r1 r2 i H1 H2.
    apply (has_id_activate w r o kf f _ _ _ i Ho) in H1, H2.
    destruct H1 as [[-> ->] | [N1 H1]], H2 as [[-> E2] | [N2 H2]]; try reflexivity.
    + specialize (Hb r2 _ H2). lia.
    + subst i. specialize (Hb r1 _ H1). lia.
    + exact (Hu r1 r2 i H1 H2).
Qed.

Lemma ids_ok_no_ids h :
  (forall r o, h !! r = Some o -> track_id o = None) -> ids_ok (mkWorld h 0).
Proof.
  intros Hn. split; [cbn; lia|]. split.
  - intros r i (o & Ho & Hi). cbn [heap] in Ho. rewrite (Hn r o Ho) in Hi. discriminate.
  - intros r1 r2 i (o & Ho & Hi). cbn [heap] in Ho. rewrite (Hn r1 o Ho) in Hi. discriminate.
Qed.

Section Identities.
Variable linear_sum_assignment : ndarray2 -> res (list nat * list nat).
Variable cho_factor : mat -> res mat.
Variable cho_solve : mat -> mat -> mat.

Lemma run_keeps_ids frames t out w x w' :
  run linear_sum_assignment cho_factor cho_solve t out frames w = Ok (x, w') ->
  ids_ok w -> ids_ok w'.
Proof.
  intros H.
  refine (run_respects keeps_ids same_id 0 _ _ _ _ _ _ _ _
            linear_sum_assignment cho_factor cho_solve frames t out w x w' eq_refl H).
  - intros w0 H0. exact H0.
  - intros w1 w2 w3 H1 H2 H0. exact (H2 (H1 H0)).
  - reflexivity.
  - reflexivity.
  - reflexivity.
  - intros. eapply keeps_ids_write; eassumption.
  - intros. apply keeps_ids_alloc.
  - intros. apply keeps_ids_activate. assumption.
Qed.

(** Within one call of [update], identities stay in order: if the track
    ids in the store are distinct and lie between 1 and the counter
    [BaseTrack._count] before the call, they do after it. *)
Theorem update_keeps_track_ids_unique
        self output_results img_info img_size w out self' w' :
  ids_ok w ->
  BYTETracker.update linear_sum_assignment cho_factor cho_solve self output_results
                     img_info img_size w = Ok ((out, self'), w') ->
  ids_ok w'.
Proof.
  intros Hok H. revert Hok.
  refine (update_respects keeps_ids same_id 0 _ _ _ _ _ _ _ _
            linear_sum_assignment cho_factor cho_solve
            self output_results img_info img_size w (out, self') w' _ H).
  - intros w0 H0. exact H0.
  - intros w1 w2 w3 H1 H2 H0. exact (H2 (H1 H0)).
  - reflexivity.
  - reflexivity.
  - reflexivity.
  - intros. eapply keeps_ids_write; eassumption.
  - intros. apply keeps_ids_alloc.
  - intros. apply keeps_ids_activate. assumption.
  - lia.
Qed.

(** Over a whole session, construction and any number of frames, started
    on a store in which no object has a track id yet: no two track objects
    share a track id, and every id lies between 1 and the counter. *)
Theorem session_track_ids_unique
        track_thresh track_buffer match_thresh frame_rate frames w0 out t w :
  (forall r o, heap w0 !! r = Some o -> track_id o = None) ->
  session linear_sum_assignment cho_factor cho_solve track_thresh track_buffer
          match_thresh frame_rate frames w0 = Ok ((out, t), w) ->
  ids_ok w.
Proof.
  intros Hn H. unfold session in H.
  apply bindM_Ok in H as (t0 & w1 & H1 & H).
  eapply run_keeps_ids; [exact H|].
  unfold BYTETracker.__init__ in H1.
  apply bindM_Ok in H1 as (b & w2 & H2 & H1). apply lift_Ok in H2 as [_ ->].
  inversion H1; subst. apply ids_ok_no_ids. exact Hn.
Qed.

End Identities.

Lemma update_keeps_track_ids_unique_witness :
  exists out self' w',
    BYTETracker.update Reference.linear_sum_assignment Reference.cho_factor
                       Reference.cho_solve fresh_tracker two_scores
                       (720, 1280)%float (720, 1280)%float (mkWorld [] 0)
    = Ok ((out, self'), w')
    /\ ids_ok w'.
Proof.
  eexists _, _, _. split; [vm_compute; reflexivity|].
  eapply (update_keeps_track_ids_unique
            Reference.linear_sum_assignment Reference.cho_factor Reference.cho_solve
            fresh_tracker two_scores (720, 1280)%float (720, 1280)%float (mkWorld [] 0)).
  - apply ids_ok_no_ids. intros r o Hr. destruct r; discriminate.
  - vm_compute. reflexivity.
Defined.

Lemma session_track_ids_unique_witness :
  exists out t w,
    reference_session 0.25 30 0.8 30 [one_box 0.9; one_box 0.9] (mkWorld [] 0)
    = Ok ((out, t), w)
    /\ ids_ok w.
Proof.
  eexists _, _, _. split; [vm_compute; reflexivity|].
  eapply (session_track_ids_unique
            Reference.linear_sum_assignment Reference.cho_factor Reference.cho_solve
            0.25 30 0.8 30 [one_box 0.9; one_box 0.9] (mkWorld [] 0)).
  - intros r o Hr. destruct r; discriminate.
  - vm_compute. reflexivity.
Defined.

(** ** byte_tracker: what [update] keeps of the tracks it holds *)

Lemma persists_refl o : persists o o.
Proof. unfold persists. repeat split; auto. lia. Qed.

Lemma persists_trans o1 o2 o3 : persists o1 o2 -> persists o2 o3 -> persists o1 o3.
Proof.
  intros (B1 & K1 & I1 & S1 & A1 & L1) (B2 & K2 & I2 & S2 & A2 & L2).
  unfold persists. repeat split; auto; [congruence | lia].
Qed.

Lemma persists_below_refl n0 w : persists_below n0 w w.
Proof.
  split; [lia|]. split; [lia|]. intros r o _ Ho. exists o. split; [exact Ho | apply persists_refl].
Qed.

Lemma persists_below_trans n0 w1 w2 w3 :
  persists_below n0 w1 w2 -> persists_below n0 w2 w3 -> persists_below n0 w1 w3.
Proof.
  intros (L1 & C1 & P1) (L2 & C2 & P2). split; [lia|]. split; [lia|].
  intros r o Hr Ho. destruct (P1 r o Hr Ho) as (o2 & Ho2 & Q1).
  destruct (P2 r o2 Hr Ho2) as (o3 & Ho3 & Q2).
  exists o3. split; [exact Ho3 | eapply persists_trans; eassumption].
Qed.

Lemma persists_below_write n0 w (r : ref) o o' :
  heap w !! r = Some o -> persists o o' ->
  persists_below n0 w (mkWorld (<[r := o']> (heap w)) (_count w)).
Proof.
  intros Ho Hp. pose proof (lookup_lt_Some _ _ _ Ho) as Hlt. unfold ref in *.
  split; [cbn [heap]; rewrite length_insert; lia|]. split; [cbn; lia|].
  intros r1 o1 _ H1. cbn [heap]. destruct (Nat.eq_dec r1 r) as [->|Hne].
  - rewrite list_lookup_insert_eq by exact Hlt. exists o'. split; [reflexivity|].
    assert (o1 = o) by congruence. subst o1. exact Hp.
  - rewrite list_lookup_insert_ne by congruence. exists o1.
    split; [exact H1 | apply persists_refl].
Qed.

Lemma persists_below_alloc n0 w o :
  persists_below n0 w (mkWorld (heap w ++ [o]) (_count w)).
Proof.
  split; [cbn [heap]; rewrite length_app; lia|]. split; [cbn; lia|].
  intros r1 o1 _ H1. cbn [heap]. exists o1. split; [|apply persists_refl].
  rewrite lookup_app_l by (eapply lookup_lt_Some; exact H1). exact H1.
Qed.

Lemma persists_below_overwrite_fresh n0 w (r : ref) o o' c :
  (n0 <= r)%nat -> heap w !! r = Some o -> (_count w <= c)%Z ->
  persists_below n0 w (mkWorld (<[r := o']> (heap w)) c).
Proof.
  intros Hn Ho Hc. unfold ref in *.
  split; [cbn [heap]; rewrite length_insert; lia|]. split; [exact Hc|].
  intros r1 o1 Hr1 H1. cbn [heap]. exists o1. split; [|apply persists_refl].
  rewrite list_lookup_insert_ne by lia. exact H1.
Qed.

Lemma persists_set_state s o : persists o (BaseTrack.set_state s o).
Proof. unfold persists. cbn. repeat split; auto. lia. Qed.

Lemma persists_set_mean_cov m c o : persists o (STrackM.set_mean_cov m c o).
Proof. unfold persists. cbn. repeat split; auto. lia. Qed.

Lemma persists_updated o n m c f : persists o (STrackM.updated o n m c (track_id o) f).
Proof. unfold persists. cbn. repeat split; auto. lia. Qed.

Section Persistence.
Variable linear_sum_assignment : ndarray2 -> res (list nat * list nat).
Variable cho_factor : mat -> res mat.
Variable cho_solve : mat -> mat -> mat.

(** [update] never drops a track object from the store and never takes
    back what makes it that track: every object present before the call is
    present after it with the same source box, filter, track id and start
    frame, is still activated if it was, and its tracklet is no shorter;
    the id counter does not decrease. *)
Theorem update_keeps_existing_tracks
        self output_results img_info img_size w out self' w' :
  BYTETracker.update linear_sum_assignment cho_factor cho_solve self output_results
                     img_info img_size w = Ok ((out, self'), w') ->
  store_persists w w'.
Proof.
  intros H. unfold store_persists.
  refine (update_respects (persists_below (length (heap w))) persists (length (heap w))
            _ _ _ _ _ _ _ _
            linear_sum_assignment cho_factor cho_solve
            self output_results img_info img_size w (out, self') w' _ H).
  - apply persists_below_refl.
  - apply persists_below_trans.
  - apply persists_set_state.
  - apply persists_set_mean_cov.
  - apply persists_updated.
  - intros. eapply persists_below_write; eassumption.
  - intros. apply persists_below_alloc.
  - intros. apply persists_below_overwrite_fresh with o; [assumption | assumption | lia].
  - lia.
Qed.

End Persistence.

Lemma update_keeps_existing_tracks_witness :
  exists out t w out' t' w',
    reference_session 0.25 30 0.8 30 [one_box 0.9] (mkWorld [] 0) = Ok ((out, t), w)
    /\ BYTETracker.update Reference.linear_sum_assignment Reference.cho_factor
                          Reference.cho_solve t two_scores
                          (720, 1280)%float (720, 1280)%float w
       = Ok ((out', t'), w')
    /\ store_persists w w'.
Proof.
  eexists _, _, _, _, _, _.
  split; [vm_compute; reflexivity|].
  match goal with |- ?A /\ _ => assert (HA : A) by (vm_compute; reflexivity) end.
  split; [exact HA|].
  exact (update_keeps_existing_tracks _ _ _ _ _ _ _ _ _ _ _ HA).
Defined.

(** ** byte_tracker: the lists after [update] *)

Section Bookkeeping.
Variable linear_sum_assignment : ndarray2 -> res (list nat * list nat).
Variable cho_factor : mat -> res mat.
Variable cho_solve : mat -> mat -> mat.

(** [update] advances the frame counter by one and leaves the thresholds,
    the buffer and the filter alone.  The removed list only grows, by
    tracks that were tracked or lost.  A track of the new tracked list was
    tracked or lost before, or is a detection allocated by this call; a
    track of the new lost list was tracked or lost before. *)
Theorem update_bookkeeping t output_results img_info img_size w out t' w' :
  BYTETracker.update linear_sum_assignment cho_factor cho_solve t output_results
                     img_info img_size w = Ok ((out, t'), w') ->
  BYTETracker.frame_id t' = (BYTETracker.frame_id t + 1)%Z
  /\ BYTETracker.track_thresh t' = BYTETracker.track_thresh t
  /\ BYTETracker.match_thresh t' = BYTETracker.match_thresh t
  /\ BYTETracker.det_thresh t' = BYTETracker.det_thresh t
  /\ BYTETracker.buffer_size t' = BYTETracker.buffer_size t
  /\ BYTETracker.max_time_lost t' = BYTETracker.max_time_lost t
  /\ BYTETracker.kalman_filter t' = BYTETracker.kalman_filter t
  /\ (exists gone,
        BYTETracker.removed_stracks t' = BYTETracker.removed_stracks t ++ gone
        /\ forall r, In r gone ->
             In r (BYTETracker.tracked_stracks t ++ BYTETracker.lost_stracks t))
  /\ (forall r, In r (BYTETracker.tracked_stracks t') ->
        In r (BYTETracker.tracked_stracks t ++ BYTETracker.lost_stracks t)
        \/ (length (heap w) <= r < length (heap w'))%nat)
  /\ (forall r, In r (BYTETracker.lost_stracks t') ->
        In r (BYTETracker.tracked_stracks t ++ BYTETracker.lost_stracks t)).
Proof.
  intros H.
  unfold BYTETracker.update in H. cbv zeta in H.
  set (f := (BYTETracker.frame_id t + 1)%Z) in *.
  set (n0 := length (heap w)) in *.
  remember (BYTETracker.mk (BYTETracker.track_thresh t) (BYTETracker.match_thresh t) f
              (BYTETracker.det_thresh t) (BYTETracker.buffer_size t)
              (BYTETracker.max_time_lost t) (BYTETracker.kalman_filter t)
              (BYTETracker.tracked_stracks t) (BYTETracker.lost_stracks t)
              (BYTETracker.removed_stracks t)) as self eqn:Hself.
  assert (Hfr : BYTETracker.frame_id self = f) by (subst self; reflexivity).
  assert (Htr : BYTETracker.tracked_stracks self = BYTETracker.tracked_stracks t)
    by (subst self; reflexivity).
  assert (Hlo : BYTETracker.lost_stracks self = BYTETracker.lost_stracks t)
    by (subst self; reflexivity).
  assert (Hre : BYTETracker.removed_stracks self = BYTETracker.removed_stracks t)
    by (subst self; reflexivity).
  set (old := BYTETracker.tracked_stracks t ++ BYTETracker.lost_stracks t) in *.
  apply bindM_Ok in H as ([[kind scores] bboxes] & w0 & H0 & H).
  apply lift_Ok in H0 as [_ ->].
  apply bindM_Ok in H as (bboxes' & w0 & H0 & H). apply lift_Ok in H0 as [_ ->].
  apply bindM_Ok in H as (detections & w1 & H1 & H).
  pose proof (get_detections_fresh _ _ _ _ _ H1) as F1. fold n0 in F1.
  apply bindM_Ok in H as (detections_second & w2 & H2 & H).
  assert (Hlen : (length (heap w1) <= length (heap w'))%nat).
  { pose proof (get_detections_heap _ _ _ _ _ H2) as G2.
    apply (f_equal (@length box)) in G2. rewrite length_app, !length_map in G2.
    match type of H with
    | ?m w2 = _ => assert (S : steady m) by (do 26 steady_step; steady_leaf)
    end.
    pose proof (S _ _ _ H) as G. apply (f_equal (@length box)) in G.
    rewrite !length_map in G. lia. }
  apply bindM_Ok in H as ([unconfirmed confirmed] & w3 & H3 & H).
  apply _update_tracked_stracks_Ok in H3 as (-> & Iunc & Iconf & _).
  rewrite Htr in Iunc, Iconf.
  apply bindM_Ok in H as (strack_pool & w3 & H3 & H).
  pose proof (joint_stracks_incl _ _ _ _ _ H3) as Ipool. rewrite Hlo in Ipool.
  apply bindM_Ok in H as (u4 & w4 & H4 & H).
  apply bindM_Ok in H as ([[matches u_track] u_detection] & w5 & H5 & H).
  apply bindM_Ok in H as ([refind1 activated1] & w6 & H6 & H).
  apply (_update_tracks_spec cho_factor cho_solve f n0 self Hfr) in H6 as [_ I5].
  apply bindM_Ok in H as (pool_unmatched & w7 & H7 & H).
  pose proof (mapM_lindex_incl _ _ _ _ _ H7) as I6.
  apply bindM_Ok in H as (r_tracked & w8 & H8 & H).
  pose proof (filterM_incl _ _ _ _ _ H8) as I7.
  apply bindM_Ok in H as ([[matches2 u_track2] u_det2] & w9 & H9 & H).
  apply bindM_Ok in H as ([refind2 activated2] & w10 & H10 & H).
  apply (_update_tracks_spec cho_factor cho_solve f n0 self Hfr) in H10 as [_ I8].
  apply bindM_Ok in H as (lost_ & w11 & H11 & H).
  apply (mark_lost_loop_spec f n0 self Hfr) in H11 as [_ I9].
  apply bindM_Ok in H as (detections' & w12 & H12 & H).
  pose proof (mapM_lindex_incl _ _ _ _ _ H12) as I10.
  apply bindM_Ok in H as ([[matches3 u_unconfirmed] u_detection3] & w13 & H13 & H).
  apply bindM_Ok in H as (activated3 & w14 & H14 & H).
  apply (update_unconfirmed_loop_spec cho_factor cho_solve f n0 self Hfr) in H14
    as (_ & I11 & _).
  apply bindM_Ok in H as (removed_1 & w15 & H15 & H).
  apply (mark_removed_loop_spec f n0 self Hfr) in H15 as (_ & I12 & _).
  apply bindM_Ok in H as (activated4 & w16 & H16 & H).
  apply (new_tracks_loop_spec f n0 self Hfr) in H16 as [_ I13];
    [|intros r Hr; apply I10 in Hr; apply F1 in Hr; lia].
  apply bindM_Ok in H as (removed_2 & w17 & H17 & H).
  apply (expire_loop_spec f n0 self Hfr) in H17 as [_ I14]. rewrite Hlo in I14.
  apply bindM_Ok in H as (again & w18 & H18 & H).
  pose proof (filterM_incl _ _ _ _ _ H18) as I15. rewrite Hlo in I15.
  apply bindM_Ok in H as (tracked1 & w19 & H19 & H).
  pose proof (filterM_incl _ _ _ _ _ H19) as I16. rewrite Htr in I16.
  apply bindM_Ok in H as (tracked2 & w20 & H20 & H).
  pose proof (joint_stracks_incl _ _ _ _ _ H20) as I17.
  apply bindM_Ok in H as (tracked3 & w21 & H21 & H).
  pose proof (joint_stracks_incl _ _ _ _ _ H21) as I18.
  apply bindM_Ok in H as (lost1 & w22 & H22 & H).
  pose proof (sub_stracks_incl _ _ _ _ _ H22) as I19. rewrite Hlo in I19.
  apply bindM_Ok in H as (lost2 & w23 & H23 & H).
  pose proof (sub_stracks_incl _ _ _ _ _ H23) as I20.
  apply bindM_Ok in H as (ta & w24 & H24 & H).
  apply mapM_read_pair_Ok in H24 as [-> Ita].
  apply bindM_Ok in H as (tb & w24 & H24 & H).
  apply mapM_read_pair_Ok in H24 as [-> Itb].
  apply bindM_Ok in H as ([ta' tb'] & w24 & H24 & H).
  apply lift_Ok in H24 as [Hdup ->].
  apply bindM_Ok in H as (out' & w24 & H24 & H).
  inversion H; subst out' t' w24. clear H.
  unfold remove_duplicate_stracks in Hdup.
  apply bindR_Ok in Hdup as ([da db] & _ & Hdup). inversion Hdup; subst ta' tb'. clear Hdup.
  cbn [BYTETracker.frame_id BYTETracker.track_thresh BYTETracker.match_thresh
       BYTETracker.det_thresh BYTETracker.buffer_size BYTETracker.max_time_lost
       BYTETracker.kalman_filter BYTETracker.tracked_stracks BYTETracker.lost_stracks
       BYTETracker.removed_stracks].
  assert (Spool : forall r, In r strack_pool -> In r old).
  { intros r Hr. apply Ipool in Hr. unfold old. rewrite !in_app_iff in *.
    destruct Hr as [Hr | Hr]; auto. }
  assert (Sunc : forall r, In r unconfirmed -> In r old)
    by (intros r Hr; unfold old; rewrite in_app_iff; auto).
  assert (S5 : forall r, In r (refind1 ++ activated1) -> In r old).
  { intros r Hr. destruct (I5 r Hr) as [[] | Hp]. auto. }
  assert (S8 : forall r, In r (refind2 ++ activated2) -> In r old).
  { intros r Hr. destruct (I8 r Hr) as [Hp | Hp]; auto. }
  assert (Slost_ : forall r, In r lost_ -> In r old).
  { intros r Hr. destruct (I9 r Hr) as [[] | Hp]. auto. }
  assert (Sact3 : forall r, In r activated3 -> In r old).
  { intros r Hr. destruct (I11 r Hr) as [Hp | Hp]; [|auto].
    apply S8. rewrite in_app_iff. auto. }
  assert (Sact4 : forall r, In r activated4 -> In r old \/ (n0 <= r < length (heap w'))%nat).
  { intros r Hr. destruct (I13 r Hr) as [Hp | Hp]; [auto|]. right.
    apply I10 in Hp. apply F1 in Hp. lia. }
  clear H1 H2 H3 H4 H5 H7 H8 H9 H12 H13 H18 H19 H20 H21 H22 H23 H24.
  rewrite Hre. subst self. cbn.
  do 7 (split; [reflexivity|]).
  split; [|split].
  - exists (removed_2 ++ again). split; [reflexivity|].
    intros r Hr. apply in_app_iff in Hr as [Hr | Hr].
    + destruct (I14 r Hr) as [Hp | Hp].
      * destruct (I12 r Hp) as [[] | Hq]. auto.
      * unfold old. rewrite in_app_iff. auto.
    + apply I15 in Hr. unfold old. rewrite in_app_iff. auto.
  - intros r Hr. apply in_map_iff in Hr as [p [<- Hp]]. apply drop_indices_incl in Hp.
    assert (Hr : In (fst p) tracked3) by (rewrite <- Ita; apply in_map; exact Hp).
    apply I18 in Hr. apply in_app_iff in Hr as [Hr | Hr].
    + apply I17 in Hr. apply in_app_iff in Hr as [Hr | Hr]; [|auto].
      left. unfold old. rewrite in_app_iff. auto.
    + left. apply S8. rewrite in_app_iff. auto.
  - intros r Hr. apply in_map_iff in Hr as [p [<- Hp]]. apply drop_indices_incl in Hp.
    assert (Hr : In (fst p) lost2) by (rewrite <- Itb; apply in_map; exact Hp).
    apply I20 in Hr. apply in_app_iff in Hr as [Hr | Hr]; [|auto].
    apply I19 in Hr. unfold old. rewrite in_app_iff. auto.
Qed.

End Bookkeeping.

Lemma update_bookkeeping_witness :
  exists out t w out' t' w',
    reference_session 0.25 30 0.8 30 [one_box 0.9] (mkWorld [] 0) = Ok ((out, t), w)
    /\ BYTETracker.update Reference.linear_sum_assignment Reference.cho_factor
                          Reference.cho_solve t two_scores
                          (720, 1280)%float (720, 1280)%float w
       = Ok ((out', t'), w')
    /\ BYTETracker.frame_id t' = (BYTETracker.frame_id t + 1)%Z
    /\ BYTETracker.track_thresh t' = BYTETracker.track_thresh t
    /\ BYTETracker.match_thresh t' = BYTETracker.match_thresh t
    /\ BYTETracker.det_thresh t' = BYTETracker.det_thresh t
    /\ BYTETracker.buffer_size t' = BYTETracker.buffer_size t
    /\ BYTETracker.max_time_lost t' = BYTETracker.max_time_lost t
    /\ BYTETracker.kalman_filter t' = BYTETracker.kalman_filter t
    /\ (exists gone,
          BYTETracker.removed_stracks t' = BYTETracker.removed_stracks t ++ gone
          /\ forall r, In r gone ->
               In r (BYTETracker.tracked_stracks t ++ BYTETracker.lost_stracks t))
    /\ (forall r, In r (BYTETracker.tracked_stracks t') ->
          In r (BYTETracker.tracked_stracks t ++ BYTETracker.lost_stracks t)
          \/ (length (heap w) <= r < length (heap w'))%nat)
    /\ (forall r, In r (BYTETracker.lost_stracks t') ->
          In r (BYTETracker.tracked_stracks t ++ BYTETracker.lost_stracks t)).
Proof.
  eexists _, _, _, _, _, _.
  split; [vm_compute; reflexivity|].
  match goal with |- ?A /\ _ => assert (HA : A) by (vm_compute; reflexivity) end.
  split; [exact HA|].
  exact (update_bookkeeping _ _ _ _ _ _ _ _ _ _ _ HA).
Defined.

Lemma update_returns_activated_tracked_witness :
  exists out t w out' t' w',
    reference_session 0.25 30 0.8 30 [one_box 0.9] (mkWorld [] 0) = Ok ((out, t), w)
    /\ BYTETracker.update Reference.linear_sum_assignment Reference.cho_factor
                          Reference.cho_solve t two_scores
                          (720, 1280)%float (720, 1280)%float w
       = Ok ((out', t'), w')
    /\ forall r, In r out' ->
         In r (BYTETracker.tracked_stracks t')
         /\ exists o, heap w' !! r = Some o /\ is_activated o = true.
Proof.
  eexists _, _, _, _, _, _.
  split; [vm_compute; reflexivity|].
  match goal with |- ?A /\ _ => assert (HA : A) by (vm_compute; reflexivity) end.
  split; [exact HA|].
  exact (update_returns_activated_tracked _ _ _ _ _ _ _ _ _ _ _ HA).
Defined.

(** ** byte_tracker: identities across trackers *)

(** Track ids are unique within one tracker only.  Constructing a tracker
    resets the counter, so whatever was issued before, the first track
    activated afterwards gets id 1: if an object of the store holds id 1
    already, two objects now do. *)
Theorem new_tracker_reissues_track_ids
        track_thresh track_buffer match_thresh frame_rate w t w1
        (r r' : ref) kf f u w2 :
  has_id w r 1 -> r' <> r ->
  BYTETracker.__init__ track_thresh track_buffer match_thresh frame_rate w = Ok (t, w1) ->
  STrackM.activate r' kf f w1 = Ok (u, w2) ->
  has_id w2 r 1 /\ has_id w2 r' 1.
Proof.
  intros Hid Hne Hinit Hact.
  unfold BYTETracker.__init__ in Hinit.
  apply bindM_Ok in Hinit as (b & w0 & H0 & Hinit). apply lift_Ok in H0 as [_ ->].
  inversion Hinit; subst t w1. clear Hinit.
  assert (Ho : exists o, heap w !! r' = Some o).
  { unfold STrackM.activate in Hact. apply bindM_Ok in Hact as (o & w1 & H1 & _).
    apply read_Ok in H1 as [Ho _]. eauto. }
  destruct Ho as [o Ho].
  rewrite (activate_Ok r' kf f (mkWorld (heap w) 0) o Ho) in Hact.
  inversion Hact; subst w2. cbn [heap _count].
  split; apply (has_id_activate (mkWorld (heap w) 0) r' o kf f _ _ _ _ Ho).
  - right. split; [congruence|]. exact Hid.
  - left. split; reflexivity.
Qed.

Lemma new_tracker_reissues_track_ids_witness :
  exists t w1 w2,
    BYTETracker.__init__ 0.25 30 0.8 30
      (mkWorld [twin 1; STrackM.__init__ (Box 0 0 5 5) (Scalar Float64 0.9)] 1)
    = Ok (t, w1)
    /\ STrackM.activate 1%nat KalmanFilter.__init__ 1 w1 = Ok (tt, w2)
    /\ has_id w2 0%nat 1 /\ has_id w2 1%nat 1.
Proof.
  eexists _, _, _.
  match goal with |- ?A /\ _ => assert (HA : A) by (vm_compute; reflexivity) end.
  split; [exact HA|].
  match goal with |- ?B /\ _ => assert (HB : B) by (vm_compute; reflexivity) end.
  split; [exact HB|].
  refine (new_tracker_reissues_track_ids _ _ _ _ _ _ _ 0%nat 1%nat _ _ _ _ _ _ HA HB).
  - eexists. split; reflexivity.
  - discriminate.
Defined.

(** ** byte_tracker: the inputs [update] accepts *)

Lemma column_Ok a j : (j < shape1 a)%nat -> exists c, BYTETracker.column a j = Ok c.
Proof.
  intros H. unfold BYTETracker.column. apply Nat.ltb_lt in H. rewrite H. eauto.
Qed.

Lemma column_Raise a j : (shape1 a <= j)%nat -> BYTETracker.column a j = Raise IndexError.
Proof.
  intros H. unfold BYTETracker.column. apply Nat.ltb_ge in H. rewrite H. reflexivity.
Qed.

Lemma entries_shape1 dt a : shape1 (entries dt a) = shape1 a.
Proof. destruct dt; reflexivity. Qed.

Lemma scale_bboxes_Ok dt img_info img_size bboxes r :
  BYTETracker._scale_bboxes dt img_info img_size bboxes = Ok r ->
  PrimFloat.eqb (fst img_info) 0 = false /\ PrimFloat.eqb (snd img_info) 0 = false.
Proof.
  destruct img_info as [h w]. unfold BYTETracker._scale_bboxes, py_div. cbn [fst snd].
  destruct (PrimFloat.eqb h 0); [discriminate|].
  destruct (PrimFloat.eqb w 0); [discriminate|]. auto.
Qed.

Lemma scale_bboxes_zero dt img_info img_size bboxes :
  PrimFloat.eqb (fst img_info) 0 = true \/ PrimFloat.eqb (snd img_info) 0 = true ->
  BYTETracker._scale_bboxes dt img_info img_size bboxes = Raise ZeroDivisionError.
Proof.
  destruct img_info as [h w]. unfold BYTETracker._scale_bboxes, py_div. cbn [fst snd].
  intros [H | H]; rewrite H; [reflexivity|].
  destruct (PrimFloat.eqb h 0); reflexivity.
Qed.

Lemma scale_bboxes_nonzero dt img_info img_size bboxes :
  PrimFloat.eqb (fst img_info) 0 = false -> PrimFloat.eqb (snd img_info) 0 = false ->
  exists r, BYTETracker._scale_bboxes dt img_info img_size bboxes = Ok r.
Proof.
  destruct img_info as [h w]. unfold BYTETracker._scale_bboxes, py_div. cbn [fst snd].
  intros -> ->. cbn [bindR]. eauto.
Qed.

Section Inputs.
Variable linear_sum_assignment : ndarray2 -> res (list nat * list nat).
Variable cho_factor : mat -> res mat.
Variable cho_solve : mat -> mat -> mat.

(** [update] returns only for a detector output that is a numpy array of
    exactly five columns or a tensor of at least six, of whatever
    floating-point type, and an image of which neither the height nor the
    width is zero. *)
Theorem update_returns_only_on_accepted_input
        self output_results img_info img_size w x w' :
  BYTETracker.update linear_sum_assignment cho_factor cho_solve self output_results
                     img_info img_size w = Ok (x, w') ->
  ((exists dt a, output_results = NumpyArray dt a /\ shape1 a = 5%nat)
   \/ (exists dt a, output_results = TorchTensor dt a /\ (6 <= shape1 a)%nat))
  /\ PrimFloat.eqb (fst img_info) 0 = false
  /\ PrimFloat.eqb (snd img_info) 0 = false.
Proof.
  intros H. unfold BYTETracker.update in H. cbv zeta in H.
  apply bindM_Ok in H as ([[kind scores] bboxes] & w0 & H0 & H).
  apply lift_Ok in H0 as [H0 ->].
  apply bindM_Ok in H as (bboxes' & w0 & H1 & H). apply lift_Ok in H1 as [H1 ->].
  apply bindM_Ok in H as (detections & w1 & H2 & _).
  split; [|exact (scale_bboxes_Ok _ _ _ _ _ H1)].
  unfold BYTETracker._process_output in H0. cbv zeta in H0.
  destruct output_results as [dt a | dt a]; rewrite ?entries_shape1 in H0;
    destruct (Nat.eqb (shape1 a) 5) eqn:E.
  - left. exists dt, a. apply Nat.eqb_eq in E. auto.
  - discriminate.
  - apply bindR_Ok in H0 as (c & _ & H0). inversion H0; subst kind. discriminate.
  - right. exists dt, a. split; [reflexivity|].
    apply bindR_Ok in H0 as (c4 & _ & H0). apply bindR_Ok in H0 as (c5 & H5 & _).
    unfold BYTETracker.column in H5. rewrite entries_shape1 in H5.
    destruct (Nat.ltb 5 (shape1 a)) eqn:L; [|discriminate].
    apply Nat.ltb_lt in L. lia.
Qed.

(** What [update] raises on an input it does not accept: [AttributeError]
    for an array that has not five columns, [IndexError] for a tensor of
    fewer than five columns, [ZeroDivisionError] for a zero image height
    or width, and [TypeError] for a five-column tensor. *)
Theorem update_input_errors self dt a img_info img_size w :
  (shape1 a <> 5%nat ->
   BYTETracker.update linear_sum_assignment cho_factor cho_solve self (NumpyArray dt a)
                      img_info img_size w = Raise AttributeError)
  /\ ((shape1 a < 5)%nat ->
      BYTETracker.update linear_sum_assignment cho_factor cho_solve self (TorchTensor dt a)
                         img_info img_size w = Raise IndexError)
  /\ (shape1 a = 5%nat ->
      PrimFloat.eqb (fst img_info) 0 = true \/ PrimFloat.eqb (snd img_info) 0 = true ->
      BYTETracker.update linear_sum_assignment cho_factor cho_solve self (NumpyArray dt a)
                         img_info img_size w = Raise ZeroDivisionError
      /\ BYTETracker.update linear_sum_assignment cho_factor cho_solve self (TorchTensor dt a)
                            img_info img_size w = Raise ZeroDivisionError)
  /\ (shape1 a = 5%nat ->
      PrimFloat.eqb (fst img_info) 0 = false -> PrimFloat.eqb (snd img_info) 0 = false ->
      BYTETracker.update linear_sum_assignment cho_factor cho_solve self (TorchTensor dt a)
                         img_info img_size w = Raise TypeError_).
Proof.
  unfold BYTETracker.update. cbv zeta. unfold BYTETracker._process_output. cbv zeta.
  rewrite !entries_shape1.
  split; [|split; [|split]].
  - intros H. apply Nat.eqb_neq in H. unfold bindM at 1, lift. rewrite H. reflexivity.
  - intros H. assert (E : Nat.eqb (shape1 a) 5 = false) by (apply Nat.eqb_neq; lia).
    unfold bindM at 1, lift. rewrite E, column_Raise by (rewrite entries_shape1; lia). reflexivity.
  - intros H Hz. assert (E : Nat.eqb (shape1 a) 5 = true) by (apply Nat.eqb_eq; exact H).
    destruct (column_Ok (entries dt a) 4) as [c Hc]; [rewrite entries_shape1; lia|].
    split; unfold bindM at 1, lift; rewrite E, Hc; cbn [bindR];
      unfold bindM at 1, lift; rewrite (scale_bboxes_zero _ _ _ _ Hz); reflexivity.
  - intros H Hh Hw. assert (E : Nat.eqb (shape1 a) 5 = true) by (apply Nat.eqb_eq; exact H).
    destruct (column_Ok (entries dt a) 4) as [c Hc]; [rewrite entries_shape1; lia|].
    unfold bindM at 1, lift. rewrite E, Hc. cbn [bindR BYTETracker.kind_dtype].
    destruct (scale_bboxes_nonzero dt img_info img_size
                (map (firstn 4) (rows (entries dt a))) Hh Hw)
      as [r Hr].
    unfold bindM at 1, lift. rewrite Hr. reflexivity.
Qed.

End Inputs.

Lemma update_returns_only_on_accepted_input_witness :
  exists x w',
    BYTETracker.update Reference.linear_sum_assignment Reference.cho_factor
                       Reference.cho_solve fresh_tracker two_scores
                       (720, 1280)%float (720, 1280)%float (mkWorld [] 0)
    = Ok (x, w')
    /\ ((exists dt a, two_scores = NumpyArray dt a /\ shape1 a = 5%nat)
        \/ (exists dt a, two_scores = TorchTensor dt a /\ (6 <= shape1 a)%nat))
    /\ PrimFloat.eqb (fst (720, 1280)%float) 0 = false
    /\ PrimFloat.eqb (snd (720, 1280)%float) 0 = false.
Proof.
  eexists _, _.
  match goal with |- ?A /\ _ => assert (HA : A) by (vm_compute; reflexivity) end.
  split; [exact HA|].
  exact (update_returns_only_on_accepted_input _ _ _ _ _ _ _ _ _ _ HA).
Defined.

(** ** matching: an empty side *)

(** With no tracks or no detections there is nothing to solve: matching
    on their IoU distances returns no match and every index of either
    side as unmatched, whatever the solver and the threshold. *)
Theorem matching_with_an_empty_side
        (linear_sum_assignment : ndarray2 -> res (list nat * list nat))
        (atracks btracks : list STrack) (thresh : float) :
  atracks = [] \/ btracks = [] ->
  matching.linear_assignment linear_sum_assignment
                             (matching.iou_distance atracks btracks) thresh
  = Ok ([], seq 0 (length atracks), seq 0 (length btracks)).
Proof.
  intros H. unfold matching.linear_assignment, arr_size.
  destruct (iou_distance_shape atracks btracks) as [-> ->].
  assert (E : (length atracks * length btracks)%nat = 0%nat)
    by (destruct H as [-> | ->]; cbn [length]; lia).
  rewrite E. reflexivity.
Qed.

Lemma matching_with_an_empty_side_witness :
  matching.linear_assignment Reference.linear_sum_assignment
                             (matching.iou_distance [twin 1; twin 2] []) 0.8
  = Ok ([], seq 0 (length [twin 1; twin 2]), seq 0 (length (@nil STrack))).
Proof.
  apply (matching_with_an_empty_side Reference.linear_sum_assignment [twin 1; twin 2] [] 0.8).
  right. reflexivity.
Defined.

(** ** byte_tracker: merging and subtracting lists of tracks *)

Lemma has_id_functional w r i j : has_id w r i -> has_id w r j -> i = j.
Proof. intros (o & Ho & Hi) (o' & Ho' & Hj). congruence. Qed.

Lemma track_id_of_Ok r w i w' : track_id_of r w = Ok (i, w') <-> w' = w /\ has_id w r i.
Proof.
  unfold track_id_of, attr, has_id. split.
  - intros H. apply bindM_Ok in H as (o & w1 & H1 & H). apply read_Ok in H1 as [Ho ->].
    destruct (track_id o) eqn:E; [|discriminate]. inversion H; subst. eauto.
  - intros [-> (o & Ho & Hi)]. unfold bindM, read. rewrite Ho, Hi. reflexivity.
Qed.

(** Reading the ids of a list of tracks. *)
Lemma mapM_track_id_of_Ok l w ids w' :
  mapM track_id_of l w = Ok (ids, w') ->
  w' = w /\ length ids = length l
  /\ forall i r, In (i, r) (combine ids l) -> has_id w r i.
Proof.
  revert w ids. induction l as [|r l IH]; intros w ids H; simpl in H.
  - inversion H; subst. split; [reflexivity|]. split; [reflexivity|]. intros i r [].
  - apply bindM_Ok in H as (i0 & w1 & H1 & H). apply track_id_of_Ok in H1 as [-> Hi0].
    apply bindM_Ok in H as (ids' & w2 & H2 & H). inversion H; subst.
    destruct (IH _ _ H2) as (-> & Hl & Hc). split; [reflexivity|].
    split; [simpl; f_equal; exact Hl|].
    intros i r' [E | Hin]; [inversion E; subst; exact Hi0 | exact (Hc i r' Hin)].
Qed.

Lemma mapM_track_id_of_total l w :
  (forall r, In r l -> exists i, has_id w r i) ->
  exists ids, mapM track_id_of l w = Ok (ids, w).
Proof.
  induction l as [|r l IH]; intros H; simpl; [eexists; reflexivity|].
  destruct (H r (or_introl eq_refl)) as [i Hi].
  destruct IH as [ids Hids]; [intros r' Hr'; apply H; right; exact Hr'|].
  exists (i :: ids). unfold bindM at 1.
  rewrite (proj2 (track_id_of_Ok r w i w) (conj eq_refl Hi)).
  unfold bindM at 1. rewrite Hids. reflexivity.
Qed.

(** *** The dictionary keyed by track id *)

Lemma dict_set_In k v d k' v' :
  In (k', v') (dict_set k v d) -> (k', v') = (k, v) \/ In (k', v') d.
Proof.
  induction d as [|[k0 v0] d IH]; simpl.
  - intros [E | []]. left. congruence.
  - destruct (Z.eqb k k0); simpl.
    + intros [E | H]; [left; congruence | auto].
    + intros [E | H]; [auto|]. destruct (IH H); auto.
Qed.

Lemma dict_set_keys k v d k' :
  In k' (map fst (dict_set k v d)) <-> k' = k \/ In k' (map fst d).
Proof.
  induction d as [|[k0 v0] d IH]; simpl.
  - intuition.
  - destruct (Z.eqb k k0) eqn:E; simpl.
    + apply Z.eqb_eq in E. subst k0. intuition.
    + rewrite IH. intuition.
Qed.

Lemma dict_set_keys_NoDup k v d :
  List.NoDup (map fst d) -> List.NoDup (map fst (dict_set k v d)).
Proof.
  induction d as [|[k0 v0] d IH]; simpl; intros H.
  - constructor; [intros [] | constructor].
  - inversion H as [|? ? Hn Hd]; subst. destruct (Z.eqb k k0) eqn:E; simpl.
    + apply Z.eqb_eq in E. subst k0. constructor; assumption.
    + constructor; [|apply IH; exact Hd].
      rewrite dict_set_keys. intros [-> | Hin]; [|contradiction].
      rewrite Z.eqb_refl in E. discriminate.
Qed.

Lemma dict_set_fresh k v d : ~ In k (map fst d) -> dict_set k v d = d ++ [(k, v)].
Proof.
  induction d as [|[k0 v0] d IH]; simpl; intros H; [reflexivity|].
  destruct (Z.eqb k k0) eqn:E.
  - apply Z.eqb_eq in E. subst k0. exfalso. apply H. left. reflexivity.
  - f_equal. apply IH. intros Hin. apply H. right. exact Hin.
Qed.

Lemma dict_fold_spec kvs d :
  List.NoDup (map fst d) ->
  let d' := fold_left (fun d kv => dict_set (fst kv) (snd kv) d) kvs d in
  List.NoDup (map fst d')
  /\ (forall k, In k (map fst d') <-> In k (map fst d) \/ In k (map fst kvs))
  /\ (forall k v, In (k, v) d' -> In (k, v) d \/ In (k, v) kvs).
Proof.
  revert d. induction kvs as [|[k v] kvs IH]; intros d Hd; simpl.
  - split; [exact Hd|]. split; [intuition | auto].
  - destruct (IH (dict_set k v d) (dict_set_keys_NoDup k v d Hd)) as (N & K & P).
    split; [exact N|]. split.
    + intros k'. rewrite K, dict_set_keys. intuition.
    + intros k' v' H. destruct (P k' v' H) as [H1 | H1]; [|auto].
      apply dict_set_In in H1 as [E | H1]; [right; left; congruence | auto].
Qed.

Lemma dict_fold_distinct kvs d :
  List.NoDup (map fst (d ++ kvs)) ->
  fold_left (fun d kv => dict_set (fst kv) (snd kv) d) kvs d = d ++ kvs.
Proof.
  revert d. induction kvs as [|[k v] kvs IH]; intros d H; simpl.
  - rewrite app_nil_r. reflexivity.
  - assert (Hk : ~ In k (map fst d)).
    { rewrite map_app in H. apply List.NoDup_remove_2 in H.
      intros Hin. apply H. apply in_or_app. left. exact Hin. }
    rewrite (dict_set_fresh k v d Hk).
    rewrite IH; rewrite <- app_assoc; [reflexivity | exact H].
Qed.

Lemma In_combine_lookup {A B} (l1 : list A) (l2 : list B) a b :
  In (a, b) (combine l1 l2) -> exists j, l1 !! j = Some a /\ l2 !! j = Some b.
Proof.
  revert l2. induction l1 as [|x l1 IH]; intros [|y l2] H; simpl in H; try contradiction.
  destruct H as [E | H].
  - inversion E; subst. exists 0%nat. split; reflexivity.
  - destruct (IH _ H) as (j & H1 & H2). exists (S j). split; assumption.
Qed.

Lemma lookup_combine_In {A B} (l1 : list A) (l2 : list B) j a b :
  l1 !! j = Some a -> l2 !! j = Some b -> In (a, b) (combine l1 l2).
Proof.
  revert l2 j. induction l1 as [|x l1 IH]; intros [|y l2] [|j] H1 H2; try discriminate.
  - inversion H1; inversion H2; subst. left. reflexivity.
  - right. exact (IH l2 j H1 H2).
Qed.

Lemma In_combine_of_left {A B} (l1 : list A) (l2 : list B) b :
  length l1 = length l2 -> In b l2 -> exists a, In (a, b) (combine l1 l2).
Proof.
  revert l2. induction l1 as [|x l1 IH]; intros [|y l2] Hl H; simpl in *;
    try contradiction; try discriminate.
  destruct H as [-> | H]; [exists x; left; reflexivity|].
  destruct (IH l2 (eq_add_S _ _ Hl) H) as [a Ha]. exists a. right. exact Ha.
Qed.

Lemma NoDup_lookup_unique {A} (l : list A) j k x :
  List.NoDup l -> l !! j = Some x -> l !! k = Some x -> j = k.
Proof.
  intros H. apply NoDup_ListNoDup in H. intros Hj Hk.
  eapply NoDup_lookup; eassumption.
Qed.

(** [joint_stracks] reads the tracks, it changes nothing.  Its result
    holds tracks of the two lists only, one for every track id occurring in
    them and no two with the same id; when the ids of the two lists are
    distinct already, the result is the first list followed by the
    second. *)
Theorem joint_stracks_one_track_per_id track_list_a track_list_b w l w' :
  joint_stracks track_list_a track_list_b w = Ok (l, w') ->
  w' = w
  /\ (forall r, In r l -> In r (track_list_a ++ track_list_b))
  /\ (forall r, In r (track_list_a ++ track_list_b) ->
        exists i r', has_id w r i /\ In r' l /\ has_id w r' i)
  /\ (forall j k r1 r2 i,
        l !! j = Some r1 -> l !! k = Some r2 -> has_id w r1 i -> has_id w r2 i -> j = k)
  /\ ((forall j k r1 r2 i,
         (track_list_a ++ track_list_b) !! j = Some r1 ->
         (track_list_a ++ track_list_b) !! k = Some r2 ->
         has_id w r1 i -> has_id w r2 i -> j = k) ->
      l = track_list_a ++ track_list_b).
Proof.
  intros H. pose proof (joint_stracks_incl _ _ _ _ _ H) as Hincl.
  unfold joint_stracks in H. apply bindM_Ok in H as (ids & w1 & H1 & H).
  apply mapM_track_id_of_Ok in H1 as (-> & Hlen & Hids). inversion H; subst l w'. clear H.
  set (all := track_list_a ++ track_list_b) in *.
  destruct (dict_fold_spec (combine ids all) [] (List.NoDup_nil _)) as (N & K & P).
  fold (dict_of (combine ids all)) in N, K, P.
  assert (Pin : forall k v, In (k, v) (dict_of (combine ids all)) -> has_id w v k).
  { intros k v Hin. destruct (P k v Hin) as [[] | Hc]. exact (Hids k v Hc). }
  split; [reflexivity|]. split; [exact Hincl|]. split; [|split].
  - intros r Hr. destruct (In_combine_of_left ids all r Hlen Hr) as [i Hi].
    assert (Hk : In i (map fst (dict_of (combine ids all)))).
    { apply K. right. apply in_map_iff. exists (i, r). auto. }
    apply in_map_iff in Hk as [[i' r'] [E Hin]]. simpl in E. subst i'.
    exists i, r'. split; [exact (Hids i r Hi)|]. split; [|exact (Pin i r' Hin)].
    apply in_map_iff. exists (i, r'). auto.
  - intros j k r1 r2 i Hj Hk H1 H2.
    rewrite list_lookup_fmap in Hj, Hk.
    destruct (dict_of (combine ids all) !! j) as [[k1 v1]|] eqn:Ej; [|discriminate].
    destruct (dict_of (combine ids all) !! k) as [[k2 v2]|] eqn:Ek; [|discriminate].
    cbn in Hj, Hk. inversion Hj; inversion Hk; subst v1 v2.
    pose proof (Pin _ _ (lookup_In _ _ _ Ej)) as I1.
    pose proof (Pin _ _ (lookup_In _ _ _ Ek)) as I2.
    pose proof (has_id_functional _ _ _ _ H1 I1). pose proof (has_id_functional _ _ _ _ H2 I2).
    subst k1 k2.
    apply (NoDup_lookup_unique (map fst (dict_of (combine ids all))) j k i N);
      rewrite list_lookup_fmap; [rewrite Ej | rewrite Ek]; reflexivity.
  - intros Hdist. unfold dict_of. rewrite dict_fold_distinct.
    + cbn [app]. apply map_snd_combine_eq. exact Hlen.
    + cbn [app]. rewrite map_fst_combine_eq by exact Hlen.
      apply NoDup_ListNoDup. apply NoDup_alt. intros j k i Hj Hk.
      assert (Lj : (j < length all)%nat) by (rewrite <- Hlen; eapply lookup_lt_Some; exact Hj).
      assert (Lk : (k < length all)%nat) by (rewrite <- Hlen; eapply lookup_lt_Some; exact Hk).
      destruct (lookup_lt_is_Some_2 _ _ Lj) as [r1 Hr1].
      destruct (lookup_lt_is_Some_2 _ _ Lk) as [r2 Hr2].
      apply (Hdist j k r1 r2 i Hr1 Hr2); apply Hids.
      * exact (lookup_combine_In _ _ j _ _ Hj Hr1).
      * exact (lookup_combine_In _ _ k _ _ Hk Hr2).
Qed.

Lemma joint_stracks_one_track_per_id_witness :
  exists l w',
    joint_stracks [0%nat; 1%nat] [2%nat]
                  (mkWorld [twin 1; twin 2; twin 1] 2) = Ok (l, w')
    /\ w' = mkWorld [twin 1; twin 2; twin 1] 2
    /\ (forall r, In r l -> In r ([0%nat; 1%nat] ++ [2%nat]))
    /\ (forall r, In r ([0%nat; 1%nat] ++ [2%nat]) ->
          exists i r', has_id (mkWorld [twin 1; twin 2; twin 1] 2) r i /\ In r' l
                       /\ has_id (mkWorld [twin 1; twin 2; twin 1] 2) r' i)
    /\ (forall j k r1 r2 i,
          l !! j = Some r1 -> l !! k = Some r2 ->
          has_id (mkWorld [twin 1; twin 2; twin 1] 2) r1 i ->
          has_id (mkWorld [twin 1; twin 2; twin 1] 2) r2 i -> j = k)
    /\ ((forall j k r1 r2 i,
           ([0%nat; 1%nat] ++ [2%nat]) !! j = Some r1 ->
           ([0%nat; 1%nat] ++ [2%nat]) !! k = Some r2 ->
           has_id (mkWorld [twin 1; twin 2; twin 1] 2) r1 i ->
           has_id (mkWorld [twin 1; twin 2; twin 1] 2) r2 i -> j = k) ->
        l = [0%nat; 1%nat] ++ [2%nat]).
Proof.
  eexists _, _.
  match goal with |- ?A /\ _ => assert (HA : A) by (vm_compute; reflexivity) end.
  split; [exact HA|].
  exact (joint_stracks_one_track_per_id _ _ _ _ _ HA).
Defined.

(** [sub_stracks] reads the tracks, it changes nothing.  It keeps, in
    order, the tracks of the first list whose track id no track of the
    second list has. *)
Theorem sub_stracks_by_track_id track_list_a track_list_b w l w' :
  sub_stracks track_list_a track_list_b w = Ok (l, w') ->
  w' = w
  /\ sublist l track_list_a
  /\ forall r, In r l <->
       In r track_list_a
       /\ exists i, has_id w r i /\ forall r', In r' track_list_b -> ~ has_id w r' i.
Proof.
  unfold sub_stracks. intros H.
  apply bindM_Ok in H as (ids & w1 & H1 & H).
  pose proof (mapM_track_id_of_Ok _ _ _ _ H1) as (-> & Hlen & Hids).
  assert (Hmem : forall i, existsb (Z.eqb i) ids = true <->
                           exists r', In r' track_list_b /\ has_id w r' i).
  { intros i. rewrite existsb_exists. split.
    - intros (i' & Hin & E). apply Z.eqb_eq in E. subst i'.
      apply list_elem_of_In, list_elem_of_lookup_1 in Hin as [n Hn].
      assert (Ln : (n < length track_list_b)%nat).
      { rewrite <- Hlen. eapply lookup_lt_Some. exact Hn. }
      destruct (lookup_lt_is_Some_2 _ _ Ln) as [r' Hr'].
      exists r'. split; [eapply lookup_In; exact Hr'|]. apply Hids.
      exact (lookup_combine_In _ _ n _ _ Hn Hr').
    - intros (r' & Hin & Hid).
      destruct (In_combine_of_left ids track_list_b r' Hlen Hin) as [i' Hi'].
      pose proof (has_id_functional _ _ _ _ Hid (Hids _ _ Hi')). subst i'.
      exists i. split; [eapply in_combine_l; exact Hi' | apply Z.eqb_refl]. }
  clear H1. revert l H. induction track_list_a as [|r a IH]; intros l H; simpl in H.
  - inversion H; subst. split; [reflexivity|]. split; [constructor|].
    intros r. split; [intros [] | intros [[] _]].
  - apply bindM_Ok in H as (keep & w1 & H1 & H).
    apply bindM_Ok in H1 as (i & w2 & H2 & H1). apply track_id_of_Ok in H2 as [-> Hi].
    inversion H1; subst keep w1. clear H1.
    apply bindM_Ok in H as (rest & w1 & H1 & H). inversion H; subst l w'. clear H.
    destruct (IH _ H1) as (-> & Hsub & Hin). split; [reflexivity|].
    destruct (existsb (Z.eqb i) ids) eqn:E; cbn [negb].
    + split; [constructor; exact Hsub|]. intros r0. rewrite Hin. split.
      * intros [Ha Hx]. split; [right; exact Ha | exact Hx].
      * intros [[<- | Ha] (i0 & Hi0 & Hno)]; [|split; [exact Ha | eauto]].
        exfalso. pose proof (has_id_functional _ _ _ _ Hi Hi0). subst i0.
        apply Hmem in E as (r' & Hr' & Hid'). exact (Hno r' Hr' Hid').
    + split; [constructor; exact Hsub|]. intros r0. split.
      * intros [<- | Hr0].
        -- split; [left; reflexivity|]. exists i. split; [exact Hi|].
           intros r' Hr' Hid'. assert (existsb (Z.eqb i) ids = true) by (apply Hmem; eauto).
           congruence.
        -- apply Hin in Hr0 as [Ha Hx]. split; [right; exact Ha | exact Hx].
      * intros [[<- | Ha] Hx]; [left; reflexivity|]. right. apply Hin. auto.
Qed.

Lemma sub_stracks_by_track_id_witness :
  exists l w',
    sub_stracks [0%nat; 1%nat] [2%nat] (mkWorld [twin 1; twin 2; twin 1] 2) = Ok (l, w')
    /\ w' = mkWorld [twin 1; twin 2; twin 1] 2
    /\ sublist l [0%nat; 1%nat]
    /\ forall r, In r l <->
         In r [0%nat; 1%nat]
         /\ exists i, has_id (mkWorld [twin 1; twin 2; twin 1] 2) r i
                      /\ forall r', In r' [2%nat] ->
                           ~ has_id (mkWorld [twin 1; twin 2; twin 1] 2) r' i.
Proof.
  eexists _, _.
  match goal with |- ?A /\ _ => assert (HA : A) by (vm_compute; reflexivity) end.
  split; [exact HA|].
  exact (sub_stracks_by_track_id _ _ _ _ _ HA).
Defined.

(** ** byte_tracker: de-duplication, once is enough *)

Lemma mnth_map_map {T D} (f : T -> D -> float) (g : float -> float)
      (TA : list T) (TB : list D) i j t d :
  TA !! i = Some t -> TB !! j = Some d ->
  mnth (map (map g) (map (fun t => map (f t) TB) TA)) i j = g (f t d).
Proof.
  intros Hi Hj. unfold mnth, vnth.
  rewrite (nth_lookup_Some _ i [] (map g (map (f t) TB)))
    by (rewrite !list_lookup_fmap, Hi; reflexivity).
  apply nth_lookup_Some. rewrite !list_lookup_fmap, Hj. reflexivity.
Qed.

Lemma iou_distance_entry A B i j a b :
  A !! i = Some a -> B !! j = Some b ->
  mnth (rows (matching.iou_distance A B)) i j
  = (1 - matching.box_iou (STrackM.tlbr a) (STrackM.tlbr b))%float.
Proof.
  intros Hi Hj. unfold matching.iou_distance, matching.ious.
  destruct A as [|a0 A]; [discriminate|]. destruct B as [|b0 B]; [discriminate|].
  cbn [length Nat.eqb negb].
  change (map STrackM.tlbr (a0 :: A)) with (STrackM.tlbr a0 :: map STrackM.tlbr A).
  change (map STrackM.tlbr (b0 :: B)) with (STrackM.tlbr b0 :: map STrackM.tlbr B).
  cbv beta iota.
  change (STrackM.tlbr a0 :: map STrackM.tlbr A) with (map STrackM.tlbr (a0 :: A)).
  change (STrackM.tlbr b0 :: map STrackM.tlbr B) with (map STrackM.tlbr (b0 :: B)).
  unfold arr_map, matching.box_iou_batch. cbn [rows].
  apply (mnth_map_map matching.box_iou (fun x => (1 - x)%float)).
  - rewrite list_lookup_fmap, Hi. reflexivity.
  - rewrite list_lookup_fmap, Hj. reflexivity.
Qed.

Lemma duplicate_loop_ages (A B : list STrack) pairs da db out :
  duplicate_loop A B pairs da db = Ok out ->
  forall i j, In (i, j) pairs -> exists ta tb, age_at A i ta /\ age_at B j tb.
Proof.
  revert da db. induction pairs as [|[i0 j0] pairs IH]; intros da db H i j Hin; simpl in H.
  - destruct Hin.
  - destruct (A !! i0) as [oa|] eqn:Ea; [|discriminate].
    destruct (B !! j0) as [ob|] eqn:Eb; [|discriminate].
    apply bindR_Ok in H as [ta [Hta H]]. apply bindR_Ok in H as [tb [Htb H]].
    destruct Hin as [E | Hin].
    + inversion E; subst. exists ta, tb. split; eexists; eauto.
    + destruct (Z.ltb tb ta); eapply IH; eassumption.
Qed.

Lemma drop_indices_nil {A} (l : list A) : drop_indices [] l = l.
Proof.
  unfold drop_indices. cbn [existsb negb].
  rewrite List.forallb_filter_id.
  - apply map_snd_combine_eq. apply List.length_seq.
  - apply forallb_forall. reflexivity.
Qed.

(** De-duplicating the result of a de-duplication changes nothing: the
    two lists [remove_duplicate_stracks] returns hold no pair of tracks at
    an IoU distance below 0.15. *)
Theorem remove_duplicate_stracks_idempotent {X} (obj : X -> STrack)
        (s_tracks_a s_tracks_b result_a result_b : list X) :
  remove_duplicate_stracks obj s_tracks_a s_tracks_b = Ok (result_a, result_b) ->
  where_lt (matching.iou_distance (map obj result_a) (map obj result_b)) 0.15 = []
  /\ remove_duplicate_stracks obj result_a result_b = Ok (result_a, result_b).
Proof.
  intros H.
  assert (Hages : forall i j,
            close_pair (map obj s_tracks_a) (map obj s_tracks_b) i j ->
            exists ta tb, age_at (map obj s_tracks_a) i ta /\ age_at (map obj s_tracks_b) j tb).
  { unfold remove_duplicate_stracks in H.
    apply bindR_Ok in H as [[da db] [Hloop _]].
    intros i j Hc. eapply duplicate_loop_ages; [exact Hloop|].
    apply where_lt_In.
    destruct (iou_distance_shape (map obj s_tracks_a) (map obj s_tracks_b)) as [-> ->].
    exact Hc. }
  destruct (remove_duplicate_stracks_Ok obj _ _ _ _ H) as (da & db & -> & -> & Ha & Hb).
  assert (Hnone : where_lt (matching.iou_distance (map obj (drop_indices da s_tracks_a))
                                                  (map obj (drop_indices db s_tracks_b)))
                           0.15 = []).
  { destruct (where_lt _ _) as [|[i' j'] rest] eqn:E; [reflexivity|exfalso].
    assert (Hin : In (i', j') (where_lt (matching.iou_distance
                                           (map obj (drop_indices da s_tracks_a))
                                           (map obj (drop_indices db s_tracks_b))) 0.15))
      by (rewrite E; left; reflexivity).
    apply where_lt_In in Hin as (Li & Lj & Hlt).
    destruct (iou_distance_shape (map obj (drop_indices da s_tracks_a))
                                 (map obj (drop_indices db s_tracks_b))) as [S0 S1].
    rewrite S0 in Li. rewrite S1 in Lj. rewrite length_map in Li, Lj.
    destruct (lookup_lt_is_Some_2 _ _ Li) as [x Hx].
    destruct (lookup_lt_is_Some_2 _ _ Lj) as [y Hy].
    rewrite (iou_distance_entry _ _ i' j' (obj x) (obj y)) in Hlt
      by (rewrite list_lookup_fmap; first [rewrite Hx | rewrite Hy]; reflexivity).
    pose proof (lookup_In _ _ _ Hx) as Ix. pose proof (lookup_In _ _ _ Hy) as Iy.
    apply drop_indices_In in Ix as (i & Hi & Nda).
    apply drop_indices_In in Iy as (j & Hj & Ndb).
    assert (Hc : close_pair (map obj s_tracks_a) (map obj s_tracks_b) i j).
    { unfold close_pair. rewrite !length_map.
      split; [eapply lookup_lt_Some; exact Hi|]. split; [eapply lookup_lt_Some; exact Hj|].
      rewrite (iou_distance_entry _ _ i j (obj x) (obj y))
        by (rewrite list_lookup_fmap; first [rewrite Hi | rewrite Hj]; reflexivity).
      exact Hlt. }
    destruct (Hages i j Hc) as (ta & tb & Hta & Htb).
    destruct (Z.le_gt_cases ta tb) as [Hle | Hgt].
    - apply Nda. apply Ha. exists j, ta, tb. auto.
    - apply Ndb. apply Hb. exists i, ta, tb. auto. }
  split; [exact Hnone|].
  unfold remove_duplicate_stracks. rewrite Hnone. cbn [duplicate_loop bindR].
  rewrite !drop_indices_nil. reflexivity.
Qed.

Lemma remove_duplicate_stracks_idempotent_witness :
  exists result_a result_b,
    remove_duplicate_stracks id [twin 1] [twin 2] = Ok (result_a, result_b)
    /\ where_lt (matching.iou_distance (map id result_a) (map id result_b)) 0.15 = []
    /\ remove_duplicate_stracks id result_a result_b = Ok (result_a, result_b).
Proof.
  eexists _, _.
  match goal with |- ?A /\ _ => assert (HA : A) by (vm_compute; reflexivity) end.
  split; [exact HA|].
  exact (remove_duplicate_stracks_idempotent _ _ _ _ _ HA).
Defined.

(** ** strack: predicting one track *)

Lemma kalman_multi_predict_one kf m c :
  KalmanFilter.multi_predict kf [m] [c]
  = Ok ([fst (KalmanFilter.predict kf m c)], [snd (KalmanFilter.predict kf m c)]).
Proof.
  unfold KalmanFilter.multi_predict, KalmanFilter.predict.
  rewrite _create_std_batch_rows. reflexivity.
Qed.

Ltac run_both Ho :=
  repeat (progress
    (cbv beta iota zeta delta
       [STrackM.predict STrackM.multi_predict STrackM.multi_state STrackM.zero_velocity
        attr bindM read ret raise lift write mapM forM_ combine map
        STrackM.asarray_covariances bindR];
     cbn [heap _count mean covariance state kalman_filter fst snd];
     rewrite ?Ho)).

(** [STrack.predict] on a track does what [STrack.multi_predict] does on
    the list of that one track, result and store, errors included, as soon
    as a track that has a mean has a covariance and the shared filter: the
    tracks [BYTETracker] activates are such. *)
Theorem predict_is_multi_predict_of_one (self : ref) w :
  (forall o, heap w !! self = Some o -> mean o <> None ->
     kalman_filter o = Some STrackM.shared_kalman /\ covariance o <> None) ->
  STrackM.predict self w = STrackM.multi_predict [self] w.
Proof.
  intros H.
  destruct (heap w !! self) as [o|] eqn:Ho; [|run_both Ho; reflexivity].
  specialize (H o eq_refl).
  destruct o as [b kf m c act sc len tid st fid sf]. cbn in H.
  destruct m as [m|]; [|run_both Ho; reflexivity].
  destruct H as [-> Hc]; [discriminate|].
  destruct c as [c|]; [clear Hc|contradiction].
  destruct st as [s|]; [|run_both Ho; reflexivity].
  run_both Ho.
  destruct (TrackState.eqb s TrackState.Tracked).
  - run_both Ho. rewrite kalman_multi_predict_one. run_both Ho.
    destruct (KalmanFilter.predict STrackM.shared_kalman m c) as [m' c']. run_both Ho. reflexivity.
  - destruct (STrackM.zero_vh m) as [m0|e]; [|reflexivity].
    run_both Ho. rewrite kalman_multi_predict_one. run_both Ho.
    destruct (KalmanFilter.predict STrackM.shared_kalman m0 c) as [m' c']. run_both Ho. reflexivity.
Qed.

Lemma predict_is_multi_predict_of_one_witness :
  STrackM.predict 0%nat (mkWorld [twin 1] 1) = STrackM.multi_predict [0%nat] (mkWorld [twin 1] 1).
Proof.
  apply (predict_is_multi_predict_of_one 0%nat (mkWorld [twin 1] 1)).
  intros o Ho _. inversion Ho; subst o. split; [reflexivity | discriminate].
Defined.

(** ** matching: the track ids of detections *)

Lemma lookup_map_Some {A B} (f : A -> B) (l : list A) i a :
  l !! i = Some a -> map f l !! i = Some (f a).
Proof.
  revert i. induction l as [|x l IH]; intros [|i] H; try discriminate.
  - inversion H; subst. reflexivity.
  - exact (IH i H).
Qed.








(** [match_detections_with_tracks] cannot run on an empty side: with no
    track it raises [IndexError], with tracks and no detection
    [ValueError]. *)
Lemma match_detections_with_tracks_empty_inputs
        (tlbr_boxes : list box) (track_ids : list Z) (t : STrack) (tracks : list STrack) :
  matching.match_detections_with_tracks tlbr_boxes track_ids [] = Raise IndexError
  /\ matching.match_detections_with_tracks [] track_ids (t :: tracks) = Raise ValueError.
Proof. split; reflexivity. Qed.

(** ** strack: predicting a list of tracks *)

(** A [mapM] of an action that only reads. *)
Lemma mapM_reading {A B} (g : A -> M B) (P : world -> A -> B -> Prop) l w bs w' :
  (forall a w1 b w2, g a w1 = Ok (b, w2) -> w2 = w1 /\ P w1 a b) ->
  mapM g l w = Ok (bs, w') ->
  w' = w /\ length bs = length l
  /\ forall k a, l !! k = Some a -> exists b, bs !! k = Some b /\ P w a b.
Proof.
  intros Hg. revert w bs. induction l as [|a0 l IH]; intros w bs H; simpl in H.
  - inversion H; subst. split; [reflexivity|]. split; [reflexivity|].
    intros k a Hk. discriminate.
  - apply bindM_Ok in H as (b0 & w1 & H1 & H). apply Hg in H1 as [-> P0].
    apply bindM_Ok in H as (bs' & w2 & H2 & H). inversion H; subst.
    destruct (IH _ _ H2) as (-> & Hl & Hk). split; [reflexivity|].
    split; [simpl; f_equal; exact Hl|].
    intros [|k] a Ha.
    + inversion Ha; subst. exists b0. auto.
    + exact (Hk k a Ha).
Qed.

Lemma asarray_covariances_Ok l covs :
  STrackM.asarray_covariances l = Ok covs -> l = map Some covs.
Proof.
  revert covs. induction l as [|[c|] l IH]; intros covs H; simpl in H.
  - inversion H; reflexivity.
  - apply bindR_Ok in H as (cs & Hcs & H). inversion H; subst. simpl. f_equal. exact (IH _ Hcs).
  - discriminate.
Qed.

Lemma kalman_multi_predict_Ok kf means covs mm mc :
  means <> [] -> length means = length covs ->
  KalmanFilter.multi_predict kf means covs = Ok (mm, mc) ->
  combine mm mc = predict_each kf means covs.
Proof.
  unfold KalmanFilter.multi_predict. intros Hne E H.
  rewrite _create_std_batch_rows in H.
  rewrite stack_add_same in H.
  - cbn [bindR] in H. inversion H; subst mm mc.
    rewrite <- (predict_each_means kf means covs E), <- (predict_each_covs kf means covs E).
    apply combine_fst_snd.
  - destruct means; [contradiction|discriminate].
  - rewrite !length_map. symmetry. exact E.
Qed.

Lemma set_mean_cov_twice m c m' c' o :
  STrackM.set_mean_cov m c (STrackM.set_mean_cov m' c' o) = STrackM.set_mean_cov m c o.
Proof. reflexivity. Qed.

(** The loop that stores the predictions, every one the prediction [F] of
    the track it goes to, over a store whose objects are those of [w0],
    some of them with their prediction already. *)
Lemma forM_set_mean_cov (F : ref -> vec * mat) (w0 : world) ps w u w' :
  forM_ (fun p : ref * (vec * mat) =>
           let! o := read (fst p) in
           write (fst p) (STrackM.set_mean_cov (fst (snd p)) (snd (snd p)) o)) ps w
  = Ok (u, w') ->
  (forall p, In p ps -> snd p = F (fst p)) ->
  (forall r : ref, heap w !! r = heap w0 !! r
             \/ exists o, heap w0 !! r = Some o
                          /\ heap w !! r = Some (STrackM.set_mean_cov (fst (F r)) (snd (F r)) o)) ->
  _count w' = _count w /\ length (heap w') = length (heap w)
  /\ (forall r : ref, ~ In r (map fst ps) -> heap w' !! r = heap w !! r)
  /\ (forall r : ref, In r (map fst ps) ->
        exists o, heap w0 !! r = Some o
                  /\ heap w' !! r = Some (STrackM.set_mean_cov (fst (F r)) (snd (F r)) o)).
Proof.
  revert w. induction ps as [|[r [m c]] ps IH]; intros w H HF Inv; simpl in H.
  - inversion H; subst. split; [reflexivity|]. split; [reflexivity|].
    split; [reflexivity | intros r []].
  - apply bindM_Ok in H as (u1 & w1 & H1 & H).
    apply bindM_Ok in H1 as (o & w2 & H2 & H1). apply read_Ok in H2 as [Ho ->].
    apply write_Ok in H1 as [Hlt ->]. cbn [fst snd] in *.
    assert (Hv : (m, c) = F r) by (apply (HF (r, (m, c))); left; reflexivity).
    assert (Ho0 : exists o0, heap w0 !! r = Some o0
                   /\ STrackM.set_mean_cov m c o
                      = STrackM.set_mean_cov (fst (F r)) (snd (F r)) o0).
    { rewrite <- Hv. cbn [fst snd]. destruct (Inv r) as [E | (o0 & E0 & E)].
      - exists o. split; [congruence | reflexivity].
      - exists o0. split; [exact E0|]. assert (o = STrackM.set_mean_cov (F r).1 (F r).2 o0)
          by congruence. subst o. apply set_mean_cov_twice. }
    destruct Ho0 as (o0 & E0 & Eset).
    unfold ref in *.
    assert (Inv1 : forall r' : nat,
              heap (mkWorld (<[r := STrackM.set_mean_cov m c o]> (heap w)) (_count w)) !! r'
              = heap w0 !! r'
              \/ exists o',
                   heap w0 !! r' = Some o'
                   /\ heap (mkWorld (<[r := STrackM.set_mean_cov m c o]> (heap w)) (_count w))
                        !! r'
                      = Some (STrackM.set_mean_cov (fst (F r')) (snd (F r')) o')).
    { intros r'. cbn [heap]. destruct (Nat.eq_dec r' r) as [->|Hne].
      - right. exists o0. split; [exact E0|].
        rewrite list_lookup_insert_eq by exact Hlt. rewrite Eset. reflexivity.
      - rewrite list_lookup_insert_ne by congruence. apply Inv. }
    destruct (IH _ H (fun p Hp => HF p (or_intror Hp)) Inv1) as (Hc & Hl & Hout & Hin).
    cbn [heap _count] in Hc, Hl, Hout. rewrite length_insert in Hl.
    split; [exact Hc|]. split; [exact Hl|]. split.
    + intros r' Hr'. cbn [map fst In] in Hr'.
      rewrite Hout by (intros Hx; apply Hr'; right; exact Hx).
      apply list_lookup_insert_ne. intros ->. apply Hr'. left. reflexivity.
    + intros r' Hr'. cbn [map fst] in Hr'.
      destruct (in_dec Nat.eq_dec r' (map fst ps)) as [Hp | Hnp]; [exact (Hin r' Hp)|].
      destruct Hr' as [<- | Hr']; [|contradiction].
      exists o0. split; [exact E0|]. rewrite (Hout r Hnp).
      rewrite list_lookup_insert_eq by exact Hlt. rewrite Eset. reflexivity.
Qed.

Lemma lookup_combine_Some {A B} (l1 : list A) (l2 : list B) k a b :
  l1 !! k = Some a -> l2 !! k = Some b -> combine l1 l2 !! k = Some (a, b).
Proof.
  revert l2 k. induction l1 as [|x l1 IH]; intros [|y l2] [|k] H1 H2; try discriminate.
  - inversion H1; inversion H2; subst. reflexivity.
  - exact (IH l2 k H1 H2).
Qed.

Lemma lookup_combine_inv {A B} (l1 : list A) (l2 : list B) k a b :
  combine l1 l2 !! k = Some (a, b) -> l1 !! k = Some a /\ l2 !! k = Some b.
Proof.
  revert l2 k. induction l1 as [|x l1 IH]; intros [|y l2] [|k] H; try discriminate.
  - inversion H; subst. auto.
  - exact (IH l2 k H).
Qed.

(** [STrack.multi_predict] gives every track of the list the prediction of
    the shared filter from the state the track had before the call, its
    velocity of height set to zero first unless the track is in state
    [Tracked]; a track listed twice is still predicted once.  It changes
    nothing else: no other field, no other object, not the counter. *)
Theorem multi_predict_predicts_each_track stracks w u w' :
  STrackM.multi_predict stracks w = Ok (u, w') ->
  _count w' = _count w
  /\ length (heap w') = length (heap w)
  /\ (forall r : ref, ~ In r stracks -> heap w' !! r = heap w !! r)
  /\ (forall r : ref, In r stracks ->
        exists o m c s m0,
          heap w !! r = Some o /\ mean o = Some m /\ covariance o = Some c
          /\ state o = Some s
          /\ (if TrackState.eqb s TrackState.Tracked then m0 = m
              else STrackM.zero_vh m = Ok m0)
          /\ heap w' !! r
             = Some (STrackM.set_mean_cov
                       (fst (KalmanFilter.predict STrackM.shared_kalman m0 c))
                       (snd (KalmanFilter.predict STrackM.shared_kalman m0 c)) o)).
Proof.
  intros H. unfold STrackM.multi_predict in H.
  destruct stracks as [|r0 stracks0] eqn:Es.
  { inversion H; subst. split; [reflexivity|]. split; [reflexivity|].
    split; [reflexivity | intros r []]. }
  assert (Hne : r0 :: stracks0 <> []) by discriminate.
  rewrite <- Es in *. clear Es r0 stracks0.
  apply bindM_Ok in H as (ms & w1 & H1 & H).
  apply (mapM_reading _ (fun w r b => exists o m, heap w !! r = Some o /\ mean o = Some m
                                                  /\ b = (m, covariance o))) in H1
    as (-> & L1 & S1).
  2: { intros r w1' b w2 Hb. unfold STrackM.multi_state in Hb.
       apply bindM_Ok in Hb as (o & w3 & H3 & Hb). apply read_Ok in H3 as [Ho ->].
       destruct (mean o) as [m|] eqn:Em; [|discriminate]. inversion Hb; subst. eauto 6. }
  apply bindM_Ok in H as (zs & w1 & H2 & H).
  apply (mapM_reading _ (fun w (p : ref * (vec * option mat)) b =>
           exists o s m0, heap w !! fst p = Some o /\ state o = Some s
             /\ (if TrackState.eqb s TrackState.Tracked then m0 = fst (snd p)
                 else STrackM.zero_vh (fst (snd p)) = Ok m0)
             /\ b = (m0, snd (snd p)))) in H2 as (-> & L2 & S2).
  2: { intros p w1' b w2 Hb. unfold STrackM.zero_velocity, attr in Hb.
       apply bindM_Ok in Hb as (s & w3 & H3 & Hb).
       apply bindM_Ok in H3 as (o & w4 & H4 & H3). apply read_Ok in H4 as [Ho ->].
       destruct (state o) as [s'|] eqn:Est; [|discriminate]. inversion H3; subst s' w3.
       destruct (TrackState.eqb s TrackState.Tracked) eqn:Et.
       - inversion Hb; subst. split; [reflexivity|]. exists o, s, (fst (snd p)).
         rewrite Et. destruct p as [r [m oc]]. auto.
       - apply bindM_Ok in Hb as (m' & w5 & H5 & Hb). apply lift_Ok in H5 as [Hz ->].
         inversion Hb; subst. split; [reflexivity|]. exists o, s, m'. rewrite Et. auto. }
  apply bindM_Ok in H as (covs & w1 & H3 & H). apply lift_Ok in H3 as [H3 ->].
  apply asarray_covariances_Ok in H3.
  apply bindM_Ok in H as ([mm mc] & w1 & H4 & H). apply lift_Ok in H4 as [H4 ->].
  rewrite length_combine, L1, Nat.min_id in L2.
  assert (L4 : length zs = length covs).
  { rewrite <- (length_map snd zs), H3, length_map. reflexivity. }
  apply kalman_multi_predict_Ok in H4.
  2: { intros E0. apply (f_equal (@length _)) in E0. rewrite length_map, L2 in E0.
       destruct stracks; [contradiction|discriminate]. }
  2: { rewrite length_map. exact L4. }
  (* the state every listed track is predicted from *)
  assert (Hk : forall k r, stracks !! k = Some r ->
            exists o m c s m0,
              heap w !! r = Some o /\ mean o = Some m /\ covariance o = Some c
              /\ state o = Some s
              /\ (if TrackState.eqb s TrackState.Tracked then m0 = m
                  else STrackM.zero_vh m = Ok m0)
              /\ combine stracks (combine mm mc) !! k
                 = Some (r, KalmanFilter.predict STrackM.shared_kalman m0 c)).
  { intros k r Hr. destruct (S1 k r Hr) as (b & Hb & o & m & Ho & Hm & ->).
    destruct (S2 k (r, (m, covariance o)) (lookup_combine_Some _ _ _ _ _ Hr Hb))
      as (z & Hz & o' & s & m0 & Ho' & Hs & Hm0 & ->). cbn [fst snd] in *.
    assert (o' = o) by congruence. subst o'.
    assert (Hc : map snd zs !! k = Some (covariance o))
      by (apply (lookup_map_Some snd _ _ _ Hz)).
    rewrite H3 in Hc.
    assert (Lk : (k < length covs)%nat).
    { apply lookup_lt_Some in Hc. rewrite length_map in Hc. exact Hc. }
    destruct (lookup_lt_is_Some_2 _ _ Lk) as [c Hcv].
    rewrite (lookup_map_Some Some _ _ _ Hcv) in Hc. inversion Hc as [Ec].
    exists o, m, c, s, m0. repeat (split; [solve [auto]|]).
    apply lookup_combine_Some; [exact Hr|]. rewrite H4. unfold predict_each.
    apply (lookup_map_Some (fun p => KalmanFilter.predict STrackM.shared_kalman (fst p) (snd p))
                           _ _ (m0, c)).
    apply lookup_combine_Some; [|exact Hcv].
    apply (lookup_map_Some fst _ _ _ Hz). }
  set (F := fun r : ref =>
              match heap w !! r with
              | Some o =>
                  match mean o, covariance o, state o with
                  | Some m, Some c, Some s =>
                      KalmanFilter.predict STrackM.shared_kalman
                        (if TrackState.eqb s TrackState.Tracked then m
                         else match STrackM.zero_vh m with Ok m0 => m0 | Raise _ => m end) c
                  | _, _, _ => ([], [])
                  end
              | None => ([], [])
              end).
  assert (HF : forall r o m c s m0,
            heap w !! r = Some o -> mean o = Some m -> covariance o = Some c ->
            state o = Some s ->
            (if TrackState.eqb s TrackState.Tracked then m0 = m
             else STrackM.zero_vh m = Ok m0) ->
            F r = KalmanFilter.predict STrackM.shared_kalman m0 c).
  { intros r o m c s m0 Ho Hm Hc Hs Hm0. unfold F. rewrite Ho, Hm, Hc, Hs.
    destruct (TrackState.eqb s TrackState.Tracked); [subst; reflexivity|].
    rewrite Hm0. reflexivity. }
  assert (Lps : length stracks = length (combine mm mc)).
  { rewrite H4. unfold predict_each.
    rewrite length_map, length_combine, length_map. lia. }
  destruct (forM_set_mean_cov F w _ _ _ _ H) as (Hc & Hl & Hout & Hin).
  - intros [r v] Hp. cbn [fst snd].
    apply list_elem_of_In, list_elem_of_lookup_1 in Hp as [k Hp].
    destruct (lookup_combine_inv _ _ _ _ _ Hp) as [Hr _].
    destruct (Hk k r Hr) as (o & m & c & s & m0 & Ho & Hm & Hcv & Hs & Hm0 & Hp').
    unfold ref in *. assert (Ev : Some (r, v) = Some (r, KalmanFilter.predict STrackM.shared_kalman m0 c))
      by (rewrite <- Hp, <- Hp'; reflexivity).
    inversion Ev; subst v. symmetry. eapply HF; eassumption.
  - intros r. left. reflexivity.
  - unfold ref, vec, mat in *.
    assert (Hfst : map fst (combine stracks (combine mm mc)) = stracks)
      by (apply map_fst_combine_eq; exact Lps).
    rewrite Hfst in Hout, Hin.
    split; [exact Hc|]. split; [exact Hl|]. split; [exact Hout|].
    intros r Hr. destruct (Hin r Hr) as (o & Ho & Hw').
    apply list_elem_of_In, list_elem_of_lookup_1 in Hr as [k Hr].
    destruct (Hk k r Hr) as (o' & m & c & s & m0 & Ho' & Hm & Hcv & Hs & Hm0 & _).
    assert (o' = o) by congruence. subst o'.
    exists o, m, c, s, m0. repeat (split; [solve [auto]|]).
    rewrite Hw', (HF r o m c s m0 Ho Hm Hcv Hs Hm0). reflexivity.
Qed.

Lemma multi_predict_predicts_each_track_witness :
  exists w',
    STrackM.multi_predict [0%nat; 0%nat] (mkWorld [twin 1; twin 2] 2) = Ok (tt, w')
    /\ _count w' = _count (mkWorld [twin 1; twin 2] 2)
    /\ length (heap w') = length (heap (mkWorld [twin 1; twin 2] 2))
    /\ (forall r : ref, ~ In r [0%nat; 0%nat] ->
          heap w' !! r = heap (mkWorld [twin 1; twin 2] 2) !! r)
    /\ (forall r : ref, In r [0%nat; 0%nat] ->
          exists o m c s m0,
            heap (mkWorld [twin 1; twin 2] 2) !! r = Some o /\ mean o = Some m
            /\ covariance o = Some c /\ state o = Some s
            /\ (if TrackState.eqb s TrackState.Tracked then m0 = m
                else STrackM.zero_vh m = Ok m0)
            /\ heap w' !! r
               = Some (STrackM.set_mean_cov
                         (fst (KalmanFilter.predict STrackM.shared_kalman m0 c))
                         (snd (KalmanFilter.predict STrackM.shared_kalman m0 c)) o)).
Proof.
  eexists.
  match goal with |- ?A /\ _ => assert (HA : A) by (vm_compute; reflexivity) end.
  split; [exact HA|].
  exact (multi_predict_predicts_each_track _ _ _ _ HA).
Defined.

(** ** byte_tracker: every track once *)

Lemma NoDup_map_fst_inj {A B} (l : list (A * B)) :
  List.NoDup (map fst l) -> forall a b b', In (a, b) l -> In (a, b') l -> b = b'.
Proof.
  induction l as [|[a0 b0] l IH]; intros H a b b' H1 H2; [destruct H1|].
  simpl in H. inversion H as [|? ? Hn Hd]; subst.
  destruct H1 as [E1 | H1], H2 as [E2 | H2].
  - congruence.
  - inversion E1; subst. exfalso. apply Hn. apply in_map_iff. exists (a, b'). auto.
  - inversion E2; subst. exfalso. apply Hn. apply in_map_iff. exists (a, b). auto.
  - exact (IH Hd a b b' H1 H2).
Qed.

Lemma NoDup_map_snd_of_keys {A B} (l : list (A * B)) (key : B -> A -> Prop) :
  List.NoDup (map fst l) ->
  (forall a b, In (a, b) l -> key b a) ->
  (forall b a a', key b a -> key b a' -> a = a') ->
  List.NoDup (map snd l).
Proof.
  induction l as [|[a0 b0] l IH]; intros H Hk Hf; simpl; [constructor|].
  simpl in H. inversion H as [|? ? Hn Hd]; subst. constructor.
  - intros Hin. apply in_map_iff in Hin as [[a1 b1] [E Hin]]. simpl in E. subst b1.
    apply Hn. apply in_map_iff. exists (a1, b0). split; [|exact Hin]. simpl.
    apply (Hf b0); apply Hk; [right; exact Hin | left; reflexivity].
  - apply IH; [exact Hd | intros a b Hab; apply Hk; right; exact Hab | exact Hf].
Qed.

(** The result of [joint_stracks] has no reference twice and no track id
    twice. *)
Lemma joint_stracks_NoDup a b w l w' :
  joint_stracks a b w = Ok (l, w') ->
  w' = w /\ List.NoDup l
  /\ (forall r, In r l -> exists i, has_id w r i)
  /\ (forall r1 r2 i, In r1 l -> In r2 l -> has_id w r1 i -> has_id w r2 i -> r1 = r2).
Proof.
  intros H. unfold joint_stracks in H. apply bindM_Ok in H as (ids & w1 & H1 & H).
  apply mapM_track_id_of_Ok in H1 as (-> & Hlen & Hids). inversion H; subst l w'. clear H.
  set (all := a ++ b) in *.
  destruct (dict_fold_spec (combine ids all) [] (List.NoDup_nil _)) as (N & K & P).
  fold (dict_of (combine ids all)) in N, K, P.
  assert (Pin : forall k v, In (k, v) (dict_of (combine ids all)) -> has_id w v k).
  { intros k v Hin. destruct (P k v Hin) as [[] | Hc]. exact (Hids k v Hc). }
  split; [reflexivity|]. split; [|split].
  - apply (NoDup_map_snd_of_keys _ (fun r i => has_id w r i) N Pin).
    intros r i i'. apply has_id_functional.
  - intros r Hr. apply in_map_iff in Hr as [[i r'] [E Hin]]. simpl in E. subst r'.
    exists i. exact (Pin i r Hin).
  - intros r1 r2 i Hr1 Hr2 H1 H2.
    apply in_map_iff in Hr1 as [[i1 r1'] [E1 Hin1]]. simpl in E1. subst r1'.
    apply in_map_iff in Hr2 as [[i2 r2'] [E2 Hin2]]. simpl in E2. subst r2'.
    pose proof (has_id_functional _ _ _ _ H1 (Pin _ _ Hin1)).
    pose proof (has_id_functional _ _ _ _ H2 (Pin _ _ Hin2)). subst i1 i2.
    exact (NoDup_map_fst_inj _ N i r1 r2 Hin1 Hin2).
Qed.

Lemma filter_combine_sublist {A} (P : nat * A -> bool) (l : list A) s :
  sublist (map snd (List.filter P (combine (seq s (length l)) l))) l.
Proof.
  revert s. induction l as [|x l IH]; intros s; simpl; [constructor|].
  destruct (P (s, x)); simpl; constructor; apply IH.
Qed.

Lemma drop_indices_sublist {A} dups (l : list A) : sublist (drop_indices dups l) l.
Proof. apply filter_combine_sublist. Qed.

Lemma filterM_sublist {A} (p : A -> M bool) l w l' w' :
  filterM p l w = Ok (l', w') -> sublist l' l.
Proof.
  revert w l'. induction l as [|a l IH]; intros w l' H; simpl in H.
  - inversion H; subst. constructor.
  - apply bindM_Ok in H as (b & w1 & _ & H). apply bindM_Ok in H as (rest & w2 & H2 & H).
    inversion H; subst. destruct b; constructor; eapply IH; exact H2.
Qed.

Lemma sublist_map {A B} (f : A -> B) (l1 l2 : list A) :
  sublist l1 l2 -> sublist (map f l1) (map f l2).
Proof. induction 1; simpl; constructor; assumption. Qed.

Lemma sublist_In {A} (l1 l2 : list A) x : sublist l1 l2 -> In x l1 -> In x l2.
Proof.
  induction 1; intros Hx; [exact Hx | | right; auto].
  destruct Hx as [<- | Hx]; [left; reflexivity | right; auto].
Qed.

Section Once.
Variable linear_sum_assignment : ndarray2 -> res (list nat * list nat).
Variable cho_factor : mat -> res mat.
Variable cho_solve : mat -> mat -> mat.

(** Whatever the tracker held before, after [update] the tracked list
    holds no track twice, every track in it has a track id, and no two
    share one; the list [update] returns holds no track twice. *)
Theorem update_tracks_each_object_once
        self output_results img_info img_size w out self' w' :
  BYTETracker.update linear_sum_assignment cho_factor cho_solve self output_results
                     img_info img_size w = Ok ((out, self'), w') ->
  NoDup out
  /\ NoDup (BYTETracker.tracked_stracks self')
  /\ (forall r, In r (BYTETracker.tracked_stracks self') -> exists i, has_id w' r i)
  /\ (forall r1 r2 i,
        In r1 (BYTETracker.tracked_stracks self') ->
        In r2 (BYTETracker.tracked_stracks self') ->
        has_id w' r1 i -> has_id w' r2 i -> r1 = r2).
Proof.
  intros H. unfold BYTETracker.update in H. cbv zeta in H.
  do 23 skip_bind H.
  apply bindM_Ok in H as (tracked3 & w1 & H1 & H).
  apply joint_stracks_NoDup in H1 as (-> & N3 & I3 & U3).
  apply bindM_Ok in H as (lost1 & w1 & H1 & H).
  pose proof (respects_sub_stracks eq (fun w => eq_refl) (fun a b c => @eq_trans _ a b c)
                _ _ _ _ _ H1) as <-. clear H1.
  apply bindM_Ok in H as (lost2 & w1 & H1 & H).
  pose proof (respects_sub_stracks eq (fun w => eq_refl) (fun a b c => @eq_trans _ a b c)
                _ _ _ _ _ H1) as <-. clear H1.
  apply bindM_Ok in H as (ta & w1 & H1 & H). apply mapM_read_pair_Ok in H1 as [-> Ita].
  apply bindM_Ok in H as (tb & w1 & H1 & H). apply mapM_read_pair_Ok in H1 as [-> Itb].
  apply bindM_Ok in H as ([ta' tb'] & w1 & H1 & H). apply lift_Ok in H1 as [Hdup ->].
  apply bindM_Ok in H as (out' & w1 & Hout & H). inversion H; subst out' self' w1. clear H.
  unfold remove_duplicate_stracks in Hdup.
  apply bindR_Ok in Hdup as ([da db] & _ & Hdup). inversion Hdup; subst ta' tb'. clear Hdup.
  cbn [BYTETracker.tracked_stracks] in *.
  match type of Hout with
  | filterM _ _ ?wx = _ => assert (Hw : w' = wx)
  end.
  { pose proof Hout as Hout'.
    apply (filterM_reading _ (fun w r => option_map is_activated (heap w !! r))) in Hout'.
    - destruct Hout' as [-> _]. reflexivity.
    - intros q wa c wb Hb. apply is_activated_of_Ok in Hb as [-> (o & Ho & <-)].
      split; [reflexivity|]. rewrite Ho. reflexivity. }
  subst w'.
  assert (Hsub : sublist (map fst (drop_indices da ta)) tracked3).
  { rewrite <- Ita. apply sublist_map. apply drop_indices_sublist. }
  assert (N : NoDup (map fst (drop_indices da ta))).
  { eapply sublist_NoDup; [apply NoDup_ListNoDup; exact N3 | exact Hsub]. }
  split; [|split; [exact N|split]].
  - eapply sublist_NoDup; [exact N | eapply filterM_sublist; exact Hout].
  - intros r Hr. apply I3. eapply sublist_In; eassumption.
  - intros r1 r2 i Hr1 Hr2. apply U3; eapply sublist_In; eassumption.
Qed.

End Once.

Lemma update_tracks_each_object_once_witness :
  exists out t w out' t' w',
    reference_session 0.25 30 0.8 30 [one_box 0.9] (mkWorld [] 0) = Ok ((out, t), w)
    /\ BYTETracker.update Reference.linear_sum_assignment Reference.cho_factor
                          Reference.cho_solve t two_scores
                          (720, 1280)%float (720, 1280)%float w
       = Ok ((out', t'), w')
    /\ NoDup out'
    /\ NoDup (BYTETracker.tracked_stracks t')
    /\ (forall r, In r (BYTETracker.tracked_stracks t') -> exists i, has_id w' r i)
    /\ (forall r1 r2 i,
          In r1 (BYTETracker.tracked_stracks t') ->
          In r2 (BYTETracker.tracked_stracks t') ->
          has_id w' r1 i -> has_id w' r2 i -> r1 = r2).
Proof.
  eexists _, _, _, _, _, _.
  split; [vm_compute; reflexivity|].
  match goal with |- ?A /\ _ => assert (HA : A) by (vm_compute; reflexivity) end.
  split; [exact HA|].
  exact (update_tracks_each_object_once _ _ _ _ _ _ _ _ _ _ _ HA).
Defined.

(** ** byte_tracker: where new tracks come from *)

Lemma activated_fields o kf f tid :
  score (STrackM.activated o kf f tid) = score o
  /\ state (STrackM.activated o kf f tid) = Some TrackState.Tracked
  /\ start_frame (STrackM.activated o kf f tid) = Some f
  /\ frame_id (STrackM.activated o kf f tid) = Some f
  /\ track_id (STrackM.activated o kf f tid) = Some tid
  /\ is_activated (STrackM.activated o kf f tid) = Z.eqb f 1
  /\ tracklet_len (STrackM.activated o kf f tid) = 0%Z.
Proof.
  unfold STrackM.activated. destruct (KalmanFilter.initiate _ _). cbn. repeat split.
Qed.

Lemma born_activate f det c0 w (r : ref) o kf :
  heap w !! r = Some o -> scalar_geb (score o) det = true -> (c0 <= _count w)%Z ->
  born f det c0
       (mkWorld (<[r := STrackM.activated o kf f (_count w + 1)]> (heap w)) (_count w + 1)) r.
Proof.
  intros Ho Hs Hc. pose proof (lookup_lt_Some _ _ _ Ho) as Hlt. unfold born, ref in *.
  destruct (activated_fields o kf f (_count w + 1)) as (E1 & E2 & E3 & E4 & E5 & E6 & E7).
  exists (STrackM.activated o kf f (_count w + 1)), (_count w + 1)%Z. cbn [heap _count].
  rewrite list_lookup_insert_eq by exact Hlt. rewrite E1.
  repeat (split; [solve [auto]|]). split; [lia|]. auto.
Qed.

Lemma born_other f det c0 w (r r' : ref) o' c :
  r' <> r -> (_count w <= c)%Z -> born f det c0 w r ->
  born f det c0 (mkWorld (<[r' := o']> (heap w)) c) r.
Proof.
  intros Hne Hc (o & i & Ho & H). unfold born, ref in *. exists o, i. cbn [heap _count].
  rewrite list_lookup_insert_ne by congruence. split; [exact Ho|].
  destruct H as (H1 & H2 & H3 & H4 & H5 & H6 & H7). repeat (split; [solve [auto]|]).
  split; [lia | auto].
Qed.

Section Born.
Variable self : BYTETracker.t.
Variable c0 : Z.

Local Notation "'is_born'" :=
  (born (BYTETracker.frame_id self) (BYTETracker.det_thresh self) c0).

(** The loop over the unmatched detections: what it appends is born in
    this frame, and stays so to the end of the loop. *)
Lemma new_tracks_loop_born detections u_detection activated w activated' w' :
  BYTETracker.new_tracks_loop self detections u_detection activated w = Ok (activated', w') ->
  (c0 <= _count w)%Z ->
  (_count w <= _count w')%Z
  /\ (forall r, is_born w r -> is_born w' r)
  /\ (forall r, In r activated' -> In r activated \/ (In r detections /\ is_born w' r)).
Proof.
  revert activated w. induction u_detection as [|inew u IH]; intros activated w H Hc;
    simpl in H.
  - inversion H; subst. split; [lia|]. split; auto.
  - apply bindM_Ok in H as (track & w1 & H1 & H). apply lindex_Ok in H1 as [Ht ->].
    apply bindM_Ok in H as (o & w1 & H1 & H). apply read_Ok in H1 as [Ho ->].
    apply lookup_In in Ht.
    destruct (scalar_geb (score o) (BYTETracker.det_thresh self)) eqn:Hs.
    + apply bindM_Ok in H as (u0 & w2 & H2 & H).
      rewrite (activate_Ok track _ _ w o Ho) in H2. inversion H2; subst u0 w2. clear H2.
      destruct (IH _ _ H) as (C & S & A); [cbn [_count]; lia|]. cbn [_count] in C.
      split; [lia|]. split.
      * intros r Hr. apply S. destruct (Nat.eq_dec r track) as [->|Hne].
        -- apply born_activate; assumption.
        -- apply born_other; [congruence | lia | exact Hr].
      * intros r Hr. destruct (A r Hr) as [Hin | Hin]; [|auto].
        apply in_app_iff in Hin as [Hin | [<- | []]]; [auto|].
        right. split; [exact Ht|]. apply S. apply born_activate; assumption.
    + exact (IH _ _ H Hc).
Qed.

End Born.

(** Marking the expired tracks touches no object outside the lost list. *)
Lemma expire_loop_frame self lost removed_ w removed_' w' :
  BYTETracker.expire_loop self lost removed_ w = Ok (removed_', w') ->
  _count w' = _count w
  /\ forall r : ref, ~ In r lost -> heap w' !! r = heap w !! r.
Proof.
  revert removed_ w. induction lost as [|track lost IH]; intros removed_ w H; simpl in H.
  - inversion H; subst. auto.
  - apply bindM_Ok in H as (x & w1 & H1 & H).
    assert (w1 = w).
    { unfold BYTETracker.expired, BaseTrack.end_frame in H1.
      apply bindM_Ok in H1 as (e & w2 & H2 & H1). apply attr_Ok in H2 as ->.
      inversion H1; reflexivity. }
    subst w1. destruct x.
    + apply bindM_Ok in H as (u0 & w2 & H2 & H).
      unfold BaseTrack.mark_removed in H2.
      apply bindM_Ok in H2 as (o & w3 & H3 & H2). apply read_Ok in H3 as [Ho ->].
      apply write_Ok in H2 as [Hlt ->].
      destruct (IH _ _ H) as [C F]. cbn [heap _count] in C, F. split; [exact C|].
      intros r Hr. rewrite F by (intros Hx; apply Hr; right; exact Hx).
      unfold ref in *. apply list_lookup_insert_ne. intros ->. apply Hr. left. reflexivity.
    + destruct (IH _ _ H) as [C F]. split; [exact C|].
      intros r Hr. apply F. intros Hx. apply Hr. right. exact Hx.
Qed.

(** The side conditions of the frame rule, for a relation that compares
    counters or is equality. *)
Ltac respects_side :=
  try solve [ intros; cbn [_count heap] in *;
              first [ reflexivity | exact I | lia | congruence ] ].

Section NewTracks.
Variable linear_sum_assignment : ndarray2 -> res (list nat * list nat).
Variable cho_factor : mat -> res mat.
Variable cho_solve : mat -> mat -> mat.

Local Notation "'counts'" := (fun a b : world => (_count a <= _count b)%Z).
Local Notation "'any'" := (fun o o' : STrack => True).

(** A track that enters the tracked list as a new object of this call was
    born in it: it comes from a detection whose score passes the test
    [score >= det_thresh] of the code, made in the floating-point type of
    the score with [det_thresh] rounded to that type; it is in state
    [Tracked] with a fresh track id, it starts in the new frame, and it is
    activated only when that frame is the first. *)
Theorem new_tracks_come_from_confident_detections
        t output_results img_info img_size w out t' w' :
  lists_valid t w ->
  BYTETracker.update linear_sum_assignment cho_factor cho_solve t output_results
                     img_info img_size w = Ok ((out, t'), w') ->
  forall r, In r (BYTETracker.tracked_stracks t') -> (length (heap w) <= r)%nat ->
    born (BYTETracker.frame_id t + 1) (BYTETracker.det_thresh t) (_count w) w' r.
Proof.
  intros Hvalid H.
  unfold BYTETracker.update in H. cbv zeta in H.
  set (f := (BYTETracker.frame_id t + 1)%Z) in *.
  set (n0 := length (heap w)) in *.
  remember (BYTETracker.mk (BYTETracker.track_thresh t) (BYTETracker.match_thresh t) f
              (BYTETracker.det_thresh t) (BYTETracker.buffer_size t)
              (BYTETracker.max_time_lost t) (BYTETracker.kalman_filter t)
              (BYTETracker.tracked_stracks t) (BYTETracker.lost_stracks t)
              (BYTETracker.removed_stracks t)) as self eqn:Hself.
  assert (Hfr : BYTETracker.frame_id self = f) by (subst self; reflexivity).
  assert (Hdt : BYTETracker.det_thresh self = BYTETracker.det_thresh t)
    by (subst self; reflexivity).
  assert (Htr : BYTETracker.tracked_stracks self = BYTETracker.tracked_stracks t)
    by (subst self; reflexivity).
  assert (Hlo : BYTETracker.lost_stracks self = BYTETracker.lost_stracks t)
    by (subst self; reflexivity).
  clear Hself.
  assert (Hold : forall r, In r (BYTETracker.tracked_stracks t ++ BYTETracker.lost_stracks t)
                           -> (r < n0)%nat).
  { intros r Hr. apply Hvalid. rewrite !in_app_iff in *. tauto. }
  apply bindM_Ok in H as ([[kind scores] bboxes] & w0 & H0 & H).
  apply lift_Ok in H0 as [_ ->].
  apply bindM_Ok in H as (bboxes' & w0 & H0 & H). apply lift_Ok in H0 as [_ ->].
  apply bindM_Ok in H as (detections & w1 & H1 & H).
  pose proof (get_detections_fresh _ _ _ _ _ H1) as F1. fold n0 in F1.
  assert (E1 : counts w w1) by (eapply (respects_get_detections counts); try exact H1; respects_side).
  apply bindM_Ok in H as (detections_second & w2 & H2 & H).
  assert (E2 : counts w1 w2) by (eapply (respects_get_detections counts); try exact H2; respects_side).
  apply bindM_Ok in H as ([unconfirmed confirmed] & w3 & H3 & H).
  apply _update_tracked_stracks_Ok in H3 as (-> & Iunc & Iconf & _).
  rewrite Htr in Iunc, Iconf.
  apply bindM_Ok in H as (strack_pool & w3 & H3 & H).
  pose proof (joint_stracks_incl _ _ _ _ _ H3) as Ipool. rewrite Hlo in Ipool.
  assert (E3 : counts w2 w3) by (eapply (respects_joint_stracks counts); try exact H3; respects_side).
  apply bindM_Ok in H as (u4 & w4 & H4 & H).
  assert (E4 : counts w3 w4)
    by (eapply (respects_multi_predict counts any); try exact H4; respects_side).
  apply bindM_Ok in H as ([[matches u_track] u_detection] & w5 & H5 & H).
  apply _match_tracks_to_detections_spec in H5 as [-> _].
  apply bindM_Ok in H as ([refind1 activated1] & w6 & H6 & H).
  assert (E6 : counts w4 w6)
    by (eapply (respects__update_tracks counts any); try exact H6; respects_side).
  apply (_update_tracks_spec cho_factor cho_solve f n0 self Hfr) in H6 as [_ I5].
  apply bindM_Ok in H as (pool_unmatched & w7 & H7 & H).
  pose proof (mapM_lindex_incl _ _ _ _ _ H7) as I6.
  assert (E7 : counts w6 w7).
  { eapply (respects_mapM counts); try exact H7; respects_side.
    intros i. apply (respects_lindex counts); respects_side. }
  apply bindM_Ok in H as (r_tracked & w8 & H8 & H).
  pose proof (filterM_incl _ _ _ _ _ H8) as I7.
  assert (E8 : counts w7 w8).
  { eapply (respects_filterM counts); try exact H8; respects_side.
    intros i. apply (respects_bind counts); respects_side;
      [apply (respects_attr counts) | intros; apply (respects_ret counts)]; respects_side. }
  apply bindM_Ok in H as ([[matches2 u_track2] u_det2] & w9 & H9 & H).
  apply _match_tracks_to_detections_spec in H9 as [-> _].
  apply bindM_Ok in H as ([refind2 activated2] & w10 & H10 & H).
  assert (E10 : counts w8 w10)
    by (eapply (respects__update_tracks counts any); try exact H10; respects_side).
  apply (_update_tracks_spec cho_factor cho_solve f n0 self Hfr) in H10 as [_ I8].
  apply bindM_Ok in H as (lost_ & w11 & H11 & H).
  assert (E11 : counts w10 w11)
    by (eapply (respects_mark_lost_loop counts any); try exact H11; respects_side).
  apply bindM_Ok in H as (detections' & w12 & H12 & H).
  pose proof (mapM_lindex_incl _ _ _ _ _ H12) as I10.
  assert (E12 : counts w11 w12).
  { eapply (respects_mapM counts); try exact H12; respects_side.
    intros i. apply (respects_lindex counts); respects_side. }
  apply bindM_Ok in H as ([[matches3 u_unconfirmed] u_detection3] & w13 & H13 & H).
  apply _match_tracks_to_detections_spec in H13 as [-> _].
  apply bindM_Ok in H as (activated3 & w14 & H14 & H).
  assert (E14 : counts w12 w14)
    by (eapply (respects_update_unconfirmed_loop counts any); try exact H14; respects_side).
  apply (update_unconfirmed_loop_spec cho_factor cho_solve f n0 self Hfr) in H14
    as (_ & I11 & _).
  apply bindM_Ok in H as (removed_1 & w15 & H15 & H).
  assert (E15 : counts w14 w15)
    by (eapply (respects_mark_removed_loop counts any); try exact H15; respects_side).
  assert (Hc15 : (_count w <= _count w15)%Z) by (cbv beta in *; lia).
  (* the new tracks *)
  apply bindM_Ok in H as (activated4 & w16 & H16 & H).
  apply (new_tracks_loop_born self (_count w)) in H16 as (_ & _ & B16); [|exact Hc15].
  rewrite Hfr, Hdt in B16.
  (* the rest marks lost tracks and reads *)
  apply bindM_Ok in H as (removed_2 & w17 & H17 & H).
  apply expire_loop_frame in H17 as [C17 F17]. rewrite Hlo in F17.
  apply bindM_Ok in H as (again & w18 & H18 & H).
  assert (E18 : w17 = w18).
  { eapply (respects_filterM eq); try exact H18; respects_side.
    intros i. apply (respects_expired eq); respects_side. }
  subst w18.
  apply bindM_Ok in H as (tracked1 & w19 & H19 & H).
  pose proof (filterM_incl _ _ _ _ _ H19) as I16. rewrite Htr in I16.
  assert (E19 : w17 = w19).
  { eapply (respects_filterM eq); try exact H19; respects_side.
    intros i. apply (respects_bind eq); respects_side;
      [apply (respects_attr eq) | intros; apply (respects_ret eq)]; respects_side. }
  subst w19.
  apply bindM_Ok in H as (tracked2 & w20 & H20 & H).
  pose proof (joint_stracks_incl _ _ _ _ _ H20) as I17.
  apply joint_stracks_NoDup in H20 as (-> & _).
  apply bindM_Ok in H as (tracked3 & w21 & H21 & H).
  pose proof (joint_stracks_incl _ _ _ _ _ H21) as I18.
  apply joint_stracks_NoDup in H21 as (-> & _).
  apply bindM_Ok in H as (lost1 & w22 & H22 & H).
  assert (E22 : w17 = w22) by (eapply (respects_sub_stracks eq); try exact H22; respects_side).
  subst w22.
  apply bindM_Ok in H as (lost2 & w23 & H23 & H).
  assert (E23 : w17 = w23) by (eapply (respects_sub_stracks eq); try exact H23; respects_side).
  subst w23.
  apply bindM_Ok in H as (ta & w24 & H24 & H). apply mapM_read_pair_Ok in H24 as [-> Ita].
  apply bindM_Ok in H as (tb & w24 & H24 & H). apply mapM_read_pair_Ok in H24 as [-> Itb].
  apply bindM_Ok in H as ([ta' tb'] & w24 & H24 & H). apply lift_Ok in H24 as [Hdup ->].
  apply bindM_Ok in H as (out' & w24 & H24 & H).
  assert (E24 : w17 = w24).
  { eapply (respects_filterM eq); try exact H24; respects_side.
    intros i. unfold is_activated_of. apply (respects_bind eq); respects_side;
      [apply (respects_read eq) | intros; apply (respects_ret eq)]; respects_side. }
  subst w24. inversion H; subst out' t' w'. clear H.
  unfold remove_duplicate_stracks in Hdup.
  apply bindR_Ok in Hdup as ([da db] & _ & Hdup). inversion Hdup; subst ta' tb'. clear Hdup.
  cbn [BYTETracker.tracked_stracks].
  intros r Hr Hge.
  apply in_map_iff in Hr as [p [<- Hp]]. apply drop_indices_incl in Hp.
  assert (Hr : In (fst p) tracked3) by (rewrite <- Ita; apply in_map; exact Hp).
  set (r := fst p) in *.
  assert (Hnew : ~ In r (BYTETracker.tracked_stracks t ++ BYTETracker.lost_stracks t)).
  { intros Hin. apply Hold in Hin. lia. }
  assert (S8 : forall q, In q (refind2 ++ activated2) ->
                 In q (BYTETracker.tracked_stracks t ++ BYTETracker.lost_stracks t)).
  { intros q Hq. rewrite in_app_iff.
    destruct (I8 q Hq) as [Hq' | Hq'].
    - destruct (I5 q Hq') as [[] | Hq'']. apply Ipool in Hq''.
      apply in_app_iff in Hq'' as [Hq'' | Hq'']; auto.
    - apply I7, I6, Ipool in Hq'. apply in_app_iff in Hq' as [Hq' | Hq']; auto. }
  assert (Hact : In r activated4).
  { apply I18 in Hr. apply in_app_iff in Hr as [Hr | Hr].
    - apply I17 in Hr. apply in_app_iff in Hr as [Hr | Hr]; [|exact Hr].
      exfalso. apply Hnew. apply in_app_iff. left. apply I16. exact Hr.
    - exfalso. apply Hnew. apply S8. apply in_app_iff. left. exact Hr. }
  destruct (B16 r Hact) as [Hin | [_ Hb]].
  - exfalso. apply Hnew. destruct (I11 r Hin) as [Hq | Hq].
    + apply S8. apply in_app_iff. right. exact Hq.
    + apply in_app_iff. left. apply Iunc. exact Hq.
  - destruct Hb as (o & i & Ho & Hrest). exists o, i.
    rewrite F17 by (intros Hx; apply Hnew; apply in_app_iff; right; exact Hx).
    split; [exact Ho|]. rewrite C17. exact Hrest.
Qed.

End NewTracks.

Lemma new_tracks_come_from_confident_detections_witness :
  exists out' t' w',
    BYTETracker.update Reference.linear_sum_assignment Reference.cho_factor
                       Reference.cho_solve fresh_tracker float32_score
                       (720, 1280)%float (720, 1280)%float (mkWorld [] 0)
    = Ok ((out', t'), w')
    /\ BYTETracker.tracked_stracks t' = [0%nat]
    /\ (exists o, heap w' !! 0%nat = Some o
                  /\ score o = Scalar Float32 0.34999999403953552
                  /\ PrimFloat.ltb 0.34999999403953552 (BYTETracker.det_thresh fresh_tracker)
                     = true)
    /\ forall r, In r (BYTETracker.tracked_stracks t') ->
         (length (heap (mkWorld [] 0)) <= r)%nat ->
         born (BYTETracker.frame_id fresh_tracker + 1) (BYTETracker.det_thresh fresh_tracker)
              (_count (mkWorld [] 0)) w' r.
Proof.
  eexists _, _, _.
  match goal with |- ?A /\ _ => assert (HA : A) by (vm_compute; reflexivity) end.
  split; [exact HA|]. split; [reflexivity|].
  split; [eexists; repeat split; vm_compute; reflexivity|].
  refine (new_tracks_come_from_confident_detections _ _ _ _ _ _ _ _ _ _ _ _ HA).
  intros r Hr. destruct Hr.
Defined.

(** ** byte_tracker: the first frame

    [update] on a tracker that holds no track: nothing can fail, the solver
    and the Cholesky routine are not called, and the detections confident
    enough become the tracked list. *)

Lemma bindM_eq {A B} (m : M A) (k : A -> M B) w a w1 :
  m w = Ok (a, w1) -> bindM m k w = k a w1.
Proof. intros H. unfold bindM. rewrite H. reflexivity. Qed.

Lemma bindM_ret {A B} (a : A) (k : A -> M B) w : bindM (ret a) k w = k a w.
Proof. reflexivity. Qed.

Lemma get_detections_eq dt D w :
  BYTETracker._get_detections (BYTETracker.Numpy dt) D w
  = Ok (seq (length (heap w)) (length D),
        mkWorld (heap w ++ map (detection_track dt) D) (_count w)).
Proof.
  unfold BYTETracker._get_detections.
  change (fun p : vec * float =>
            alloc (STrackM.__init__ (STrackM.tlbr_to_tlwh dt (box_of_row (fst p)))
                                    (Scalar dt (snd p))))
    with (fun p : vec * float => alloc (detection_track dt p)).
  revert w. induction D as [|p D IH]; intros w; simpl.
  - rewrite app_nil_r. destruct w; reflexivity.
  - unfold bindM at 1. unfold alloc at 1. unfold bindM at 1. rewrite IH. cbn [heap _count ret].
    rewrite length_app. cbn [length]. rewrite Nat.add_1_r, <- app_assoc. reflexivity.
Qed.

Lemma mapM_read_total l w :
  (forall r, In r l -> (r < length (heap w))%nat) ->
  exists os, mapM read l w = Ok (os, w) /\ length os = length l.
Proof.
  induction l as [|r l IH]; intros H; simpl; [exists []; auto|].
  destruct (lookup_lt_is_Some_2 (heap w) r (H r (or_introl eq_refl))) as [o Ho].
  destruct IH as (os & Hos & Hl); [intros r' Hr'; apply H; right; exact Hr'|].
  exists (o :: os). split; [|simpl; f_equal; exact Hl].
  rewrite (bindM_eq _ _ w o w) by (apply read_Ok; auto).
  rewrite (bindM_eq _ _ w os w Hos). reflexivity.
Qed.

Lemma mapM_read_pair_total l w :
  (forall r, In r l -> (r < length (heap w))%nat) ->
  exists ps, mapM (fun r => let! o := read r in ret (r, o)) l w = Ok (ps, w)
             /\ map fst ps = l.
Proof.
  induction l as [|r l IH]; intros H; simpl; [exists []; auto|].
  destruct (lookup_lt_is_Some_2 (heap w) r (H r (or_introl eq_refl))) as [o Ho].
  destruct IH as (ps & Hps & Hl); [intros r' Hr'; apply H; right; exact Hr'|].
  exists ((r, o) :: ps). split; [|simpl; f_equal; exact Hl].
  rewrite (bindM_eq _ _ w (r, o) w).
  - rewrite (bindM_eq _ _ w ps w Hps). reflexivity.
  - rewrite (bindM_eq _ _ w o w) by (apply read_Ok; auto). reflexivity.
Qed.

Section FirstFrame.
Variable linear_sum_assignment : ndarray2 -> res (list nat * list nat).
Variable cho_factor : mat -> res mat.
Variable cho_solve : mat -> mat -> mat.

Lemma match_no_tracks detections thresh w :
  (forall r, In r detections -> (r < length (heap w))%nat) ->
  BYTETracker._match_tracks_to_detections linear_sum_assignment [] detections thresh w
  = Ok (([], [], seq 0 (length detections)), w).
Proof.
  intros H. unfold BYTETracker._match_tracks_to_detections. cbn [mapM].
  rewrite bindM_ret.
  destruct (mapM_read_total detections w H) as (os & Hos & Hl).
  rewrite (bindM_eq _ _ w os w Hos). rewrite <- Hl. reflexivity.
Qed.

End FirstFrame.

Lemma lindex_eq {A} (l : list A) i a w : l !! i = Some a -> lindex l i w = Ok (a, w).
Proof. intros H. unfold lindex. rewrite H. reflexivity. Qed.

Lemma mapM_lindex_seq {A} (pre l : list A) w :
  mapM (lindex (pre ++ l)) (seq (length pre) (length l)) w = Ok (l, w).
Proof.
  revert pre. induction l as [|x l IH]; intros pre; simpl; [reflexivity|].
  rewrite (bindM_eq _ _ w x w).
  - specialize (IH (pre ++ [x])). rewrite length_app, <- app_assoc in IH.
    cbn [length app] in IH. rewrite Nat.add_1_r in IH.
    rewrite (bindM_eq _ _ w l w IH). reflexivity.
  - unfold lindex. rewrite lookup_app_r by lia. rewrite Nat.sub_diag. reflexivity.
Qed.

Lemma confident_Some det w (r : ref) o :
  heap w !! r = Some o -> confident det w r = scalar_geb (score o) det.
Proof. intros H. unfold confident. rewrite H. reflexivity. Qed.

(** The loop over the unmatched detections, run on distinct detections
    that are in the store: it activates the confident ones, in order, and
    hands out the next identities. *)
Lemma new_tracks_loop_run self detections u_detection rs :
  Forall2 (fun i r => detections !! i = Some r) u_detection rs ->
  forall activated w,
  List.NoDup rs -> (forall r, In r rs -> (r < length (heap w))%nat) ->
  exists w',
    BYTETracker.new_tracks_loop self detections u_detection activated w
    = Ok (activated ++ List.filter (confident (BYTETracker.det_thresh self) w) rs, w')
    /\ length (heap w') = length (heap w)
    /\ _count w'
       = (_count w
          + Z.of_nat (length (List.filter (confident (BYTETracker.det_thresh self) w) rs)))%Z
    /\ (forall r : ref,
          ~ In r (List.filter (confident (BYTETracker.det_thresh self) w) rs) ->
          heap w' !! r = heap w !! r)
    /\ (forall (k : nat) (r : ref),
          List.filter (confident (BYTETracker.det_thresh self) w) rs !! k = Some r ->
          exists o,
            heap w !! r = Some o
            /\ heap w' !! r
               = Some (STrackM.activated o (BYTETracker.kalman_filter self)
                                         (BYTETracker.frame_id self)
                                         (_count w + 1 + Z.of_nat k))).
Proof.
  induction 1 as [|i r idxs rs Hi HF IH]; intros activated w Hnd Hv; simpl.
  - exists w. rewrite app_nil_r. split; [reflexivity|]. split; [reflexivity|].
    split; [lia|]. split; [reflexivity | intros k r Hk; discriminate].
  - inversion Hnd as [|? ? Hnr Hnd']; subst.
    destruct (lookup_lt_is_Some_2 (heap w) r (Hv r (or_introl eq_refl))) as [o Ho].
    rewrite (bindM_eq _ _ w r w) by (apply lindex_eq; exact Hi).
    rewrite (bindM_eq _ _ w o w) by (apply read_Ok; auto).
    rewrite (confident_Some _ w r o Ho).
    destruct (scalar_geb (score o) (BYTETracker.det_thresh self)) eqn:Hs.
    + rewrite (bindM_eq _ _ w tt _ (activate_Ok r _ _ w o Ho)). cbv beta.
      set (w1 := mkWorld (<[r := STrackM.activated o (BYTETracker.kalman_filter self)
                                    (BYTETracker.frame_id self) (_count w + 1)]> (heap w))
                         (_count w + 1)).
      destruct (IH (activated ++ [r]) w1 Hnd') as (w' & Hrun & Hl & Hc & Hf & Hb).
      { intros r' Hr'. unfold w1. cbn [heap]. rewrite length_insert. apply Hv. right.
        exact Hr'. }
      assert (Hne : forall r' : ref, In r' rs -> heap w1 !! r' = heap w !! r').
      { intros r' Hr'. unfold w1, ref in *. cbn [heap].
        apply list_lookup_insert_ne. intros ->. contradiction. }
      assert (Hsame : forall r' : ref, In r' rs ->
                confident (BYTETracker.det_thresh self) w1 r'
                = confident (BYTETracker.det_thresh self) w r').
      { intros r' Hr'. unfold confident. rewrite (Hne r' Hr'). reflexivity. }
      rewrite (filter_ext_in _ _ _ Hsame) in Hrun, Hc, Hf, Hb.
      assert (Hr1 : heap w1 !! r
                    = Some (STrackM.activated o (BYTETracker.kalman_filter self)
                              (BYTETracker.frame_id self) (_count w + 1))).
      { unfold w1, ref in *. cbn [heap]. apply list_lookup_insert_eq.
        apply (lookup_lt_Some _ _ _ Ho). }
      assert (HrF : ~ In r (List.filter (confident (BYTETracker.det_thresh self) w) rs)).
      { intros Hx. apply filter_In in Hx as [Hx _]. contradiction. }
      exists w'. split.
      { etransitivity; [exact Hrun|]. rewrite <- app_assoc. reflexivity. }
      unfold w1 in Hl, Hc. cbn [heap _count] in Hl, Hc.
      rewrite length_insert in Hl. split; [exact Hl|]. split; [cbn [length]; lia|]. split.
      * intros r' Hr'. rewrite Hf by (intros Hx; apply Hr'; right; exact Hx).
        unfold w1, ref in *. cbn [heap]. apply list_lookup_insert_ne.
        intros ->. apply Hr'. left. reflexivity.
      * intros [|k] r' Hk.
        -- cbn in Hk. injection Hk as <-. exists o. split; [exact Ho|].
           rewrite Z.add_0_r. exact (eq_trans (Hf r HrF) Hr1).
        -- cbn in Hk. destruct (Hb k r' Hk) as (o' & Ho' & Hw').
           assert (Hin : In r' rs).
           { apply list_elem_of_lookup_2, list_elem_of_In, filter_In in Hk. tauto. }
           exists o'. split; [exact (eq_trans (eq_sym (Hne r' Hin)) Ho')|].
           etransitivity; [exact Hw'|]. unfold w1. cbn [_count]. do 2 f_equal. lia.
    + destruct (IH activated w Hnd') as (w' & Hrun & Hl & Hc & Hf & Hb).
      { intros r' Hr'. apply Hv. right. exact Hr'. }
      exists w'. split; [exact Hrun|]. split; [exact Hl|]. split; [exact Hc|].
      split; [exact Hf | exact Hb].
Qed.

Lemma mapM_track_id_of_consecutive (l : list ref) : forall w c,
  (forall (k : nat) (r : ref), l !! k = Some r -> has_id w r (c + 1 + Z.of_nat k)%Z) ->
  mapM track_id_of l w
  = Ok (map (fun k => (c + 1 + Z.of_nat k)%Z) (seq 0 (length l)), w).
Proof.
  induction l as [|r l IH]; intros w c H; [reflexivity|].
  cbn [mapM length seq map].
  rewrite (bindM_eq _ _ w (c + 1 + Z.of_nat 0)%Z w)
    by (apply track_id_of_Ok; split; [reflexivity | apply (H 0%nat); reflexivity]).
  assert (H' : forall (k : nat) (r' : ref),
                 l !! k = Some r' -> has_id w r' (c + 1 + 1 + Z.of_nat k)%Z).
  { intros k r' Hk. replace (c + 1 + 1 + Z.of_nat k)%Z with (c + 1 + Z.of_nat (S k))%Z by lia.
    apply H. exact Hk. }
  rewrite (bindM_eq _ _ w _ w (IH w (c + 1)%Z H')).
  unfold ret. rewrite <- seq_shift, map_map. do 3 f_equal.
  apply map_ext. intros k. lia.
Qed.

Lemma consecutive_NoDup c n :
  List.NoDup (map (fun k => (c + 1 + Z.of_nat k)%Z) (seq 0 n)).
Proof.
  generalize 0%nat. induction n as [|n IH]; intros a; cbn [seq map]; constructor.
  - intros Hin. apply in_map_iff in Hin as (k & Hk & Hin). apply in_seq in Hin. lia.
  - apply IH.
Qed.

(** Tracks of pairwise distinct identities are joined by appending. *)
Lemma joint_stracks_distinct track_list_a track_list_b w ids :
  mapM track_id_of (track_list_a ++ track_list_b) w = Ok (ids, w) ->
  List.NoDup ids ->
  joint_stracks track_list_a track_list_b w = Ok (track_list_a ++ track_list_b, w).
Proof.
  intros Hids Hnd. unfold joint_stracks. rewrite (bindM_eq _ _ w ids w Hids). unfold ret.
  destruct (mapM_track_id_of_Ok _ _ _ _ Hids) as (_ & Hl & _).
  unfold dict_of. rewrite dict_fold_distinct.
  - cbn [app]. rewrite map_snd_combine_eq by exact Hl. reflexivity.
  - cbn [app]. rewrite map_fst_combine_eq by exact Hl. exact Hnd.
Qed.

Lemma filterM_is_activated_const (l : list ref) (b : bool) w :
  (forall r, In r l -> exists o, heap w !! r = Some o /\ is_activated o = b) ->
  filterM is_activated_of l w = Ok (if b then l else [], w).
Proof.
  induction l as [|r l IH]; intros H; cbn [filterM]; [destruct b; reflexivity|].
  destruct (H r (or_introl eq_refl)) as (o & Ho & Hb).
  assert (Hr : is_activated_of r w = Ok (b, w)).
  { unfold is_activated_of. rewrite (bindM_eq _ _ w o w) by (apply read_Ok; auto).
    unfold ret. rewrite Hb. reflexivity. }
  rewrite (bindM_eq _ _ w b w Hr).
  rewrite (bindM_eq _ _ w _ w (IH (fun r' Hr' => H r' (or_intror Hr')))).
  destruct b; reflexivity.
Qed.

Lemma flat_map_nil {A B} (l : list A) : flat_map (fun _ : A => @nil B) l = [].
Proof. induction l; simpl; auto. Qed.

(** Nothing is a duplicate when there is no lost track. *)
Lemma remove_duplicate_stracks_no_lost {X} (obj : X -> STrack) (s_tracks_a : list X) :
  remove_duplicate_stracks obj s_tracks_a [] = Ok (s_tracks_a, []).
Proof.
  unfold remove_duplicate_stracks.
  assert (E : where_lt (matching.iou_distance (map obj s_tracks_a) (map obj [])) 0.15 = []).
  { unfold where_lt.
    assert (E0 : shape1 (matching.iou_distance (map obj s_tracks_a) (map obj [])) = 0%nat)
      by (destruct s_tracks_a; reflexivity).
    rewrite E0. cbn [seq List.filter map]. apply flat_map_nil. }
  rewrite E. cbn -[drop_indices]. rewrite !drop_indices_nil. reflexivity.
Qed.

(** The new detection objects that are confident, against the detections
    they were built from. *)
Lemma filter_confident_detections dt det (D : list (vec * float)) : forall pre post c,
  Forall2 (fun (r : ref) p => (pre ++ map (detection_track dt) D ++ post) !! r
                              = Some (detection_track dt p))
          (List.filter (confident det (mkWorld (pre ++ map (detection_track dt) D ++ post) c))
                       (seq (length pre) (length D)))
          (List.filter (fun p => scalar_geb (Scalar dt (snd p)) det) D).
Proof.
  induction D as [|p D IH]; intros pre post c; [constructor|].
  cbn [length seq map List.filter].
  assert (Hp : (pre ++ (detection_track dt p :: map (detection_track dt) D) ++ post) !! length pre
               = Some (detection_track dt p)).
  { rewrite lookup_app_r by lia. rewrite Nat.sub_diag. reflexivity. }
  unfold confident at 1. cbn [heap]. unfold ref in *. rewrite Hp.
  change (score (detection_track dt p)) with (Scalar dt (snd p)).
  specialize (IH (pre ++ [detection_track dt p]) post c).
  rewrite length_app, Nat.add_1_r, <- app_assoc in IH. cbn [length app] in IH.
  cbn [app]. destruct (scalar_geb (Scalar dt (snd p)) det);
    [constructor; [exact Hp | exact IH] | exact IH].
Qed.

Lemma Forall2_seq_lookup {A} (pre l : list A) :
  Forall2 (fun i r => (pre ++ l) !! i = Some r) (seq (length pre) (length l)) l.
Proof.
  revert pre. induction l as [|x l IH]; intros pre; cbn [length seq]; constructor.
  - rewrite lookup_app_r by lia. rewrite Nat.sub_diag. reflexivity.
  - specialize (IH (pre ++ [x])). rewrite length_app, Nat.add_1_r, <- app_assoc in IH.
    exact IH.
Qed.

Section FirstFrameUpdate.
Variable linear_sum_assignment : ndarray2 -> res (list nat * list nat).
Variable cho_factor : mat -> res mat.
Variable cho_solve : mat -> mat -> mat.

Ltac run_with H := rewrite (bindM_eq _ _ _ _ _ H); cbv beta iota.
Ltac pure_step :=
  cbn [BYTETracker._update_tracks BYTETracker.mark_lost_loop
       BYTETracker.update_unconfirmed_loop BYTETracker.mark_removed_loop
       BYTETracker.expire_loop mapM filterM];
  rewrite bindM_ret; cbv beta iota.

(** [update] on a tracker that holds no track, given an input it
    accepts, a detector array of a floating-point type [dt], returns
    whatever the assignment solver and the Cholesky routine are.  The
    detections whose score passes [score > track_thresh] and then
    [score >= det_thresh], both tests made in [dt] with the threshold
    rounded to [dt], become the tracked list, in their order: the k-th of
    them is activated in this frame with the k-th next identity.  Nothing
    is lost or removed, the counter advances by their number, the objects
    that were in the store are untouched, and the tracks are returned only
    if this is frame 1. *)
Theorem update_without_tracks
        (t : BYTETracker.t) output_results img_info img_size dt scores raw bboxes w :
  BYTETracker.tracked_stracks t = [] ->
  BYTETracker.lost_stracks t = [] ->
  BYTETracker.removed_stracks t = [] ->
  BYTETracker._process_output output_results = Ok (BYTETracker.Numpy dt, scores, raw) ->
  BYTETracker._scale_bboxes dt img_info img_size raw = Ok bboxes ->
  let kept := List.filter (fun p => scalar_geb (Scalar dt (snd p)) (BYTETracker.det_thresh t))
                          (BYTETracker.masked (BYTETracker.high_mask dt t) bboxes scores) in
  exists out t' w',
    BYTETracker.update linear_sum_assignment cho_factor cho_solve t output_results
                       img_info img_size w = Ok ((out, t'), w')
    /\ BYTETracker.frame_id t' = (BYTETracker.frame_id t + 1)%Z
    /\ BYTETracker.lost_stracks t' = []
    /\ BYTETracker.removed_stracks t' = []
    /\ out = (if Z.eqb (BYTETracker.frame_id t + 1) 1
              then BYTETracker.tracked_stracks t' else [])
    /\ List.NoDup (BYTETracker.tracked_stracks t')
    /\ length (BYTETracker.tracked_stracks t') = length kept
    /\ (forall (k : nat) (r : ref),
          BYTETracker.tracked_stracks t' !! k = Some r ->
          exists p,
            kept !! k = Some p
            /\ heap w' !! r
               = Some (STrackM.activated (detection_track dt p) (BYTETracker.kalman_filter t)
                                         (BYTETracker.frame_id t + 1)
                                         (_count w + 1 + Z.of_nat k)))
    /\ _count w' = (_count w + Z.of_nat (length kept))%Z
    /\ (forall r : ref, (r < length (heap w))%nat -> heap w' !! r = heap w !! r).
Proof.
  intros Ht Hlo Hre Hp Hs kept.
  destruct t as [tth mt f det bs mtl kf tr lo re]. cbn in Ht, Hlo, Hre. subst tr lo re.
  unfold BYTETracker.update.
  cbn [BYTETracker.det_thresh BYTETracker.high_mask BYTETracker.track_thresh] in kept.
  cbn [BYTETracker.track_thresh BYTETracker.match_thresh BYTETracker.frame_id
       BYTETracker.det_thresh BYTETracker.buffer_size BYTETracker.max_time_lost
       BYTETracker.kalman_filter BYTETracker.tracked_stracks BYTETracker.lost_stracks
       BYTETracker.removed_stracks].
  set (self := BYTETracker.mk tth mt (f + 1) det bs mtl kf [] [] []).
  assert (H1 : lift (BYTETracker._process_output output_results) w
               = Ok ((BYTETracker.Numpy dt, scores, raw), w)) by (rewrite Hp; reflexivity).
  run_with H1. cbn [BYTETracker.kind_dtype].
  assert (H2 : lift (BYTETracker._scale_bboxes dt img_info img_size raw) w = Ok (bboxes, w))
    by (rewrite Hs; reflexivity).
  run_with H2.
  set (DH := BYTETracker.masked (BYTETracker.high_mask dt self) bboxes scores).
  set (DL := BYTETracker.masked (BYTETracker.low_mask dt self) bboxes scores).
  run_with (get_detections_eq dt DH w).
  set (w1 := mkWorld (heap w ++ map (detection_track dt) DH) (_count w)).
  run_with (get_detections_eq dt DL w1).
  set (w2 := mkWorld (heap w1 ++ map (detection_track dt) DL) (_count w1)).
  set (dets := seq (length (heap w)) (length DH)).
  set (dets2 := seq (length (heap w1)) (length DL)).
  assert (E5 : BYTETracker._update_tracked_stracks self w2 = Ok (([], []), w2))
    by reflexivity.
  run_with E5.
  assert (E6 : joint_stracks [] [] w2 = Ok ([], w2)) by reflexivity.
  run_with E6.
  assert (E7 : STrackM.multi_predict [] w2 = Ok (tt, w2)) by reflexivity.
  run_with E7.
  assert (Hd : forall r, In r dets -> (r < length (heap w2))%nat).
  { intros r Hr. apply in_seq in Hr. unfold w2, w1. cbn [heap]. rewrite !length_app, !length_map. lia. }
  assert (Hd2 : forall r, In r dets2 -> (r < length (heap w2))%nat).
  { intros r Hr. apply in_seq in Hr. unfold w2, w1 in *. cbn [heap] in *.
    rewrite !length_app, !length_map in *. lia. }
  run_with (match_no_tracks linear_sum_assignment dets mt w2 Hd).
  do 3 pure_step.
  run_with (match_no_tracks linear_sum_assignment dets2 0.5%float w2 Hd2).
  do 2 pure_step.
  assert (E15 : mapM (lindex dets) (seq 0 (length dets)) w2 = Ok (dets, w2))
    by exact (mapM_lindex_seq [] dets w2).
  run_with E15.
  run_with (match_no_tracks linear_sum_assignment dets 0.7%float w2 Hd).
  do 2 pure_step.
  destruct (new_tracks_loop_run self dets (seq 0 (length dets)) dets
              (Forall2_seq_lookup [] dets) [] w2 (seq_NoDup _ _) Hd)
    as (w3 & Hrun & Hl & Hc & Hf & Hb).
  cbn [BYTETracker.det_thresh BYTETracker.kalman_filter BYTETracker.frame_id self app]
    in Hrun, Hc, Hf, Hb.
  set (F := List.filter (confident det w2) dets) in *.
  run_with Hrun.
  do 3 pure_step.
  assert (Hid : forall (k : nat) (r : ref),
                  F !! k = Some r -> has_id w3 r (_count w2 + 1 + Z.of_nat k)%Z).
  { intros k r Hk. destruct (Hb k r Hk) as (o & _ & Ho). eexists. split; [exact Ho|].
    apply activated_fields. }
  pose proof (mapM_track_id_of_consecutive F w3 (_count w2) Hid) as Hids.
  pose proof (consecutive_NoDup (_count w2) (length F)) as Hnd.
  run_with (joint_stracks_distinct [] F w3 _ Hids Hnd). cbn [app].
  assert (E24 : joint_stracks F [] w3 = Ok (F, w3)).
  { rewrite <- (app_nil_r F) at 2. eapply joint_stracks_distinct; [|exact Hnd].
    rewrite app_nil_r. exact Hids. }
  run_with E24.
  assert (E25 : sub_stracks [] F w3 = Ok ([], w3)).
  { unfold sub_stracks. rewrite (bindM_eq _ _ _ _ _ Hids). reflexivity. }
  run_with E25.
  assert (E26 : sub_stracks ([] ++ []) [] w3 = Ok ([], w3)) by reflexivity.
  run_with E26.
  destruct (mapM_read_pair_total F w3) as (ps & Hps & Hfst).
  { intros r Hr. rewrite Hl. apply Hd. apply filter_In in Hr. tauto. }
  run_with Hps. pure_step.
  assert (E29 : lift (remove_duplicate_stracks snd ps []) w3 = Ok ((ps, []), w3))
    by (rewrite remove_duplicate_stracks_no_lost; reflexivity).
  run_with E29. rewrite Hfst.
  assert (E30 : filterM is_activated_of F w3
                = Ok (if Z.eqb (f + 1) 1 then F else [], w3)).
  { apply filterM_is_activated_const. intros r Hr.
    apply list_elem_of_In, list_elem_of_lookup_1 in Hr as [k Hk].
    destruct (Hb k r Hk) as (o & _ & Ho). eexists. split; [exact Ho|].
    apply activated_fields. }
  run_with E30.
  assert (HF2 : Forall2 (fun (r : ref) p => heap w2 !! r = Some (detection_track dt p)) F kept).
  { unfold F, kept, dets, w2, w1. cbn [heap _count]. rewrite <- app_assoc.
    apply filter_confident_detections. }
  eexists _, _, _. split; [reflexivity|].
  cbn [BYTETracker.frame_id BYTETracker.lost_stracks BYTETracker.removed_stracks
       BYTETracker.tracked_stracks map app].
  split; [reflexivity|]. split; [reflexivity|]. split; [reflexivity|].
  split; [reflexivity|]. split; [apply List.NoDup_filter, seq_NoDup|].
  split; [exact (Forall2_length _ _ _ HF2)|]. split; [|split].
  - intros k r Hk. destruct (Forall2_lookup_l _ _ _ _ _ HF2 Hk) as (p & Hkp & Hrp).
    destruct (Hb k r Hk) as (o & Ho & Ho3). exists p. split; [exact Hkp|].
    assert (E : o = detection_track dt p) by (unfold ref in *; congruence). subst o.
    exact Ho3.
  - rewrite Hc, (Forall2_length _ _ _ HF2). reflexivity.
  - intros r Hr. transitivity (heap w2 !! r).
    + apply Hf. intros Hin. apply filter_In in Hin as [Hin _]. apply in_seq in Hin. lia.
    + unfold w2, w1, ref in *. cbn [heap]. rewrite !lookup_app_l; [reflexivity | lia |].
      rewrite length_app. lia.
Qed.

End FirstFrameUpdate.

Lemma update_without_tracks_witness :
  BYTETracker._process_output float32_score
  = Ok (BYTETracker.Numpy Float32, [0.34999999403953552]%float, [[100; 100; 200; 300]]%float)
  /\ BYTETracker._scale_bboxes Float32 (720, 1280)%float (720, 1280)%float
                               [[100; 100; 200; 300]]%float
     = Ok [[100; 100; 200; 300]]%float
  /\ PrimFloat.ltb 0.34999999403953552 (BYTETracker.det_thresh fresh_tracker) = true
  /\ exists out t' w',
       BYTETracker.update Reference.linear_sum_assignment Reference.cho_factor
                          Reference.cho_solve fresh_tracker float32_score
                          (720, 1280)%float (720, 1280)%float (mkWorld [] 0)
       = Ok ((out, t'), w')
       /\ out = BYTETracker.tracked_stracks t'
       /\ length (BYTETracker.tracked_stracks t') = 1%nat
       /\ _count w' = 1%Z.
Proof.
  match goal with |- ?A /\ ?B /\ ?C /\ _ =>
    assert (H1 : A) by (vm_compute; reflexivity);
    assert (H2 : B) by (vm_compute; reflexivity);
    assert (H3 : C) by (vm_compute; reflexivity)
  end.
  split; [exact H1|]. split; [exact H2|]. split; [exact H3|].
  destruct (update_without_tracks
              Reference.linear_sum_assignment Reference.cho_factor Reference.cho_solve
              fresh_tracker float32_score (720, 1280)%float (720, 1280)%float
              _ _ _ _ (mkWorld [] 0) eq_refl eq_refl eq_refl H1 H2)
    as (out & t' & w' & Hrun & _ & _ & _ & Hout & _ & Hlen & _ & Hc & _).
  exists out, t', w'. split; [exact Hrun|]. split; [exact Hout|].
  split; [exact Hlen | exact Hc].
Defined.

(** ** byte_tracker: a frame without detections *)

Lemma masked_none (mask : float -> bool) bboxes scores :
  (forall s, In s scores -> mask s = false) -> BYTETracker.masked mask bboxes scores = [].
Proof.
  intros H. unfold BYTETracker.masked.
  destruct (List.filter (fun p => mask (snd p)) (combine bboxes scores)) as [|[b s] l] eqn:E;
    [reflexivity|].
  assert (Hin : In (b, s) (List.filter (fun p => mask (snd p)) (combine bboxes scores)))
    by (rewrite E; left; reflexivity).
  apply filter_In in Hin as [Hin Hm]. apply in_combine_r in Hin.
  cbn [snd] in Hm. rewrite (H s Hin) in Hm. discriminate.
Qed.

Lemma no_new_tracked_refl w : no_new_tracked w w.
Proof. intros r H. exact H. Qed.

Lemma no_new_tracked_trans w1 w2 w3 :
  no_new_tracked w1 w2 -> no_new_tracked w2 w3 -> no_new_tracked w1 w3.
Proof. intros H1 H2 r H. apply H1, H2, H. Qed.

Lemma no_new_tracked_write w (r : ref) o o' :
  heap w !! r = Some o ->
  (state o' = Some TrackState.Tracked -> state o = Some TrackState.Tracked) ->
  no_new_tracked w (mkWorld (<[r := o']> (heap w)) (_count w)).
Proof.
  intros Ho Hc r' (o1 & Ho1 & Hs). cbn [heap] in Ho1. unfold in_state, ref in *.
  destruct (Nat.eq_dec r r') as [<- | Hne].
  - rewrite list_lookup_insert_eq in Ho1 by (apply (lookup_lt_Some _ _ _ Ho)).
    inversion Ho1; subst. exists o. auto.
  - rewrite list_lookup_insert_ne in Ho1 by exact Hne. exists o1. auto.
Qed.

Lemma state_of_Ok r w s w' :
  state_of r w = Ok (s, w') ->
  w' = w /\ exists o, heap w !! r = Some o /\ state o = Some s.
Proof.
  unfold state_of, attr. intros H. apply bindM_Ok in H as (o & w1 & H1 & H).
  apply read_Ok in H1 as [Ho ->]. destruct (state o) as [s0|] eqn:E; [|discriminate].
  inversion H; subst. eauto.
Qed.

Lemma set_state_untracked s r w u w' :
  s <> TrackState.Tracked ->
  (let! o := read r in write r (BaseTrack.set_state s o)) w = Ok (u, w') ->
  no_new_tracked w w' /\ ~ in_state TrackState.Tracked w' r.
Proof.
  intros Hs H. apply bindM_Ok in H as (o & w1 & H1 & H).
  apply read_Ok in H1 as [Ho ->]. apply write_Ok in H as [Hlt ->]. split.
  - apply (no_new_tracked_write w r o); [exact Ho|]. cbn. congruence.
  - intros (o1 & Ho1 & Hs1). cbn [heap] in Ho1. unfold ref in *.
    rewrite list_lookup_insert_eq in Ho1 by exact Hlt. inversion Ho1; subst.
    cbn in Hs1. congruence.
Qed.

(** Every track the loop visits has left the state [Tracked]. *)
Lemma mark_lost_loop_untracks r_tracked u_track : forall lost_ w lost_' w',
  BYTETracker.mark_lost_loop r_tracked u_track lost_ w = Ok (lost_', w') ->
  no_new_tracked w w'
  /\ forall i r, In i u_track -> r_tracked !! i = Some r ->
       ~ in_state TrackState.Tracked w' r.
Proof.
  induction u_track as [|it u_track IH]; intros lost_ w lost_' w' H; simpl in H.
  - inversion H; subst. split; [apply no_new_tracked_refl | intros i r []].
  - apply bindM_Ok in H as (track & w1 & H1 & H). apply lindex_Ok in H1 as [Ht ->].
    apply bindM_Ok in H as (s & w1 & H1 & H).
    apply state_of_Ok in H1 as [-> (o & Ho & Hs)].
    destruct (negb (TrackState.eqb s TrackState.Lost)) eqn:E.
    + apply bindM_Ok in H as (u & w2 & H2 & H).
      apply set_state_untracked in H2 as [N2 U2]; [|discriminate].
      destruct (IH _ _ _ _ H) as [N3 U3].
      split; [exact (no_new_tracked_trans _ _ _ N2 N3)|].
      intros i r [<- | Hi] Hr; [|exact (U3 i r Hi Hr)].
      assert (r = track) by (unfold ref in *; congruence). subst r.
      intros Hx. apply U2, N3, Hx.
    + destruct (IH _ _ _ _ H) as [N3 U3]. split; [exact N3|].
      intros i r [<- | Hi] Hr; [|exact (U3 i r Hi Hr)].
      assert (r = track) by (unfold ref in *; congruence). subst r.
      intros Hx. apply N3 in Hx. destruct Hx as (o1 & Ho1 & Hs1).
      assert (o1 = o) by (unfold ref in *; congruence). subst o1.
      apply negb_false_iff, TrackState_eqb_eq in E. congruence.
Qed.

Lemma mark_removed_loop_untracks unconfirmed u_unconfirmed : forall removed_ w removed_' w',
  BYTETracker.mark_removed_loop unconfirmed u_unconfirmed removed_ w = Ok (removed_', w') ->
  no_new_tracked w w'
  /\ forall i r, In i u_unconfirmed -> unconfirmed !! i = Some r ->
       ~ in_state TrackState.Tracked w' r.
Proof.
  induction u_unconfirmed as [|it u IH]; intros removed_ w removed_' w' H; simpl in H.
  - inversion H; subst. split; [apply no_new_tracked_refl | intros i r []].
  - apply bindM_Ok in H as (track & w1 & H1 & H). apply lindex_Ok in H1 as [Ht ->].
    apply bindM_Ok in H as (u0 & w2 & H2 & H).
    apply set_state_untracked in H2 as [N2 U2]; [|discriminate].
    destruct (IH _ _ _ _ H) as [N3 U3].
    split; [exact (no_new_tracked_trans _ _ _ N2 N3)|].
    intros i r [<- | Hi] Hr; [|exact (U3 i r Hi Hr)].
    assert (r = track) by (unfold ref in *; congruence). subst r.
    intros Hx. apply U2, N3, Hx.
Qed.

Lemma expire_loop_no_new_tracked self lost : forall removed_ w removed_' w',
  BYTETracker.expire_loop self lost removed_ w = Ok (removed_', w') ->
  no_new_tracked w w'.
Proof.
  induction lost as [|track lost IH]; intros removed_ w removed_' w' H; simpl in H.
  - inversion H; subst. apply no_new_tracked_refl.
  - apply bindM_Ok in H as (x & w1 & H1 & H).
    apply (respects_expired no_new_tracked no_new_tracked_refl no_new_tracked_trans) in H1.
    destruct x.
    + apply bindM_Ok in H as (u0 & w2 & H2 & H).
      apply set_state_untracked in H2 as [N2 _]; [|discriminate].
      exact (no_new_tracked_trans _ _ _ H1 (no_new_tracked_trans _ _ _ N2 (IH _ _ _ _ H))).
    + exact (no_new_tracked_trans _ _ _ H1 (IH _ _ _ _ H)).
Qed.

Lemma multi_predict_no_new_tracked stracks w u w' :
  STrackM.multi_predict stracks w = Ok (u, w') -> no_new_tracked w w'.
Proof.
  apply (respects_multi_predict
           no_new_tracked
           (fun o o' => state o' = Some TrackState.Tracked -> state o = Some TrackState.Tracked)
           no_new_tracked_refl no_new_tracked_trans).
  - intros m c o H. exact H.
  - intros w0 r o o' Ho Hc. exact (no_new_tracked_write w0 r o o' Ho Hc).
Qed.

(** The tracks in state [Tracked], filtered out of a list. *)
Lemma filterM_tracked l : forall w l' w',
  filterM (fun r => let! s := state_of r in ret (TrackState.eqb s TrackState.Tracked)) l w
  = Ok (l', w') ->
  w' = w /\ forall r, In r l' <-> In r l /\ in_state TrackState.Tracked w r.
Proof.
  induction l as [|a l IH]; intros w l' w' H; simpl in H.
  - inversion H; subst. split; [reflexivity|]. intros r. cbn. tauto.
  - apply bindM_Ok in H as (keep & w1 & H1 & H).
    apply bindM_Ok in H1 as (s & w2 & H1 & H2). apply state_of_Ok in H1 as [E2 (o & Ho & Hs)].
    subst w2. unfold ret in H2. injection H2 as Ek Ew. subst keep w1.
    apply bindM_Ok in H as (rest & w2 & H2 & H). destruct (IH _ _ _ H2) as [E2 Hrest].
    subst w2. unfold ret in H. injection H as El Ew. subst l' w'.
    split; [reflexivity|]. intros r.
    assert (Ha : TrackState.eqb s TrackState.Tracked = true
                 <-> in_state TrackState.Tracked w a).
    { rewrite TrackState_eqb_eq. split.
      - intros ->. exists o. auto.
      - intros (o1 & Ho1 & Hs1). unfold ref in *. congruence. }
    destruct (TrackState.eqb s TrackState.Tracked); cbn [In]; rewrite Hrest.
    + split; [intros [<- | [? ?]]; [split; [auto | apply Ha; reflexivity] | auto] | tauto].
    + split; [tauto|]. intros [[<- | Hin] Hr]; [|auto].
      apply Ha in Hr. discriminate.
Qed.

(** Matching against no detection leaves every track unmatched. *)
Lemma match_no_detections lsa stracks thresh w x w' :
  BYTETracker._match_tracks_to_detections lsa stracks [] thresh w = Ok (x, w') ->
  w' = w /\ x = ([], seq 0 (length stracks), []).
Proof.
  unfold BYTETracker._match_tracks_to_detections. intros H.
  apply bindM_Ok in H as (a & w1 & H1 & H). apply mapM_read_Ok in H1 as [-> La].
  cbn [mapM] in H. rewrite bindM_ret in H. apply lift_Ok in H as [H ->].
  split; [reflexivity|].
  unfold matching.linear_assignment, arr_size in H.
  destruct (iou_distance_shape a []) as [E0 E1]. rewrite E0, E1 in H.
  cbn [length] in H. rewrite Nat.mul_0_r in H. cbn in H. rewrite La in H.
  inversion H; reflexivity.
Qed.

Lemma _update_tracked_stracks_split self w unconfirmed tracked w' :
  BYTETracker._update_tracked_stracks self w = Ok ((unconfirmed, tracked), w') ->
  forall r, In r (BYTETracker.tracked_stracks self) -> In r unconfirmed \/ In r tracked.
Proof.
  unfold BYTETracker._update_tracked_stracks. intros H.
  apply bindM_Ok in H as (u & w1 & H1 & H). apply bindM_Ok in H as (t & w2 & H2 & H).
  inversion H; subst. clear H.
  apply (filterM_reading _
           (fun w r => option_map (fun o => negb (is_activated o)) (heap w !! r))) in H1.
  2:{ intros r wa b wb Hb. apply bindM_Ok in Hb as (a & wc & Ha & Hb).
      apply is_activated_of_Ok in Ha as [-> (o & Ho & <-)]. inversion Hb; subst.
      split; [reflexivity|]. rewrite Ho. reflexivity. }
  destruct H1 as [-> Hu].
  apply (filterM_reading _
           (fun w r => option_map is_activated (heap w !! r))) in H2.
  2:{ intros r wa b wb Hb. apply is_activated_of_Ok in Hb as [-> (o & Ho & <-)].
      split; [reflexivity|]. rewrite Ho. reflexivity. }
  destruct H2 as [-> Ht].
  intros r Hr. destruct (Hu r Hr) as (b & Hb & Hin). destruct (Ht r Hr) as (b' & Hb' & Hin').
  destruct (heap w !! r) as [o|] eqn:Ho; [|discriminate]. cbn in Hb, Hb'.
  inversion Hb; inversion Hb'; subst.
  destruct (is_activated o); [right | left]; auto.
Qed.

(** Among tracks of pairwise distinct identities the merge loses none. *)
Lemma joint_stracks_keeps a b w l w' :
  joint_stracks a b w = Ok (l, w') ->
  (forall r1 r2 i, In r1 (a ++ b) -> In r2 (a ++ b) ->
                   has_id w r1 i -> has_id w r2 i -> r1 = r2) ->
  forall r, In r (a ++ b) -> In r l.
Proof.
  unfold joint_stracks. intros H Hu r Hr.
  apply bindM_Ok in H as (ids & w1 & H1 & H). inversion H; subst. clear H.
  apply mapM_track_id_of_Ok in H1 as (-> & Hl & Hids).
  destruct (In_combine_of_left ids (a ++ b) r Hl Hr) as [i Hi].
  pose proof (dict_fold_spec (combine ids (a ++ b)) [] (List.NoDup_nil _)) as (_ & Hk & Hv).
  fold (dict_of (combine ids (a ++ b))) in Hk, Hv.
  assert (Hin : In i (map fst (dict_of (combine ids (a ++ b))))).
  { apply Hk. right. apply in_map_iff. exists (i, r). auto. }
  apply in_map_iff in Hin as ([i' v] & Ei & Hin). cbn in Ei. subst i'.
  destruct (Hv i v Hin) as [[] | Hv'].
  assert (v = r).
  { apply (Hu v r i); [exact (in_combine_r _ _ _ _ Hv') | exact Hr | |]; apply Hids; assumption. }
  subst v. apply in_map_iff. exists (i, r). auto.
Qed.

(** Nothing is a duplicate when there is no tracked track. *)
Lemma remove_duplicate_stracks_no_tracked {X} (obj : X -> STrack) (s_tracks_b : list X) :
  remove_duplicate_stracks obj [] s_tracks_b = Ok ([], s_tracks_b).
Proof.
  unfold remove_duplicate_stracks. cbn -[drop_indices]. rewrite !drop_indices_nil. reflexivity.
Qed.

Section NoDetections.
Variable linear_sum_assignment : ndarray2 -> res (list nat * list nat).
Variable cho_factor : mat -> res mat.
Variable cho_solve : mat -> mat -> mat.

Local Notation "'same_world'" := (fun a b : world => b = a).

Ltac pure_in H :=
  cbn [BYTETracker._update_tracks BYTETracker.mark_lost_loop
       BYTETracker.update_unconfirmed_loop BYTETracker.mark_removed_loop
       BYTETracker.new_tracks_loop BYTETracker.expire_loop mapM filterM map] in H;
  rewrite bindM_ret in H; cbv beta iota in H.
Ltac run_in H E := rewrite (bindM_eq _ _ _ _ _ E) in H; cbv beta iota in H.

(** A frame in which no detection passes either score mask, on a tracker
    whose tracked and lost tracks have pairwise distinct identities: if
    [update] returns, it tracks nothing and returns nothing, every track
    of the tracked and lost lists has left the state [Tracked], and no
    object has entered it. *)
Theorem update_without_detections
        (t : BYTETracker.t) output_results img_info img_size kind scores raw w out t' w' :
  BYTETracker.update linear_sum_assignment cho_factor cho_solve t output_results
                     img_info img_size w = Ok ((out, t'), w') ->
  BYTETracker._process_output output_results = Ok (kind, scores, raw) ->
  (forall s, In s scores ->
             BYTETracker.high_mask (BYTETracker.kind_dtype kind) t s = false
             /\ BYTETracker.low_mask (BYTETracker.kind_dtype kind) t s = false) ->
  (forall r1 r2 i,
      In r1 (BYTETracker.tracked_stracks t ++ BYTETracker.lost_stracks t) ->
      In r2 (BYTETracker.tracked_stracks t ++ BYTETracker.lost_stracks t) ->
      has_id w r1 i -> has_id w r2 i -> r1 = r2) ->
  BYTETracker.tracked_stracks t' = []
  /\ out = []
  /\ (forall r, In r (BYTETracker.tracked_stracks t ++ BYTETracker.lost_stracks t) ->
                ~ in_state TrackState.Tracked w' r)
  /\ (forall r, in_state TrackState.Tracked w' r -> in_state TrackState.Tracked w r).
Proof.
  intros H Hp Hno Hu.
  destruct t as [tth mt f det bs mtl kf tr lo re].
  cbn [BYTETracker.tracked_stracks BYTETracker.lost_stracks] in Hu |- *.
  unfold BYTETracker.high_mask, BYTETracker.low_mask in Hno. cbn [BYTETracker.track_thresh] in Hno.
  unfold BYTETracker.update in H.
  cbn [BYTETracker.track_thresh BYTETracker.match_thresh BYTETracker.frame_id
       BYTETracker.det_thresh BYTETracker.buffer_size BYTETracker.max_time_lost
       BYTETracker.kalman_filter BYTETracker.tracked_stracks BYTETracker.lost_stracks
       BYTETracker.removed_stracks] in H.
  set (self := BYTETracker.mk tth mt (f + 1) det bs mtl kf tr lo re) in H.
  assert (H1 : lift (BYTETracker._process_output output_results) w
               = Ok ((kind, scores, raw), w)) by (rewrite Hp; reflexivity).
  run_in H H1.
  apply bindM_Ok in H as (bboxes & w1 & H2 & H). apply lift_Ok in H2 as [_ ->].
  rewrite (masked_none (BYTETracker.high_mask (BYTETracker.kind_dtype kind) self)
                       bboxes scores) in H
    by (intros s Hs; apply (Hno s Hs)).
  rewrite (masked_none (BYTETracker.low_mask (BYTETracker.kind_dtype kind) self)
                       bboxes scores) in H
    by (intros s Hs; apply (Hno s Hs)).
  destruct kind as [dt|dt]; [|discriminate].
  cbn [BYTETracker._get_detections] in H. do 2 pure_in H.
  apply bindM_Ok in H as ([unc trk] & w1 & H5 & H).
  pose proof (_update_tracked_stracks_split _ _ _ _ _ H5) as Isplit.
  apply _update_tracked_stracks_Ok in H5 as (-> & _ & Itrk & _).
  cbn [BYTETracker.tracked_stracks self] in Isplit, Itrk.
  apply bindM_Ok in H as (pool & w1 & H6 & H).
  assert (E6 : w1 = w)
    by exact (respects_joint_stracks same_world (fun _ => eq_refl)
                (fun _ _ _ E1 E2 => eq_trans E2 E1) _ _ _ _ _ H6).
  subst w1.
  assert (Ipool : forall r, In r (trk ++ lo) -> In r pool).
  { apply (joint_stracks_keeps _ _ _ _ _ H6). intros r1 r2 i Hr1 Hr2.
    apply Hu; apply in_app_iff; [apply in_app_iff in Hr1 as [?|?] | apply in_app_iff in Hr2 as [?|?]];
      auto. }
  clear H6.
  apply bindM_Ok in H as (u7 & w4 & H7 & H).
  pose proof (multi_predict_no_new_tracked _ _ _ _ H7) as N4. clear H7.
  apply bindM_Ok in H as (x8 & w1 & H8 & H). apply match_no_detections in H8 as [-> ->].
  cbv beta iota in H. pure_in H.
  assert (E10 : mapM (lindex pool) (seq 0 (length pool)) w4 = Ok (pool, w4))
    by exact (mapM_lindex_seq [] pool w4).
  run_in H E10.
  apply bindM_Ok in H as (rt & w1 & H11 & H). apply filterM_tracked in H11 as [-> Irt].
  apply bindM_Ok in H as (x12 & w1 & H12 & H). apply match_no_detections in H12 as [-> ->].
  cbv beta iota in H. pure_in H.
  apply bindM_Ok in H as (lost_ & w5 & H14 & H).
  apply mark_lost_loop_untracks in H14 as [N5 U5].
  pure_in H.
  apply bindM_Ok in H as (x16 & w1 & H16 & H). apply match_no_detections in H16 as [-> ->].
  cbv beta iota in H. pure_in H.
  apply bindM_Ok in H as (rem_ & w6 & H18 & H).
  apply mark_removed_loop_untracks in H18 as [N6 U6].
  pure_in H.
  apply bindM_Ok in H as (rem2 & w7 & H20 & H).
  pose proof (expire_loop_no_new_tracked _ _ _ _ _ _ H20) as N7. clear H20.
  apply bindM_Ok in H as (again & w1 & H21 & H).
  assert (E21 : w1 = w7).
  { refine (respects_filterM same_world (fun _ => eq_refl) (fun _ _ _ E1 E2 => eq_trans E2 E1)
              _ _ _ _ _ _ H21).
    intros a. apply (respects_expired same_world (fun _ => eq_refl)
                       (fun _ _ _ E1 E2 => eq_trans E2 E1)). }
  subst w1. clear H21.
  apply bindM_Ok in H as (tk & w1 & H22 & H). apply filterM_tracked in H22 as [-> Itk].
  assert (Upool : forall r, In r pool -> ~ in_state TrackState.Tracked w5 r).
  { intros r Hr Hx.
    assert (Hrt : In r rt) by (apply Irt; split; [exact Hr | apply N5, Hx]).
    apply list_elem_of_In, list_elem_of_lookup_1 in Hrt as [i Hi].
    apply (U5 i r); [|exact Hi | exact Hx].
    apply in_seq. pose proof (lookup_lt_Some _ _ _ Hi). lia. }
  assert (Uall : forall r, In r (tr ++ lo) -> ~ in_state TrackState.Tracked w7 r).
  { intros r Hr Hx.
    assert (Hc : In r unc \/ In r (trk ++ lo)).
    { apply in_app_iff in Hr as [Hr | Hr].
      - destruct (Isplit r Hr); [left | right; apply in_app_iff]; auto.
      - right. apply in_app_iff. auto. }
    destruct Hc as [Hc | Hc].
    - apply list_elem_of_In, list_elem_of_lookup_1 in Hc as [i Hi].
      apply (U6 i r); [|exact Hi | apply N7, Hx].
      apply in_seq. pose proof (lookup_lt_Some _ _ _ Hi). lia.
    - apply (Upool r (Ipool r Hc)). apply N6, N7, Hx. }
  assert (Etk : tk = []).
  { destruct tk as [|r tk]; [reflexivity|]. exfalso.
    destruct (proj1 (Itk r) (or_introl eq_refl)) as [Hr Hx].
    apply (Uall r); [apply in_app_iff; auto | exact Hx]. }
  subst tk.
  assert (E23 : joint_stracks [] [] w7 = Ok ([], w7)) by reflexivity.
  do 2 run_in H E23.
  apply bindM_Ok in H as (l1 & w1 & H25 & H).
  assert (E25 : w1 = w7)
    by exact (respects_sub_stracks same_world (fun _ => eq_refl)
                (fun _ _ _ E1 E2 => eq_trans E2 E1) _ _ _ _ _ H25).
  subst w1. clear H25.
  apply bindM_Ok in H as (l2 & w1 & H26 & H).
  assert (E26 : w1 = w7)
    by exact (respects_sub_stracks same_world (fun _ => eq_refl)
                (fun _ _ _ E1 E2 => eq_trans E2 E1) _ _ _ _ _ H26).
  subst w1. clear H26.
  pure_in H.
  apply bindM_Ok in H as (tb & w1 & H28 & H). apply mapM_read_pair_Ok in H28 as [-> _].
  rewrite remove_duplicate_stracks_no_tracked in H.
  assert (E29 : lift (Ok (@nil (ref * STrack), tb)) w7 = Ok (([], tb), w7)) by reflexivity.
  run_in H E29. pure_in H.
  unfold ret in H. injection H as <- <- <-.
  split; [reflexivity|]. split; [reflexivity|]. split; [exact Uall|].
  intros r Hx. apply N4, N5, N6, N7, Hx.
Qed.

End NoDetections.

Lemma update_without_detections_witness :
  exists out t w out' t' w',
    reference_session 0.25 30 0.8 30 [one_box 0.9] (mkWorld [] 0) = Ok ((out, t), w)
    /\ BYTETracker.tracked_stracks t = [0%nat]
    /\ BYTETracker.update Reference.linear_sum_assignment Reference.cho_factor
                          Reference.cho_solve t
                          (NumpyArray Float64 (mkArr 1 5 [[100; 100; 200; 300; 0.05]]%float))
                          (720, 1280)%float (720, 1280)%float w
       = Ok ((out', t'), w')
    /\ BYTETracker.tracked_stracks t' = []
    /\ out' = []
    /\ ~ in_state TrackState.Tracked w' 0%nat.
Proof.
  eexists _, _, _, _, _, _.
  split; [vm_compute; reflexivity|].
  split; [reflexivity|].
  match goal with |- ?A /\ _ => assert (HA : A) by (vm_compute; reflexivity) end.
  split; [exact HA|].
  assert (Hp : BYTETracker._process_output
                 (NumpyArray Float64 (mkArr 1 5 [[100; 100; 200; 300; 0.05]]%float))
               = Ok (BYTETracker.Numpy Float64, [0.05]%float, [[100; 100; 200; 300]]%float))
    by (vm_compute; reflexivity).
  destruct (update_without_detections _ _ _ _ _ _ _ _ _ _ _ _ _ _ HA Hp)
    as (E1 & E2 & U & _).
  - intros s [<- | []]. split; vm_compute; reflexivity.
  - intros r1 r2 i [<- | []] [<- | []] _ _. reflexivity.
  - split; [exact E1|]. split; [exact E2|]. apply U. left. reflexivity.
Defined.

(** ** byte_tracker: the tracked list holds the tracks seen in the frame *)

Lemma in_state_dec s w r : in_state s w r \/ ~ in_state s w r.
Proof.
  unfold in_state. destruct (heap w !! r) as [o|] eqn:Ho.
  - destruct (state o) as [s'|] eqn:Hs.
    + destruct (TrackState.eqb s' s) eqn:E.
      * apply TrackState_eqb_eq in E. subst s'. left. eauto.
      * right. intros (o1 & Ho1 & Hs1). inversion Ho1; subst o1.
        rewrite Hs in Hs1. inversion Hs1; subst s'.
        assert (TrackState.eqb s s = true) by (apply TrackState_eqb_eq; reflexivity).
        congruence.
    + right. intros (o1 & Ho1 & Hs1). inversion Ho1; subst o1. congruence.
  - right. intros (o1 & Ho1 & _). discriminate.
Qed.

Lemma seen_tracked f w r : seen f w r -> in_state TrackState.Tracked w r.
Proof. intros (o & Ho & Hs & _). exists o. auto. Qed.

Lemma seen_same f w w' (r : ref) : heap w' !! r = heap w !! r -> seen f w r -> seen f w' r.
Proof. intros E (o & Ho & H). exists o. split; [exact (eq_trans E Ho) | exact H]. Qed.

Lemma in_state_same s w w' (r : ref) :
  heap w' !! r = heap w !! r -> in_state s w' r -> in_state s w r.
Proof. intros E (o & Ho & H). exists o. split; [exact (eq_trans (eq_sym E) Ho) | exact H]. Qed.

(** An action that overwrites one object, by one seen in frame [f]. *)
Lemma touch_keeps_seen f w w' (r0 : ref) :
  seen f w' r0 -> (forall r : ref, r <> r0 -> heap w' !! r = heap w !! r) ->
  forall r, seen f w r -> seen f w' r.
Proof.
  intros H0 Hf r Hr. destruct (Nat.eq_dec r r0) as [-> | Hne]; [exact H0|].
  exact (seen_same f w w' r (Hf r Hne) Hr).
Qed.

Lemma insert_other (h : list STrack) (r0 r : ref) o c :
  r <> r0 -> heap (mkWorld (<[r0 := o]> h) c) !! r = h !! r.
Proof. intros Hne. cbn [heap]. unfold ref in *. apply list_lookup_insert_ne. auto. Qed.

Lemma insert_self (h : list STrack) (r0 : ref) o c :
  (r0 < length h)%nat -> heap (mkWorld (<[r0 := o]> h) c) !! r0 = Some o.
Proof. intros Hlt. cbn [heap]. unfold ref in *. apply list_lookup_insert_eq. exact Hlt. Qed.

Section Seen.
Variable linear_sum_assignment : ndarray2 -> res (list nat * list nat).
Variable cho_factor : mat -> res mat.
Variable cho_solve : mat -> mat -> mat.

Lemma _update_track_touch self new_track f w u w' :
  STrackM._update_track cho_factor cho_solve self new_track f false w = Ok (u, w') ->
  seen f w' self /\ forall r : ref, r <> self -> heap w' !! r = heap w !! r.
Proof.
  intros H. unfold STrackM._update_track in H.
  apply bindM_Ok in H as (o & w1 & H1 & H). apply read_Ok in H1 as [Ho ->].
  apply bindM_Ok in H as (n & w1 & H1 & H). apply read_Ok in H1 as [_ ->].
  apply bindM_Ok in H as (kf & w1 & H1 & H). apply attr_Ok in H1 as ->.
  apply bindM_Ok in H as (m & w1 & H1 & H). apply attr_Ok in H1 as ->.
  apply bindM_Ok in H as (c & w1 & H1 & H). apply attr_Ok in H1 as ->.
  apply bindM_Ok in H as ([m' c'] & w1 & H1 & H). apply lift_Ok in H1 as [_ ->].
  apply bindM_Ok in H as (tid & w1 & H1 & H). inversion H1; subst.
  apply write_Ok in H as [Hlt ->]. split.
  - eexists. split; [apply insert_self; exact Hlt|]. split; reflexivity.
  - intros r Hne. apply insert_other. exact Hne.
Qed.

Lemma activate_touch self kf f w u w' :
  STrackM.activate self kf f w = Ok (u, w') ->
  seen f w' self /\ forall r : ref, r <> self -> heap w' !! r = heap w !! r.
Proof.
  intros H.
  assert (Ho : exists o, heap w !! self = Some o).
  { unfold STrackM.activate in H. apply bindM_Ok in H as (o & w1 & H1 & _).
    apply read_Ok in H1 as [Ho _]. eauto. }
  destruct Ho as [o Ho]. rewrite (activate_Ok _ _ _ _ _ Ho) in H. inversion H; subst. split.
  - eexists. split; [apply insert_self; exact (lookup_lt_Some _ _ _ Ho)|].
    pose proof (activated_fields o kf f (_count w + 1)) as (_ & Hs & _ & Hf & _). auto.
  - intros r Hne. apply insert_other. exact Hne.
Qed.

Lemma set_state_frame s r0 w u w' :
  (let! o := read r0 in write r0 (BaseTrack.set_state s o)) w = Ok (u, w') ->
  forall r : ref, r <> r0 -> heap w' !! r = heap w !! r.
Proof.
  intros H. apply bindM_Ok in H as (o & w1 & H1 & H).
  apply read_Ok in H1 as [Ho ->]. apply write_Ok in H as [Hlt ->].
  intros r Hne. apply insert_other. exact Hne.
Qed.

Lemma at_rows_cons_inv l i rows r :
  at_rows l (i :: rows) r -> l !! i = Some r \/ at_rows l rows r.
Proof. intros (k & [<- | Hk] & Hr); [left; exact Hr | right; exists k; auto]. Qed.

Lemma at_rows_head l i rows r : l !! i = Some r -> at_rows l (i :: rows) r.
Proof. intros H. exists i. split; [left; reflexivity | exact H]. Qed.

Lemma at_rows_tail l i rows r : at_rows l rows r -> at_rows l (i :: rows) r.
Proof. intros (k & Hk & Hr). exists k. split; [right; exact Hk | exact Hr]. Qed.

(** The loop over the matches: the matched tracks are seen in the frame,
    the other objects are as they were. *)
Lemma _update_tracks_touch self stracks detections matches :
  forall refind activated w refind' activated' w',
  BYTETracker._update_tracks cho_factor cho_solve self stracks detections matches
                             refind activated w
  = Ok ((refind', activated'), w') ->
  (forall r, seen (BYTETracker.frame_id self) w r -> seen (BYTETracker.frame_id self) w' r)
  /\ (forall r : ref, ~ at_rows stracks (map fst matches) r -> heap w' !! r = heap w !! r)
  /\ (forall r, at_rows stracks (map fst matches) r -> seen (BYTETracker.frame_id self) w' r)
  /\ (forall r, In r (refind' ++ activated') ->
                In r (refind ++ activated) \/ at_rows stracks (map fst matches) r).
Proof.
  induction matches as [|[i j] matches IH]; intros refind activated w refind' activated' w' H;
    simpl in H.
  - inversion H; subst. split; [auto|]. split; [auto|]. split; [|auto].
    intros r (k & [] & _).
  - apply bindM_Ok in H as (track & w1 & H1 & H). apply lindex_Ok in H1 as [Ht ->].
    apply bindM_Ok in H as (det & w1 & H1 & H). apply lindex_Ok in H1 as [_ ->].
    apply bindM_Ok in H as (s & w1 & H1 & H). apply state_of_Ok in H1 as [-> _].
    cbn [map fst].
    assert (Hstep : exists w1 rf ac,
               (seen (BYTETracker.frame_id self) w1 track
                /\ forall r : ref, r <> track -> heap w1 !! r = heap w !! r)
               /\ BYTETracker._update_tracks cho_factor cho_solve self stracks detections
                    matches rf ac w1 = Ok ((refind', activated'), w')
               /\ forall r, In r (rf ++ ac) -> In r (refind ++ activated) \/ r = track).
    { destruct (TrackState.eqb s TrackState.Tracked);
        apply bindM_Ok in H as (u & w2 & H2 & H);
        apply _update_track_touch in H2; eexists _, _, _;
        (split; [exact H2|]); (split; [exact H|]);
        intros r Hr; rewrite !in_app_iff in *; cbn [In] in Hr; intuition auto. }
    destruct Hstep as (w1 & rf & ac & [S1 F1] & Hrest & I1).
    destruct (IH _ _ _ _ _ _ Hrest) as (Ka & Kb & Kc & Kd).
    split; [|split; [|split]].
    + intros r Hr. apply Ka. exact (touch_keeps_seen _ _ _ _ S1 F1 r Hr).
    + intros r Hr. rewrite Kb by (intros Hx; apply Hr, at_rows_tail, Hx).
      apply F1. intros ->. apply Hr, at_rows_head, Ht.
    + intros r Hr. apply at_rows_cons_inv in Hr as [Hr | Hr]; [|exact (Kc r Hr)].
      assert (r = track) by (unfold ref in *; congruence). subst r. exact (Ka _ S1).
    + intros r Hr. destruct (Kd r Hr) as [Hin | Hin]; [|right; apply at_rows_tail, Hin].
      destruct (I1 r Hin) as [Hin' | ->]; [left; exact Hin' | right; apply at_rows_head, Ht].
Qed.

Lemma update_unconfirmed_loop_touch self unconfirmed detections matches :
  forall activated w activated' w',
  BYTETracker.update_unconfirmed_loop cho_factor cho_solve self unconfirmed detections
                                      matches activated w
  = Ok (activated', w') ->
  (forall r, seen (BYTETracker.frame_id self) w r -> seen (BYTETracker.frame_id self) w' r)
  /\ (forall r : ref, ~ at_rows unconfirmed (map fst matches) r -> heap w' !! r = heap w !! r)
  /\ (forall r, at_rows unconfirmed (map fst matches) r ->
                seen (BYTETracker.frame_id self) w' r)
  /\ (forall r, In r activated' ->
                In r activated \/ at_rows unconfirmed (map fst matches) r).
Proof.
  induction matches as [|[i j] matches IH]; intros activated w activated' w' H; simpl in H.
  - inversion H; subst. split; [auto|]. split; [auto|]. split; [|auto].
    intros r (k & [] & _).
  - apply bindM_Ok in H as (track & w1 & H1 & H). apply lindex_Ok in H1 as [Ht ->].
    apply bindM_Ok in H as (det & w1 & H1 & H). apply lindex_Ok in H1 as [_ ->].
    apply bindM_Ok in H as (u & w1 & H1 & H). apply _update_track_touch in H1 as [S1 F1].
    apply bindM_Ok in H as (track' & w2 & H2 & H). apply lindex_Ok in H2 as [Ht' ->].
    assert (track' = track) by (unfold ref in *; congruence). subst track'.
    cbn [map fst].
    destruct (IH _ _ _ _ H) as (Ka & Kb & Kc & Kd).
    split; [|split; [|split]].
    + intros r Hr. apply Ka. exact (touch_keeps_seen _ _ _ _ S1 F1 r Hr).
    + intros r Hr. rewrite Kb by (intros Hx; apply Hr, at_rows_tail, Hx).
      apply F1. intros ->. apply Hr, at_rows_head, Ht.
    + intros r Hr. apply at_rows_cons_inv in Hr as [Hr | Hr]; [|exact (Kc r Hr)].
      assert (r = track) by (unfold ref in *; congruence). subst r. exact (Ka _ S1).
    + intros r Hr. destruct (Kd r Hr) as [Hin | Hin]; [|right; apply at_rows_tail, Hin].
      apply in_app_iff in Hin as [Hin | [<- | []]];
        [left; exact Hin | right; apply at_rows_head, Ht].
Qed.

End Seen.

Lemma new_tracks_loop_touch self detections u_detection :
  forall activated w activated' w',
  BYTETracker.new_tracks_loop self detections u_detection activated w = Ok (activated', w') ->
  (forall r, seen (BYTETracker.frame_id self) w r -> seen (BYTETracker.frame_id self) w' r)
  /\ (forall r : ref, ~ In r detections -> heap w' !! r = heap w !! r)
  /\ (forall r, In r activated' -> In r activated \/ seen (BYTETracker.frame_id self) w' r).
Proof.
  induction u_detection as [|i u IH]; intros activated w activated' w' H; simpl in H.
  - inversion H; subst. auto.
  - apply bindM_Ok in H as (track & w1 & H1 & H). apply lindex_Ok in H1 as [Ht ->].
    apply bindM_Ok in H as (o & w1 & H1 & H). apply read_Ok in H1 as [_ ->].
    destruct (scalar_geb (score o) (BYTETracker.det_thresh self)).
    + apply bindM_Ok in H as (u0 & w1 & H1 & H). apply activate_touch in H1 as [S1 F1].
      destruct (IH _ _ _ _ H) as (Ka & Kb & Kd).
      split; [|split].
      * intros r Hr. apply Ka. exact (touch_keeps_seen _ _ _ _ S1 F1 r Hr).
      * intros r Hr. rewrite Kb by exact Hr. apply F1. intros ->.
        apply Hr. exact (lookup_In _ _ _ Ht).
      * intros r Hr. destruct (Kd r Hr) as [Hin | Hin]; [|right; exact Hin].
        apply in_app_iff in Hin as [Hin | [<- | []]]; [left; exact Hin | right; exact (Ka _ S1)].
    + exact (IH _ _ _ _ H).
Qed.

Lemma mark_lost_loop_frame r_tracked u_track : forall lost_ w lost_' w',
  BYTETracker.mark_lost_loop r_tracked u_track lost_ w = Ok (lost_', w') ->
  forall r : ref, ~ at_rows r_tracked u_track r -> heap w' !! r = heap w !! r.
Proof.
  induction u_track as [|it u_track IH]; intros lost_ w lost_' w' H r Hr; simpl in H.
  - inversion H; subst. reflexivity.
  - apply bindM_Ok in H as (track & w1 & H1 & H). apply lindex_Ok in H1 as [Ht ->].
    apply bindM_Ok in H as (s & w1 & H1 & H). apply state_of_Ok in H1 as [-> _].
    assert (Hne : r <> track) by (intros ->; apply Hr, at_rows_head, Ht).
    assert (Hr' : ~ at_rows r_tracked u_track r) by (intros Hx; apply Hr, at_rows_tail, Hx).
    destruct (negb (TrackState.eqb s TrackState.Lost)).
    + apply bindM_Ok in H as (u & w2 & H2 & H).
      rewrite (IH _ _ _ _ H r Hr'). exact (set_state_frame _ _ _ _ _ H2 r Hne).
    + exact (IH _ _ _ _ H r Hr').
Qed.

Lemma mark_removed_loop_frame unconfirmed u_unconfirmed : forall removed_ w removed_' w',
  BYTETracker.mark_removed_loop unconfirmed u_unconfirmed removed_ w = Ok (removed_', w') ->
  forall r : ref, ~ at_rows unconfirmed u_unconfirmed r -> heap w' !! r = heap w !! r.
Proof.
  induction u_unconfirmed as [|it u IH]; intros removed_ w removed_' w' H r Hr; simpl in H.
  - inversion H; subst. reflexivity.
  - apply bindM_Ok in H as (track & w1 & H1 & H). apply lindex_Ok in H1 as [Ht ->].
    apply bindM_Ok in H as (u0 & w2 & H2 & H).
    assert (Hne : r <> track) by (intros ->; apply Hr, at_rows_head, Ht).
    assert (Hr' : ~ at_rows unconfirmed u r) by (intros Hx; apply Hr, at_rows_tail, Hx).
    rewrite (IH _ _ _ _ H r Hr'). exact (set_state_frame _ _ _ _ _ H2 r Hne).
Qed.

Lemma expired_Ok self track w x w' :
  BYTETracker.expired self track w = Ok (x, w') ->
  w' = w
  /\ exists o e, heap w !! track = Some o /\ frame_id o = Some e
                 /\ x = Z.ltb (BYTETracker.max_time_lost self) (BYTETracker.frame_id self - e).
Proof.
  unfold BYTETracker.expired, BaseTrack.end_frame, attr. intros H.
  apply bindM_Ok in H as (e & w1 & H1 & H).
  apply bindM_Ok in H1 as (o & w2 & H1 & H2). apply read_Ok in H1 as [Ho ->].
  destruct (frame_id o) as [e0|] eqn:E; [|discriminate].
  unfold ret in H2, H. injection H2 as E1 E2. subst e0 w1. injection H as E1 E2. subst x w'.
  split; [reflexivity|]. exists o, e. auto.
Qed.

(** With a buffer that is not negative, no track seen in the frame
    expires. *)
Lemma expire_loop_keeps_seen self lost : forall removed_ w removed_' w',
  (0 <= BYTETracker.max_time_lost self)%Z ->
  BYTETracker.expire_loop self lost removed_ w = Ok (removed_', w') ->
  forall r, seen (BYTETracker.frame_id self) w r -> seen (BYTETracker.frame_id self) w' r.
Proof.
  induction lost as [|track lost IH]; intros removed_ w removed_' w' Hm H r Hr; simpl in H.
  - inversion H; subst. exact Hr.
  - apply bindM_Ok in H as (x & w1 & H1 & H).
    apply expired_Ok in H1 as [-> (o & e & Ho & He & Hx)].
    destruct x.
    + apply bindM_Ok in H as (u0 & w2 & H2 & H).
      apply (IH _ _ _ _ Hm H). apply (seen_same _ w); [|exact Hr].
      apply (set_state_frame _ _ _ _ _ H2). intros ->.
      destruct Hr as (o1 & Ho1 & _ & Hf1).
      assert (o1 = o) by (unfold ref in *; congruence). subst o1.
      assert (e = BYTETracker.frame_id self) by congruence. subst e.
      rewrite Z.sub_diag in Hx. symmetry in Hx. apply Z.ltb_lt in Hx. lia.
    + exact (IH _ _ _ _ Hm H r Hr).
Qed.

Lemma _match_tracks_to_detections_rows lsa stracks detections thresh w matches u_a u_b w' :
  BYTETracker._match_tracks_to_detections lsa stracks detections thresh w
  = Ok ((matches, u_a, u_b), w') ->
  w' = w
  /\ (forall i, (i < length stracks)%nat -> In i (map fst matches) \/ In i u_a)
  /\ (forall i, In i u_a -> ~ In i (map fst matches))
  /\ List.NoDup u_a.
Proof.
  unfold BYTETracker._match_tracks_to_detections. intros H.
  apply bindM_Ok in H as (a & w1 & H1 & H). apply mapM_read_Ok in H1 as [-> La].
  apply bindM_Ok in H as (b & w1 & H1 & H). apply mapM_read_Ok in H1 as [-> Lb].
  apply lift_Ok in H as [H ->]. split; [reflexivity|].
  apply linear_assignment_Ok in H as (-> & _ & _). split; [|split].
  - intros i Hi. destruct (In_dec Nat.eq_dec i (map fst matches)) as [Hin|Hnin]; [auto|].
    right. apply setdiff_arange_In. split; [|exact Hnin].
    rewrite (proj1 (iou_distance_shape a b)). lia.
  - intros i Hi. apply setdiff_arange_In in Hi. tauto.
  - apply NoDup_ListNoDup, setdiff_arange_NoDup.
Qed.

Lemma mapM_lindex_Forall2 {A} (l : list A) idx : forall w xs w',
  mapM (lindex l) idx w = Ok (xs, w') ->
  w' = w /\ Forall2 (fun k x => l !! k = Some x) idx xs.
Proof.
  induction idx as [|k idx IH]; intros w xs w' H; simpl in H.
  - inversion H; subst. split; [reflexivity | constructor].
  - apply bindM_Ok in H as (x & w1 & H1 & H). apply lindex_Ok in H1 as [Hx ->].
    apply bindM_Ok in H as (rest & w1 & H1 & H). destruct (IH _ _ _ H1) as [-> HF].
    inversion H; subst. split; [reflexivity | constructor; assumption].
Qed.

Lemma Forall2_lookups_In {A} (l : list A) idx xs x :
  Forall2 (fun k x => l !! k = Some x) idx xs ->
  In x xs <-> exists k, In k idx /\ l !! k = Some x.
Proof.
  induction 1 as [|k y idx xs Hk HF IH]; cbn [In].
  - split; [intros [] | intros (k & [] & _)].
  - rewrite IH. split.
    + intros [<- | (k' & Hk' & Hx)]; [exists k; auto | exists k'; auto].
    + intros (k' & [<- | Hk'] & Hx); [left; congruence | right; exists k'; auto].
Qed.

Lemma Forall2_lookups_NoDup {A} (l : list A) idx xs :
  Forall2 (fun k x => l !! k = Some x) idx xs ->
  List.NoDup l -> List.NoDup idx -> List.NoDup xs.
Proof.
  intros HF Hl. induction HF as [|k y idx xs Hk HF IH]; intros Hidx; constructor.
  - inversion Hidx as [|? ? Hnin _]; subst. intros Hin.
    apply (Forall2_lookups_In l idx xs y HF) in Hin as (k' & Hk' & Hy).
    assert (k = k') by exact (NoDup_lookup_unique l k k' y Hl Hk Hy). subst k'.
    contradiction.
  - inversion Hidx; subst. auto.
Qed.

(** In a list without repetition, no entry is both at a matched and at an
    unmatched index. *)
Lemma at_rows_excl (l : list ref) rows u r :
  List.NoDup l -> (forall i, In i u -> ~ In i rows) ->
  at_rows l rows r -> ~ at_rows l u r.
Proof.
  intros Hl Hd (i & Hi & Hr) (i' & Hi' & Hr').
  assert (i = i') by exact (NoDup_lookup_unique l i i' r Hl Hr Hr'). subst i'.
  exact (Hd i Hi' Hi).
Qed.

Lemma at_rows_In l rows r : at_rows l rows r -> In r l.
Proof. intros (i & _ & Hr). exact (lookup_In _ _ _ Hr). Qed.

Lemma In_at_index {A} (l : list A) x :
  In x l -> exists k, (k < length l)%nat /\ l !! k = Some x.
Proof.
  intros H. apply list_elem_of_In, list_elem_of_lookup_1 in H as [k Hk].
  exists k. split; [exact (lookup_lt_Some _ _ _ Hk) | exact Hk].
Qed.

Lemma _update_tracked_stracks_flags self w unconfirmed tracked w' :
  BYTETracker._update_tracked_stracks self w = Ok ((unconfirmed, tracked), w') ->
  (forall r, In r unconfirmed -> exists o, heap w !! r = Some o /\ is_activated o = false)
  /\ (forall r, In r tracked -> exists o, heap w !! r = Some o /\ is_activated o = true)
  /\ sublist unconfirmed (BYTETracker.tracked_stracks self).
Proof.
  unfold BYTETracker._update_tracked_stracks. intros H.
  apply bindM_Ok in H as (u & w1 & H1 & H). apply bindM_Ok in H as (t & w2 & H2 & H).
  inversion H; subst. clear H.
  pose proof (filterM_sublist _ _ _ _ _ H1) as Hsub.
  assert (E1 : w1 = w).
  { apply (filterM_reading _
             (fun w r => option_map (fun o => negb (is_activated o)) (heap w !! r))) in H1
      as [E _]; [exact E|].
    intros r wa b wb Hb. apply bindM_Ok in Hb as (a & wc & Ha & Hb).
    apply is_activated_of_Ok in Ha as [-> (o & Ho & <-)]. inversion Hb; subst.
    split; [reflexivity|]. rewrite Ho. reflexivity. }
  subst w1.
  split; [|split; [|exact Hsub]].
  - intros r Hr.
    apply (filterM_reading_sound _
             (fun w r => option_map (fun o => negb (is_activated o)) (heap w !! r))
             _ _ _ _) with (a := r) in H1; [|
      intros q wa b wb Hb; apply bindM_Ok in Hb as (a & wc & Ha & Hb);
      apply is_activated_of_Ok in Ha as [-> (o & Ho & <-)]; inversion Hb; subst;
      split; [reflexivity | rewrite Ho; reflexivity] | exact Hr].
    destruct H1 as [_ Hv]. destruct (heap w !! r) as [o|]; [|discriminate].
    cbn in Hv. exists o. split; [reflexivity|]. destruct (is_activated o); [discriminate|auto].
  - intros r Hr.
    apply (filterM_reading_sound _ (fun w r => option_map is_activated (heap w !! r))
             _ _ _ _) with (a := r) in H2; [|
      intros q wa b wb Hb; apply is_activated_of_Ok in Hb as [-> (o & Ho & <-)];
      split; [reflexivity | rewrite Ho; reflexivity] | exact Hr].
    destruct H2 as [_ Hv]. destruct (heap w !! r) as [o|]; [|discriminate].
    cbn in Hv. exists o. split; [reflexivity|]. congruence.
Qed.

Lemma _update_tracks_members cho_factor cho_solve self stracks detections matches :
  forall refind activated w refind' activated' w',
  BYTETracker._update_tracks cho_factor cho_solve self stracks detections matches
                             refind activated w
  = Ok ((refind', activated'), w') ->
  (forall r, In r (refind ++ activated) -> In r (refind' ++ activated'))
  /\ (forall r, at_rows stracks (map fst matches) r -> In r (refind' ++ activated')).
Proof.
  induction matches as [|[i j] matches IH]; intros refind activated w refind' activated' w' H;
    simpl in H.
  - inversion H; subst. split; [auto | intros r (k & [] & _)].
  - apply bindM_Ok in H as (track & w1 & H1 & H). apply lindex_Ok in H1 as [Ht ->].
    apply bindM_Ok in H as (det & w1 & H1 & H). apply lindex_Ok in H1 as [_ ->].
    apply bindM_Ok in H as (s & w1 & H1 & H). apply state_of_Ok in H1 as [-> _].
    cbn [map fst].
    assert (Hstep : exists w1 rf ac,
               BYTETracker._update_tracks cho_factor cho_solve self stracks detections
                 matches rf ac w1 = Ok ((refind', activated'), w')
               /\ (forall r, In r (refind ++ activated) -> In r (rf ++ ac))
               /\ In track (rf ++ ac)).
    { destruct (TrackState.eqb s TrackState.Tracked);
        apply bindM_Ok in H as (u & w2 & H2 & H); eexists _, _, _;
        (split; [exact H|]); split;
        try (intros r Hr); rewrite !in_app_iff in *; cbn [In]; intuition auto. }
    destruct Hstep as (w1 & rf & ac & Hrest & I1 & I2).
    destruct (IH _ _ _ _ _ _ Hrest) as [Ma Mb]. split.
    + intros r Hr. apply Ma, I1, Hr.
    + intros r Hr. apply at_rows_cons_inv in Hr as [Hr | Hr]; [|exact (Mb r Hr)].
      assert (r = track) by (unfold ref in *; congruence). subst r. exact (Ma _ I2).
Qed.

Lemma update_unconfirmed_loop_members cho_factor cho_solve self unconfirmed detections
      matches :
  forall activated w activated' w',
  BYTETracker.update_unconfirmed_loop cho_factor cho_solve self unconfirmed detections
                                      matches activated w
  = Ok (activated', w') ->
  forall r, In r activated -> In r activated'.
Proof.
  induction matches as [|[i j] matches IH]; intros activated w activated' w' H r Hr;
    simpl in H.
  - inversion H; subst. exact Hr.
  - do 4 (apply bindM_Ok in H as (? & ? & _ & H)).
    apply (IH _ _ _ _ H). apply in_app_iff. left. exact Hr.
Qed.

Lemma new_tracks_loop_members self detections u_detection :
  forall activated w activated' w',
  BYTETracker.new_tracks_loop self detections u_detection activated w = Ok (activated', w') ->
  forall r, In r activated -> In r activated'.
Proof.
  induction u_detection as [|i u IH]; intros activated w activated' w' H r Hr; simpl in H.
  - inversion H; subst. exact Hr.
  - do 2 (apply bindM_Ok in H as (? & ? & _ & H)).
    match type of H with (if ?c then _ else _) _ = _ => destruct c end.
    + apply bindM_Ok in H as (? & ? & _ & H).
      apply (IH _ _ _ _ H). apply in_app_iff. left. exact Hr.
    + exact (IH _ _ _ _ H r Hr).
Qed.

(** The tracks the loop marks lost, in the order of the indices. *)
Lemma mark_lost_loop_list r_tracked u_track : forall lost_ w lost_' w',
  BYTETracker.mark_lost_loop r_tracked u_track lost_ w = Ok (lost_', w') ->
  exists xs ys,
    lost_' = lost_ ++ xs
    /\ Forall2 (fun k x => r_tracked !! k = Some x) u_track ys
    /\ sublist xs ys.
Proof.
  induction u_track as [|it u_track IH]; intros lost_ w lost_' w' H; simpl in H.
  - inversion H; subst. exists [], []. rewrite app_nil_r.
    split; [reflexivity|]. split; constructor.
  - apply bindM_Ok in H as (track & w1 & H1 & H). apply lindex_Ok in H1 as [Ht ->].
    apply bindM_Ok in H as (s & w1 & H1 & H). apply state_of_Ok in H1 as [-> _].
    destruct (negb (TrackState.eqb s TrackState.Lost)).
    + apply bindM_Ok in H as (u & w2 & _ & H).
      destruct (IH _ _ _ _ H) as (xs & ys & -> & HF & Hs).
      exists (track :: xs), (track :: ys). rewrite <- app_assoc.
      split; [reflexivity|]. split; constructor; assumption.
    + destruct (IH _ _ _ _ H) as (xs & ys & -> & HF & Hs).
      exists xs, (track :: ys).
      split; [reflexivity|]. split; constructor; assumption.
Qed.

(** A track [sub_stracks] keeps shares its identity with no track of the
    second list. *)
Lemma sub_stracks_excl track_list_a track_list_b w l w' :
  sub_stracks track_list_a track_list_b w = Ok (l, w') ->
  sublist l track_list_a
  /\ forall r r' i, In r l -> In r' track_list_b -> has_id w r i -> has_id w r' i -> False.
Proof.
  unfold sub_stracks. intros H.
  apply bindM_Ok in H as (ids & w1 & H1 & H).
  pose proof (mapM_track_id_of_Ok _ _ _ _ H1) as (-> & Hlen & Hids).
  split; [exact (filterM_sublist _ _ _ _ _ H)|].
  assert (Hsame : forall la l0 wa wb,
             filterM (fun track => let! i := track_id_of track in
                                   ret (negb (existsb (Z.eqb i) ids))) la wa = Ok (l0, wb) ->
             wb = wa).
  { intros la l0 wa wb Hf.
    refine (respects_filterM (fun a b : world => b = a) (fun _ => eq_refl)
              (fun _ _ _ E1 E2 => eq_trans E2 E1) _ _ _ _ _ _ Hf).
    intros q wc b wd Hb. apply bindM_Ok in Hb as (i & we & Hq & Hb).
    apply track_id_of_Ok in Hq as [-> _]. unfold ret in Hb. injection Hb as _ Hw.
    symmetry. exact Hw. }
  pose proof (Hsame _ _ _ _ H) as Ew. subst w'.
  assert (Hkeep : forall r, In r l ->
                    exists i, has_id w r i /\ existsb (Z.eqb i) ids = false).
  { clear H1. revert l H. induction track_list_a as [|a la IH]; intros l H r Hr; simpl in H.
    - inversion H; subst. destruct Hr.
    - apply bindM_Ok in H as (keep & w1 & H1 & H).
      apply bindM_Ok in H1 as (i & w2 & H2 & H1). apply track_id_of_Ok in H2 as [-> Hi].
      unfold ret in H1. injection H1 as Ek Ew. subst keep w1.
      apply bindM_Ok in H as (rest & w1 & H1 & H).
      pose proof (Hsame _ _ _ _ H1) as Ew. subst w1.
      unfold ret in H. injection H as El. subst l.
      destruct (existsb (Z.eqb i) ids) eqn:E; cbn [negb] in Hr.
      + exact (IH _ H1 r Hr).
      + destruct Hr as [<- | Hr]; [exists i; auto | exact (IH _ H1 r Hr)]. }
  intros r r' i Hr Hr' Hi Hi'.
  destruct (Hkeep r Hr) as (i0 & Hi0 & E).
  pose proof (has_id_functional _ _ _ _ Hi Hi0). subst i0.
  destruct (In_combine_of_left ids track_list_b r' Hlen Hr') as [i' Hc].
  pose proof (has_id_functional _ _ _ _ Hi' (Hids _ _ Hc)). subst i'.
  assert (Ht : existsb (Z.eqb i) ids = true).
  { apply existsb_exists. exists i. split; [exact (in_combine_l _ _ _ _ Hc) | apply Z.eqb_refl]. }
  congruence.
Qed.

(** Every identity that goes into a merge comes out of it. *)
Lemma joint_stracks_covers a b w l w' :
  joint_stracks a b w = Ok (l, w') ->
  forall r, In r (a ++ b) -> exists i r', has_id w r i /\ In r' l /\ has_id w r' i.
Proof.
  unfold joint_stracks. intros H r Hr.
  apply bindM_Ok in H as (ids & w1 & H1 & H).
  apply mapM_track_id_of_Ok in H1 as (-> & Hlen & Hids).
  unfold ret in H. injection H as El Ew. subst l w'.
  destruct (dict_fold_spec (combine ids (a ++ b)) [] (List.NoDup_nil _)) as (_ & K & P).
  fold (dict_of (combine ids (a ++ b))) in K, P.
  destruct (In_combine_of_left ids (a ++ b) r Hlen Hr) as [i Hi].
  assert (Hk : In i (map fst (dict_of (combine ids (a ++ b))))).
  { apply K. right. apply in_map_iff. exists (i, r). auto. }
  apply in_map_iff in Hk as [[i' r'] [E Hin]]. simpl in E. subst i'.
  exists i, r'. split; [exact (Hids i r Hi)|]. split.
  - apply in_map_iff. exists (i, r'). auto.
  - destruct (P i r' Hin) as [[] | Hc]. exact (Hids i r' Hc).
Qed.

(** *** The states the loops leave *)

Lemma status_same w w' (r : ref) : heap w' !! r = heap w !! r -> status w' r = status w r.
Proof. intros E. unfold status, ref in *. rewrite E. reflexivity. Qed.

Lemma in_state_status s w r :
  in_state s w r <-> exists fo, status w r = Some (Some s, fo).
Proof.
  unfold in_state, status. split.
  - intros (o & Ho & Hs). exists (frame_id o). unfold ref in *. rewrite Ho. cbn. rewrite Hs.
    reflexivity.
  - intros (fo & H). destruct (heap w !! r) as [o|]; [|discriminate].
    cbn in H. inversion H. exists o. auto.
Qed.

Lemma in_state_same_status s w w' r :
  status w' r = status w r -> in_state s w r -> in_state s w' r.
Proof. intros E H. apply in_state_status. rewrite E. apply in_state_status. exact H. Qed.

Lemma multi_predict_status stracks w u w' :
  STrackM.multi_predict stracks w = Ok (u, w') -> forall r, status w' r = status w r.
Proof.
  apply (respects_multi_predict
           (fun a b : world => forall r, status b r = status a r)
           (fun o o' => state o' = state o /\ frame_id o' = frame_id o)).
  - intros w0 r. reflexivity.
  - intros w1 w2 w3 H1 H2 r. rewrite H2. apply H1.
  - intros m c o. split; reflexivity.
  - intros w0 r0 o o' Ho [Hs Hf] r. destruct (Nat.eq_dec r r0) as [-> | Hne].
    + unfold status. rewrite (insert_self _ _ _ _ (lookup_lt_Some _ _ _ Ho)).
      unfold ref in *. rewrite Ho. cbn. rewrite Hs, Hf. reflexivity.
    + apply status_same. apply insert_other. exact Hne.
Qed.

Lemma set_state_marks s r0 w u w' :
  (let! o := read r0 in write r0 (BaseTrack.set_state s o)) w = Ok (u, w') ->
  in_state s w' r0 /\ forall r, in_state s w r -> in_state s w' r.
Proof.
  intros H. pose proof (set_state_frame _ _ _ _ _ H) as Hf.
  apply bindM_Ok in H as (o & w1 & H1 & H).
  apply read_Ok in H1 as [Ho ->]. apply write_Ok in H as [Hlt ->].
  assert (H0 : in_state s (mkWorld (<[r0 := BaseTrack.set_state s o]> (heap w)) (_count w)) r0).
  { eexists. split; [apply insert_self; exact Hlt | reflexivity]. }
  split; [exact H0|]. intros r Hr. destruct (Nat.eq_dec r r0) as [-> | Hne]; [exact H0|].
  apply (in_state_same_status s w); [|exact Hr]. apply status_same, Hf. exact Hne.
Qed.

(** Every track the loop visits ends in state [Lost]. *)
Lemma mark_lost_loop_marks r_tracked u_track : forall lost_ w lost_' w',
  BYTETracker.mark_lost_loop r_tracked u_track lost_ w = Ok (lost_', w') ->
  (forall r, in_state TrackState.Lost w r -> in_state TrackState.Lost w' r)
  /\ forall i r, In i u_track -> r_tracked !! i = Some r -> in_state TrackState.Lost w' r.
Proof.
  induction u_track as [|it u_track IH]; intros lost_ w lost_' w' H; simpl in H.
  - inversion H; subst. split; [auto | intros i r []].
  - apply bindM_Ok in H as (track & w1 & H1 & H). apply lindex_Ok in H1 as [Ht ->].
    apply bindM_Ok in H as (s & w1 & H1 & H).
    apply state_of_Ok in H1 as [-> (o & Ho & Hs)].
    destruct (negb (TrackState.eqb s TrackState.Lost)) eqn:E.
    + apply bindM_Ok in H as (u & w2 & H2 & H).
      apply set_state_marks in H2 as [M2 P2].
      destruct (IH _ _ _ _ H) as [P3 M3]. split; [intros r Hr; apply P3, P2, Hr|].
      intros i r [<- | Hi] Hr; [|exact (M3 i r Hi Hr)].
      assert (r = track) by (unfold ref in *; congruence). subst r. exact (P3 _ M2).
    + destruct (IH _ _ _ _ H) as [P3 M3]. split; [exact P3|].
      intros i r [<- | Hi] Hr; [|exact (M3 i r Hi Hr)].
      assert (r = track) by (unfold ref in *; congruence). subst r.
      apply P3. exists o. split; [exact Ho|].
      apply negb_false_iff, TrackState_eqb_eq in E. congruence.
Qed.

(** Every track the loop visits ends in state [Removed]. *)
Lemma mark_removed_loop_marks unconfirmed u_unconfirmed : forall removed_ w removed_' w',
  BYTETracker.mark_removed_loop unconfirmed u_unconfirmed removed_ w = Ok (removed_', w') ->
  (forall r, in_state TrackState.Removed w r -> in_state TrackState.Removed w' r)
  /\ forall i r, In i u_unconfirmed -> unconfirmed !! i = Some r ->
       in_state TrackState.Removed w' r.
Proof.
  induction u_unconfirmed as [|it u IH]; intros removed_ w removed_' w' H; simpl in H.
  - inversion H; subst. split; [auto | intros i r []].
  - apply bindM_Ok in H as (track & w1 & H1 & H). apply lindex_Ok in H1 as [Ht ->].
    apply bindM_Ok in H as (u0 & w2 & H2 & H).
    apply set_state_marks in H2 as [M2 P2].
    destruct (IH _ _ _ _ H) as [P3 M3]. split; [intros r Hr; apply P3, P2, Hr|].
    intros i r [<- | Hi] Hr; [|exact (M3 i r Hi Hr)].
    assert (r = track) by (unfold ref in *; congruence). subst r. exact (P3 _ M2).
Qed.

(** The expiry rule: a lost track whose last frame lies more than
    [max_time_lost] frames back is removed, any other is left as it is. *)
Lemma expire_loop_rule self lost : forall removed_ w removed_' w',
  List.NoDup lost ->
  BYTETracker.expire_loop self lost removed_ w = Ok (removed_', w') ->
  forall r s e, In r lost -> status w r = Some (s, Some e) ->
    (Z.ltb (BYTETracker.max_time_lost self) (BYTETracker.frame_id self - e) = true
     /\ in_state TrackState.Removed w' r)
    \/ (Z.ltb (BYTETracker.max_time_lost self) (BYTETracker.frame_id self - e) = false
        /\ status w' r = status w r).
Proof.
  induction lost as [|track lost IH]; intros removed_ w removed_' w' Hnd H r s e Hr Hst;
    simpl in H; [destruct Hr|].
  inversion Hnd as [|? ? Hnin Hnd']; subst.
  apply bindM_Ok in H as (x & w1 & H1 & H).
  apply expired_Ok in H1 as [-> (o & e0 & Ho & He & Hx)].
  assert (Hrest : forall w1 rem1,
            BYTETracker.expire_loop self lost rem1 w1 = Ok (removed_', w') ->
            (forall q : ref, q <> track -> heap w1 !! q = heap w !! q) ->
            In r lost ->
            (Z.ltb (BYTETracker.max_time_lost self) (BYTETracker.frame_id self - e) = true
             /\ in_state TrackState.Removed w' r)
            \/ (Z.ltb (BYTETracker.max_time_lost self) (BYTETracker.frame_id self - e) = false
                /\ status w' r = status w r)).
  { intros w1 rem1 H1 Hf Hin.
    assert (Hne : r <> track) by (intros ->; contradiction).
    pose proof (status_same w w1 r (Hf r Hne)) as E1.
    destruct (IH _ _ _ _ Hnd' H1 r s e Hin (eq_trans E1 Hst)) as [[Hl Hs] | [Hl Hs]].
    - left. auto.
    - right. split; [exact Hl | exact (eq_trans Hs E1)]. }
  destruct Hr as [<- | Hr].
  - assert (e0 = e).
    { unfold status in Hst. unfold ref in *. rewrite Ho in Hst. cbn in Hst. congruence. }
    subst e0. destruct x.
    + apply bindM_Ok in H as (u0 & w2 & H2 & H).
      apply set_state_marks in H2 as [M2 _].
      left. split; [auto|].
      apply (in_state_same_status _ w2); [|exact M2].
      apply status_same. exact (proj2 (expire_loop_frame _ _ _ _ _ _ H) track Hnin).
    + right. split; [auto|].
      apply status_same. exact (proj2 (expire_loop_frame _ _ _ _ _ _ H) track Hnin).
  - destruct x.
    + apply bindM_Ok in H as (u0 & w2 & H2 & H).
      exact (Hrest _ _ H (set_state_frame _ _ _ _ _ H2) Hr).
    + exact (Hrest _ _ H (fun _ _ => eq_refl) Hr).
Qed.

Section SeenTracks.
Variable linear_sum_assignment : ndarray2 -> res (list nat * list nat).
Variable cho_factor : mat -> res mat.
Variable cho_solve : mat -> mat -> mat.

Local Notation "'same_world'" := (fun a b : world => b = a).
Local Notation "'tracked_now'" := (in_state TrackState.Tracked).

(** What one call of [update] does to the lists, on a tracker whose
    references point into the store, whose tracked and lost lists hold no
    track twice and no two tracks of the same identity, and whose buffer is
    not negative. *)
Lemma update_analysis
        (t : BYTETracker.t) output_results img_info img_size w out t' w' :
  BYTETracker.update linear_sum_assignment cho_factor cho_solve t output_results
                     img_info img_size w = Ok ((out, t'), w') ->
  lists_valid t w ->
  List.NoDup (BYTETracker.tracked_stracks t ++ BYTETracker.lost_stracks t) ->
  (forall r1 r2 i,
      In r1 (BYTETracker.tracked_stracks t ++ BYTETracker.lost_stracks t) ->
      In r2 (BYTETracker.tracked_stracks t ++ BYTETracker.lost_stracks t) ->
      has_id w r1 i -> has_id w r2 i -> r1 = r2) ->
  (0 <= BYTETracker.max_time_lost t)%Z ->
  (forall r, In r (BYTETracker.tracked_stracks t') ->
             seen (BYTETracker.frame_id t + 1) w' r)
  /\ ((forall r, In r (BYTETracker.lost_stracks t) -> ~ in_state TrackState.Tracked w r) ->
      lists_apart t' w')
  /\ (forall r o,
        In r (BYTETracker.tracked_stracks t) ->
        heap w !! r = Some o -> state o = Some TrackState.Tracked ->
        seen (BYTETracker.frame_id t + 1) w' r
        \/ (is_activated o = true /\ in_state TrackState.Lost w' r)
        \/ (is_activated o = false /\ in_state TrackState.Removed w' r))
  /\ (forall r s e,
        In r (BYTETracker.lost_stracks t) ->
        status w r = Some (s, Some e) -> s <> Some TrackState.Tracked ->
        seen (BYTETracker.frame_id t + 1) w' r
        \/ (Z.ltb (BYTETracker.max_time_lost t) (BYTETracker.frame_id t + 1 - e) = true
            /\ in_state TrackState.Removed w' r)
        \/ (Z.ltb (BYTETracker.max_time_lost t) (BYTETracker.frame_id t + 1 - e) = false
            /\ status w' r = status w r)).
Proof.
  intros H Hvalid Hnd Hu Hm.
  destruct t as [tth mt f0 det bs mtl kf tr lo re].
  unfold lists_valid in Hvalid.
  cbn [BYTETracker.tracked_stracks BYTETracker.lost_stracks BYTETracker.removed_stracks
       BYTETracker.max_time_lost BYTETracker.frame_id] in Hvalid, Hnd, Hu, Hm |- *.
  unfold BYTETracker.update in H.
  cbn [BYTETracker.track_thresh BYTETracker.match_thresh BYTETracker.frame_id
       BYTETracker.det_thresh BYTETracker.buffer_size BYTETracker.max_time_lost
       BYTETracker.kalman_filter BYTETracker.tracked_stracks BYTETracker.lost_stracks
       BYTETracker.removed_stracks] in H.
  set (f := (f0 + 1)%Z) in *.
  set (self := BYTETracker.mk tth mt f det bs mtl kf tr lo re) in H.
  set (n0 := length (heap w)).
  assert (Hold : forall r, In r (tr ++ lo) -> (r < n0)%nat).
  { intros r Hr. apply Hvalid. rewrite !in_app_iff in *. tauto. }
  apply bindM_Ok in H as ([[kind scores] bboxes] & w0 & H0 & H).
  apply lift_Ok in H0 as [_ ->].
  apply bindM_Ok in H as (bboxes' & w0 & H0 & H). apply lift_Ok in H0 as [_ ->].
  destruct kind; [|discriminate].
  apply bindM_Ok in H as (dets & w1 & H1 & H).
  apply bindM_Ok in H as (dets2 & w2 & H2 & H).
  pose proof (get_detections_fresh _ _ _ _ _ H1) as Fr1. fold n0 in Fr1.
  rewrite get_detections_eq in H1. injection H1 as _ E1.
  rewrite get_detections_eq in H2. injection H2 as _ E2. subst w1. cbn [heap _count] in E2.
  assert (Hw2 : forall r : ref, (r < n0)%nat -> heap w2 !! r = heap w !! r).
  { intros r Hr. subst w2. cbn [heap]. unfold ref in *.
    rewrite !lookup_app_l; [reflexivity | exact Hr | rewrite length_app; fold n0; lia]. }
  clear E2.
  (* the split of the tracked list, and the pool *)
  apply bindM_Ok in H as ([unc trk] & w3 & H3 & H).
  pose proof (_update_tracked_stracks_split _ _ _ _ _ H3) as Isplit.
  pose proof (_update_tracked_stracks_flags _ _ _ _ _ H3) as (Func & Ftrk & Sunc).
  apply _update_tracked_stracks_Ok in H3 as (-> & Iunc & Itrk & _).
  cbn [BYTETracker.tracked_stracks self] in Isplit, Iunc, Itrk, Sunc.
  assert (Ntr : List.NoDup tr) by exact (List.NoDup_app_remove_r _ _ Hnd).
  assert (Nunc : List.NoDup unc).
  { apply NoDup_ListNoDup. apply (sublist_NoDup _ _ (proj2 (NoDup_ListNoDup _) Ntr) Sunc). }
  assert (Dtl : forall r, In r tr -> In r lo -> False).
  { intros r Hr1 Hr2. apply NoDup_ListNoDup, NoDup_app in Hnd as (_ & Hd & _).
    apply (Hd r); apply list_elem_of_In; assumption. }
  apply bindM_Ok in H as (pool & w3 & H3 & H).
  pose proof (joint_stracks_incl _ _ _ _ _ H3) as Ipool.
  assert (Kpool : forall r, In r (trk ++ lo) -> In r pool).
  { apply (joint_stracks_keeps _ _ _ _ _ H3). intros r1 r2 i Hr1 Hr2 Hi1 Hi2.
    assert (Hs : forall q, In q (trk ++ lo) -> In q (tr ++ lo)).
    { intros q Hq. apply in_app_iff in Hq as [Hq | Hq]; apply in_app_iff; auto. }
    apply (Hu r1 r2 i); [apply Hs, Hr1 | apply Hs, Hr2 | |].
    - destruct Hi1 as (o & Ho & Hi). exists o. split; [|exact Hi].
      rewrite <- (Hw2 r1 (Hold r1 (Hs r1 Hr1))). exact Ho.
    - destruct Hi2 as (o & Ho & Hi). exists o. split; [|exact Hi].
      rewrite <- (Hw2 r2 (Hold r2 (Hs r2 Hr2))). exact Ho. }
  apply joint_stracks_NoDup in H3 as (-> & Npool & _).
  assert (Vpool : forall r, In r pool -> (r < n0)%nat).
  { intros r Hr. apply Hold. apply Ipool in Hr.
    apply in_app_iff in Hr as [Hr | Hr]; apply in_app_iff; auto. }
  assert (Dpu : forall r, In r pool -> In r unc -> False).
  { intros r Hp Hc. apply Ipool in Hp. apply in_app_iff in Hp as [Hp | Hp].
    - destruct (Func r Hc) as (o & Ho & Hf). destruct (Ftrk r Hp) as (o' & Ho' & Hf').
      unfold ref in *. congruence.
    - exact (Dtl r (Iunc r Hc) Hp). }
  apply bindM_Ok in H as (u4 & w4 & H4 & H).
  pose proof (multi_predict_no_new_tracked _ _ _ _ H4) as N4.
  pose proof (multi_predict_status _ _ _ _ H4) as St4. clear H4.
  (* the first association *)
  apply bindM_Ok in H as ([[m1 u1] ud1] & w5 & H5 & H).
  apply _match_tracks_to_detections_rows in H5 as (-> & C1 & X1 & Nu1).
  apply bindM_Ok in H as ([refind1 act1] & w5 & H5 & H).
  pose proof (_update_tracks_members _ _ _ _ _ _ _ _ _ _ _ _ H5) as [_ Mb1].
  apply _update_tracks_touch in H5 as (Ka1 & Kb1 & Kc1 & Kd1).
  change (BYTETracker.frame_id self) with f in Ka1, Kc1.
  apply bindM_Ok in H as (pu & w6 & H6 & H).
  apply mapM_lindex_Forall2 in H6 as [-> Fpu].
  apply bindM_Ok in H as (rt & w6 & H6 & H).
  pose proof (filterM_sublist _ _ _ _ _ H6) as Srt.
  apply filterM_tracked in H6 as [-> Irt].
  assert (Ipu : forall r, In r pu -> at_rows pool u1 r)
    by (intros r Hr; apply (Forall2_lookups_In pool u1 pu r Fpu); exact Hr).
  assert (Irt_pool : forall r, In r rt -> In r pool).
  { intros r Hr. apply Irt in Hr as [Hr _]. exact (at_rows_In _ _ _ (Ipu r Hr)). }
  assert (Npu : List.NoDup pu) by exact (Forall2_lookups_NoDup pool u1 pu Fpu Npool Nu1).
  assert (Nrt : List.NoDup rt).
  { apply NoDup_ListNoDup. apply (sublist_NoDup _ _ (proj2 (NoDup_ListNoDup _) Npu) Srt). }
  (* the second association *)
  apply bindM_Ok in H as ([[m2 u2] ud2] & w6 & H6 & H).
  apply _match_tracks_to_detections_rows in H6 as (-> & C2 & X2 & Nu2).
  apply bindM_Ok in H as ([refind2 act2] & w6 & H6 & H).
  pose proof (_update_tracks_members _ _ _ _ _ _ _ _ _ _ _ _ H6) as [Ma2 Mb2].
  apply _update_tracks_touch in H6 as (Ka2 & Kb2 & Kc2 & Kd2).
  change (BYTETracker.frame_id self) with f in Ka2, Kc2.
  apply bindM_Ok in H as (lost_ & w7 & H7 & H).
  pose proof (mark_lost_loop_frame _ _ _ _ _ _ H7) as F7.
  pose proof (mark_lost_loop_marks _ _ _ _ _ _ H7) as [_ L7].
  destruct (mark_lost_loop_list _ _ _ _ _ _ H7) as (xs & ys & Exs & Fys & Sxs).
  cbn [app] in Exs. subst lost_.
  apply mark_lost_loop_untracks in H7 as [N7 U7].
  (* the unconfirmed tracks *)
  apply bindM_Ok in H as (dets' & w8 & H8 & H).
  pose proof (mapM_lindex_incl _ _ _ _ _ H8) as Idets.
  apply mapM_lindex_Forall2 in H8 as [-> _].
  apply bindM_Ok in H as ([[m3 u3] ud3] & w8 & H8 & H).
  apply _match_tracks_to_detections_rows in H8 as (-> & C3 & X3 & _).
  apply bindM_Ok in H as (act3 & w8 & H8 & H).
  pose proof (update_unconfirmed_loop_members _ _ _ _ _ _ _ _ _ _ H8) as M3.
  apply update_unconfirmed_loop_touch in H8 as (Ka3 & Kb3 & Kc3 & Kd3).
  change (BYTETracker.frame_id self) with f in Ka3, Kc3.
  apply bindM_Ok in H as (rem_ & w9 & H9 & H).
  pose proof (mark_removed_loop_frame _ _ _ _ _ _ H9) as F9.
  pose proof (mark_removed_loop_marks _ _ _ _ _ _ H9) as [_ R9].
  apply mark_removed_loop_untracks in H9 as [N9 U9].
  (* the new tracks, and the expiry *)
  apply bindM_Ok in H as (act4 & w10 & H10 & H).
  pose proof (new_tracks_loop_members _ _ _ _ _ _ _ H10) as M5.
  apply new_tracks_loop_touch in H10 as (Ka5 & Kb5 & Kd5).
  change (BYTETracker.frame_id self) with f in Ka5, Kd5.
  apply bindM_Ok in H as (rem2 & w11 & H11 & H).
  pose proof (expire_loop_no_new_tracked _ _ _ _ _ _ H11) as N11.
  pose proof (proj2 (expire_loop_frame _ _ _ _ _ _ H11)) as F11.
  pose proof (expire_loop_rule self lo _ _ _ _ (List.NoDup_app_remove_l _ _ Hnd) H11) as X11r.
  change (BYTETracker.max_time_lost self) with mtl in X11r.
  change (BYTETracker.frame_id self) with f in X11r.
  pose proof (expire_loop_keeps_seen self lo _ _ _ _ Hm H11) as S11.
  change (BYTETracker.frame_id self) with f in S11.
  (* the rest reads *)
  apply bindM_Ok in H as (again & w12 & H12 & H).
  assert (E12 : w12 = w11).
  { refine (respects_filterM same_world (fun _ => eq_refl) (fun _ _ _ E1 E2 => eq_trans E2 E1)
              _ _ _ _ _ _ H12).
    intros a. apply (respects_expired same_world (fun _ => eq_refl)
                       (fun _ _ _ E1 E2 => eq_trans E2 E1)). }
  subst w12. clear H12.
  apply bindM_Ok in H as (tk & w12 & H12 & H). apply filterM_tracked in H12 as [-> Itk].
  apply bindM_Ok in H as (tracked2 & w12 & H12 & H).
  pose proof (joint_stracks_incl _ _ _ _ _ H12) as I17.
  pose proof (joint_stracks_covers _ _ _ _ _ H12) as J17.
  apply joint_stracks_NoDup in H12 as (-> & _).
  apply bindM_Ok in H as (tracked3 & w12 & H12 & H).
  pose proof (joint_stracks_incl _ _ _ _ _ H12) as I18.
  pose proof (joint_stracks_covers _ _ _ _ _ H12) as J18.
  apply joint_stracks_NoDup in H12 as (-> & N18 & _).
  apply bindM_Ok in H as (lost1 & w12 & H12 & H).
  assert (E22 : w12 = w11)
    by exact (respects_sub_stracks same_world (fun _ => eq_refl)
                (fun _ _ _ E1 E2 => eq_trans E2 E1) _ _ _ _ _ H12).
  subst w12. apply sub_stracks_excl in H12 as [S22 X22].
  apply bindM_Ok in H as (lost2 & w12 & H12 & H).
  assert (E23 : w12 = w11)
    by exact (respects_sub_stracks same_world (fun _ => eq_refl)
                (fun _ _ _ E1 E2 => eq_trans E2 E1) _ _ _ _ _ H12).
  subst w12. apply sub_stracks_excl in H12 as [S23 _].
  apply bindM_Ok in H as (ta & w12 & H12 & H). apply mapM_read_pair_Ok in H12 as [-> Ita].
  apply bindM_Ok in H as (tb & w12 & H12 & H). apply mapM_read_pair_Ok in H12 as [-> Itb].
  apply bindM_Ok in H as ([ta' tb'] & w12 & H12 & H). apply lift_Ok in H12 as [Hdup ->].
  apply bindM_Ok in H as (out' & w12 & H12 & H).
  assert (E24 : w12 = w11).
  { refine (respects_filterM same_world (fun _ => eq_refl) (fun _ _ _ E1 E2 => eq_trans E2 E1)
              _ _ _ _ _ _ H12).
    intros a wa b wb Hb. apply is_activated_of_Ok in Hb as [Hb _]. exact Hb. }
  subst w12. clear H12.
  unfold ret in H. injection H as _ Et Ew. subst t' w'.
  unfold remove_duplicate_stracks in Hdup.
  apply bindR_Ok in Hdup as ([da db] & _ & Hdup). inversion Hdup; subst ta' tb'. clear Hdup.
  cbn [BYTETracker.tracked_stracks BYTETracker.lost_stracks BYTETracker.max_time_lost
       BYTETracker.frame_id].
  unfold lists_apart. cbn [BYTETracker.tracked_stracks BYTETracker.lost_stracks].
  fold f.
  (* a seen track of the pool stays seen; an idle one stays idle *)
  assert (tailA : forall r, In r pool -> seen f w7 r -> seen f w11 r).
  { intros r Hp Hr. apply S11, Ka5. apply (seen_same f w8); [|apply Ka3, Hr].
    apply F9. intros Hx. exact (Dpu r Hp (at_rows_In _ _ _ Hx)). }
  assert (Hnd' : forall r, (r < n0)%nat -> ~ In r dets').
  { intros r Hr Hx. apply Idets, Fr1 in Hx. lia. }
  assert (tailB : forall r, In r pool -> ~ tracked_now w7 r -> ~ tracked_now w11 r).
  { intros r Hp Hr Hx. apply Hr. apply N11 in Hx.
    apply (in_state_same _ w9 w10 r (Kb5 r (Hnd' r (Vpool r Hp)))) in Hx.
    apply N9 in Hx. apply (in_state_same _ w7 w8 r); [|exact Hx].
    apply Kb3. intros Hy. exact (Dpu r Hp (at_rows_In _ _ _ Hy)). }
  assert (Hpu_u1 : forall r, In r rt -> at_rows pool u1 r).
  { intros r Hr. apply Irt in Hr as [Hr _]. exact (Ipu r Hr). }
  assert (A1 : forall r, at_rows pool (map fst m1) r -> seen f w11 r).
  { intros r Hr. apply (tailA r (at_rows_In _ _ _ Hr)).
    apply (seen_same f w6); [|apply Ka2, Kc1, Hr].
    apply F7. intros Hx. apply at_rows_In in Hx.
    exact (at_rows_excl pool (map fst m1) u1 r Npool X1 Hr (Hpu_u1 r Hx)). }
  assert (A2 : forall r, at_rows rt (map fst m2) r -> seen f w11 r).
  { intros r Hr. apply (tailA r (Irt_pool r (at_rows_In _ _ _ Hr))).
    apply (seen_same f w6); [|apply Kc2, Hr].
    apply F7. exact (at_rows_excl rt (map fst m2) u2 r Nrt X2 Hr). }
  assert (A3 : forall r, at_rows unc (map fst m3) r -> seen f w11 r).
  { intros r Hr. apply S11, Ka5. apply (seen_same f w8); [|apply Kc3, Hr].
    apply F9. exact (at_rows_excl unc (map fst m3) u3 r Nunc X3 Hr). }
  assert (A12 : forall r, In r (refind2 ++ act2) -> seen f w11 r).
  { intros r Hr. destruct (Kd2 r Hr) as [Hr1 | Hr2]; [|exact (A2 r Hr2)].
    destruct (Kd1 r Hr1) as [[] | Hr1']. exact (A1 r Hr1'). }
  assert (A5 : forall r, In r act4 -> seen f w11 r).
  { intros r Hr. destruct (Kd5 r Hr) as [Hr3 | Hs]; [|exact (S11 r Hs)].
    destruct (Kd3 r Hr3) as [Hr2 | Hr3']; [|exact (A3 r Hr3')].
    apply A12, in_app_iff. right. exact Hr2. }
  assert (B : forall r, In r tr -> tracked_now w11 r -> seen f w11 r).
  { intros r Hr Hx. destruct (Isplit r Hr) as [Hc | Hc].
    - destruct (In_at_index unc r Hc) as (k & Hk & Hkr).
      destruct (C3 k Hk) as [Hm3 | Hu3]; [apply A3; exists k; auto|].
      exfalso. apply (U9 k r Hu3 Hkr). apply N11 in Hx.
      apply (in_state_same _ w9 w10 r); [|exact Hx].
      apply Kb5, Hnd', Hold, in_app_iff. left. exact Hr.
    - assert (Hp : In r pool) by (apply Kpool, in_app_iff; left; exact Hc).
      destruct (In_at_index pool r Hp) as (k & Hk & Hkr).
      destruct (C1 k Hk) as [Hm1 | Hu1]; [apply A1; exists k; auto|].
      assert (Hpu : In r pu)
        by (apply (Forall2_lookups_In pool u1 pu r Fpu); exists k; auto).
      destruct (in_state_dec TrackState.Tracked w5 r) as [Ht | Ht].
      + assert (Hrt : In r rt) by (apply Irt; auto).
        destruct (In_at_index rt r Hrt) as (k2 & Hk2 & Hkr2).
        destruct (C2 k2 Hk2) as [Hm2 | Hu2]; [apply A2; exists k2; auto|].
        exfalso. exact (tailB r Hp (U7 k2 r Hu2 Hkr2) Hx).
      + exfalso. apply (tailB r Hp); [|exact Hx].
        intros Hy. apply Ht. apply N7 in Hy.
        apply (in_state_same _ w5 w6 r); [|exact Hy].
        apply Kb2. intros Hz. apply at_rows_In, Irt in Hz as [_ Hz]. exact (Ht Hz). }
  assert (Seen' : forall r, In r (map fst (drop_indices da ta)) -> seen f w11 r).
  { intros r Hr.
    apply in_map_iff in Hr as [p [<- Hp]]. apply drop_indices_incl in Hp.
    assert (Hr : In (fst p) tracked3) by (rewrite <- Ita; apply in_map; exact Hp).
    apply I18, in_app_iff in Hr as [Hr | Hr]; [|apply A12, in_app_iff; left; exact Hr].
    apply I17, in_app_iff in Hr as [Hr | Hr]; [|exact (A5 _ Hr)].
    apply Itk in Hr as [Hr Hx]. exact (B _ Hr Hx). }
  split; [exact Seen'|]. split.
  { intros HL.
    (* the lost list *)
    assert (Iys : forall r, In r ys <-> at_rows rt u2 r)
      by (intros r; apply (Forall2_lookups_In rt u2 ys r Fys)).
    assert (Nys : List.NoDup ys) by exact (Forall2_lookups_NoDup rt u2 ys Fys Nrt Nu2).
    assert (Drt : forall r, In r lo -> In r rt -> False).
    { intros r Hl Hr. apply (HL r Hl). apply Irt in Hr as [Hr Ht].
      apply (in_state_same _ w w2 r (Hw2 r (Hold r ltac:(apply in_app_iff; auto)))).
      apply N4. apply (in_state_same _ w4 w5 r); [|exact Ht].
      apply Kb1. intros Hx. exact (at_rows_excl pool (map fst m1) u1 r Npool X1 Hx (Ipu r Hr)). }
    assert (Covered : forall r, In r (refind2 ++ act2) ->
                        exists i r', has_id w11 r i /\ In r' tracked3 /\ has_id w11 r' i).
    { intros r Hr. apply in_app_iff in Hr as [Hr | Hr].
      - apply J18, in_app_iff. right. exact Hr.
      - destruct (J17 r) as (i & r1 & Hi & Hr1 & Hi1);
          [apply in_app_iff; right; apply M5, M3, Hr|].
        destruct (J18 r1) as (i' & r2 & Hi1' & Hr2 & Hi2); [apply in_app_iff; left; exact Hr1|].
        pose proof (has_id_functional _ _ _ _ Hi1 Hi1'). subst i'.
        exists i, r2. auto. }
    assert (Bpool : forall r, In r pool -> tracked_now w11 r -> In r (refind2 ++ act2)).
    { intros r Hp Hx.
      destruct (In_at_index pool r Hp) as (k & Hk & Hkr).
      destruct (C1 k Hk) as [Hm1 | Hu1].
      { apply Ma2, Mb1. exists k. auto. }
      assert (Hpu : In r pu)
        by (apply (Forall2_lookups_In pool u1 pu r Fpu); exists k; auto).
      destruct (in_state_dec TrackState.Tracked w5 r) as [Ht | Ht].
      - assert (Hrt : In r rt) by (apply Irt; auto).
        destruct (In_at_index rt r Hrt) as (k2 & Hk2 & Hkr2).
        destruct (C2 k2 Hk2) as [Hm2 | Hu2]; [apply Mb2; exists k2; auto|].
        exfalso. exact (tailB r Hp (U7 k2 r Hu2 Hkr2) Hx).
      - exfalso. apply (tailB r Hp); [|exact Hx].
        intros Hy. apply Ht. apply N7 in Hy.
        apply (in_state_same _ w5 w6 r); [|exact Hy].
        apply Kb2. intros Hz. apply at_rows_In, Irt in Hz as [_ Hz]. exact (Ht Hz). }
    assert (Idle12 : forall r, In r (lost1 ++ xs) -> ~ tracked_now w11 r).
    { intros r Hr Hx. apply in_app_iff in Hr as [Hr | Hr].
      - assert (Hl : In r lo) by exact (sublist_In _ _ _ S22 Hr).
        assert (Hp : In r pool) by (apply Kpool, in_app_iff; right; exact Hl).
        destruct (Covered r (Bpool r Hp Hx)) as (i & r' & Hi & Hr' & Hi').
        exact (X22 r r' i Hr Hr' Hi Hi').
      - assert (Hy : at_rows rt u2 r) by (apply Iys; exact (sublist_In _ _ _ Sxs Hr)).
        destruct Hy as (k2 & Hu2 & Hkr2).
        exact (tailB r (Irt_pool r (lookup_In _ _ _ Hkr2)) (U7 k2 r Hu2 Hkr2) Hx). }
    assert (N12 : NoDup (lost1 ++ xs)).
    { apply NoDup_app. split; [|split].
      - apply (sublist_NoDup _ _ (proj2 (NoDup_ListNoDup _) (List.NoDup_app_remove_l _ _ Hnd)) S22).
      - intros r Hr1 Hr2. apply list_elem_of_In in Hr1, Hr2.
        apply (Drt r (sublist_In _ _ _ S22 Hr1)).
        apply (sublist_In _ _ _ Sxs) in Hr2. apply Iys, at_rows_In in Hr2. exact Hr2.
      - apply (sublist_NoDup _ _ (proj2 (NoDup_ListNoDup _) Nys) Sxs). }
    assert (Slost : sublist (map fst (drop_indices db tb)) (lost1 ++ xs)).
    { etransitivity; [apply sublist_map, drop_indices_sublist|]. rewrite Itb. exact S23. }
    split.
    - apply NoDup_ListNoDup, NoDup_app. split; [|split].
      + apply (sublist_NoDup _ tracked3); [apply NoDup_ListNoDup; exact N18|].
        rewrite <- Ita. apply sublist_map, drop_indices_sublist.
      + intros r Hr1 Hr2. apply list_elem_of_In in Hr1, Hr2.
        apply (Idle12 r (sublist_In _ _ _ Slost Hr2)). exact (seen_tracked _ _ _ (Seen' r Hr1)).
      + exact (sublist_NoDup _ _ N12 Slost).
    - intros r Hr. exact (Idle12 r (sublist_In _ _ _ Slost Hr)). }
  assert (Hnu : forall r, In r pool -> ~ at_rows unc u3 r /\ ~ at_rows unc (map fst m3) r).
  { intros r Hp. split; intros Hx; exact (Dpu r Hp (at_rows_In _ _ _ Hx)). }
  split.
  - (* the tracks that were tracked *)
    intros r o Hr Ho Hs.
    assert (Ht : tracked_now w r) by (exists o; auto).
    assert (Hlt : (r < n0)%nat) by (apply Hold, in_app_iff; auto).
    assert (Hnl : ~ In r lo) by (intros Hx; exact (Dtl r Hr Hx)).
    destruct (Isplit r Hr) as [Hc | Hc].
    + destruct (Func r Hc) as (o2 & Ho2 & Hf2).
      assert (o2 = o) by (pose proof (Hw2 r Hlt); unfold ref in *; congruence). subst o2.
      destruct (In_at_index unc r Hc) as (k & Hk & Hkr).
      destruct (C3 k Hk) as [Hm3 | Hu3]; [left; apply A3; exists k; auto|].
      right. right. split; [exact Hf2|].
      apply (in_state_same_status _ w10); [apply status_same, F11; exact Hnl|].
      apply (in_state_same_status _ w9); [apply status_same, Kb5, Hnd', Hlt|].
      exact (R9 k r Hu3 Hkr).
    + destruct (Ftrk r Hc) as (o2 & Ho2 & Hf2).
      assert (o2 = o) by (pose proof (Hw2 r Hlt); unfold ref in *; congruence). subst o2.
      assert (Hp : In r pool) by (apply Kpool, in_app_iff; left; exact Hc).
      destruct (In_at_index pool r Hp) as (k & Hk & Hkr).
      destruct (C1 k Hk) as [Hm1 | Hu1]; [left; apply A1; exists k; auto|].
      assert (Hpu : In r pu)
        by (apply (Forall2_lookups_In pool u1 pu r Fpu); exists k; auto).
      assert (Hn1 : ~ at_rows pool (map fst m1) r).
      { intros Hx. exact (at_rows_excl pool (map fst m1) u1 r Npool X1 Hx (Ipu r Hpu)). }
      assert (Ht5 : tracked_now w5 r).
      { apply (in_state_same_status _ w4); [apply status_same, Kb1, Hn1|].
        apply (in_state_same_status _ w2); [apply St4|].
        apply (in_state_same_status _ w); [apply status_same, Hw2, Hlt | exact Ht]. }
      assert (Hrt : In r rt) by (apply Irt; auto).
      destruct (In_at_index rt r Hrt) as (k2 & Hk2 & Hkr2).
      destruct (C2 k2 Hk2) as [Hm2 | Hu2]; [left; apply A2; exists k2; auto|].
      right. left. split; [exact Hf2|].
      apply (in_state_same_status _ w10); [apply status_same, F11; exact Hnl|].
      apply (in_state_same_status _ w9); [apply status_same, Kb5, Hnd', Hlt|].
      apply (in_state_same_status _ w8); [apply status_same, F9, (Hnu r Hp)|].
      apply (in_state_same_status _ w7); [apply status_same, Kb3, (Hnu r Hp)|].
      exact (L7 k2 r Hu2 Hkr2).
  - (* the tracks that were lost *)
    intros r s e Hr Hst Hs.
    assert (Hlt : (r < n0)%nat) by (apply Hold, in_app_iff; auto).
    assert (Hp : In r pool) by (apply Kpool, in_app_iff; right; exact Hr).
    destruct (In_at_index pool r Hp) as (k & Hk & Hkr).
    destruct (C1 k Hk) as [Hm1 | Hu1]; [left; apply A1; exists k; auto|].
    right.
    assert (Hpu : In r pu)
      by (apply (Forall2_lookups_In pool u1 pu r Fpu); exists k; auto).
    assert (Hn1 : ~ at_rows pool (map fst m1) r).
    { intros Hx. exact (at_rows_excl pool (map fst m1) u1 r Npool X1 Hx (Ipu r Hpu)). }
    assert (E5 : status w5 r = status w r).
    { rewrite (status_same w4 w5 r (Kb1 r Hn1)), (St4 r). apply status_same, Hw2, Hlt. }
    assert (Hnrt : ~ In r rt).
    { intros Hx. apply Irt in Hx as [_ Hx]. apply in_state_status in Hx as (fo & Hx).
      rewrite E5, Hst in Hx. inversion Hx; subst. apply Hs. reflexivity. }
    assert (E10 : status w10 r = status w r).
    { rewrite (status_same w9 w10 r (Kb5 r (Hnd' r Hlt))).
      rewrite (status_same w8 w9 r (F9 r (proj1 (Hnu r Hp)))).
      rewrite (status_same w7 w8 r (Kb3 r (proj2 (Hnu r Hp)))).
      rewrite (status_same w6 w7 r (F7 r (fun Hx => Hnrt (at_rows_In _ _ _ Hx)))).
      rewrite (status_same w5 w6 r (Kb2 r (fun Hx => Hnrt (at_rows_In _ _ _ Hx)))).
      exact E5. }
    destruct (X11r r s e Hr (eq_trans E10 Hst)) as [[Hl Hx] | [Hl Hx]].
    + left. split; [exact Hl | exact Hx].
    + right. split; [exact Hl | exact (eq_trans Hx E10)].
Qed.

(** On a tracker whose references point into the store, whose tracked and
    lost lists hold no track twice and no two tracks of the same identity,
    and whose buffer is not negative: after [update] every track of the
    tracked list was seen in the new frame, that is, it is in state
    [Tracked] and its last frame is the new frame. *)
Theorem tracked_tracks_were_seen_in_the_frame
        (t : BYTETracker.t) output_results img_info img_size w out t' w' :
  BYTETracker.update linear_sum_assignment cho_factor cho_solve t output_results
                     img_info img_size w = Ok ((out, t'), w') ->
  lists_valid t w ->
  List.NoDup (BYTETracker.tracked_stracks t ++ BYTETracker.lost_stracks t) ->
  (forall r1 r2 i,
      In r1 (BYTETracker.tracked_stracks t ++ BYTETracker.lost_stracks t) ->
      In r2 (BYTETracker.tracked_stracks t ++ BYTETracker.lost_stracks t) ->
      has_id w r1 i -> has_id w r2 i -> r1 = r2) ->
  (0 <= BYTETracker.max_time_lost t)%Z ->
  forall r, In r (BYTETracker.tracked_stracks t') ->
            seen (BYTETracker.frame_id t + 1) w' r.
Proof.
  intros H Hvalid Hnd Hu Hm.
  exact (proj1 (update_analysis t output_results img_info img_size w out t' w'
                  H Hvalid Hnd Hu Hm)).
Qed.

End SeenTracks.


Lemma tracked_tracks_were_seen_in_the_frame_witness :
  exists out t w out' t' w',
    reference_session 0.25 30 0.8 30 [one_box 0.9] (mkWorld [] 0) = Ok ((out, t), w)
    /\ BYTETracker.update Reference.linear_sum_assignment Reference.cho_factor
                          Reference.cho_solve t
                          (NumpyArray Float64 (mkArr 1 5 [[100; 100; 200; 300; 0.9]]%float))
                          (720, 1280)%float (720, 1280)%float w
       = Ok ((out', t'), w')
    /\ BYTETracker.tracked_stracks t' = [0%nat]
    /\ seen 2 w' 0%nat.
Proof.
  eexists _, _, _, _, _, _.
  split; [vm_compute; reflexivity|].
  match goal with |- ?A /\ _ => assert (HA : A) by (vm_compute; reflexivity) end.
  split; [exact HA|]. split; [reflexivity|].
  apply (tracked_tracks_were_seen_in_the_frame _ _ _ _ _ _ _ _ _ _ _ HA).
  - intros r Hr. vm_compute in Hr. destruct Hr as [<- | []]. vm_compute. repeat constructor.
  - cbn. constructor; [intros [] | constructor].
  - intros r1 r2 i H1 H2 _ _. vm_compute in H1, H2.
    destruct H1 as [<- | []]. destruct H2 as [<- | []]. reflexivity.
  - vm_compute. discriminate.
  - left. reflexivity.
Defined.

Section SessionLists.
Variable linear_sum_assignment : ndarray2 -> res (list nat * list nat).
Variable cho_factor : mat -> res mat.
Variable cho_solve : mat -> mat -> mat.

Lemma update_frame_and_buffer t output_results img_info img_size w out t' w' :
  BYTETracker.update linear_sum_assignment cho_factor cho_solve t output_results
                     img_info img_size w = Ok ((out, t'), w') ->
  BYTETracker.frame_id t' = (BYTETracker.frame_id t + 1)%Z
  /\ BYTETracker.max_time_lost t' = BYTETracker.max_time_lost t.
Proof.
  intros H. unfold BYTETracker.update in H. cbv zeta in H.
  do 29 skip_bind H.
  apply bindM_Ok in H as (out' & w1 & _ & H). inversion H; subst. split; reflexivity.
Qed.

Lemma run_buffer frames : forall t out w out' t' w',
  run linear_sum_assignment cho_factor cho_solve t out frames w = Ok ((out', t'), w') ->
  BYTETracker.max_time_lost t' = BYTETracker.max_time_lost t.
Proof.
  induction frames as [|[[d i] s] frames IH]; intros t out w out' t' w' H; simpl in H.
  - inversion H; subst. reflexivity.
  - apply bindM_Ok in H as ([o1 t1] & w1 & H1 & H).
    rewrite (IH _ _ _ _ _ _ H). exact (proj2 (update_frame_and_buffer _ _ _ _ _ _ _ _ H1)).
Qed.

Lemma run_lists_apart frames : forall t out w out' t' w',
  reached_by_returning_calls linear_sum_assignment cho_factor cho_solve t w ->
  ids_ok w ->
  (0 <= BYTETracker.max_time_lost t)%Z ->
  lists_apart t w ->
  (forall r, In r (BYTETracker.tracked_stracks t) -> seen (BYTETracker.frame_id t) w r) ->
  run linear_sum_assignment cho_factor cho_solve t out frames w = Ok ((out', t'), w') ->
  BYTETracker.max_time_lost t' = BYTETracker.max_time_lost t
  /\ lists_apart t' w'
  /\ (forall r, In r (BYTETracker.tracked_stracks t') -> seen (BYTETracker.frame_id t') w' r).
Proof.
  induction frames as [|[[d i] s] frames IH]; intros t out w out' t' w' R Hids Hm Ha Hs H;
    simpl in H.
  - inversion H; subst. auto.
  - apply bindM_Ok in H as ([o1 t1] & w1 & H1 & H).
    destruct (update_frame_and_buffer _ _ _ _ _ _ _ _ H1) as [Ef Em].
    assert (Hids1 : ids_ok w1).
    { revert Hids.
      refine (update_respects keeps_ids same_id 0 _ _ _ _ _ _ _ _
                linear_sum_assignment cho_factor cho_solve
                t d i s w (o1, t1) w1 _ H1).
      - intros w0 H0. exact H0.
      - intros wa wb wc Ha' Hb' H0. exact (Hb' (Ha' H0)).
      - reflexivity.
      - reflexivity.
      - reflexivity.
      - intros. eapply keeps_ids_write; eassumption.
      - intros. apply keeps_ids_alloc.
      - intros. apply keeps_ids_activate. assumption.
      - lia. }
    destruct Ha as [Hnd HL].
    destruct (update_analysis linear_sum_assignment cho_factor cho_solve
                t d i s w o1 t1 w1 H1) as (S1 & A1 & _).
    + exact (proj1 (reachable_inv _ _ _ _ _ R)).
    + exact Hnd.
    + intros r1 r2 k _ _ Hk1 Hk2. exact (proj2 (proj2 Hids) r1 r2 k Hk1 Hk2).
    + exact Hm.
    + destruct (IH t1 o1 w1 out' t' w') as (Em' & Ha' & Hs').
      * eapply reachable_update; eassumption.
      * exact Hids1.
      * rewrite Em. exact Hm.
      * exact (A1 HL).
      * rewrite Ef. exact S1.
      * exact H.
      * split; [rewrite Em'; exact Em | auto].
Qed.

(** Over a whole session with a buffer that is not negative, started on a
    store in which no object has a track id yet: the tracked and the lost
    list never hold a track twice, between them; a lost track is never in
    state [Tracked]; and every tracked track was seen in the last frame:
    it is in state [Tracked] and its last frame is the tracker's. *)
Theorem session_tracked_and_lost_stay_apart
        track_thresh track_buffer match_thresh frame_rate frames w0 out t w :
  (forall r o, heap w0 !! r = Some o -> track_id o = None) ->
  session linear_sum_assignment cho_factor cho_solve track_thresh track_buffer
          match_thresh frame_rate frames w0 = Ok ((out, t), w) ->
  (0 <= BYTETracker.max_time_lost t)%Z ->
  List.NoDup (BYTETracker.tracked_stracks t ++ BYTETracker.lost_stracks t)
  /\ (forall r, In r (BYTETracker.lost_stracks t) -> ~ in_state TrackState.Tracked w r)
  /\ (forall r, In r (BYTETracker.tracked_stracks t) -> seen (BYTETracker.frame_id t) w r).
Proof.
  intros Hn H Hm. unfold session in H.
  apply bindM_Ok in H as (t0 & w1 & H1 & H).
  assert (R0 : reached_by_returning_calls linear_sum_assignment cho_factor cho_solve t0 w1)
    by (eapply reachable_init; exact H1).
  unfold BYTETracker.__init__ in H1.
  apply bindM_Ok in H1 as (b & w2 & H2 & H1). apply lift_Ok in H2 as [_ ->].
  inversion H1; subst t0 w1. clear H1.
  pose proof (run_buffer _ _ _ _ _ _ _ H) as Eb. cbn [BYTETracker.max_time_lost] in Eb.
  rewrite Eb in Hm.
  destruct (run_lists_apart frames _ _ _ _ _ _ R0 (ids_ok_no_ids _ Hn) Hm
              (conj (List.NoDup_nil _) (fun r (Hr : In r []) => match Hr with end))
              (fun r (Hr : In r []) => match Hr with end) H)
    as (_ & [Hnd HL] & Hs).
  auto.
Qed.

End SessionLists.

Lemma session_tracked_and_lost_stay_apart_witness :
  exists out t w,
    reference_session 0.25 30 0.8 30 [one_box 0.9; one_box 0.9; no_box; one_box 0.9]
                      (mkWorld [] 0) = Ok ((out, t), w)
    /\ (0 <= BYTETracker.max_time_lost t)%Z
    /\ BYTETracker.tracked_stracks t = [0%nat]
    /\ List.NoDup (BYTETracker.tracked_stracks t ++ BYTETracker.lost_stracks t)
    /\ (forall r, In r (BYTETracker.lost_stracks t) -> ~ in_state TrackState.Tracked w r)
    /\ (forall r, In r (BYTETracker.tracked_stracks t) ->
                  seen (BYTETracker.frame_id t) w r).
Proof.
  eexists _, _, _.
  match goal with |- ?A /\ _ => assert (HA : A) by (vm_compute; reflexivity) end.
  split; [exact HA|].
  match goal with |- ?A /\ _ => assert (Hm : A) by (vm_compute; discriminate) end.
  split; [exact Hm|]. split; [reflexivity|].
  refine (session_tracked_and_lost_stay_apart _ _ _ _ _ _ _ _ _ _ _ _ _ HA Hm).
  intros r o Hr. destruct r; discriminate.
Defined.

(** ** byte_tracker: what becomes of a track in one frame *)

Section LifeCycle.
Variable linear_sum_assignment : ndarray2 -> res (list nat * list nat).
Variable cho_factor : mat -> res mat.
Variable cho_solve : mat -> mat -> mat.

(** On a tracker whose references point into the store, whose tracked and
    lost lists hold no track twice and no two tracks of the same identity,
    and whose buffer is not negative: a track of the tracked list that is
    in state [Tracked] is, after [update], seen in the new frame, or, if it
    was activated, in state [Lost], or, if it was not, in state
    [Removed]. *)
Theorem tracked_track_is_seen_lost_or_removed
        (t : BYTETracker.t) output_results img_info img_size w out t' w' :
  BYTETracker.update linear_sum_assignment cho_factor cho_solve t output_results
                     img_info img_size w = Ok ((out, t'), w') ->
  lists_valid t w ->
  List.NoDup (BYTETracker.tracked_stracks t ++ BYTETracker.lost_stracks t) ->
  (forall r1 r2 i,
      In r1 (BYTETracker.tracked_stracks t ++ BYTETracker.lost_stracks t) ->
      In r2 (BYTETracker.tracked_stracks t ++ BYTETracker.lost_stracks t) ->
      has_id w r1 i -> has_id w r2 i -> r1 = r2) ->
  (0 <= BYTETracker.max_time_lost t)%Z ->
  forall r o,
    In r (BYTETracker.tracked_stracks t) ->
    heap w !! r = Some o -> state o = Some TrackState.Tracked ->
    seen (BYTETracker.frame_id t + 1) w' r
    \/ (is_activated o = true /\ in_state TrackState.Lost w' r)
    \/ (is_activated o = false /\ in_state TrackState.Removed w' r).
Proof.
  intros H Hvalid Hnd Hu Hm.
  destruct (update_analysis linear_sum_assignment cho_factor cho_solve
              t output_results img_info img_size w out t' w' H Hvalid Hnd Hu Hm)
    as (_ & _ & Htracked & _).
  exact Htracked.
Qed.

(** On a tracker whose references point into the store, whose tracked and
    lost lists hold no track twice and no two tracks of the same identity,
    and whose buffer is not negative: a track of the lost list that is not
    in state [Tracked] and whose last frame is [e] is, after [update], seen
    in the new frame, or in state [Removed] when the new frame lies more
    than [max_time_lost] frames after [e], or else in the state and with
    the last frame it had. *)
Theorem lost_track_is_refound_expired_or_kept
        (t : BYTETracker.t) output_results img_info img_size w out t' w' :
  BYTETracker.update linear_sum_assignment cho_factor cho_solve t output_results
                     img_info img_size w = Ok ((out, t'), w') ->
  lists_valid t w ->
  List.NoDup (BYTETracker.tracked_stracks t ++ BYTETracker.lost_stracks t) ->
  (forall r1 r2 i,
      In r1 (BYTETracker.tracked_stracks t ++ BYTETracker.lost_stracks t) ->
      In r2 (BYTETracker.tracked_stracks t ++ BYTETracker.lost_stracks t) ->
      has_id w r1 i -> has_id w r2 i -> r1 = r2) ->
  (0 <= BYTETracker.max_time_lost t)%Z ->
  forall r s e,
    In r (BYTETracker.lost_stracks t) ->
    status w r = Some (s, Some e) -> s <> Some TrackState.Tracked ->
    seen (BYTETracker.frame_id t + 1) w' r
    \/ (Z.ltb (BYTETracker.max_time_lost t) (BYTETracker.frame_id t + 1 - e) = true
        /\ in_state TrackState.Removed w' r)
    \/ (Z.ltb (BYTETracker.max_time_lost t) (BYTETracker.frame_id t + 1 - e) = false
        /\ status w' r = status w r).
Proof.
  intros H Hvalid Hnd Hu Hm.
  destruct (update_analysis linear_sum_assignment cho_factor cho_solve
              t output_results img_info img_size w out t' w' H Hvalid Hnd Hu Hm)
    as (_ & _ & _ & Hlost).
  exact Hlost.
Qed.

End LifeCycle.

Lemma tracked_track_is_seen_lost_or_removed_witness :
  exists out t w out' t' w' o,
    reference_session 0.25 30 0.8 30 [one_box 0.9] (mkWorld [] 0) = Ok ((out, t), w)
    /\ BYTETracker.update Reference.linear_sum_assignment Reference.cho_factor
                          Reference.cho_solve t (NumpyArray Float64 (mkArr 0 5 []))
                          (720, 1280)%float (720, 1280)%float w
       = Ok ((out', t'), w')
    /\ BYTETracker.tracked_stracks t = [0%nat]
    /\ heap w !! 0%nat = Some o
    /\ state o = Some TrackState.Tracked
    /\ (seen 2 w' 0%nat
        \/ (is_activated o = true /\ in_state TrackState.Lost w' 0%nat)
        \/ (is_activated o = false /\ in_state TrackState.Removed w' 0%nat)).
Proof.
  eexists _, _, _, _, _, _, _.
  split; [vm_compute; reflexivity|].
  match goal with |- ?A /\ _ => assert (HA : A) by (vm_compute; reflexivity) end.
  split; [exact HA|]. split; [reflexivity|].
  match goal with |- ?A /\ _ => assert (Ho : A) by reflexivity end.
  split; [exact Ho|]. split; [reflexivity|].
  apply (tracked_track_is_seen_lost_or_removed _ _ _ _ _ _ _ _ _ _ _ HA) with (r := 0%nat).
  - intros r Hr. vm_compute in Hr. destruct Hr as [<- | []]. vm_compute. repeat constructor.
  - cbn. constructor; [intros [] | constructor].
  - intros r1 r2 i H1 H2 _ _. vm_compute in H1, H2.
    destruct H1 as [<- | []]. destruct H2 as [<- | []]. reflexivity.
  - vm_compute. discriminate.
  - left. reflexivity.
  - exact Ho.
  - reflexivity.
Defined.

Lemma lost_track_is_refound_expired_or_kept_witness :
  exists out t w out' t' w',
    reference_session 0.25 30 0.8 30 [one_box 0.9; no_box] (mkWorld [] 0) = Ok ((out, t), w)
    /\ BYTETracker.update Reference.linear_sum_assignment Reference.cho_factor
                          Reference.cho_solve t (NumpyArray Float64 (mkArr 0 5 []))
                          (720, 1280)%float (720, 1280)%float w
       = Ok ((out', t'), w')
    /\ BYTETracker.lost_stracks t = [0%nat]
    /\ status w 0%nat = Some (Some TrackState.Lost, Some 1%Z)
    /\ (seen 3 w' 0%nat
        \/ (Z.ltb 30 (2 + 1 - 1) = true /\ in_state TrackState.Removed w' 0%nat)
        \/ (Z.ltb 30 (2 + 1 - 1) = false /\ status w' 0%nat = status w 0%nat)).
Proof.
  eexists _, _, _, _, _, _.
  split; [vm_compute; reflexivity|].
  match goal with |- ?A /\ _ => assert (HA : A) by (vm_compute; reflexivity) end.
  split; [exact HA|]. split; [reflexivity|].
  match goal with |- ?A /\ _ => assert (Hst : A) by reflexivity end.
  split; [exact Hst|].
  apply (lost_track_is_refound_expired_or_kept _ _ _ _ _ _ _ _ _ _ _ HA)
    with (r := 0%nat) (s := Some TrackState.Lost) (e := 1%Z).
  - intros r Hr. vm_compute in Hr. destruct Hr as [<- | []]. vm_compute. repeat constructor.
  - cbn. constructor; [intros [] | constructor].
  - intros r1 r2 i H1 H2 _ _. vm_compute in H1, H2.
    destruct H1 as [<- | []]. destruct H2 as [<- | []]. reflexivity.
  - vm_compute. discriminate.
  - left. reflexivity.
  - exact Hst.
  - discriminate.
Defined.

(** ** byte_tracker: the tracks a session reports *)

Section Reported.
Variable linear_sum_assignment : ndarray2 -> res (list nat * list nat).
Variable cho_factor : mat -> res mat.
Variable cho_solve : mat -> mat -> mat.

(** [update] returns every activated track of the new tracked list. *)
Lemma update_returns_all_activated t output_results img_info img_size w out t' w' :
  BYTETracker.update linear_sum_assignment cho_factor cho_solve t output_results
                     img_info img_size w = Ok ((out, t'), w') ->
  forall r o, In r (BYTETracker.tracked_stracks t') ->
              heap w' !! r = Some o -> is_activated o = true -> In r out.
Proof.
  intros H. unfold BYTETracker.update in H. cbv zeta in H.
  do 29 skip_bind H.
  apply bindM_Ok in H as (out' & w1 & Hout & H). inversion H; subst. clear H.
  cbn [BYTETracker.tracked_stracks].
  intros r o Hr Ho Ha.
  assert (Hp : forall q wa c wb, is_activated_of q wa = Ok (c, wb) ->
                 wb = wa /\ option_map is_activated (heap wa !! q) = Some c).
  { intros q wa c wb Hb. apply is_activated_of_Ok in Hb as [-> (o' & Ho' & <-)].
    split; [reflexivity|]. rewrite Ho'. reflexivity. }
  apply (filterM_reading _ _ _ _ _ _ Hp) in Hout as [-> Hall].
  destruct (Hall r Hr) as (b & Hb & Hin). apply Hin.
  unfold ref in *. rewrite Ho in Hb. cbn in Hb. congruence.
Qed.

Lemma run_returns_all_activated frames : forall t out w out' t' w',
  (forall r o, In r (BYTETracker.tracked_stracks t) ->
               heap w !! r = Some o -> is_activated o = true -> In r out) ->
  run linear_sum_assignment cho_factor cho_solve t out frames w = Ok ((out', t'), w') ->
  forall r o, In r (BYTETracker.tracked_stracks t') ->
              heap w' !! r = Some o -> is_activated o = true -> In r out'.
Proof.
  induction frames as [|[[d i] s] frames IH]; intros t out w out' t' w' Q H; simpl in H.
  - inversion H; subst. exact Q.
  - apply bindM_Ok in H as ([o1 t1] & w1 & H1 & H).
    exact (IH _ _ _ _ _ _ (update_returns_all_activated _ _ _ _ _ _ _ _ H1) H).
Qed.

(** Over a whole session with a buffer that is not negative, started on a
    store in which no object has a track id yet: the list the last
    [update] returned holds every track of the tracked list that did not
    start in the last frame, and, after the first frame, every track of
    the tracked list. *)
Theorem session_reports_every_older_track
        track_thresh track_buffer match_thresh frame_rate frames w0 out t w :
  (forall r o, heap w0 !! r = Some o -> track_id o = None) ->
  session linear_sum_assignment cho_factor cho_solve track_thresh track_buffer
          match_thresh frame_rate frames w0 = Ok ((out, t), w) ->
  (0 <= BYTETracker.max_time_lost t)%Z ->
  forall r o,
    In r (BYTETracker.tracked_stracks t) -> heap w !! r = Some o ->
    start_frame o <> Some (BYTETracker.frame_id t) \/ BYTETracker.frame_id t = 1%Z ->
    In r out.
Proof.
  intros Hn H Hm r o Hr Ho Hold.
  pose proof (session_reachable _ _ _ _ _ _ _ _ _ _ _ _ H) as R.
  destruct (reachable_inv _ _ _ _ _ R) as (_ & Htracked & _).
  unfold session in H.
  apply bindM_Ok in H as (t0 & w1 & H1 & H).
  assert (R0 : reached_by_returning_calls linear_sum_assignment cho_factor cho_solve t0 w1)
    by (eapply reachable_init; exact H1).
  unfold BYTETracker.__init__ in H1.
  apply bindM_Ok in H1 as (b & w2 & H2 & H1). apply lift_Ok in H2 as [_ ->].
  inversion H1; subst t0 w1. clear H1.
  pose proof (run_buffer _ _ _ _ _ _ _ _ _ _ H) as Eb. cbn [BYTETracker.max_time_lost] in Eb.
  rewrite Eb in Hm.
  destruct (run_lists_apart _ _ _ frames _ _ _ _ _ _ R0 (ids_ok_no_ids _ Hn) Hm
              (conj (List.NoDup_nil _) (fun r (Hr : In r []) => match Hr with end))
              (fun r (Hr : In r []) => match Hr with end) H)
    as (_ & _ & Hs).
  refine (run_returns_all_activated frames _ _ _ _ _ _ _ H r o Hr Ho _);
    [intros q oq Hq; destruct Hq|].
  destruct (Hs r Hr) as (o' & Ho' & Hst & _).
  assert (o' = o) by (unfold ref in *; congruence). subst o'.
  destruct (Htracked r o Hr Ho) as [[Ha | Hns] | [Hsf Hne]].
  - exact Ha.
  - contradiction.
  - destruct Hold as [Hold | Hold]; contradiction.
Qed.

End Reported.

Lemma session_reports_every_older_track_witness :
  exists out t w o,
    reference_session 0.25 30 0.8 30 [one_box 0.9; one_box 0.9] (mkWorld [] 0)
    = Ok ((out, t), w)
    /\ (0 <= BYTETracker.max_time_lost t)%Z
    /\ BYTETracker.tracked_stracks t = [0%nat]
    /\ heap w !! 0%nat = Some o
    /\ start_frame o = Some 1%Z
    /\ BYTETracker.frame_id t = 2%Z
    /\ In 0%nat out.
Proof.
  eexists _, _, _, _.
  match goal with |- ?A /\ _ => assert (HA : A) by (vm_compute; reflexivity) end.
  split; [exact HA|].
  match goal with |- ?A /\ _ => assert (Hm : A) by (vm_compute; discriminate) end.
  split; [exact Hm|]. split; [reflexivity|].
  match goal with |- ?A /\ _ => assert (Ho : A) by reflexivity end.
  split; [exact Ho|]. split; [reflexivity|]. split; [reflexivity|].
  refine (session_reports_every_older_track _ _ _ _ _ _ _ _ _ _ _ _
            (fun r o Hr => _) HA Hm 0%nat _ (or_introl eq_refl) Ho (or_introl _)).
  - destruct r; discriminate.
  - discriminate.
Defined.

(** ** byte_tracker: the two associations of a frame

    Which detections reach which tracks.  [update] builds the track objects
    of [D_high] and [D_low]; the objects the store held before keep their
    score unless an association updates them from a detection, and the
    objects of the detections are left alone unless [update] activates
    them as new tracks. *)

Lemma activated_again o kf f tid kf' f' tid' :
  STrackM.activated (STrackM.activated o kf f tid) kf' f' tid'
  = STrackM.activated o kf' f' tid'.
Proof.
  unfold STrackM.activated.
  destruct (KalmanFilter.initiate kf _) as [m c] eqn:E. cbn [_tlwh score].
  destruct (KalmanFilter.initiate kf' _) as [m' c']. reflexivity.
Qed.

Lemma activated_score o kf f tid : score (STrackM.activated o kf f tid) = score o.
Proof. unfold STrackM.activated. destruct (KalmanFilter.initiate _ _). reflexivity. Qed.

Section Rescored.
Variable n0 nH : nat.
Variable kf : KalmanFilter.t.
Variable f : Z.

Lemma obj_step_trans (P : ref -> scalar -> Prop) r o1 o2 o3 :
  obj_step n0 nH kf f P r o1 o2 -> obj_step n0 nH kf f P r o2 o3 ->
  obj_step n0 nH kf f P r o1 o3.
Proof.
  intros [-> | [[Hr H12] | [Hr [t1 ->]]]] H23; [exact H23 | |].
  - destruct H23 as [-> | [[_ H23] | [Hr' _]]]; [right; left; auto | | lia].
    right. left. split; [exact Hr|].
    destruct H23 as [E | Hp]; [|right; exact Hp].
    destruct H12 as [E' | Hp]; [left; congruence | right; rewrite E; exact Hp].
  - destruct H23 as [-> | [[Hr' _] | [_ [t2 ->]]]]; [right; right; eauto | lia |].
    right. right. split; [exact Hr|]. exists t2. apply activated_again.
Qed.

Lemma obj_step_mono (P Q : ref -> scalar -> Prop) r o o' :
  (forall s, P r s -> Q r s) ->
  obj_step n0 nH kf f P r o o' -> obj_step n0 nH kf f Q r o o'.
Proof.
  intros HPQ [-> | [[Hr [E | Hp]] | H]]; [left; reflexivity | | | right; right; exact H];
    right; left; (split; [exact Hr|]); [left; exact E | right; apply HPQ, Hp].
Qed.

Lemma rescored_refl P w : rescored n0 nH kf f P w w.
Proof. split; [reflexivity|]. intros r o Ho. exists o. split; [exact Ho | left; reflexivity]. Qed.

Lemma rescored_same P w w' : w' = w -> rescored n0 nH kf f P w w'.
Proof. intros ->. apply rescored_refl. Qed.

Lemma rescored_trans P w1 w2 w3 :
  rescored n0 nH kf f P w1 w2 -> rescored n0 nH kf f P w2 w3 -> rescored n0 nH kf f P w1 w3.
Proof.
  intros [L1 H1] [L2 H2]. split; [congruence|].
  intros r o Ho. destruct (H1 r o Ho) as (o2 & Ho2 & S1).
  destruct (H2 r o2 Ho2) as (o3 & Ho3 & S2).
  exists o3. split; [exact Ho3 | exact (obj_step_trans P r o o2 o3 S1 S2)].
Qed.

Lemma rescored_mono (P Q : ref -> scalar -> Prop) w w' :
  (forall r s, P r s -> Q r s) ->
  rescored n0 nH kf f P w w' -> rescored n0 nH kf f Q w w'.
Proof.
  intros HPQ [L H]. split; [exact L|]. intros r o Ho.
  destruct (H r o Ho) as (o' & Ho' & S). exists o'. split; [exact Ho'|].
  exact (obj_step_mono P Q r o o' (HPQ r) S).
Qed.

(** A step that keeps every score and touches only objects of [S], all of
    them among the first [n0]. *)
Lemma rescored_of_frame (P : ref -> scalar -> Prop) (S : ref -> Prop) w w' :
  (forall r, S r -> (r < n0)%nat) ->
  (forall r : ref, S r \/ heap w' !! r = heap w !! r) ->
  keeps_scores w w' ->
  rescored n0 nH kf f P w w'.
Proof.
  intros HS Hf [L K]. split; [exact L|]. intros r o Ho.
  destruct (K r o Ho) as (o' & Ho' & E). exists o'. split; [exact Ho'|].
  destruct (Hf r) as [Hr | Hr].
  - right. left. split; [exact (HS r Hr) | left; exact E].
  - left. unfold ref in *. congruence.
Qed.

End Rescored.

Lemma keeps_scores_refl w : keeps_scores w w.
Proof. split; [reflexivity|]. intros r o Ho. eauto. Qed.

Lemma keeps_scores_trans w1 w2 w3 :
  keeps_scores w1 w2 -> keeps_scores w2 w3 -> keeps_scores w1 w3.
Proof.
  intros [L1 H1] [L2 H2]. split; [congruence|]. intros r o Ho.
  destruct (H1 r o Ho) as (o2 & Ho2 & E2). destruct (H2 r o2 Ho2) as (o3 & Ho3 & E3).
  exists o3. split; [exact Ho3 | congruence].
Qed.

Lemma keeps_scores_write w (r : ref) o o' :
  heap w !! r = Some o -> score o' = score o ->
  keeps_scores w (mkWorld (<[r := o']> (heap w)) (_count w)).
Proof.
  intros Ho E. split; [cbn [heap]; apply length_insert|].
  intros q oq Hq. destruct (Nat.eq_dec q r) as [-> | Hne].
  - exists o'. split; [exact (insert_self (heap w) r o' (_count w) (lookup_lt_Some _ _ _ Ho))|].
    unfold ref in *. congruence.
  - exists oq. split; [|reflexivity].
    exact (eq_trans (insert_other (heap w) r q o' (_count w) Hne) Hq).
Qed.

(** *** The steps that keep every score *)

Lemma multi_predict_keeps_scores stracks w u w' :
  STrackM.multi_predict stracks w = Ok (u, w') -> keeps_scores w w'.
Proof.
  exact (respects_multi_predict keeps_scores (fun o o' => score o' = score o)
           keeps_scores_refl keeps_scores_trans (fun m c o => eq_refl)
           keeps_scores_write stracks w u w').
Qed.

Lemma mark_lost_loop_keeps_scores r_tracked u_track lost_ w lost_' w' :
  BYTETracker.mark_lost_loop r_tracked u_track lost_ w = Ok (lost_', w') -> keeps_scores w w'.
Proof.
  exact (respects_mark_lost_loop keeps_scores (fun o o' => score o' = score o)
           keeps_scores_refl keeps_scores_trans (fun s o => eq_refl)
           keeps_scores_write r_tracked u_track lost_ w lost_' w').
Qed.

Lemma mark_removed_loop_keeps_scores unconfirmed u_unconfirmed removed_ w removed_' w' :
  BYTETracker.mark_removed_loop unconfirmed u_unconfirmed removed_ w = Ok (removed_', w') ->
  keeps_scores w w'.
Proof.
  exact (respects_mark_removed_loop keeps_scores (fun o o' => score o' = score o)
           keeps_scores_refl keeps_scores_trans (fun s o => eq_refl)
           keeps_scores_write unconfirmed u_unconfirmed removed_ w removed_' w').
Qed.

Lemma expire_loop_keeps_scores self lost removed_ w removed_' w' :
  BYTETracker.expire_loop self lost removed_ w = Ok (removed_', w') -> keeps_scores w w'.
Proof.
  exact (respects_expire_loop keeps_scores (fun o o' => score o' = score o)
           keeps_scores_refl keeps_scores_trans (fun s o => eq_refl)
           keeps_scores_write self lost removed_ w removed_' w').
Qed.

(** *** The objects a step leaves alone *)

Lemma forM_write_frame (g : ref * (vec * mat) -> STrack -> STrack) ps : forall w u w',
  forM_ (fun p : ref * (vec * mat) => let! o := read (fst p) in write (fst p) (g p o)) ps w
  = Ok (u, w') ->
  forall r : ref, ~ In r (map fst ps) -> heap w' !! r = heap w !! r.
Proof.
  induction ps as [|p ps IH]; intros w u w' H r Hr; simpl in H.
  - inversion H; subst. reflexivity.
  - apply bindM_Ok in H as (u0 & w1 & H1 & H).
    apply bindM_Ok in H1 as (o & w2 & H2 & H1). apply read_Ok in H2 as [_ ->].
    apply write_Ok in H1 as [_ ->].
    rewrite (IH _ _ _ H r) by (intros Hx; apply Hr; right; exact Hx).
    apply insert_other. intros ->. apply Hr. left. reflexivity.
Qed.

Lemma multi_predict_frame stracks w u w' :
  STrackM.multi_predict stracks w = Ok (u, w') ->
  forall r : ref, ~ In r stracks -> heap w' !! r = heap w !! r.
Proof.
  intros H r Hr. unfold STrackM.multi_predict in H.
  destruct stracks as [|s0 st] eqn:Es; [inversion H; subst; reflexivity|].
  rewrite <- Es in *. clear Es s0 st.
  apply bindM_Ok in H as (ms & w1 & H1 & H).
  apply (mapM_reading _ (fun _ _ _ => True)) in H1 as (-> & _ & _).
  2: { intros st w1' b w2 Hb. unfold STrackM.multi_state in Hb.
       apply bindM_Ok in Hb as (o & w3 & H3 & Hb). apply read_Ok in H3 as [_ ->].
       destruct (mean o); [|discriminate]. inversion Hb; subst. auto. }
  apply bindM_Ok in H as (zs & w1 & H2 & H).
  apply (mapM_reading _ (fun _ _ _ => True)) in H2 as (-> & _ & _).
  2: { intros p w1' b w2 Hb. unfold STrackM.zero_velocity in Hb.
       apply bindM_Ok in Hb as (s & w3 & H3 & Hb). apply attr_Ok in H3 as ->.
       destruct (TrackState.eqb s TrackState.Tracked).
       - inversion Hb; subst. auto.
       - apply bindM_Ok in Hb as (m' & w5 & H5 & Hb). apply lift_Ok in H5 as [_ ->].
         inversion Hb; subst. auto. }
  apply bindM_Ok in H as (covs & w1 & H3 & H). apply lift_Ok in H3 as [_ ->].
  apply bindM_Ok in H as ([mm mc] & w1 & H4 & H). apply lift_Ok in H4 as [_ ->].
  apply (forM_write_frame (fun p o => STrackM.set_mean_cov (fst (snd p)) (snd (snd p)) o))
    with (r := r) in H; [exact H|].
  intros Hx. apply Hr. apply in_map_iff in Hx as ([r' x] & <- & Hx).
  exact (in_combine_l _ _ _ _ Hx).
Qed.

Section Scores.
Variable cho_factor : mat -> res mat.
Variable cho_solve : mat -> mat -> mat.
Variable n0 nH : nat.
Variable kf : KalmanFilter.t.
Variable f : Z.

Lemma multi_predict_rescored P stracks w u w' :
  (forall r, In r stracks -> (r < n0)%nat) ->
  STrackM.multi_predict stracks w = Ok (u, w') -> rescored n0 nH kf f P w w'.
Proof.
  intros Hs H. apply (rescored_of_frame n0 nH kf f P (fun r => In r stracks)); [exact Hs | |].
  - intros r. destruct (in_dec Nat.eq_dec r stracks) as [Hi | Hn]; [left; exact Hi|].
    right. exact (multi_predict_frame _ _ _ _ H r Hn).
  - exact (multi_predict_keeps_scores _ _ _ _ H).
Qed.

Lemma mark_lost_loop_rescored P r_tracked u_track lost_ w lost_' w' :
  (forall r, In r r_tracked -> (r < n0)%nat) ->
  BYTETracker.mark_lost_loop r_tracked u_track lost_ w = Ok (lost_', w') ->
  rescored n0 nH kf f P w w'.
Proof.
  intros Hs H. apply (rescored_of_frame n0 nH kf f P (fun r => In r r_tracked)); [exact Hs | |].
  - intros r. destruct (in_dec Nat.eq_dec r r_tracked) as [Hi | Hn]; [left; exact Hi|].
    right. apply (mark_lost_loop_frame _ _ _ _ _ _ H r).
    intros Hx. apply Hn. exact (at_rows_In _ _ _ Hx).
  - exact (mark_lost_loop_keeps_scores _ _ _ _ _ _ H).
Qed.

Lemma mark_removed_loop_rescored P unconfirmed u_unconfirmed removed_ w removed_' w' :
  (forall r, In r unconfirmed -> (r < n0)%nat) ->
  BYTETracker.mark_removed_loop unconfirmed u_unconfirmed removed_ w = Ok (removed_', w') ->
  rescored n0 nH kf f P w w'.
Proof.
  intros Hs H. apply (rescored_of_frame n0 nH kf f P (fun r => In r unconfirmed)); [exact Hs | |].
  - intros r. destruct (in_dec Nat.eq_dec r unconfirmed) as [Hi | Hn]; [left; exact Hi|].
    right. apply (mark_removed_loop_frame _ _ _ _ _ _ H r).
    intros Hx. apply Hn. exact (at_rows_In _ _ _ Hx).
  - exact (mark_removed_loop_keeps_scores _ _ _ _ _ _ H).
Qed.

Lemma expire_loop_rescored P self lost removed_ w removed_' w' :
  (forall r, In r lost -> (r < n0)%nat) ->
  BYTETracker.expire_loop self lost removed_ w = Ok (removed_', w') ->
  rescored n0 nH kf f P w w'.
Proof.
  intros Hs H. apply (rescored_of_frame n0 nH kf f P (fun r => In r lost)); [exact Hs | |].
  - intros r. destruct (in_dec Nat.eq_dec r lost) as [Hi | Hn]; [left; exact Hi|].
    right. exact (proj2 (expire_loop_frame _ _ _ _ _ _ H) r Hn).
  - exact (expire_loop_keeps_scores _ _ _ _ _ _ H).
Qed.

(** *** The updates from a detection *)

Lemma _update_track_Ok self new_track fid w u w' :
  STrackM._update_track cho_factor cho_solve self new_track fid false w = Ok (u, w') ->
  exists o n m' c',
    heap w !! self = Some o /\ heap w !! new_track = Some n
    /\ w' = mkWorld (<[self := STrackM.updated o n m' c' (track_id o) fid]> (heap w))
                    (_count w).
Proof.
  intros H. unfold STrackM._update_track in H.
  apply bindM_Ok in H as (o & w1 & H1 & H). apply read_Ok in H1 as [Ho ->].
  apply bindM_Ok in H as (n & w1 & H1 & H). apply read_Ok in H1 as [Hn ->].
  apply bindM_Ok in H as (k & w1 & H1 & H). apply attr_Ok in H1 as ->.
  apply bindM_Ok in H as (m & w1 & H1 & H). apply attr_Ok in H1 as ->.
  apply bindM_Ok in H as (c & w1 & H1 & H). apply attr_Ok in H1 as ->.
  apply bindM_Ok in H as ([m' c'] & w1 & H1 & H). apply lift_Ok in H1 as [_ ->].
  apply bindM_Ok in H as (tid & w1 & H1 & H). inversion H1; subst.
  apply write_Ok in H as [_ ->]. eauto 8.
Qed.

(** One update of [track] from the detection object [det], whose score
    [Q] allows. *)
Lemma _update_track_rescored (Q : scalar -> Prop) (S : ref -> Prop) track det fid w u w' :
  STrackM._update_track cho_factor cho_solve track det fid false w = Ok (u, w') ->
  (track < n0)%nat -> S track ->
  (exists n, heap w !! det = Some n /\ Q (score n)) ->
  rescored n0 nH kf f (fun r s => S r /\ Q s) w w'
  /\ forall r : ref, r <> track -> heap w' !! r = heap w !! r.
Proof.
  intros H Hlt HS (n' & Hn' & HQ).
  apply _update_track_Ok in H as (o & n & m' & c' & Ho & Hn & ->).
  assert (n' = n) by (unfold ref in *; congruence). subst n'.
  split; [|intros r Hne; apply insert_other; exact Hne].
  split; [cbn [heap]; apply length_insert|].
  intros r oq Hq. destruct (Nat.eq_dec r track) as [-> | Hne].
  - eexists. split; [exact (insert_self (heap w) track _ (_count w) (lookup_lt_Some _ _ _ Ho))|].
    right. left. split; [exact Hlt|]. right. split; [exact HS | exact HQ].
  - exists oq. split; [|left; reflexivity].
    exact (eq_trans (insert_other (heap w) track r _ (_count w) Hne) Hq).
Qed.

Lemma _update_tracks_rescored (Q : scalar -> Prop) self stracks detections matches :
  forall refind activated w refind' activated' w',
  BYTETracker._update_tracks cho_factor cho_solve self stracks detections matches
                             refind activated w
  = Ok ((refind', activated'), w') ->
  (forall r, In r stracks -> (r < n0)%nat) ->
  (forall d, In d detections ->
             (n0 <= d)%nat /\ exists n, heap w !! d = Some n /\ Q (score n)) ->
  rescored n0 nH kf f (fun r s => In r stracks /\ Q s) w w'.
Proof.
  induction matches as [|[i j] matches IH];
    intros refind activated w refind' activated' w' H Hs Hd; simpl in H.
  - inversion H; subst. apply rescored_refl.
  - apply bindM_Ok in H as (track & w1 & H1 & H). apply lindex_Ok in H1 as [Ht ->].
    apply bindM_Ok in H as (det & w1 & H1 & H). apply lindex_Ok in H1 as [Hj ->].
    apply bindM_Ok in H as (s & w1 & H1 & H). apply state_of_Ok in H1 as [-> _].
    apply lookup_In in Ht. apply lookup_In in Hj.
    assert (Hstep : exists w1 rf ac,
               (rescored n0 nH kf f (fun r s => In r stracks /\ Q s) w w1
                /\ forall r : ref, r <> track -> heap w1 !! r = heap w !! r)
               /\ BYTETracker._update_tracks cho_factor cho_solve self stracks detections
                    matches rf ac w1 = Ok ((refind', activated'), w')).
    { destruct (TrackState.eqb s TrackState.Tracked);
        apply bindM_Ok in H as (u & w2 & H2 & H);
        apply (_update_track_rescored Q (fun r => In r stracks)) in H2;
        [eexists _, _, _; split; [exact H2 | exact H] | exact (Hs _ Ht) | exact Ht
         | exact (proj2 (Hd _ Hj))
         | eexists _, _, _; split; [exact H2 | exact H] | exact (Hs _ Ht) | exact Ht
         | exact (proj2 (Hd _ Hj)) ]. }
    destruct Hstep as (w1 & rf & ac & [R1 F1] & Hrest).
    apply (rescored_trans n0 nH kf f _ w w1 w'); [exact R1|].
    apply (IH _ _ _ _ _ _ Hrest Hs).
    intros d Hdi. destruct (Hd d Hdi) as (Hge & n & Hn & HQ).
    split; [exact Hge|]. exists n. split; [|exact HQ].
    rewrite F1; [exact Hn|]. intros ->. pose proof (Hs _ Ht). lia.
Qed.

Lemma update_unconfirmed_loop_rescored (Q : scalar -> Prop) self unconfirmed detections
      matches :
  forall activated w activated' w',
  BYTETracker.update_unconfirmed_loop cho_factor cho_solve self unconfirmed detections
                                      matches activated w
  = Ok (activated', w') ->
  (forall r, In r unconfirmed -> (r < n0)%nat) ->
  (forall d, In d detections ->
             (n0 <= d)%nat /\ exists n, heap w !! d = Some n /\ Q (score n)) ->
  rescored n0 nH kf f (fun r s => In r unconfirmed /\ Q s) w w'.
Proof.
  induction matches as [|[i j] matches IH]; intros activated w activated' w' H Hs Hd;
    simpl in H.
  - inversion H; subst. apply rescored_refl.
  - apply bindM_Ok in H as (track & w1 & H1 & H). apply lindex_Ok in H1 as [Ht ->].
    apply bindM_Ok in H as (det & w1 & H1 & H). apply lindex_Ok in H1 as [Hj ->].
    apply lookup_In in Ht. apply lookup_In in Hj.
    apply bindM_Ok in H as (u & w1 & H1 & H).
    apply (_update_track_rescored Q (fun r => In r unconfirmed)) in H1 as [R1 F1];
      [|exact (Hs _ Ht) | exact Ht | exact (proj2 (Hd _ Hj))].
    apply bindM_Ok in H as (track' & w2 & H2 & H). apply lindex_Ok in H2 as [_ ->].
    apply (rescored_trans n0 nH kf f _ w w1 w'); [exact R1|].
    apply (IH _ _ _ _ H Hs).
    intros d Hdi. destruct (Hd d Hdi) as (Hge & n & Hn & HQ).
    split; [exact Hge|]. exists n. split; [|exact HQ].
    rewrite F1; [exact Hn|]. intros ->. pose proof (Hs _ Ht). lia.
Qed.

End Scores.

(** The new tracks: [update] activates detection objects only. *)
Lemma new_tracks_loop_rescored n0 nH P self detections u_detection :
  forall activated w activated' w',
  BYTETracker.new_tracks_loop self detections u_detection activated w = Ok (activated', w') ->
  (forall d, In d detections -> (n0 <= d < nH)%nat) ->
  rescored n0 nH (BYTETracker.kalman_filter self) (BYTETracker.frame_id self) P w w'.
Proof.
  induction u_detection as [|i u IH]; intros activated w activated' w' H Hd; simpl in H.
  - inversion H; subst. apply rescored_refl.
  - apply bindM_Ok in H as (track & w1 & H1 & H). apply lindex_Ok in H1 as [Ht ->].
    apply bindM_Ok in H as (o & w1 & H1 & H). apply read_Ok in H1 as [Ho ->].
    apply lookup_In in Ht.
    destruct (scalar_geb (score o) (BYTETracker.det_thresh self)); [|exact (IH _ _ _ _ H Hd)].
    apply bindM_Ok in H as (u0 & w1 & H1 & H).
    rewrite (activate_Ok _ _ _ _ _ Ho) in H1. inversion H1; subst w1. clear H1.
    refine (rescored_trans n0 nH _ _ P _ _ _ _ (IH _ _ _ _ H Hd)).
    split; [cbn [heap]; apply length_insert|].
    intros r oq Hq. destruct (Nat.eq_dec r track) as [-> | Hne].
    + eexists. split; [exact (insert_self (heap w) track _ _ (lookup_lt_Some _ _ _ Ho))|].
      right. right. split; [exact (Hd _ Ht)|].
      assert (oq = o) by (unfold ref in *; congruence). subst oq. eauto.
    + exists oq. split; [|left; reflexivity].
      exact (eq_trans (insert_other (heap w) track r _ _ Hne) Hq).
Qed.

(** *** The theorem *)

Lemma rescored_fresh n0 nH kf f P w w' (r : ref) o :
  rescored n0 nH kf f P w w' -> (n0 <= r)%nat -> heap w !! r = Some o ->
  exists o', heap w' !! r = Some o' /\ score o' = score o.
Proof.
  intros [_ H] Hr Ho. destruct (H r o Ho) as (o' & Ho' & S). exists o'. split; [exact Ho'|].
  destruct S as [-> | [[Hlt _] | [_ [tid ->]]]]; [reflexivity | lia | apply activated_score].
Qed.

(** The scores of the detection objects, while [update] runs. *)
Lemma detection_scores n0 nH kf f P dt (D : list (vec * float)) (a : nat) w2 wk :
  rescored n0 nH kf f P w2 wk -> (n0 <= a)%nat ->
  (forall k p, D !! k = Some p -> heap w2 !! (a + k)%nat = Some (detection_track dt p)) ->
  forall d, In d (seq a (length D)) ->
    (n0 <= d)%nat
    /\ exists n, heap wk !! d = Some n
                 /\ exists p, In p D /\ score n = Scalar dt (snd p).
Proof.
  intros R Ha HD d Hd. apply in_seq in Hd. split; [lia|].
  destruct (lookup_lt_is_Some_2 D (d - a)) as [p Hp]; [lia|].
  pose proof (HD _ _ Hp) as Ho. replace (a + (d - a))%nat with d in Ho by lia.
  destruct (rescored_fresh _ _ _ _ _ _ _ d _ R ltac:(lia) Ho) as (n & Hn & E).
  exists n. split; [exact Hn|]. exists p. split; [exact (lookup_In _ _ _ Hp) | exact E].
Qed.

Section Partition.
Variable linear_sum_assignment : ndarray2 -> res (list nat * list nat).
Variable cho_factor : mat -> res mat.
Variable cho_solve : mat -> mat -> mat.

Local Notation "'same_world'" := (fun a b : world => b = a).

(** C3, as the code has it.  In a call of [update] that returns, on a
    detector output of a floating-point type [dt], the two thresholds are
    rounded to [dt] and compared with the scores in [dt]:
    [D_high] holds the detections with [score > track_thresh] and [D_low]
    those with [0.1 < score < track_thresh], both bounds strict, so a
    detection whose score equals the threshold is in neither.  [update]
    builds track objects for [D_high], then for [D_low], and for no other
    detection.  The first association matches the pool of the activated
    and the lost tracks with the objects of [D_high], the second matches
    the tracks it left unmatched in state [Tracked] with the objects of
    [D_low].  When the lists of the tracker hold tracks of the store, as
    the lists of the program do, a track that was in the store has after
    the call the score it had, or the score of a detection of [D_high] if
    it is a track of the pool or an unconfirmed track, or the score of a
    detection of [D_low] if it is one of the tracks of the second
    association; after the second association only unconfirmed tracks take
    another score, from [D_high].  The objects of [D_high] are as they were
    built, or activated in this frame; those of [D_low] are as they were
    built. *)
Theorem update_detections_partition
        (self : BYTETracker.t) (output_results : detector_output)
        (img_info img_size : float * float) (w : world)
        (out : list ref) (self' : BYTETracker.t) (w' : world) :
  BYTETracker.update linear_sum_assignment cho_factor cho_solve self output_results
                     img_info img_size w = Ok ((out, self'), w') ->
  exists dt scores raw bboxes,
    BYTETracker._process_output output_results = Ok (BYTETracker.Numpy dt, scores, raw)
    /\ BYTETracker._scale_bboxes dt img_info img_size raw = Ok bboxes
    /\ let D_high := BYTETracker.masked (BYTETracker.high_mask dt self) bboxes scores in
       let D_low := BYTETracker.masked (BYTETracker.low_mask dt self) bboxes scores in
       let n0 := length (heap w) in
       let nH := (n0 + length D_high)%nat in
       let w2 := mkWorld (heap w ++ map (detection_track dt) D_high
                                 ++ map (detection_track dt) D_low) (_count w) in
       (forall b s,
          In (b, s) D_high
          <-> In (b, s) (combine bboxes scores)
              /\ gtb s (astype dt (BYTETracker.track_thresh self)) = true)
       /\ (forall b s,
             In (b, s) D_low
             <-> In (b, s) (combine bboxes scores)
                 /\ gtb s (astype dt 0.1) = true
                 /\ PrimFloat.ltb s (astype dt (BYTETracker.track_thresh self)) = true)
       /\ (forall b s,
             PrimFloat.eqb s (astype dt (BYTETracker.track_thresh self)) = true ->
             ~ In (b, s) D_high /\ ~ In (b, s) D_low)
       /\ map _tlwh (heap w')
          = map _tlwh (heap w) ++ map (detection_box dt) (D_high ++ D_low)
       /\ exists unconfirmed strack_pool r_tracked w5,
            associations linear_sum_assignment cho_factor cho_solve (in_next_frame self)
                         (seq n0 (length D_high)) (seq nH (length D_low)) w2
                         unconfirmed strack_pool r_tracked w5
            /\ (lists_valid self w ->
                  (forall r o o',
                        heap w !! r = Some o -> heap w' !! r = Some o' ->
                        score o' = score o
                        \/ (exists p, In p D_high /\ score o' = Scalar dt (snd p)
                                      /\ (In r strack_pool \/ In r unconfirmed))
                        \/ (exists p, In p D_low /\ score o' = Scalar dt (snd p)
                                      /\ In r r_tracked))
                  /\ (forall r o5 o',
                        (r < n0)%nat -> heap w5 !! r = Some o5 -> heap w' !! r = Some o' ->
                        score o' = score o5
                        \/ (exists p, In p D_high /\ score o' = Scalar dt (snd p)
                                      /\ In r unconfirmed))
                  /\ (forall k p,
                        D_high !! k = Some p ->
                        heap w' !! (n0 + k)%nat = Some (detection_track dt p)
                        \/ exists tid,
                             heap w' !! (n0 + k)%nat
                             = Some (STrackM.activated (detection_track dt p)
                                       (BYTETracker.kalman_filter self)
                                       (BYTETracker.frame_id self + 1) tid))
                  /\ (forall k p,
                        D_low !! k = Some p ->
                        heap w' !! (nH + k)%nat = Some (detection_track dt p))).
Proof.
  intros H.
  destruct (update_builds_detection_objects _ _ _ _ _ _ _ _ _ _ _ H)
    as (dt & scores & raw & bboxes & Hp & Hs & Hboxes).
  exists dt, scores, raw, bboxes. split; [exact Hp|]. split; [exact Hs|].
  cbv zeta.
  set (DH := BYTETracker.masked (BYTETracker.high_mask dt self) bboxes scores) in *.
  set (DL := BYTETracker.masked (BYTETracker.low_mask dt self) bboxes scores) in *.
  set (n0 := length (heap w)).
  set (nH := (n0 + length DH)%nat).
  set (w2 := mkWorld (heap w ++ map (detection_track dt) DH ++ map (detection_track dt) DL)
                     (_count w)).
  split; [intros b s; unfold DH; rewrite masked_In; reflexivity|].
  split.
  { intros b s. unfold DL. rewrite masked_In. unfold BYTETracker.low_mask.
    rewrite andb_true_iff. reflexivity. }
  split.
  { intros b s He. unfold DH, DL. rewrite !masked_In.
    unfold BYTETracker.high_mask, BYTETracker.low_mask.
    apply eqb_ltb_false in He as [E1 E2]. unfold gtb. rewrite andb_true_iff.
    split; intros [_ Hm]; [|destruct Hm as [_ Hm]]; congruence. }
  split; [exact Hboxes|]. clear Hboxes.
  (* the store with the objects of the detections *)
  assert (Hold : forall r : ref, (r < n0)%nat -> heap w2 !! r = heap w !! r).
  { intros r Hr. unfold w2. cbn [heap]. unfold ref in *. apply lookup_app_l. exact Hr. }
  assert (HDH : forall k p, DH !! k = Some p ->
                            heap w2 !! (n0 + k)%nat = Some (detection_track dt p)).
  { intros k p Hk. unfold w2. cbn [heap]. rewrite lookup_app_r by (fold n0; lia).
    fold n0. replace (n0 + k - n0)%nat with k by lia.
    rewrite lookup_app_l by (rewrite length_map; exact (lookup_lt_Some _ _ _ Hk)).
    exact (lookup_map_Some (detection_track dt) _ _ _ Hk). }
  assert (HDL : forall k p, DL !! k = Some p ->
                            heap w2 !! (nH + k)%nat = Some (detection_track dt p)).
  { intros k p Hk. unfold w2. cbn [heap]. rewrite lookup_app_r by (fold n0; unfold nH; lia).
    fold n0. rewrite lookup_app_r by (rewrite length_map; unfold nH; lia).
    rewrite length_map. replace (nH + k - n0 - length DH)%nat with k by (unfold nH; lia).
    exact (lookup_map_Some (detection_track dt) _ _ _ Hk). }
  (* the run of [update] *)
  unfold BYTETracker.update in H. cbv zeta in H. fold (in_next_frame self) in H.
  set (s1 := in_next_frame self) in *.
  rewrite Hp in H. unfold lift at 1, bindM at 1 in H. cbn [BYTETracker.kind_dtype] in H.
  rewrite Hs in H. unfold lift at 1, bindM at 1 in H.
  change (BYTETracker.high_mask dt s1) with (BYTETracker.high_mask dt self) in H.
  change (BYTETracker.low_mask dt s1) with (BYTETracker.low_mask dt self) in H.
  fold DH DL in H.
  rewrite (bindM_eq _ _ _ _ _ (get_detections_eq dt DH w)) in H. cbv beta iota in H.
  rewrite (bindM_eq _ _ _ _ _ (get_detections_eq dt DL _)) in H. cbv beta iota in H.
  cbn [heap _count] in H. rewrite <- app_assoc in H. fold w2 in H.
  rewrite length_app, length_map in H. fold n0 nH in H.
  (* the split of the tracked list, the pool and its prediction *)
  apply bindM_Ok in H as ([unc trk] & w3 & H3 & H).
  pose proof (_update_tracked_stracks_Ok _ _ _ _ _ H3) as (-> & Iunc & Itrk & _).
  change (BYTETracker.tracked_stracks s1) with (BYTETracker.tracked_stracks self) in Iunc, Itrk.
  apply bindM_Ok in H as (pool & w3 & H4 & H).
  pose proof (joint_stracks_incl _ _ _ _ _ H4) as Ipool.
  change (BYTETracker.lost_stracks s1) with (BYTETracker.lost_stracks self) in Ipool.
  assert (E4 : w3 = w2)
    by exact (respects_joint_stracks same_world (fun _ => eq_refl)
                (fun _ _ _ E1 E2 => eq_trans E2 E1) _ _ _ _ _ H4).
  subst w3.
  apply bindM_Ok in H as ([] & w3 & H5 & H).
  (* the first association *)
  apply bindM_Ok in H as ([[m1 u1] ud1] & w4 & H6 & H).
  pose proof (_match_tracks_to_detections_spec _ _ _ _ _ _ _ _ _ H6) as [-> _].
  apply bindM_Ok in H as ([refind1 act1] & w4 & H7 & H).
  (* the second association *)
  apply bindM_Ok in H as (pu & w5 & H8 & H).
  pose proof (mapM_lindex_incl _ _ _ _ _ H8) as Ipu.
  pose proof (mapM_lindex_Forall2 _ _ _ _ _ H8) as [-> _].
  apply bindM_Ok in H as (rt & w5 & H9 & H).
  pose proof (filterM_incl _ _ _ _ _ H9) as Irt.
  pose proof (filterM_tracked _ _ _ _ H9) as [-> _].
  apply bindM_Ok in H as ([[m2 u2] ud2] & w5 & H10 & H).
  pose proof (_match_tracks_to_detections_spec _ _ _ _ _ _ _ _ _ H10) as [-> _].
  apply bindM_Ok in H as ([refind2 act2] & w5 & H11 & H).
  exists unc, pool, rt, w5.
  split.
  { exists trk, w3, m1, u1, ud1, refind1, act1, w4, pu, m2, u2, ud2, refind2, act2.
    repeat (split; [eassumption|]). exact H11. }
  intros Hvalid.
  assert (Vtl : forall r, In r (BYTETracker.tracked_stracks self ++ BYTETracker.lost_stracks self)
                          -> (r < n0)%nat).
  { intros r Hr. apply Hvalid. rewrite !in_app_iff in *. tauto. }
  assert (Vunc : forall r, In r unc -> (r < n0)%nat).
  { intros r Hr. apply Vtl, in_app_iff. left. exact (Iunc r Hr). }
  assert (Vpool : forall r, In r pool -> (r < n0)%nat).
  { intros r Hr. apply Vtl. apply Ipool in Hr.
    apply in_app_iff in Hr as [Hr | Hr]; apply in_app_iff; auto. }
  assert (Vrt : forall r, In r rt -> (r < n0)%nat).
  { intros r Hr. apply Vpool, Ipu, Irt, Hr. }
  (* the rest of the call *)
  apply bindM_Ok in H as (lost_ & w6 & H12 & H).
  apply bindM_Ok in H as (dets' & w7 & H13 & H).
  pose proof (mapM_lindex_incl _ _ _ _ _ H13) as Idets.
  pose proof (mapM_lindex_Forall2 _ _ _ _ _ H13) as [-> _].
  apply bindM_Ok in H as ([[m3 u3] ud3] & w7 & H14 & H).
  pose proof (_match_tracks_to_detections_spec _ _ _ _ _ _ _ _ _ H14) as [-> _].
  apply bindM_Ok in H as (act3 & w7 & H15 & H).
  apply bindM_Ok in H as (rem_ & w8 & H16 & H).
  apply bindM_Ok in H as (act4 & w9 & H17 & H).
  apply bindM_Ok in H as (rem2 & w10 & H18 & H).
  apply bindM_Ok in H as (again & w11 & H19 & H).
  assert (E19 : w11 = w10).
  { refine (respects_filterM same_world (fun _ => eq_refl) (fun _ _ _ E1 E2 => eq_trans E2 E1)
              _ _ _ _ _ _ H19).
    intros a. apply (respects_expired same_world (fun _ => eq_refl)
                       (fun _ _ _ E1 E2 => eq_trans E2 E1)). }
  subst w11. clear H19.
  apply bindM_Ok in H as (tk & w11 & H20 & H). apply filterM_tracked in H20 as [-> _].
  apply bindM_Ok in H as (tracked2 & w11 & H21 & H).
  apply joint_stracks_NoDup in H21 as (-> & _).
  apply bindM_Ok in H as (tracked3 & w11 & H22 & H).
  apply joint_stracks_NoDup in H22 as (-> & _).
  apply bindM_Ok in H as (lost1 & w11 & H23 & H).
  assert (E23 : w11 = w10)
    by exact (respects_sub_stracks same_world (fun _ => eq_refl)
                (fun _ _ _ E1 E2 => eq_trans E2 E1) _ _ _ _ _ H23).
  subst w11. clear H23.
  apply bindM_Ok in H as (lost2 & w11 & H24 & H).
  assert (E24 : w11 = w10)
    by exact (respects_sub_stracks same_world (fun _ => eq_refl)
                (fun _ _ _ E1 E2 => eq_trans E2 E1) _ _ _ _ _ H24).
  subst w11. clear H24.
  apply bindM_Ok in H as (ta & w11 & H25 & H). apply mapM_read_pair_Ok in H25 as [-> _].
  apply bindM_Ok in H as (tb & w11 & H26 & H). apply mapM_read_pair_Ok in H26 as [-> _].
  apply bindM_Ok in H as ([ta' tb'] & w11 & H27 & H). apply lift_Ok in H27 as [_ ->].
  apply bindM_Ok in H as (out' & w11 & H28 & H).
  assert (E28 : w11 = w10).
  { refine (respects_filterM same_world (fun _ => eq_refl) (fun _ _ _ E1 E2 => eq_trans E2 E1)
              _ _ _ _ _ _ H28).
    intros a wa b wb Hb. apply is_activated_of_Ok in Hb as [Hb _]. exact Hb. }
  subst w11. clear H28.
  unfold ret in H. injection H as _ _ ->.
  (* the scores, phase by phase *)
  set (kf := BYTETracker.kalman_filter self).
  set (f := (BYTETracker.frame_id self + 1)%Z).
  set (QH := fun s : scalar => exists p, In p DH /\ s = Scalar dt (snd p)).
  set (QL := fun s : scalar => exists p, In p DL /\ s = Scalar dt (snd p)).
  set (P := fun (r : ref) (s : scalar) =>
              (exists p, In p DH /\ s = Scalar dt (snd p) /\ (In r pool \/ In r unc))
              \/ (exists p, In p DL /\ s = Scalar dt (snd p) /\ In r rt)).
  set (P3 := fun (r : ref) (s : scalar) =>
               exists p, In p DH /\ s = Scalar dt (snd p) /\ In r unc).
  assert (C3 : rescored n0 nH kf f P w2 w3)
    by exact (multi_predict_rescored n0 nH kf f P pool w2 tt w3 Vpool H5).
  assert (Hdets : forall wk, rescored n0 nH kf f P w2 wk ->
            forall d, In d (seq n0 (length DH)) ->
              (n0 <= d)%nat /\ exists n, heap wk !! d = Some n /\ QH (score n)).
  { intros wk Rk d Hd.
    exact (detection_scores n0 nH kf f P dt DH n0 w2 wk Rk (Nat.le_refl _) HDH d Hd). }
  assert (Hdets2 : forall wk, rescored n0 nH kf f P w2 wk ->
            forall d, In d (seq nH (length DL)) ->
              (n0 <= d)%nat /\ exists n, heap wk !! d = Some n /\ QL (score n)).
  { intros wk Rk d Hd.
    exact (detection_scores n0 nH kf f P dt DL nH w2 wk Rk ltac:(unfold nH; lia) HDL d Hd). }
  assert (R4 : rescored n0 nH kf f (fun r s => In r pool /\ QH s) w3 w4)
    by exact (_update_tracks_rescored cho_factor cho_solve n0 nH kf f QH s1 pool _ m1
                _ _ _ _ _ _ H7 Vpool (Hdets w3 C3)).
  assert (C4 : rescored n0 nH kf f P w2 w4).
  { apply (rescored_trans n0 nH kf f P w2 w3 w4 C3).
    refine (rescored_mono n0 nH kf f _ P w3 w4 _ R4).
    intros r s [Hr (p & Hp1 & Hp2)]. left. exists p. auto. }
  assert (R5 : rescored n0 nH kf f (fun r s => In r rt /\ QL s) w4 w5)
    by exact (_update_tracks_rescored cho_factor cho_solve n0 nH kf f QL s1 rt _ m2
                _ _ _ _ _ _ H11 Vrt (Hdets2 w4 C4)).
  assert (C5 : rescored n0 nH kf f P w2 w5).
  { apply (rescored_trans n0 nH kf f P w2 w4 w5 C4).
    refine (rescored_mono n0 nH kf f _ P w4 w5 _ R5).
    intros r s [Hr (p & Hp1 & Hp2)]. right. exists p. auto. }
  assert (T6 : forall Q, rescored n0 nH kf f Q w5 w6)
    by (intros Q; exact (mark_lost_loop_rescored n0 nH kf f Q rt _ _ w5 _ w6 Vrt H12)).
  assert (C6 : rescored n0 nH kf f P w2 w6)
    by exact (rescored_trans n0 nH kf f P w2 w5 w6 C5 (T6 P)).
  assert (R7 : rescored n0 nH kf f (fun r s => In r unc /\ QH s) w6 w7).
  { refine (update_unconfirmed_loop_rescored cho_factor cho_solve n0 nH kf f QH s1 unc dets'
              m3 _ _ _ _ H15 Vunc _).
    intros d Hd. apply (Hdets w6 C6). apply Idets, Hd. }
  assert (T7 : rescored n0 nH kf f P3 w6 w7).
  { refine (rescored_mono n0 nH kf f _ P3 w6 w7 _ R7).
    intros r s [Hr (p & Hp1 & Hp2)]. exists p. auto. }
  assert (C7 : rescored n0 nH kf f P w2 w7).
  { apply (rescored_trans n0 nH kf f P w2 w6 w7 C6).
    refine (rescored_mono n0 nH kf f _ P w6 w7 _ R7).
    intros r s [Hr (p & Hp1 & Hp2)]. left. exists p. auto. }
  assert (T8 : forall Q, rescored n0 nH kf f Q w7 w8)
    by (intros Q; exact (mark_removed_loop_rescored n0 nH kf f Q unc _ _ w7 _ w8 Vunc H16)).
  assert (T9 : forall Q, rescored n0 nH kf f Q w8 w9).
  { intros Q. refine (new_tracks_loop_rescored n0 nH Q s1 dets' ud3 _ _ _ _ H17 _).
    intros d Hd. apply Idets in Hd. apply in_seq in Hd. unfold nH. lia. }
  assert (T10 : forall Q, rescored n0 nH kf f Q w9 w')
    by (intros Q; refine (expire_loop_rescored n0 nH kf f Q s1 _ _ w9 _ w' _ H18);
        intros r Hr; apply Vtl, in_app_iff; right; exact Hr).
  assert (After : rescored n0 nH kf f P3 w5 w').
  { apply (rescored_trans _ _ _ _ _ _ _ _ (T6 P3)).
    apply (rescored_trans _ _ _ _ _ _ _ _ T7).
    apply (rescored_trans _ _ _ _ _ _ _ _ (T8 P3)).
    exact (rescored_trans _ _ _ _ _ _ _ _ (T9 P3) (T10 P3)). }
  assert (All : rescored n0 nH kf f P w2 w').
  { apply (rescored_trans _ _ _ _ _ _ _ _ C7).
    apply (rescored_trans _ _ _ _ _ _ _ _ (T8 P)).
    exact (rescored_trans _ _ _ _ _ _ _ _ (T9 P) (T10 P)). }
  split; [|split; [|split]].
  - intros r o o' Ho Ho'.
    assert (Hr : (r < n0)%nat) by exact (lookup_lt_Some _ _ _ Ho).
    destruct (proj2 All r o) as (o'' & Ho'' & S).
    { rewrite (Hold r Hr). exact Ho. }
    assert (o'' = o') by (unfold ref in *; congruence). subst o''.
    destruct S as [-> | [[_ [E | HP]] | [Hge _]]]; [left; reflexivity | left; exact E | | lia].
    right. exact HP.
  - intros r o5 o' Hr Ho5 Ho'.
    destruct (proj2 After r o5 Ho5) as (o'' & Ho'' & S).
    assert (o'' = o') by (unfold ref in *; congruence). subst o''.
    destruct S as [-> | [[_ [E | HP]] | [Hge _]]]; [left; reflexivity | left; exact E | | lia].
    right. exact HP.
  - intros k p Hk.
    destruct (proj2 All (n0 + k)%nat _ (HDH k p Hk)) as (o' & Ho' & S).
    destruct S as [-> | [[Hlt _] | [_ [tid ->]]]]; [left; exact Ho' | lia |].
    right. exists tid. exact Ho'.
  - intros k p Hk.
    destruct (proj2 All (nH + k)%nat _ (HDL k p Hk)) as (o' & Ho' & S).
    destruct S as [-> | [[Hlt _] | [[_ Hlt] _]]]; [exact Ho' | unfold nH in Hlt; lia | lia].
Qed.

End Partition.

Lemma update_detections_witness :
  exists out t w out' t' w',
    reference_session 0.25 30 0.8 30 [one_box 0.9] (mkWorld [] 0) = Ok ((out, t), w)
    /\ lists_valid t w
    /\ BYTETracker.update Reference.linear_sum_assignment Reference.cho_factor
                          Reference.cho_solve t float32_low_score
                          (720, 1280)%float (720, 1280)%float w
       = Ok ((out', t'), w')
    /\ (exists o o',
          heap w !! 0%nat = Some o /\ score o = Scalar Float64 0.9
          /\ heap w' !! 0%nat = Some o' /\ score o' = Scalar Float32 0.20000000298023224
          /\ state o' = Some TrackState.Tracked)
    /\
    exists dt scores raw bboxes,
      BYTETracker._process_output float32_low_score = Ok (BYTETracker.Numpy dt, scores, raw)
      /\ BYTETracker._scale_bboxes dt (720, 1280)%float (720, 1280)%float raw = Ok bboxes
      /\ let D_high := BYTETracker.masked (BYTETracker.high_mask dt t) bboxes scores in
         let D_low := BYTETracker.masked (BYTETracker.low_mask dt t) bboxes scores in
         let n0 := length (heap w) in
         let nH := (n0 + length D_high)%nat in
         let w2 := mkWorld (heap w ++ map (detection_track dt) D_high
                                   ++ map (detection_track dt) D_low) (_count w) in
         (forall b s,
            In (b, s) D_high
            <-> In (b, s) (combine bboxes scores)
                /\ gtb s (astype dt (BYTETracker.track_thresh t)) = true)
         /\ (forall b s,
               In (b, s) D_low
               <-> In (b, s) (combine bboxes scores)
                   /\ gtb s (astype dt 0.1) = true
                   /\ PrimFloat.ltb s (astype dt (BYTETracker.track_thresh t)) = true)
         /\ (forall b s,
               PrimFloat.eqb s (astype dt (BYTETracker.track_thresh t)) = true ->
               ~ In (b, s) D_high /\ ~ In (b, s) D_low)
         /\ map _tlwh (heap w')
            = map _tlwh (heap w) ++ map (detection_box dt) (D_high ++ D_low)
         /\ exists unconfirmed strack_pool r_tracked w5,
              associations Reference.linear_sum_assignment Reference.cho_factor
                           Reference.cho_solve (in_next_frame t)
                           (seq n0 (length D_high)) (seq nH (length D_low)) w2
                           unconfirmed strack_pool r_tracked w5
              /\ ((forall r o o',
                    heap w !! r = Some o -> heap w' !! r = Some o' ->
                    score o' = score o
                    \/ (exists p, In p D_high /\ score o' = Scalar dt (snd p)
                                  /\ (In r strack_pool \/ In r unconfirmed))
                    \/ (exists p, In p D_low /\ score o' = Scalar dt (snd p)
                                  /\ In r r_tracked))
              /\ (forall r o5 o',
                    (r < n0)%nat -> heap w5 !! r = Some o5 -> heap w' !! r = Some o' ->
                    score o' = score o5
                    \/ (exists p, In p D_high /\ score o' = Scalar dt (snd p)
                                  /\ In r unconfirmed))
              /\ (forall k p,
                    D_high !! k = Some p ->
                    heap w' !! (n0 + k)%nat = Some (detection_track dt p)
                    \/ exists tid,
                         heap w' !! (n0 + k)%nat
                         = Some (STrackM.activated (detection_track dt p)
                                   (BYTETracker.kalman_filter t)
                                   (BYTETracker.frame_id t + 1) tid))
              /\ (forall k p,
                    D_low !! k = Some p ->
                    heap w' !! (nH + k)%nat = Some (detection_track dt p))).
Proof.
  eexists _, _, _, _, _, _.
  split; [vm_compute; reflexivity|].
  match goal with |- ?A /\ _ => assert (HV : A) end.
  { intros r Hr. vm_compute in Hr. destruct Hr as [<- | []]. vm_compute. lia. }
  split; [exact HV|].
  match goal with |- ?A /\ _ => assert (HA : A) by (vm_compute; reflexivity) end.
  split; [exact HA|].
  split; [eexists _, _; repeat split; vm_compute; reflexivity|].
  destruct (update_detections_partition
              Reference.linear_sum_assignment Reference.cho_factor Reference.cho_solve
              _ _ _ _ _ _ _ _ HA)
    as (dt & scores & raw & bboxes & H1 & H2 & H3).
  cbv zeta in H3.
  destruct H3 as (S1 & S2 & S3 & Hb & unc & pool & rt & w5 & Ha & Ht).
  exists dt, scores, raw, bboxes.
  split; [exact H1|]. split; [exact H2|]. cbv zeta.
  split; [exact S1|]. split; [exact S2|]. split; [exact S3|]. split; [exact Hb|].
  exists unc, pool, rt, w5. split; [exact Ha | exact (Ht HV)].
Defined.

(** ** kalman_filter: the shapes [multi_predict] accepts *)

(** [multi_predict] outside the case of [K >= 1] means with [K]
    covariances.  With no mean at all it raises [ValueError]: the stack of
    the process noises is then the empty array [np.array([])], which does
    not broadcast.  One covariance is shared by all the means, and one mean
    gives its prediction and its process noise to all the covariances
    (numpy broadcasts an axis of length 1).  Two or more means with another
    number of covariances, not one, raise [ValueError]. *)
Theorem multi_predict_broadcasts (self : KalmanFilter.t) (means : mat) (covs : list mat) :
  (means = [] -> KalmanFilter.multi_predict self means covs = Raise ValueError)
  /\ (forall c, (2 <= length means)%nat -> covs = [c] ->
        KalmanFilter.multi_predict self means covs
        = Ok (map (fun m => fst (KalmanFilter.predict self m c)) means,
              map (fun m => snd (KalmanFilter.predict self m c)) means))
  /\ (forall m, means = [m] -> length covs <> 1%nat ->
        KalmanFilter.multi_predict self means covs
        = Ok (matmul [m] (transpose (KalmanFilter._motion_mat self)),
              map (fun c => snd (KalmanFilter.predict self m c)) covs))
  /\ ((2 <= length means)%nat -> length covs <> 1%nat -> length covs <> length means ->
      KalmanFilter.multi_predict self means covs = Raise ValueError).
Proof.
  unfold KalmanFilter.multi_predict. rewrite _create_std_batch_rows.
  split; [|split; [|split]].
  - intros ->. reflexivity.
  - intros c HK ->. destruct means as [|m1 [|m2 means]]; [simpl in HK; lia.. |].
    unfold stack_add. cbn [map length Nat.eqb bindR]. rewrite !map_map. reflexivity.
  - intros m -> HK. unfold stack_add. cbn [map length].
    destruct covs as [|c1 [|c2 covs]]; [reflexivity | contradiction HK; reflexivity |].
    cbn [map length Nat.eqb bindR]. rewrite !map_map. reflexivity.
  - intros HK H1 Hne. destruct means as [|m1 [|m2 means]]; [simpl in HK; lia.. |].
    unfold stack_add. cbn [map].
    destruct (Nat.eqb _ _) eqn:E.
    { apply Nat.eqb_eq in E. cbn [length] in E, Hne. rewrite !length_map in E.
      exfalso. exact (Hne E). }
    destruct covs as [|c1 [|c2 covs]]; [reflexivity | contradiction H1; reflexivity |].
    reflexivity.
Qed.

Lemma multi_predict_broadcasts_witness :
  KalmanFilter.multi_predict KalmanFilter.__init__
    [[150; 200; 0.5; 200; 0; 0; 0; 0]; [10; 20; 1; 40; 1; 0; 0; 0]]%float [eye 8 8]
  = Ok (map (fun m => fst (KalmanFilter.predict KalmanFilter.__init__ m (eye 8 8)))
            [[150; 200; 0.5; 200; 0; 0; 0; 0]; [10; 20; 1; 40; 1; 0; 0; 0]]%float,
        map (fun m => snd (KalmanFilter.predict KalmanFilter.__init__ m (eye 8 8)))
            [[150; 200; 0.5; 200; 0; 0; 0; 0]; [10; 20; 1; 40; 1; 0; 0; 0]]%float)
  /\ KalmanFilter.multi_predict KalmanFilter.__init__
       [[150; 200; 0.5; 200; 0; 0; 0; 0]; [10; 20; 1; 40; 1; 0; 0; 0]]%float
       [eye 8 8; eye 8 8; eye 8 8]
     = Raise ValueError.
Proof.
  pose proof (multi_predict_broadcasts KalmanFilter.__init__
                [[150; 200; 0.5; 200; 0; 0; 0; 0]; [10; 20; 1; 40; 1; 0; 0; 0]]%float
                [eye 8 8]) as (_ & H2 & _).
  pose proof (multi_predict_broadcasts KalmanFilter.__init__
                [[150; 200; 0.5; 200; 0; 0; 0; 0]; [10; 20; 1; 40; 1; 0; 0; 0]]%float
                [eye 8 8; eye 8 8; eye 8 8]) as (_ & _ & _ & H4).
  split.
  - apply (H2 (eye 8 8)); [simpl; lia | reflexivity].
  - apply H4; simpl; lia.
Defined.
